(** * Bounded-flow belt solver: a shallow embedding of [belts/main.py]

    The solver reads a network of belts (edges with lower and upper
    bounds, nodes with throughput caps, fixed supplies at sources, one
    sink), builds a residual graph by node splitting and the lower-bound
    transform, runs Dinic's algorithm on Python floats and reports either
    the reconstructed flows or an infeasibility certificate.

    Python's [float] is IEEE-754 binary64 with round-to-nearest-even, which
    is what Rocq's primitive floats are, so every arithmetic step of the
    source is embedded with the very operation the interpreter performs.
    Every numeric input goes through [float(...)] before its first use in
    the source; the embedding therefore starts from floats. *)

From Stdlib Require Import Floats ZArith List String Ascii.
From Stdlib Require Import Permutation Sorted Lia.
From stdpp Require Import gmap strings list.

(** ** Outcomes of a run

    A Python call either returns, raises, or keeps looping.  Loops of the
    form [while True] get a fuel counter; running out of it is
    [OutOfFuel], which is never confused with a returned value. *)

Inductive exn := IndexError | KeyError.

Inductive outcome (A : Type) : Type :=
| Ret (a : A)
| Raise (e : exn)
| OutOfFuel.

Arguments Ret {A} a.
Arguments Raise {A} e.
Arguments OutOfFuel {A}.

Global Instance outcome_ret : MRet outcome := fun A a => Ret a.
Global Instance outcome_bind : MBind outcome := fun A B k m =>
  match m with
  | Ret a => k a
  | Raise e => Raise e
  | OutOfFuel => OutOfFuel
  end.

(** [l[i]] for a non-negative index: [IndexError] past the end. *)
Definition index {A} (l : list A) (i : nat) : outcome A :=
  match l !! i with
  | Some a => Ret a
  | None => Raise IndexError
  end.

(** [for x in l: st = body(st, x)], stopping at the first exception. *)
Fixpoint for_each {A S} (body : S -> A -> outcome S) (l : list A) (st : S)
  : outcome S :=
  match l with
  | [] => Ret st
  | x :: l' => body st x ≫= for_each body l'
  end.

(** ** Python's float helpers *)

Definition EPS : float := 0x1.12e0be826d695p-30%float.   (* 1e-9 *)
Definition INF : float := 0x1.bc16d674ec8p+59%float.     (* 1e18 *)
Definition SAT : float := 0x1.0c6f7a0b5ed8dp-20%float.   (* 1e-6 *)

(** [max(a, b)] returns [b] only when [b > a]; [min(a, b)] returns [b]
    only when [b < a].  With a NaN operand the first argument wins. *)
Definition fmax (a b : float) : float := if (a <? b)%float then b else a.
Definition fmin (a b : float) : float := if (b <? a)%float then b else a.

(** [x > y] and [x >= y] are [y < x] and [y <= x]. *)
Definition fgt (x y : float) : bool := (y <? x)%float.
Definition fge (x y : float) : bool := (y <=? x)%float.

(** ** The residual graph and Dinic's algorithm *)

Module Dinic.

(** [Dinic.Edge]: [cap] is stored as a float, [flow] starts at [0.0]. *)
Record Edge := mkEdge { to : nat; rev : nat; cap : float; flow : float }.

Definition new_edge (to rev : nat) (cap : float) : Edge :=
  mkEdge to rev cap 0%float.

Definition residual (e : Edge) : float := (cap e - flow e)%float.

Definition set_flow (e : Edge) (f : float) : Edge :=
  mkEdge (to e) (rev e) (cap e) f.

(** The object: [n] vertices and their adjacency lists. *)
Record t := mk { n : nat; adj : list (list Edge) }.

Definition init (n : nat) : t := mk n (replicate n []).

Definition set_adj (g : t) (a : list (list Edge)) : t := mk (n g) a.

(** [self.adj[u].append(e)], [u] known to be in range. *)
Definition append_edge (a : list (list Edge)) (u : nat) (e : Edge)
  : list (list Edge) :=
  match a !! u with
  | Some l => <[u := l ++ [e]]> a
  | None => a
  end.

(** [add_edge(u, v, cap)]: both lengths are read before either append,
    and the handle [(u, index)] of the forward edge is returned. *)
Definition add_edge (g : t) (u v : nat) (c : float)
  : outcome (t * (nat * nat)) :=
  (adj_v ← index (adj g) v;
   adj_u ← index (adj g) u;
   let a := new_edge v (length adj_v) c in
   let b := new_edge u (length adj_u) 0%float in
   let a1 := append_edge (adj g) u a in
   let a2 := append_edge a1 v b in
   adj_u' ← index a2 u;
   Ret (set_adj g a2, (u, length adj_u' - 1))).

(** One step of the inner [for e in self.adj[u]] of [bfs_level]. *)
Definition bfs_visit (u : nat) (st : list Z * list nat) (e : Edge)
  : outcome (list Z * list nat) :=
  (let '(level, q) := st in
   lv ← index level (to e);
   if (lv <? 0)%Z && fgt (residual e) EPS then
     lu ← index level u;
     Ret (<[to e := (lu + 1)%Z]> level, q ++ [to e])
   else Ret st).

(** [while q: u = q.popleft(); ...].  A vertex is appended only while
    its level is negative and gets a level on the spot, so at most [n]
    vertices are ever popped: [budget] counts the pops. *)
Fixpoint bfs_loop (budget : nat) (g : t) (level : list Z) (q : list nat)
  : outcome (list Z) :=
  match q with
  | [] => Ret level
  | u :: q' =>
      match budget with
      | O => OutOfFuel
      | S b =>
          (adj_u ← index (adj g) u;
           '(level', q'') ← for_each (bfs_visit u) adj_u (level, q');
           bfs_loop b g level' q'')
      end
  end.

Definition bfs_level (g : t) (s t : nat) : outcome (list Z) :=
  let level := replicate (n g) (-1)%Z in
  (_ ← index level s;
   bfs_loop (n g) g (<[s := 0%Z]> level) [s]).

(** [e.flow += f] on the edge at position [(u, i)]. *)
Definition add_flow (a : list (list Edge)) (u i : nat) (f : float)
  : outcome (list (list Edge)) :=
  (adj_u ← index a u;
   e ← index adj_u i;
   Ret (<[u := <[i := set_flow e (flow e + f)%float]> adj_u]> a)).

(** [self.adj[e.to][e.rev].flow -= f]. *)
Definition sub_flow (a : list (list Edge)) (u i : nat) (f : float)
  : outcome (list (list Edge)) :=
  (adj_u ← index a u;
   e ← index adj_u i;
   Ret (<[u := <[i := set_flow e (flow e - f)%float]> adj_u]> a)).

(** The two assignments of a push through the edge at [(u, i)]: Python
    mutates the edge objects in place, so the forward edge is re-read
    from the graph as the recursive call left it. *)
Definition push (a : list (list Edge)) (u i : nat) (f : float)
  : outcome (list (list Edge)) :=
  (adj_u ← index a u;
   e ← index adj_u i;
   a1 ← add_flow a u i f;
   sub_flow a1 (to e) (rev e) f).

(** The [while i < len(adj_u)] loop of [dfs_flow]; [k] is
    [len(adj_u) - i] and [rec] is the recursive call.  The state is the
    adjacency structure together with the resume pointers [it]. *)
Section Scan.
Variable rec : nat -> float -> list (list Edge) * list nat ->
               outcome (float * (list (list Edge) * list nat)).
Variable level : list Z.
Variable u : nat.
Variable pushed : float.

Fixpoint scan (k : nat) (i : nat) (st : list (list Edge) * list nat)
  : outcome (float * (list (list Edge) * list nat)) :=
  match k with
  | O => Ret (0%float, st)
  | S k' =>
      let '(a, it) := st in
      adj_u ← index a u;
      e ← index adj_u i;
      admissible ←
        (if fgt (residual e) EPS then
           lv ← index level (to e);
           lu ← index level u;
           Ret (lv =? lu + 1)%Z
         else Ret false);
      if admissible : bool then
        '(to_push, (a', it')) ← rec (to e) (fmin pushed (residual e)) (a, it);
        if fgt to_push EPS then
          a'' ← push a' u i to_push;
          Ret (to_push, (a'', <[u := i]> it'))
        else scan k' (S i) (a', <[u := S i]> it')
      else scan k' (S i) (a, <[u := S i]> it)
  end.
End Scan.

(** [dfs_flow(u, t, pushed, level, it)].  Each recursive call moves one
    level up in [level], so the recursion is at most as deep as the graph
    has vertices: [depth] counts the frames. *)
Fixpoint dfs_flow (depth : nat) (tgt : nat) (level : list Z)
    (u : nat) (pushed : float) (st : list (list Edge) * list nat)
  : outcome (float * (list (list Edge) * list nat)) :=
  if Nat.eqb u tgt then Ret (pushed, st) else
  match depth with
  | O => OutOfFuel
  | S d =>
      adj_u ← index (fst st) u;
      i0 ← index (snd st) u;
      scan (dfs_flow d tgt level) level u pushed (length adj_u - i0) i0 st
  end.

(** The inner [while True] of [max_flow]: a blocking flow in the current
    level graph.  It ends either by the early [return flow] or by the
    [break] back to the outer loop; the graph was mutated in place
    either way. *)
Inductive exit := Return | Break.

Fixpoint blocking_flow (fuel : nat) (g : t) (s tgt : nat) (limit : float)
    (level : list Z) (st : list (list Edge) * list nat) (flow : float)
  : outcome (exit * list (list Edge) * float) :=
  match fuel with
  | O => OutOfFuel
  | S f =>
      ('(pushed, st') ←
         dfs_flow (n g) tgt level s (limit - flow)%float st;
       if (pushed <=? EPS)%float then Ret (Break, fst st', flow)
       else
         let flow' := (flow + pushed)%float in
         if fge (flow' + EPS)%float limit then Ret (Return, fst st', flow')
         else blocking_flow f g s tgt limit level st' flow')
  end.

(** The outer [while True]: new levels, then a blocking flow. *)
Fixpoint max_flow_loop (fuel : nat) (g : t) (s tgt : nat) (limit : float)
    (flow : float) : outcome (float * t) :=
  match fuel with
  | O => OutOfFuel
  | S f =>
      (level ← bfs_level g s tgt;
       lt ← index level tgt;
       if (lt <? 0)%Z then Ret (flow, g)
       else
         let it := replicate (n g) 0 in
         '(ex, a, flow') ←
            blocking_flow f g s tgt limit level (adj g, it) flow;
         match ex with
         | Return => Ret (flow', set_adj g a)
         | Break => max_flow_loop f (set_adj g a) s tgt limit flow'
         end)
  end.

(** [max_flow(s, t, limit=INF)]: the value and the graph it leaves. *)
Definition max_flow (fuel : nat) (g : t) (s tgt : nat) (limit : float)
  : outcome (float * t) :=
  max_flow_loop fuel g s tgt limit 0%float.

(** One step of the inner [for e in self.adj[u]] of [reachable_from]. *)
Definition reach_visit (st : list bool * list nat) (e : Edge)
  : outcome (list bool * list nat) :=
  (let '(vis, q) := st in
   v ← index vis (to e);
   if negb v && fgt (residual e) EPS then
     Ret (<[to e := true]> vis, q ++ [to e])
   else Ret st).

Fixpoint reach_loop (budget : nat) (g : t) (vis : list bool) (q : list nat)
  : outcome (list bool) :=
  match q with
  | [] => Ret vis
  | u :: q' =>
      match budget with
      | O => OutOfFuel
      | S b =>
          (adj_u ← index (adj g) u;
           '(vis', q'') ← for_each reach_visit adj_u (vis, q');
           reach_loop b g vis' q'')
      end
  end.

Definition reachable_from (g : t) (s : nat) : outcome (list bool) :=
  let vis := replicate (n g) false in
  (_ ← index vis s;
   reach_loop (n g) g (<[s := true]> vis) [s]).

End Dinic.

(** ** Python's [sorted]

    [sorted] is stable and compares with [<] only.  On keys that [<]
    orders as a strict weak order the result of a stable sort is unique,
    and it is what this insertion sort computes: each element goes in
    front of the first element of the sorted prefix that is greater than
    it.  A NaN is neither [==] nor [<] to anything, so keys that hold one
    are not ordered so, and what [list.sort] returns then depends on the
    comparisons it happens to make; on the two requests with a NaN bound
    below it makes the ones of this insertion sort: with [k0 .. k4] the
    keys in input order, the first three form its initial run ([k1 < k0]
    and [k2 < k1] are false, [k3 < k2] is true) and the last two are
    placed by bisection, which never looks at the NaN key. *)

Section Sorting.
Context {A : Type} (lt : A -> A -> bool).

Fixpoint insert_sorted (x : A) (l : list A) : list A :=
  match l with
  | [] => [x]
  | y :: l' => if lt x y then x :: l else y :: insert_sorted x l'
  end.

Definition sorted (l : list A) : list A :=
  foldl (fun acc x => insert_sorted x acc) [] l.
End Sorting.

(** [str < str]: by code point, which on UTF-8 text is the byte order. *)
Definition str_lt : string -> string -> bool := String.ltb.

(** ** The request and the result *)

Module EdgeSpec.
(** An entry of ["edges"]; [lo] and [hi] are optional keys. *)
Record t := mk { from : string; to : string;
                 lo : option float; hi : option float }.

(** [float(e.get('lo', 0.0))] and [float(e.get('hi', INF))]. *)
Definition get_lo (e : t) : float := default 0%float (lo e).
Definition get_hi (e : t) : float := default INF (hi e).
End EdgeSpec.

(** The parsed request: [data.get(...)] with its defaults applied. *)
Record request := mkRequest {
  nodes : list string;
  edges : list EdgeSpec.t;
  sources : gmap string float;
  sink : option string;
  node_caps : gmap string float
}.

Module Rec.
(** An entry of [edge_map]. *)
Record t := mk { from : string; to : string; lo : float; hi : float;
                 u_out : nat; v_in : nat }.
End Rec.

Module Flow.
Record t := mk { from : string; to : string; flow : float }.
End Flow.

Module TightEdge.
Record t := mk { from : string; to : string; flow_needed : float }.
End TightEdge.

Inductive result :=
| Error (message : string)
| Infeasible (cut_reachable : list string) (demand_balance : float)
             (tight_nodes : list string) (tight_edges : list TightEdge.t)
| Ok (max_flow_per_min : float) (flows : list Flow.t).

(** ** The graph builder *)

(** [(from, to, lo, hi) < (from', to', lo', hi')] on tuples: the first
    position where the two differ under [==] decides, by [<]. *)
Definition edge_sort_key_lt (e1 e2 : EdgeSpec.t) : bool :=
  if negb (String.eqb (EdgeSpec.from e1) (EdgeSpec.from e2)) then
    str_lt (EdgeSpec.from e1) (EdgeSpec.from e2)
  else if negb (String.eqb (EdgeSpec.to e1) (EdgeSpec.to e2)) then
    str_lt (EdgeSpec.to e1) (EdgeSpec.to e2)
  else if negb (EdgeSpec.get_lo e1 =? EdgeSpec.get_lo e2)%float then
    (EdgeSpec.get_lo e1 <? EdgeSpec.get_lo e2)%float
  else if negb (EdgeSpec.get_hi e1 =? EdgeSpec.get_hi e2)%float then
    (EdgeSpec.get_hi e1 <? EdgeSpec.get_hi e2)%float
  else false.

(** The key [(r['from'], r['to'])] of the output order. *)
Definition rec_key_lt (r1 r2 : Rec.t) : bool :=
  if negb (String.eqb (Rec.from r1) (Rec.from r2)) then
    str_lt (Rec.from r1) (Rec.from r2)
  else if negb (String.eqb (Rec.to r1) (Rec.to r2)) then
    str_lt (Rec.to r1) (Rec.to r2)
  else false.

(** [node_set]: the listed nodes, every edge endpoint, every source and
    the sink. *)
Definition node_set (data : request) (snk : string) : gset string :=
  let s0 : gset string := list_to_set (nodes data) in
  let s1 := foldl (fun s e => s ∪ {[EdgeSpec.from e]} ∪ {[EdgeSpec.to e]})
                  s0 (edges data) in
  let s2 := foldl (fun s k => s ∪ {[k]}) s1 (elements (dom (sources data))) in
  s2 ∪ {[snk]}.

(** [orig_to_indices] and the next free index. *)
Definition assign_indices (nodes : list string)
  : gmap string (nat * nat) * nat :=
  foldl (fun '(m, idx) v => (<[v := (idx, idx + 1)]> m, idx + 2))
        (∅, 0) nodes.

(** [d[k]] on a plain dict: [KeyError] when the key is absent. *)
Definition getitem {V} (d : gmap string V) (k : string) : outcome V :=
  match d !! k with
  | Some v => Ret v
  | None => Raise KeyError
  end.

(** [demand[k]] on the [defaultdict(float)], and [demand.get(k, 0.0)]. *)
Definition demand_of (demand : gmap string float) (k : string) : float :=
  default 0%float (demand !! k).

Definition add_node_edge (idx : gmap string (nat * nat))
    (caps : gmap string float) (g : Dinic.t) (v : string)
  : outcome Dinic.t :=
  '(v_in, v_out) ← getitem idx v;
  let cap := match caps !! v with Some c => c | None => INF end in
  '(g', _) ← Dinic.add_edge g v_in v_out cap;
  mret g'.

Definition hi_lt_lo_message (u v : string) : string :=
  "edge hi < lo for " ++ u ++ "->" ++ v.

(** The loop over the sorted edges; [inl] is the early error return. *)
Fixpoint add_user_edges (idx : gmap string (nat * nat))
    (es : list EdgeSpec.t)
    (st : Dinic.t * list Rec.t * gmap string float)
  : outcome (string + Dinic.t * list Rec.t * gmap string float) :=
  match es with
  | [] => Ret (inr st)
  | e :: es' =>
      let '(g, edge_map, demand) := st in
      let u := EdgeSpec.from e in
      let v := EdgeSpec.to e in
      let lo := EdgeSpec.get_lo e in
      let hi := EdgeSpec.get_hi e in
      if (hi + EPS <? lo)%float then Ret (inl (hi_lt_lo_message u v))
      else
        let cap := fmax 0%float (hi - lo)%float in
        '(_, u_out) ← getitem idx u;
        '(v_in, _) ← getitem idx v;
        '(g', _) ← Dinic.add_edge g u_out v_in cap;
        let edge_map' := edge_map ++ [Rec.mk u v lo hi u_out v_in] in
        let demand1 := <[u := (demand_of demand u - lo)%float]> demand in
        let demand2 := <[v := (demand_of demand1 v + lo)%float]> demand1 in
        add_user_edges idx es' (g', edge_map', demand2)
  end.

(** The loop over the sorted source names: [(total_supply, demand)]. *)
Definition add_supply (srcs : gmap string float)
    (st : float * gmap string float) (s : string)
  : outcome (float * gmap string float) :=
  let '(total_supply, demand) := st in
  supply ← getitem srcs s;
  mret ((total_supply + supply)%float,
        <[s := (demand_of demand s - supply)%float]> demand).

(** The loop that wires [s*] and [t*]: [(G, sum_pos_demands)]. *)
Definition add_super_edge (idx : gmap string (nat * nat))
    (demand : gmap string float) (sstar tstar : nat)
    (st : Dinic.t * float) (v : string) : outcome (Dinic.t * float) :=
  let '(g, sum_pos_demands) := st in
  let d := demand_of demand v in
  '(v_in, v_out) ← getitem idx v;
  if fgt d EPS then
    '(g', _) ← Dinic.add_edge g sstar v_in d;
    mret (g', (sum_pos_demands + d)%float)
  else if (d <? - EPS)%float then
    '(g', _) ← Dinic.add_edge g v_out tstar (- d)%float;
    mret (g', sum_pos_demands)
  else mret st.

(** Everything [run_belts] sets up before it calls [max_flow]. *)
Record network := mkNetwork {
  net_nodes : list string;
  orig_to_indices : gmap string (nat * nat);
  sstar : nat;
  tstar : nat;
  G : Dinic.t;
  edge_map : list Rec.t;
  total_supply : float;
  sum_pos_demands : float
}.

Definition build (data : request) (snk : string)
  : outcome (string + network) :=
  let nodes := sorted str_lt (elements (node_set data snk)) in
  let '(idx, next) := assign_indices nodes in
  let sstar := next in
  let tstar := next + 1 in
  let g0 := Dinic.init (next + 2) in
  g1 ← for_each (add_node_edge idx (node_caps data)) nodes g0;
  r ← add_user_edges idx (sorted edge_sort_key_lt (edges data)) (g1, [], ∅);
  match r with
  | inl msg => mret (inl msg)
  | inr (g2, edge_map, demand) =>
      '(total_supply, demand1) ←
         for_each (add_supply (sources data))
                  (sorted str_lt (elements (dom (sources data))))
                  (0%float, demand);
      let demand2 :=
        <[snk := (demand_of demand1 snk + total_supply)%float]> demand1 in
      '(g3, sum_pos) ←
         for_each (add_super_edge idx demand2 sstar tstar) nodes
                  (g2, 0%float);
      mret (inr (mkNetwork nodes idx sstar tstar g3 edge_map
                           total_supply sum_pos))
  end.

(** ** Certificate and reconstruction *)

(** [for e in G.adj[u]: if e.to == v: ...; break]: the first edge of
    [adj[u]] that points to [v]. *)
Definition first_edge_to (g : Dinic.t) (u v : nat)
  : outcome (option Dinic.Edge) :=
  adj_u ← index (Dinic.adj g) u;
  mret (find (fun e => Nat.eqb (Dinic.to e) v) adj_u).

Definition cut_node (idx : gmap string (nat * nat)) (reachable : list bool)
    (acc : list string) (v : string) : outcome (list string) :=
  '(v_in, _) ← getitem idx v;
  r ← index reachable v_in;
  mret (if r : bool then acc ++ [v] else acc).

Definition tight_node (idx : gmap string (nat * nat)) (g : Dinic.t)
    (reachable : list bool) (acc : list string) (v : string)
  : outcome (list string) :=
  '(vi, vo) ← getitem idx v;
  adj_vi ← index (Dinic.adj g) vi;
  match adj_vi with
  | [] => mret acc
  | e :: _ =>
      r ← index reachable vi;
      mret (if (r : bool) && (abs (Dinic.residual e) <=? SAT)%float
            then acc ++ [v] else acc)
  end.

Definition tight_edge (g : Dinic.t) (reachable : list bool)
    (demand_balance : float) (acc : list TightEdge.t) (rec : Rec.t)
  : outcome (list TightEdge.t) :=
  ru ← index reachable (Rec.u_out rec);
  crossing ← (if ru : bool then rv ← index reachable (Rec.v_in rec);
                                mret (negb rv)
              else mret false);
  if crossing : bool then
    oe ← first_edge_to g (Rec.u_out rec) (Rec.v_in rec);
    match oe with
    | Some e =>
        if (Dinic.residual e <=? SAT)%float then
          let max_extra := (Rec.hi rec - Rec.lo rec)%float in
          let need := fmin demand_balance (fmax 0%float max_extra) in
          mret (acc ++ [TightEdge.mk (Rec.from rec) (Rec.to rec) need])
        else mret acc
    | None => mret acc
    end
  else mret acc.

Definition certificate (net : network) (g : Dinic.t) (flowed : float)
  : outcome result :=
  reachable ← Dinic.reachable_from g (sstar net);
  cut_reachable ←
    for_each (cut_node (orig_to_indices net) reachable) (net_nodes net) [];
  let demand_balance := (sum_pos_demands net - flowed)%float in
  tight_nodes ←
    for_each (tight_node (orig_to_indices net) g reachable) (net_nodes net) [];
  tight_edges ←
    for_each (tight_edge g reachable demand_balance) (edge_map net) [];
  mret (Infeasible cut_reachable demand_balance
                   (sorted str_lt tight_nodes) tight_edges).

Definition flow_of (g : Dinic.t) (acc : list Flow.t) (rec : Rec.t)
  : outcome (list Flow.t) :=
  oe ← first_edge_to g (Rec.u_out rec) (Rec.v_in rec);
  let flow_on_edge := match oe with Some e => Dinic.flow e | None => 0%float end in
  let total_flow := (flow_on_edge + Rec.lo rec)%float in
  mret (acc ++ [Flow.mk (Rec.from rec) (Rec.to rec) (fmax 0%float total_flow)]).

Definition reconstruct (net : network) (g : Dinic.t) : outcome result :=
  flows ← for_each (flow_of g) (sorted rec_key_lt (edge_map net)) [];
  mret (Ok (total_supply net) flows).

(** ** [run_belts] *)

Definition run_belts (fuel : nat) (data : request) : outcome result :=
  match sink data with
  | None => mret (Error "sink not specified")
  | Some snk =>
      r ← build data snk;
      match r with
      | inl msg => mret (Error msg)
      | inr net =>
          '(flowed, g) ← Dinic.max_flow fuel (G net) (sstar net) (tstar net) INF;
          if (flowed + EPS <? sum_pos_demands net)%float
          then certificate net g flowed
          else reconstruct net g
      end
  end.

(** ** Requests and graphs used below *)

Definition belt (u v : string) (lo hi : float) : EdgeSpec.t :=
  EdgeSpec.mk u v (Some lo) (Some hi).

(** The request of [test_belts_sample_ok]. *)
Definition sample_request : request :=
  mkRequest ["s1"; "s2"; "a"; "b"; "c"; "sink"]
    [belt "s1" "a" 0 1000; belt "s2" "a" 0 1000; belt "a" "b" 0 1000;
     belt "b" "sink" 0 900; belt "a" "c" 0 1000; belt "c" "sink" 0 600]
    (<["s1" := 900%float]> (<["s2" := 600%float]> ∅)) (Some "sink") ∅.

(** The request of [test_belts_sample_ok] with its two lists reversed. *)
Definition reversed_sample_request : request :=
  mkRequest ["sink"; "c"; "b"; "a"; "s2"; "s1"]
    [belt "c" "sink" 0 600; belt "a" "c" 0 1000; belt "b" "sink" 0 900;
     belt "a" "b" 0 1000; belt "s2" "a" 0 1000; belt "s1" "a" 0 1000]
    (<["s1" := 900%float]> (<["s2" := 600%float]> ∅)) (Some "sink") ∅.

(** The request of [test_belts_infeasible_due_to_node_cap]. *)
Definition capped_request : request :=
  mkRequest ["s1"; "s2"; "a"; "sink"]
    [belt "s1" "a" 0 1000; belt "s2" "a" 0 1000; belt "a" "sink" 0 1000]
    (<["s1" := 900%float]> (<["s2" := 600%float]> ∅)) (Some "sink")
    (<["a" := 500%float]> ∅).

(** Two belts from [a] to [b] and one back; the lower bounds alone force a
    circulation of 7, no supply is involved. *)
Definition parallel_request : request :=
  mkRequest [] [belt "a" "b" 0 10; belt "a" "b" 5 6; belt "b" "a" 7 10]
    ∅ (Some "t") ∅.

(** A belt from [a] to itself with lower bound 5, inside a circulation. *)
Definition self_loop_request : request :=
  mkRequest [] [belt "a" "a" 5 10; belt "a" "b" 3 10; belt "b" "a" 0 10]
    ∅ (Some "t") ∅.

(** Lower bounds of 5 around a node whose declared cap is 1. *)
Definition capped_circulation_request : request :=
  mkRequest [] [belt "a" "b" 5 10; belt "b" "a" 5 10] ∅ (Some "t")
    (<["a" := 1%float]> ∅).

(** A supply of 10 at [s] and one belt, from the sink back to [s]. *)
Definition backward_request : request :=
  mkRequest [] [belt "t" "s" 0 10] (<["s" := 10%float]> ∅) (Some "t") ∅.

(** The same five belts in two orders; one lower bound is NaN. *)
Definition nan_first_request : request :=
  mkRequest []
    [belt "a" "b" nan 1; belt "a" "b" 0 5; belt "e" "d" 3 3;
     belt "d" "a" 0 10; belt "b" "e" 0 10] ∅ (Some "t") ∅.

Definition nan_second_request : request :=
  mkRequest []
    [belt "a" "b" 0 5; belt "a" "b" nan 1; belt "e" "d" 3 3;
     belt "d" "a" 0 10; belt "b" "e" 0 10] ∅ (Some "t") ∅.

(** A lone sink with a negative declared cap. *)
Definition negative_cap_request : request :=
  mkRequest [] [] ∅ (Some "t") (<["t" := (-5)%float]> ∅).

(** A request with one belt whose [hi] is one ulp below its [lo]. *)
Definition tolerated_request : request :=
  mkRequest [] [belt "a" "b" 1 0x1.fffffffffffffp-1] ∅ (Some "t") ∅.

(** Two vertices and one edge of capacity 1 between them. *)
Definition one_edge_graph : Dinic.t :=
  Dinic.mk 2 [[Dinic.mkEdge 1 0 1 0]; [Dinic.mkEdge 0 0 0 0]].

(** Five vertices; the edge into the sink has capacity [1e18 + 128]. *)
Definition wide_graph : outcome Dinic.t :=
  '(g, _) ← Dinic.add_edge (Dinic.init 5) 0 1 192;
  '(g, _) ← Dinic.add_edge g 1 3 1000;
  '(g, _) ← Dinic.add_edge g 0 2 0x1.bc16d674ec8p+60;
  '(g, _) ← Dinic.add_edge g 2 3 0x1.bc16d674ec8p+60;
  '(g, _) ← Dinic.add_edge g 3 4 0x1.bc16d674ec801p+59;
  mret g.

(** ** The vocabulary of the statements *)

(** The validation test of the builder: [hi + EPS < lo]. *)
Definition hi_lt_lo (e : EdgeSpec.t) : bool :=
  (EdgeSpec.get_hi e + EPS <? EdgeSpec.get_lo e)%float.

(** The supplies of the sources mapping added up in the order of the
    sorted source names, starting from [0.0]. *)
Definition supply_sum (srcs : gmap string float) : float :=
  foldl (fun acc s => (acc + default 0%float (srcs !! s))%float) 0%float
        (sorted str_lt (elements (dom srcs))).

(** What the reported flows carry into and out of a node. *)
Definition inflow (flows : list Flow.t) (v : string) : float :=
  foldl (fun acc f => if String.eqb (Flow.to f) v
                      then (acc + Flow.flow f)%float else acc) 0%float flows.

Definition outflow (flows : list Flow.t) (v : string) : float :=
  foldl (fun acc f => if String.eqb (Flow.from f) v
                      then (acc + Flow.flow f)%float else acc) 0%float flows.

(** Every index pair of [idx] lies below [bound]. *)
Definition indices_below (idx : gmap string (nat * nat)) (bound : nat) : Prop :=
  forall v i o, idx !! v = Some (i, o) -> i < bound /\ o < bound.

(** ** Floats as numbers

    [Prim2SF] gives the sign, mantissa and exponent of a float.  [rank]
    places the floats that are numbers on a lexicographic scale on which
    [<] and [==] of IEEE-754 can be read off; both zeros share a rank. *)

Definition rank (f : spec_float) : Z * Z * Z :=
  match f with
  | S754_nan => (0, 0, 0)%Z
  | S754_zero _ => (0, 0, 0)%Z
  | S754_infinity s => (if s then -2 else 2, 0, 0)%Z
  | S754_finite s m e => if s then (-1, - e, Z.neg m)%Z else (1, e, Z.pos m)%Z
  end.

Definition lex_lt (a b : Z * Z * Z) : Prop :=
  let '(a1, a2, a3) := a in
  let '(b1, b2, b3) := b in
  (a1 < b1 \/ (a1 = b1 /\ (a2 < b2 \/ (a2 = b2 /\ a3 < b3))))%Z.

Definition is_number (x : float) : Prop := Prim2SF x <> S754_nan.

Definition is_zero (x : float) : Prop := exists s, Prim2SF x = S754_zero s.

(** A capacity is negative when [cap < 0.0]. *)
Definition not_negative (c : float) : Prop := (c <? 0)%float = false.

(** ** What the builder leaves in the graph *)

Definition caps_not_negative (g : Dinic.t) : Prop :=
  forall u adj_u e,
    Dinic.adj g !! u = Some adj_u -> e ∈ adj_u -> not_negative (Dinic.cap e).

(** A residual edge from [u] to [v] constructed with capacity [c]. *)
Definition has_edge (g : Dinic.t) (u v : nat) (c : float) : Prop :=
  exists adj_u e,
    Dinic.adj g !! u = Some adj_u /\ e ∈ adj_u /\
    Dinic.to e = v /\ Dinic.cap e = c.

(** The [edge_map] record of an edge of the request. *)
Definition rec_of (e : EdgeSpec.t) (r : Rec.t) : Prop :=
  Rec.from r = EdgeSpec.from e /\ Rec.to r = EdgeSpec.to e /\
  Rec.lo r = EdgeSpec.get_lo e /\ Rec.hi r = EdgeSpec.get_hi e.

(** ** What the solve leaves of a graph

    Two adjacency structures have the same frame when they have the same
    edges up to the flows: same shape, and edge by edge the same target,
    reverse handle and capacity. *)

Definition same_edge (e e' : Dinic.Edge) : Prop :=
  Dinic.to e = Dinic.to e' /\ Dinic.rev e = Dinic.rev e' /\
  Dinic.cap e = Dinic.cap e'.

Definition same_frame (a a' : list (list Dinic.Edge)) : Prop :=
  Forall2 (Forall2 same_edge) a a'.

(** The edge object [adj[u][i]], if there is one. *)
Definition edge_at (a : list (list Dinic.Edge)) (u i : nat)
  : option Dinic.Edge :=
  match a !! u with
  | Some adj_u => adj_u !! i
  | None => None
  end.

(** The graphs a caller can construct: [Dinic(n)], then [add_edge]. *)
Inductive constructed : Dinic.t -> Prop :=
| constructed_init n : constructed (Dinic.init n)
| constructed_add g u v c g' h :
    constructed g -> Dinic.add_edge g u v c = Ret (g', h) -> constructed g'.

(** ** The measures of the two breadth-first searches *)

(** The number of vertices that [bfs_level] has not reached yet. *)
Definition negatives (level : list Z) : nat :=
  length (filter (fun x => (x < 0)%Z) level).

(** What [bfs_level] keeps true of its levels: the source is at level 0
    and every level is at least -1 and below the number of reached
    vertices. *)
Definition levels_ok (s : nat) (level : list Z) : Prop :=
  level !! s = Some 0%Z /\
  Forall (fun l => (-1 <= l)%Z /\
                   (l + Z.of_nat (negatives level) < Z.of_nat (length level))%Z)
         level.

(** The number of vertices that [reachable_from] has not marked yet. *)
Definition unvisited (vis : list bool) : nat :=
  length (filter (fun b => b = false) vis).

(** ** Orders behind the sort keys

    A three-way comparison is a weak order on the values that satisfy
    [P] when it is antisymmetric, transitive and compatible with its own
    equivalence there.  [lex] is the comparison of tuples: the first
    component that is not [Eq] decides. *)

Record weak_order {A : Type} (P : A -> Prop) (cmp : A -> A -> comparison)
  : Prop := mk_weak_order {
  wo_antisym : forall a b, P a -> P b -> cmp a b = CompOpp (cmp b a);
  wo_trans : forall a b c, P a -> P b -> P c ->
             cmp a b = Lt -> cmp b c = Lt -> cmp a c = Lt;
  wo_eq : forall a b c, P a -> P b -> P c ->
          cmp a b = Eq -> cmp a c = cmp b c
}.

Definition lex (c1 c2 : comparison) : comparison :=
  match c1 with
  | Eq => c2
  | _ => c1
  end.

Definition is_lt (c : comparison) : bool :=
  match c with
  | Lt => true
  | _ => false
  end.

(** [<] and "not greater" as a three-way comparison gives them, and the
    number of elements of [l] that compare [Eq] to [x]. *)
Definition lt_of {A} (cmp : A -> A -> comparison) (a b : A) : bool :=
  is_lt (cmp a b).

Definition le_of {A} (cmp : A -> A -> comparison) (a b : A) : Prop :=
  cmp a b <> Gt.

Definition class_count {A} (cmp : A -> A -> comparison) (x : A) (l : list A)
  : nat :=
  length (filter (fun y => cmp x y = Eq) l).

(** The three-way comparison of floats; a NaN is [Gt] either way, since
    it is neither [==] nor [<] to anything. *)
Definition fcmp (x y : float) : comparison :=
  match SFcompare (Prim2SF x) (Prim2SF y) with
  | Some c => c
  | None => Gt
  end.

Definition edge_cmp (e1 e2 : EdgeSpec.t) : comparison :=
  lex (String.compare (EdgeSpec.from e1) (EdgeSpec.from e2))
   (lex (String.compare (EdgeSpec.to e1) (EdgeSpec.to e2))
     (lex (fcmp (EdgeSpec.get_lo e1) (EdgeSpec.get_lo e2))
       (lex (fcmp (EdgeSpec.get_hi e1) (EdgeSpec.get_hi e2)) Eq))).

(** An edge whose two bounds are numbers. *)
Definition bounds_are_numbers (e : EdgeSpec.t) : Prop :=
  is_number (EdgeSpec.get_lo e) /\ is_number (EdgeSpec.get_hi e).

(** ** Values that [==] cannot tell apart

    Two floats that are [==] are the same float or the two zeros. *)

Definition same_number (x y : float) : Prop :=
  x = y \/ (is_zero x /\ is_zero y).

Definition same_edge_spec (e e' : EdgeSpec.t) : Prop :=
  EdgeSpec.from e = EdgeSpec.from e' /\ EdgeSpec.to e = EdgeSpec.to e' /\
  same_number (EdgeSpec.get_lo e) (EdgeSpec.get_lo e') /\
  same_number (EdgeSpec.get_hi e) (EdgeSpec.get_hi e').

Definition same_rec (r r' : Rec.t) : Prop :=
  Rec.from r = Rec.from r' /\ Rec.to r = Rec.to r' /\
  Rec.u_out r = Rec.u_out r' /\ Rec.v_in r = Rec.v_in r' /\
  same_number (Rec.lo r) (Rec.lo r') /\ same_number (Rec.hi r) (Rec.hi r').

Definition same_demand (d d' : gmap string float) : Prop :=
  forall k, same_number (demand_of d k) (demand_of d' k).

Definition same_network (net net' : network) : Prop :=
  net_nodes net = net_nodes net' /\
  orig_to_indices net = orig_to_indices net' /\
  sstar net = sstar net' /\ tstar net = tstar net' /\
  G net = G net' /\
  Forall2 same_rec (edge_map net) (edge_map net') /\
  total_supply net = total_supply net' /\
  sum_pos_demands net = sum_pos_demands net'.

(** Two runs end the same way, with related values when they return. *)
Definition outcome_rel {A B} (R : A -> B -> Prop)
    (m : outcome A) (m' : outcome B) : Prop :=
  match m, m' with
  | Ret a, Ret b => R a b
  | Raise e, Raise e' => e = e'
  | OutOfFuel, OutOfFuel => True
  | _, _ => False
  end.

(** How two results of the edge loop are related. *)
Definition same_edges_result
    (r r' : string + Dinic.t * list Rec.t * gmap string float) : Prop :=
  match r, r' with
  | inl m, inl m' => m = m'
  | inr (g, em, dem), inr (g', em', dem') =>
      g = g' /\ Forall2 same_rec em em' /\ same_demand dem dem'
  | _, _ => False
  end.

(** How two results of [build] are related. *)
Definition same_build_result (r r' : string + network) : Prop :=
  match r, r' with
  | inl m, inl m' => m = m'
  | inr net, inr net' => same_network net net'
  | _, _ => False
  end.

(** ** Reverse handles and opposite flows *)

(** The reverse handles are paired: the handle [rev] of an edge [adj[u][i]]
    names an edge of [adj[to]] that leads back to [u], and whose own handle
    is [i] unless the edge leads from [u] to [u] (there [add_edge] reads
    [len(adj[u])] once for both edges, line 75). *)
Definition paired (a : list (list Dinic.Edge)) : Prop :=
  forall u i e, edge_at a u i = Some e ->
    exists r, edge_at a (Dinic.to e) (Dinic.rev e) = Some r /\
              Dinic.to r = u /\ (Dinic.to e <> u -> Dinic.rev r = i).

(** One adjacency list per vertex, and paired reverse handles. *)
Definition well_formed (g : Dinic.t) : Prop :=
  length (Dinic.adj g) = Dinic.n g /\ paired (Dinic.adj g).

(** Two float values that are the negation of each other, or two zeros. *)
Definition sf_skew (a b : spec_float) : Prop :=
  b = SFopp a \/ ((exists s, a = S754_zero s) /\ (exists s, b = S754_zero s)).

(** [y] is the number [- x]; the two zeros count as one number. *)
Definition skew (x y : float) : Prop := same_number y (- x)%float.

(** The flow of the edge at the reverse handle of an edge between two
    different vertices is the negation of the flow of that edge. *)
Definition skew_flows (a : list (list Dinic.Edge)) : Prop :=
  forall u i e r, edge_at a u i = Some e -> Dinic.to e <> u ->
    edge_at a (Dinic.to e) (Dinic.rev e) = Some r ->
    skew (Dinic.flow e) (Dinic.flow r).

(** ** Residual reachability and the marks of the two searches *)

(** The vertices that [s] reaches along edges with residual capacity
    above [EPS]. *)
Inductive residual_reach (a : list (list Dinic.Edge)) (s : nat) : nat -> Prop :=
| reach_here : residual_reach a s s
| reach_next u adj_u e :
    residual_reach a s u -> a !! u = Some adj_u -> e ∈ adj_u ->
    fgt (Dinic.residual e) EPS = true -> residual_reach a s (Dinic.to e).

(** Every residual edge out of [u] leads to a marked vertex. *)
Definition closed_marks (a : list (list Dinic.Edge)) (vis : list bool) (u : nat)
  : Prop :=
  forall adj_u e, a !! u = Some adj_u -> e ∈ adj_u ->
    fgt (Dinic.residual e) EPS = true -> vis !! Dinic.to e = Some true.

(** What the loop of [reachable_from] keeps, with [vis] the marks and [q]
    the queue: marked vertices are reachable, queued vertices are marked,
    and every marked vertex is queued or has all its residual edges leading
    to marked vertices. *)
Definition reach_inv (a : list (list Dinic.Edge)) (s : nat)
    (vis : list bool) (q : list nat) : Prop :=
  (forall v, vis !! v = Some true -> residual_reach a s v) /\
  (forall v, v ∈ q -> vis !! v = Some true) /\
  vis !! s = Some true /\
  (forall u, vis !! u = Some true -> u ∈ q \/ closed_marks a vis u).

(** A vertex that [bfs_level] has given a level. *)
Definition marked (level : list Z) (v : nat) : Prop :=
  exists l, level !! v = Some l /\ (0 <= l)%Z.

(** Every residual edge out of [u] leads to a vertex with a level. *)
Definition closed_levels (a : list (list Dinic.Edge)) (level : list Z) (u : nat)
  : Prop :=
  forall adj_u e, a !! u = Some adj_u -> e ∈ adj_u ->
    fgt (Dinic.residual e) EPS = true -> marked level (Dinic.to e).

(** A vertex at a positive level has a residual edge from the level
    below. *)
Definition layered (a : list (list Dinic.Edge)) (level : list Z) : Prop :=
  forall v l, level !! v = Some l -> (0 < l)%Z ->
    exists u adj_u e,
      level !! u = Some (l - 1)%Z /\ a !! u = Some adj_u /\ e ∈ adj_u /\
      Dinic.to e = v /\ fgt (Dinic.residual e) EPS = true.

(** What the loop of [bfs_level] keeps, with [q] the queue. *)
Definition bfs_inv (a : list (list Dinic.Edge)) (s : nat)
    (level : list Z) (q : list nat) : Prop :=
  (forall v, marked level v -> residual_reach a s v) /\
  (forall v, v ∈ q -> marked level v) /\
  level !! s = Some 0%Z /\
  (forall u, marked level u -> u ∈ q \/ closed_levels a level u) /\
  layered a level.

(** A level that is set is never changed. *)
Definition levels_kept (level level' : list Z) : Prop :=
  forall v l, level !! v = Some l -> (0 <= l)%Z -> level' !! v = Some l.

(** ** Runs in which every index is in range *)

(** A run that fails no index and no key lookup. *)
Definition no_raise {A} (m : outcome A) : Prop := forall e, m <> Raise e.

(** The state of a search for a path: the adjacency lists and the resume
    pointers, both with one entry per vertex. *)
Definition dfs_state_ok (n : nat) (st : list (list Dinic.Edge) * list nat) : Prop :=
  length (fst st) = n /\ paired (fst st) /\ length (snd st) = n.

(** What a call of [dfs_flow] away from the sink returns: an amount above
    [EPS], asked for and not above what was asked for, or [0.0] with every
    flow as it was. *)
Definition dfs_result (pushed r : float)
    (st st' : list (list Dinic.Edge) * list nat) : Prop :=
  (fgt r EPS = true /\ fgt pushed EPS = true /\ (pushed <? r)%float = false) \/
  (r = 0%float /\ fst st' = fst st).

(** ** The network that the builder hands to [max_flow] *)

(** An [edge_map] record holds the out-index of its [from] node and the
    in-index of its [to] node. *)
Definition rec_indexed (idx : gmap string (nat * nat)) (r : Rec.t) : Prop :=
  (exists i, idx !! Rec.from r = Some (i, Rec.u_out r)) /\
  (exists o, idx !! Rec.to r = Some (Rec.v_in r, o)).

(** What [run_belts] has set up when it calls [max_flow]. *)
Definition network_ok (net : network) : Prop :=
  constructed (G net) /\
  Dinic.n (G net) = sstar net + 2 /\ tstar net = sstar net + 1 /\
  indices_below (orig_to_indices net) (sstar net) /\
  (forall v, v ∈ net_nodes net -> is_Some (orig_to_indices net !! v)) /\
  Forall (rec_indexed (orig_to_indices net)) (edge_map net).

(** Every entry of [demand] is a zero, as is [demand.get(k, 0.0)] for a
    key that is missing. *)
Definition all_zero (demand : gmap string float) : Prop :=
  forall k, is_zero (demand_of demand k).

(** [node_caps.get(v, INF)] as the builder reads it. *)
Definition cap_of (caps : gmap string float) (v : string) : float :=
  match caps !! v with Some c => c | None => INF end.

(** The first edge out of the in-vertex of [v] is its internal edge. *)
Definition internal_first (idx : gmap string (nat * nat))
    (caps : gmap string float) (a : list (list Dinic.Edge)) (v : string) : Prop :=
  exists i o e rest,
    idx !! v = Some (i, o) /\ a !! i = Some (e :: rest) /\
    Dinic.to e = o /\ Dinic.cap e = cap_of caps v.

(** The rows of the super source and of the two vertices of the sink when
    the super source feeds the sink only and no belt leaves the sink: out
    of [sstar] every edge leads to [si], out of [si] every edge with
    capacity leads to [so], and out of [so] no edge has capacity. *)
Definition sink_side (g : Dinic.t) (si so sstar : nat) : Prop :=
  (forall l e, Dinic.adj g !! sstar = Some l -> e ∈ l -> Dinic.to e = si) /\
  (forall l e, Dinic.adj g !! si = Some l -> e ∈ l ->
     Dinic.cap e = 0%float \/ Dinic.to e = so) /\
  (forall l e, Dinic.adj g !! so = Some l -> e ∈ l -> Dinic.cap e = 0%float).

(** ** The entries of a result *)

(** The pairs [(from, to)] of an edge, of an [edge_map] record and of a
    reported flow. *)
Definition edge_ends (e : EdgeSpec.t) : string * string :=
  (EdgeSpec.from e, EdgeSpec.to e).

Definition rec_ends (r : Rec.t) : string * string := (Rec.from r, Rec.to r).

Definition flow_ends (f : Flow.t) : string * string := (Flow.from f, Flow.to f).

(** The comparison of the keys [(from, to)]. *)
Definition ends_cmp (k1 k2 : string * string) : comparison :=
  lex (String.compare (fst k1) (fst k2)) (lex (String.compare (snd k1) (snd k2)) Eq).

(** The entry of [flows] for an [edge_map] record: the flow [x] read off
    the graph is that of an edge from [u_out] to [v_in], or [0.0]. *)
Definition flow_of_rec (g : Dinic.t) (r : Rec.t) (f : Flow.t) : Prop :=
  flow_ends f = rec_ends r /\
  exists x, Flow.flow f = fmax 0 (x + Rec.lo r) /\
    (x = 0%float \/
     exists adj_u e, Dinic.adj g !! Rec.u_out r = Some adj_u /\ e ∈ adj_u /\
                     Dinic.to e = Rec.v_in r /\ x = Dinic.flow e).

(** The in-vertex of node [v] is marked in [reachable]. *)
Definition in_reachable (idx : gmap string (nat * nat)) (reachable : list bool)
    (v : string) : Prop :=
  exists i o, idx !! v = Some (i, o) /\ reachable !! i = Some true.

(** The entry of [tight_edges] for an [edge_map] record that crosses from
    a marked out-vertex to an unmarked in-vertex. *)
Definition tight_edge_of (reachable : list bool) (db : float) (r : Rec.t)
    (x : TightEdge.t) : Prop :=
  TightEdge.from x = Rec.from r /\ TightEdge.to x = Rec.to r /\
  reachable !! Rec.u_out r = Some true /\ reachable !! Rec.v_in r = Some false /\
  TightEdge.flow_needed x = fmin db (fmax 0 (Rec.hi r - Rec.lo r)).

(** ** More requests and graphs *)

(** The graph [one_edge_graph] after [max_flow(0, 1)]. *)
Definition one_edge_solved : Dinic.t :=
  Dinic.mk 2 [[Dinic.mkEdge 1 0 1 1]; [Dinic.mkEdge 0 0 0 (-1)]].

(** One belt with bounds [0, 10], no source. *)
Definition idle_request : request :=
  mkRequest [] [belt "a" "b" 0 10] ∅ (Some "t") ∅.

(** One belt whose [hi] is far below its [lo], after one that passes. *)
Definition rejected_request : request :=
  mkRequest [] [belt "b" "c" 500 100; belt "a" "b" 0 10] ∅ (Some "t") ∅.

(** Lower bounds that cannot be met: nothing leads back from [b] to [a] or
    from [y] to [x], the belt from [b] to [c] has no capacity and node [y]
    has a cap of 0. *)
Definition stuck_request : request :=
  mkRequest [] [belt "a" "b" 5 10; belt "b" "c" 0 0; belt "x" "y" 3 10]
    ∅ (Some "t") (<["y" := 0%float]> ∅).

(** ** Doubles as whole numbers of units

    Every finite double is a whole number of units of [2 ^ -1074], the
    least positive double.  A double of at most 53 bits of units is any such
    number; a larger one is a multiple of a power of two, its grid.  The sum
    and the difference of two doubles are the exact result rounded to a
    neighbour on the grid of that result. *)

(** The exponent of the grid on which a double of magnitude [A] units
    lies: numbers of at most 53 bits are on the grid of step 1, a number
    of [53 + n] bits is on the grid of step [2 ^ n]. *)
Definition grid (A : Z) : Z := Z.max (Z.log2 A + 1 - 53) 0.

(** [R] is [A] rounded to a neighbour on its grid: [A] itself when it is
    on the grid, else the multiple of the step below or above it. *)
Definition rounds_pos (A R : Z) : Prop :=
  R = (A / 2 ^ grid A * 2 ^ grid A)%Z \/
  ((A mod 2 ^ grid A)%Z <> 0%Z /\ R = ((A / 2 ^ grid A + 1) * 2 ^ grid A)%Z).

(** The same for a number of either sign: the magnitude is rounded. *)
Definition rounds (A R : Z) : Prop :=
  match A with
  | Z0 => R = 0%Z
  | Zpos _ => rounds_pos A R
  | Zneg _ => rounds_pos (- A) (- R)
  end.

(** A number of units that a finite double can hold. *)
Definition on_grid (A : Z) : Prop := (A mod 2 ^ grid A = 0)%Z.

(** One step of the shift to the right drops the last bit and remembers
    whether anything has been dropped. *)
Definition inexact (mrs : shr_record) : bool := shr_r mrs || shr_s mrs.

(** [b] is [a] after [k] such steps. *)
Definition shifted (k : Z) (a b : shr_record) : Prop :=
  shr_m b = (shr_m a / 2 ^ k)%Z /\
  (inexact b = false <-> inexact a = false /\ (shr_m a mod 2 ^ k = 0)%Z).

(** The result of a rounding, as a number of units of [2 ^ -1074]: a
    finite double of that magnitude, or an overflow past the largest
    double. *)
Definition round_result (s : bool) (R : Z) (f : spec_float) : Prop :=
  (f = S754_infinity s /\ (2 ^ 2098 <= R)%Z) \/
  (exists m e, f = S754_finite s m e /\ (-1074 <= e)%Z /\
               (Zpos m * 2 ^ (e + 1074))%Z = R).

(** The value of a double that is a number: a whole number of units of
    [2 ^ -1074], the least positive double, or one of the infinities. *)
Inductive ext : Type := NegInf | Fin (a : Z) | PosInf.

Definition sf_ext (f : spec_float) : option ext :=
  match f with
  | S754_nan => None
  | S754_infinity s => Some (if s then NegInf else PosInf)
  | S754_zero _ => Some (Fin 0)
  | S754_finite s m e => Some (Fin (cond_Zopp s (Zpos m * 2 ^ (e + 1074))))
  end.

Definition value (x : float) : option ext := sf_ext (Prim2SF x).

(** The order of these values. *)
Definition ext_compare (u v : ext) : comparison :=
  match u, v with
  | NegInf, NegInf => Eq
  | NegInf, _ => Lt
  | _, NegInf => Gt
  | PosInf, PosInf => Eq
  | PosInf, _ => Gt
  | _, PosInf => Lt
  | Fin a, Fin b => (a ?= b)%Z
  end.

(** The value of the negation. *)
Definition ext_opp (u : ext) : ext :=
  match u with NegInf => PosInf | Fin a => Fin (- a) | PosInf => NegInf end.

(** The outcome of an operation whose exact result is rounded to [R]
    units: the double of [R] units, or an infinity when [R] is out of
    range. *)
Definition rounded_to (R : Z) (f : spec_float) : Prop :=
  sf_ext f = Some (Fin R) \/
  (f = S754_infinity false /\ (2 ^ 2098 <= R)%Z) \/
  (f = S754_infinity true /\ (R <= - 2 ^ 2098)%Z).

(** ** The points of a solve *)

(** A push as [dfs_flow] makes it (lines 98-104): through an edge
    [e = adj[u][i]] that leads to another vertex ([level[e.to]] is
    [level[u] + 1]) and has residual capacity above [EPS], of an amount [p]
    that is above [EPS] and not above that residual capacity (it is a
    [min] with it), and that is below [+inf], as the amounts of a search
    that is offered less than [+inf] are. *)
Definition guarded_push (a : list (list Dinic.Edge)) (u i : nat) (p : float)
    (a' : list (list Dinic.Edge)) : Prop :=
  exists e,
    edge_at a u i = Some e /\ Dinic.to e <> u /\
    fgt (Dinic.residual e) EPS = true /\ fgt p EPS = true /\
    (p <? infinity)%float = true /\ (Dinic.residual e <? p)%float = false /\
    Dinic.push a u i p = Ret a'.

(** The adjacency lists at the points of a solve on [g]: those of [g]
    itself, and what a push of [dfs_flow] makes of them. *)
Inductive during_solve (g : Dinic.t) : list (list Dinic.Edge) -> Prop :=
| solve_start : during_solve g (Dinic.adj g)
| solve_push a u i p a' :
    during_solve g a -> guarded_push a u i p a' -> during_solve g a'.

(** [e] is the forward edge of a pair and [r] the reverse edge that
    [add_edge] made with it: [r] has capacity [0.0]; the flow of [e] is not
    negative, and when the capacity of [e] is not negative its flow is at
    most every double above that capacity. *)
Definition forward_of (e r : Dinic.Edge) : Prop :=
  Dinic.cap r = 0%float /\
  (0 <=? Dinic.flow e)%float = true /\
  ((0 <=? Dinic.cap e)%float = true ->
   forall z, (Dinic.cap e <? z)%float = true -> (Dinic.flow e <=? z)%float = true).

(** Of two paired edges between different vertices, one is the forward
    edge of the other. *)
Definition pair_bounds (a : list (list Dinic.Edge)) : Prop :=
  forall u i e r, edge_at a u i = Some e -> Dinic.to e <> u ->
    edge_at a (Dinic.to e) (Dinic.rev e) = Some r ->
    forward_of e r \/ forward_of r e.

(** An edge from a vertex to itself carries no flow. *)
Definition loops_idle (a : list (list Dinic.Edge)) : Prop :=
  forall u i e, edge_at a u i = Some e -> Dinic.to e = u ->
    Dinic.flow e = 0%float.

(** Of the two edges that [add_edge] makes, one has capacity [0.0]. *)
Definition pair_caps (a : list (list Dinic.Edge)) : Prop :=
  forall u i e r, edge_at a u i = Some e -> Dinic.to e <> u ->
    edge_at a (Dinic.to e) (Dinic.rev e) = Some r ->
    Dinic.cap r = 0%float \/ Dinic.cap e = 0%float.

(** The bounds on a pair of edges of which [e] is the forward edge: those
    of [forward_of], the flow of the reverse edge [r] at most its capacity
    [0.0], and the flow of [e] within [1e-9] of a capacity below
    [2 ^ 23]. *)
Definition bounded_pair (e r : Dinic.Edge) : Prop :=
  forward_of e r /\
  (Dinic.flow r <=? Dinic.cap r)%float = true /\
  ((0 <=? Dinic.cap e)%float = true -> (Dinic.cap e <? 8388608)%float = true ->
   (Dinic.flow e <=? Dinic.cap e + EPS)%float = true).

(** The rows of the vertices below level [lu] are as they were. *)
Definition lower_rows_kept (level : list Z) (lu : Z)
    (a a' : list (list Dinic.Edge)) : Prop :=
  forall x lx j, level !! x = Some lx -> (lx < lu)%Z ->
    edge_at a' x j = edge_at a x j.

(** What a call of [dfs_flow] is shown to do: its pushes are pushes of a
    solve, and it leaves the rows of the vertices below the level of its
    vertex alone. *)
Definition search_ok (g : Dinic.t) (level : list Z) (u : nat)
    (st st' : list (list Dinic.Edge) * list nat) : Prop :=
  during_solve g (fst st') /\
  forall lu, level !! u = Some lu -> lower_rows_kept level lu (fst st) (fst st').

(** ** The tolerance of the edge bounds *)

(** [hi] is below [lo] but within the tolerance, [lo - 1e-9 <= hi < lo],
    as real numbers: both bounds are finite, of [l] and [h] units of
    [2 ^ -1074], and [(l - h) * 2 ^ -1074 <= 10 ^ -9]. *)
Definition within_tolerance (lo hi : float) : Prop :=
  exists l h,
    value lo = Some (Fin l) /\ value hi = Some (Fin h) /\
    (h < l)%Z /\ (10 ^ 9 * (l - h) <= 2 ^ 1074)%Z.

(** * Properties *)

(** ** Running outcomes *)

Lemma bind_Ret_inv {A B} (m : outcome A) (k : A -> outcome B) (b : B) :
  m ≫= k = Ret b -> exists a, m = Ret a /\ k a = Ret b.
Proof. destruct m as [a| |]; simpl; intros H; try discriminate. eauto. Qed.

Lemma bind_Ret {A B} (a : A) (k : A -> outcome B) : Ret a ≫= k = k a.
Proof. reflexivity. Qed.

Ltac inv_bind H :=
  let a := fresh "a" in
  let Ha := fresh "Ha" in
  apply bind_Ret_inv in H; destruct H as (a & Ha & H).

Lemma index_Ret {A} (l : list A) (i : nat) (a : A) :
  index l i = Ret a <-> l !! i = Some a.
Proof.
  unfold index. destruct (l !! i); split; intros H; congruence.
Qed.

Lemma index_lt {A} (l : list A) (i : nat) :
  i < length l -> exists a, index l i = Ret a /\ l !! i = Some a.
Proof.
  intros H. destruct (lookup_lt_is_Some_2 l i H) as [a Ha].
  exists a. split; [|exact Ha]. unfold index. rewrite Ha. reflexivity.
Qed.

Lemma getitem_Ret {V} (d : gmap string V) (k : string) (v : V) :
  getitem d k = Ret v <-> d !! k = Some v.
Proof.
  unfold getitem. destruct (d !! k); split; intros H; congruence.
Qed.

(** ** [sorted] permutes its argument *)

Section SortingFacts.
Context {A : Type} (lt : A -> A -> bool).

Lemma insert_sorted_perm (x : A) (l : list A) :
  insert_sorted lt x l ≡ₚ x :: l.
Proof.
  induction l as [|y l IH]; simpl; [reflexivity|].
  destruct (lt x y); [reflexivity|].
  rewrite IH. apply perm_swap.
Qed.

Lemma foldl_insert_perm (l acc : list A) :
  foldl (fun acc x => insert_sorted lt x acc) acc l ≡ₚ acc ++ l.
Proof.
  revert acc. induction l as [|x l IH]; intros acc; simpl.
  - rewrite app_nil_r. reflexivity.
  - rewrite IH, insert_sorted_perm. simpl. apply Permutation_middle.
Qed.

Lemma sorted_perm (l : list A) : sorted lt l ≡ₚ l.
Proof. unfold sorted. rewrite foldl_insert_perm. reflexivity. Qed.

Lemma elem_of_sorted (x : A) (l : list A) : x ∈ sorted lt l <-> x ∈ l.
Proof. rewrite sorted_perm. reflexivity. Qed.

End SortingFacts.

(** ** Loops that keep an invariant *)

Lemma for_each_invariant {A S} (P : S -> Prop) (body : S -> A -> outcome S)
    (l : list A) (st st' : S) :
  (forall s x s', x ∈ l -> P s -> body s x = Ret s' -> P s') ->
  P st -> for_each body l st = Ret st' -> P st'.
Proof.
  revert st. induction l as [|x l IH]; intros st Hbody Hst H; simpl in H.
  - injection H as <-. exact Hst.
  - inv_bind H. apply (IH a); [|eapply Hbody; eauto using list_elem_of_here|exact H].
    intros s y s' Hy. apply Hbody, list_elem_of_further, Hy.
Qed.

Lemma for_each_Ret {A S} (P : S -> Prop) (body : S -> A -> outcome S)
    (l : list A) (st : S) :
  (forall s x, x ∈ l -> P s -> exists s', body s x = Ret s' /\ P s') ->
  P st -> exists st', for_each body l st = Ret st' /\ P st'.
Proof.
  revert st. induction l as [|x l IH]; intros st Hbody Hst; simpl.
  - eauto.
  - destruct (Hbody st x (list_elem_of_here _ _) Hst) as (s' & -> & Hs').
    rewrite bind_Ret. apply IH; [|exact Hs'].
    intros s y Hy. apply Hbody, list_elem_of_further, Hy.
Qed.

(** ** The two loops of [max_flow] *)

Lemma max_flow_loop_S fuel g s tgt limit flow :
  Dinic.max_flow_loop (S fuel) g s tgt limit flow =
  (level ← Dinic.bfs_level g s tgt;
   lt ← index level tgt;
   if (lt <? 0)%Z then Ret (flow, g)
   else
     '(ex, a, flow') ←
        Dinic.blocking_flow fuel g s tgt limit level
          (Dinic.adj g, replicate (Dinic.n g) 0) flow;
     match ex with
     | Dinic.Return => Ret (flow', Dinic.set_adj g a)
     | Dinic.Break => Dinic.max_flow_loop fuel (Dinic.set_adj g a) s tgt limit flow'
     end).
Proof. reflexivity. Qed.

Lemma blocking_flow_S fuel g s tgt limit level st flow :
  Dinic.blocking_flow (S fuel) g s tgt limit level st flow =
  ('(pushed, st') ←
      Dinic.dfs_flow (Dinic.n g) tgt level s (limit - flow)%float st;
   if (pushed <=? EPS)%float then Ret (Dinic.Break, fst st', flow)
   else
     let flow' := (flow + pushed)%float in
     if fge (flow' + EPS)%float limit then Ret (Dinic.Return, fst st', flow')
     else Dinic.blocking_flow fuel g s tgt limit level st' flow').
Proof. reflexivity. Qed.

(** ** More fuel never changes a result *)

Lemma blocking_flow_mono fuel fuel' g s tgt limit level st flow r :
  fuel <= fuel' ->
  Dinic.blocking_flow fuel g s tgt limit level st flow = Ret r ->
  Dinic.blocking_flow fuel' g s tgt limit level st flow = Ret r.
Proof.
  revert fuel' st flow. induction fuel as [|fuel IH]; intros fuel' st flow Hle H;
    [discriminate|].
  destruct fuel' as [|fuel']; [lia|].
  rewrite blocking_flow_S in *.
  destruct (Dinic.dfs_flow _ _ _ _ _ _) as [[pushed st1]| |]; simpl in *;
    try discriminate.
  destruct (pushed <=? EPS)%float; [exact H|].
  destruct (fge (flow + pushed + EPS) limit); [exact H|].
  apply IH; [lia|exact H].
Qed.

Lemma max_flow_loop_mono fuel fuel' g s tgt limit flow r :
  fuel <= fuel' ->
  Dinic.max_flow_loop fuel g s tgt limit flow = Ret r ->
  Dinic.max_flow_loop fuel' g s tgt limit flow = Ret r.
Proof.
  revert fuel' g flow. induction fuel as [|fuel IH]; intros fuel' g flow Hle H;
    [discriminate|].
  destruct fuel' as [|fuel']; [lia|].
  rewrite max_flow_loop_S in *.
  destruct (Dinic.bfs_level g s tgt) as [level| |]; simpl in *; try discriminate.
  destruct (index level tgt) as [lt| |]; simpl in *; try discriminate.
  destruct (lt <? 0)%Z; [exact H|].
  destruct (Dinic.blocking_flow fuel _ _ _ _ _ _ _) as [[[ex a] flow1]| |] eqn:Hb;
    simpl in H; try discriminate.
  rewrite (blocking_flow_mono fuel fuel' _ _ _ _ _ _ _ _ ltac:(lia) Hb). simpl.
  destruct ex; [exact H|]. apply IH; [lia|exact H].
Qed.

Lemma run_belts_mono fuel fuel' data r :
  fuel <= fuel' ->
  run_belts fuel data = Ret r -> run_belts fuel' data = Ret r.
Proof.
  intros Hle. unfold run_belts. destruct (sink data) as [snk|]; [|auto].
  destruct (build data snk) as [[msg|net]| |]; simpl; auto.
  unfold Dinic.max_flow.
  destruct (Dinic.max_flow_loop fuel _ _ _ _ _) as [[flowed g]| |] eqn:Hm;
    simpl; try discriminate.
  rewrite (max_flow_loop_mono fuel fuel' _ _ _ _ _ _ Hle Hm). simpl. auto.
Qed.

(** ** The budgets of the two searches are never used up

    [bfs_level] pops each vertex at most once and [dfs_flow] climbs one
    level per frame, so neither runs out of its budget: only the two
    [while True] loops of [max_flow] can go on for ever. *)

Lemma bind_no_timeout {A B} (m : outcome A) (k : A -> outcome B) :
  m <> OutOfFuel -> (forall a, m = Ret a -> k a <> OutOfFuel) ->
  m ≫= k <> OutOfFuel.
Proof. destruct m; simpl; intros Hm Hk; [apply Hk; reflexivity|discriminate|congruence]. Qed.

Lemma index_no_timeout {A} (l : list A) i : index l i <> OutOfFuel.
Proof. unfold index. destruct (l !! i); discriminate. Qed.

Lemma for_each_no_timeout {A S} (body : S -> A -> outcome S) l st :
  (forall s x, body s x <> OutOfFuel) -> for_each body l st <> OutOfFuel.
Proof.
  intros Hbody. revert st. induction l as [|x l IH]; intros st; simpl.
  - discriminate.
  - apply bind_no_timeout; [apply Hbody|]. intros a _. apply IH.
Qed.

Lemma negatives_insert level i x y :
  level !! i = Some x -> (x < 0)%Z -> (0 <= y)%Z ->
  S (negatives (<[i := y]> level)) = negatives level.
Proof.
  unfold negatives. revert i. induction level as [|z level IH]; intros i Hi Hx Hy.
  - discriminate.
  - destruct i as [|i].
    + injection Hi as ->. change (<[0 := y]> (x :: level)) with (y :: level).
      rewrite !filter_cons.
      destruct (decide (y < 0)%Z); [lia|].
      destruct (decide (x < 0)%Z); [reflexivity|lia].
    + change (<[S i := y]> (z :: level)) with (z :: <[i := y]> level).
      rewrite !filter_cons. specialize (IH i Hi Hx Hy).
      destruct (decide (z < 0)%Z); simpl; lia.
Qed.

Lemma negatives_le level : negatives level <= length level.
Proof. unfold negatives. apply length_filter. Qed.

Lemma bfs_visit_no_timeout u st e : Dinic.bfs_visit u st e <> OutOfFuel.
Proof.
  destruct st as [level q]. unfold Dinic.bfs_visit.
  apply bind_no_timeout; [apply index_no_timeout|]. intros lv _.
  destruct ((lv <? 0)%Z && fgt (Dinic.residual e) EPS); [|discriminate].
  apply bind_no_timeout; [apply index_no_timeout|]. discriminate.
Qed.

Lemma bfs_visit_levels s u level q e level' q' :
  Dinic.bfs_visit u (level, q) e = Ret (level', q') ->
  levels_ok s level ->
  levels_ok s level' /\ length level' = length level /\
  length q' + negatives level' = length q + negatives level.
Proof.
  unfold Dinic.bfs_visit. intros H [Hs Hall]. inv_bind H. rename a into lv.
  destruct ((lv <? 0)%Z && fgt (Dinic.residual e) EPS) eqn:Hc.
  - inv_bind H. rename a into lu. injection H as <- <-.
    apply andb_true_iff in Hc as [Hlv _]. apply Z.ltb_lt in Hlv.
    apply index_Ret in Ha, Ha0.
    assert (Hlu : (-1 <= lu)%Z /\
                  (lu + Z.of_nat (negatives level) < Z.of_nat (length level))%Z).
    { eapply Forall_forall in Hall; [exact Hall|].
      eapply list_elem_of_lookup_2; eauto. }
    pose proof (negatives_insert level (Dinic.to e) lv (lu + 1) Ha Hlv
                  ltac:(lia)) as Hneg.
    split; [split|].
    + destruct (decide (Dinic.to e = s)) as [Heq|Hne].
      * rewrite Heq in Ha. rewrite Hs in Ha. injection Ha as <-. lia.
      * rewrite list_lookup_insert_ne by exact Hne. exact Hs.
    + rewrite length_insert. apply Forall_forall. intros l Hl.
      apply list_elem_of_lookup in Hl as [j Hj].
      destruct (decide (Dinic.to e = j)) as [<-|Hne].
      * rewrite list_lookup_insert_eq in Hj by (eapply lookup_lt_Some; eauto).
        injection Hj as <-. lia.
      * rewrite list_lookup_insert_ne in Hj by exact Hne.
        assert (Hl : (-1 <= l)%Z /\
                     (l + Z.of_nat (negatives level) < Z.of_nat (length level))%Z).
        { eapply Forall_forall in Hall; [exact Hall|].
          eapply list_elem_of_lookup_2; eauto. }
        lia.
    + rewrite length_insert, length_app. simpl. split; [reflexivity|lia].
  - injection H as <- <-. split; [split; assumption|]. split; reflexivity.
Qed.

Lemma bfs_visits_levels s u adj_u level q level' q' :
  for_each (Dinic.bfs_visit u) adj_u (level, q) = Ret (level', q') ->
  levels_ok s level ->
  levels_ok s level' /\ length level' = length level /\
  length q' + negatives level' = length q + negatives level.
Proof.
  revert level q. induction adj_u as [|e adj_u IH]; intros level q H Hok;
    simpl in H.
  - injection H as <- <-. auto.
  - inv_bind H. destruct a as [level1 q1].
    apply (bfs_visit_levels s) in Ha as (Hok1 & Hlen1 & Hm1); [|exact Hok].
    apply IH in H as (Hok2 & Hlen2 & Hm2); [|exact Hok1].
    split; [exact Hok2|]. split; congruence.
Qed.

Lemma bfs_loop_no_timeout s budget g level q :
  levels_ok s level -> length q + negatives level <= budget ->
  Dinic.bfs_loop budget g level q <> OutOfFuel.
Proof.
  revert level q. induction budget as [|b IH]; intros level q Hok Hm.
  - destruct q; simpl in *; [discriminate|lia].
  - destruct q as [|u q]; simpl; [discriminate|].
    apply bind_no_timeout; [apply index_no_timeout|]. intros adj_u _.
    apply bind_no_timeout.
    { apply for_each_no_timeout. intros. apply bfs_visit_no_timeout. }
    intros [level' q'] Hvisit.
    apply (bfs_visits_levels s) in Hvisit as (Hok' & _ & Hm'); [|exact Hok].
    apply IH; [exact Hok'|]. simpl in Hm. lia.
Qed.

Lemma bfs_loop_levels s budget g level q level' :
  Dinic.bfs_loop budget g level q = Ret level' ->
  levels_ok s level -> levels_ok s level' /\ length level' = length level.
Proof.
  revert level q. induction budget as [|b IH]; intros level q H Hok.
  - destruct q; [|discriminate]. injection H as <-. auto.
  - destruct q as [|u q]; simpl in H; [injection H as <-; auto|].
    inv_bind H. inv_bind H. destruct a0 as [level1 q1].
    apply (bfs_visits_levels s) in Ha0 as (Hok1 & Hlen1 & _); [|exact Hok].
    apply IH in H as (Hok2 & Hlen2); [|exact Hok1]. split; congruence.
Qed.

Lemma negatives_replicate k : negatives (replicate k (-1)%Z) = k.
Proof.
  unfold negatives. induction k as [|k IH]; [reflexivity|].
  change (replicate (S k) (-1)%Z) with ((-1)%Z :: replicate k (-1)%Z).
  rewrite filter_cons. destruct (decide (-1 < 0)%Z); [|lia].
  simpl. rewrite IH. reflexivity.
Qed.

Lemma initial_levels_ok k s :
  s < k -> levels_ok s (<[s := 0%Z]> (replicate k (-1)%Z)) /\
           S (negatives (<[s := 0%Z]> (replicate k (-1)%Z))) = k.
Proof.
  intros Hs.
  assert (Hlk : replicate k (-1)%Z !! s = Some (-1)%Z)
    by (apply lookup_replicate; auto).
  pose proof (negatives_insert _ s (-1) 0 Hlk ltac:(lia) ltac:(lia)) as Hneg.
  rewrite negatives_replicate in Hneg. split; [|exact Hneg].
  split.
  - apply list_lookup_insert_eq. rewrite length_replicate. exact Hs.
  - rewrite length_insert, length_replicate. apply Forall_forall. intros l Hl.
    apply list_elem_of_lookup in Hl as [j Hj].
    destruct (decide (s = j)) as [<-|Hne].
    + rewrite list_lookup_insert_eq in Hj by (rewrite length_replicate; exact Hs).
      injection Hj as <-. lia.
    + rewrite list_lookup_insert_ne in Hj by exact Hne.
      apply lookup_replicate in Hj as [-> _]. lia.
Qed.

Lemma bfs_level_no_timeout g s t : Dinic.bfs_level g s t <> OutOfFuel.
Proof.
  unfold Dinic.bfs_level. apply bind_no_timeout; [apply index_no_timeout|].
  intros x Hx. apply index_Ret, lookup_lt_Some in Hx.
  rewrite length_replicate in Hx.
  destruct (initial_levels_ok (Dinic.n g) s Hx) as [Hok Hneg].
  apply (bfs_loop_no_timeout s); [exact Hok|]. simpl. lia.
Qed.

Lemma bfs_level_levels g s t level :
  Dinic.bfs_level g s t = Ret level ->
  length level = Dinic.n g /\ level !! s = Some 0%Z /\
  forall i l, level !! i = Some l -> (l < Z.of_nat (Dinic.n g))%Z.
Proof.
  unfold Dinic.bfs_level. intros H. inv_bind H.
  apply index_Ret, lookup_lt_Some in Ha. rewrite length_replicate in Ha.
  destruct (initial_levels_ok (Dinic.n g) s Ha) as [Hok _].
  apply (bfs_loop_levels s) in H as ([Hs Hall] & Hlen); [|exact Hok].
  rewrite length_insert, length_replicate in Hlen.
  split; [exact Hlen|]. split; [exact Hs|]. intros i l Hi.
  assert (Hl : (-1 <= l)%Z /\
               (l + Z.of_nat (negatives level) < Z.of_nat (length level))%Z).
  { eapply Forall_forall in Hall; [exact Hall|].
    eapply list_elem_of_lookup_2; eauto. }
  lia.
Qed.

Lemma add_flow_no_timeout a u i f : Dinic.add_flow a u i f <> OutOfFuel.
Proof.
  unfold Dinic.add_flow.
  repeat (apply bind_no_timeout; [apply index_no_timeout|intros ? _]).
  discriminate.
Qed.

Lemma sub_flow_no_timeout a u i f : Dinic.sub_flow a u i f <> OutOfFuel.
Proof.
  unfold Dinic.sub_flow.
  repeat (apply bind_no_timeout; [apply index_no_timeout|intros ? _]).
  discriminate.
Qed.

Lemma push_no_timeout a u i f : Dinic.push a u i f <> OutOfFuel.
Proof.
  unfold Dinic.push.
  repeat (apply bind_no_timeout; [apply index_no_timeout|intros ? _]).
  apply bind_no_timeout; [apply add_flow_no_timeout|intros ? _].
  apply sub_flow_no_timeout.
Qed.

Lemma scan_no_timeout rec level u pushed k i st :
  (forall v p st' lv lu,
     level !! v = Some lv -> level !! u = Some lu -> lv = (lu + 1)%Z ->
     rec v p st' <> OutOfFuel) ->
  Dinic.scan rec level u pushed k i st <> OutOfFuel.
Proof.
  intros Hrec. revert i st. induction k as [|k IH]; intros i [a it]; simpl.
  - discriminate.
  - apply bind_no_timeout; [apply index_no_timeout|]. intros adj_u _.
    apply bind_no_timeout; [apply index_no_timeout|]. intros e _.
    apply bind_no_timeout.
    { destruct (fgt (Dinic.residual e) EPS); [|discriminate].
      repeat (apply bind_no_timeout; [apply index_no_timeout|intros ? _]).
      discriminate. }
    intros [|] Hadm; [|apply IH].
    destruct (fgt (Dinic.residual e) EPS); [|discriminate].
    inv_bind Hadm. rename a0 into lv. inv_bind Hadm. rename a0 into lu.
    injection Hadm as Hadm. apply Z.eqb_eq in Hadm.
    apply index_Ret in Ha, Ha0.
    apply bind_no_timeout; [eapply Hrec; eauto|].
    intros [to_push [a' it']] _. destruct (fgt to_push EPS); [|apply IH].
    apply bind_no_timeout; [apply push_no_timeout|]. discriminate.
Qed.

Lemma dfs_flow_no_timeout N depth tgt level u pushed st :
  (forall i l, level !! i = Some l -> (l < N)%Z) ->
  (forall lu, level !! u = Some lu -> (N <= Z.of_nat depth + lu)%Z) ->
  0 < depth \/ u = tgt ->
  Dinic.dfs_flow depth tgt level u pushed st <> OutOfFuel.
Proof.
  intros Hbound. revert u pushed st.
  induction depth as [|d IH]; intros u pushed st Hu Hpos; simpl.
  - destruct Hpos as [Hpos| ->]; [lia|]. rewrite Nat.eqb_refl. discriminate.
  - destruct (Nat.eqb u tgt); [discriminate|].
    apply bind_no_timeout; [apply index_no_timeout|]. intros adj_u _.
    apply bind_no_timeout; [apply index_no_timeout|]. intros i0 _.
    apply scan_no_timeout. intros v p st' lv lu Hlv Hlu ->.
    pose proof (Hu lu Hlu) as Hdepth. pose proof (Hbound v _ Hlv) as Hv.
    apply IH.
    + intros lv' Hlv'. rewrite Hlv in Hlv'. injection Hlv' as <-. lia.
    + left. lia.
Qed.

(** In [max_flow] the search for a path returns or raises: with the
    levels of [bfs_level] at hand, [dfs_flow] has frames to spare. *)
Lemma dfs_flow_after_bfs_no_timeout g s tgt level lt pushed st :
  Dinic.bfs_level g s tgt = Ret level -> index level tgt = Ret lt ->
  Dinic.dfs_flow (Dinic.n g) tgt level s pushed st <> OutOfFuel.
Proof.
  intros Hbfs Hlt. apply bfs_level_levels in Hbfs as (Hlen & Hs & Hbound).
  apply index_Ret, lookup_lt_Some in Hlt.
  apply (dfs_flow_no_timeout (Z.of_nat (Dinic.n g))).
  - exact Hbound.
  - intros lu Hlu. rewrite Hs in Hlu. injection Hlu as <-. lia.
  - left. lia.
Qed.

Lemma unvisited_insert vis i :
  vis !! i = Some false -> S (unvisited (<[i := true]> vis)) = unvisited vis.
Proof.
  unfold unvisited. revert i. induction vis as [|b vis IH]; intros i Hi.
  - discriminate.
  - destruct i as [|i].
    + injection Hi as ->. change (<[0 := true]> (false :: vis)) with (true :: vis).
      rewrite !filter_cons.
      destruct (decide (true = false)); [discriminate|].
      destruct (decide (false = false)); [reflexivity|congruence].
    + change (<[S i := true]> (b :: vis)) with (b :: <[i := true]> vis).
      rewrite !filter_cons. specialize (IH i Hi).
      destruct (decide (b = false)); simpl; lia.
Qed.

Lemma reach_visit_no_timeout st e : Dinic.reach_visit st e <> OutOfFuel.
Proof.
  destruct st as [vis q]. unfold Dinic.reach_visit.
  apply bind_no_timeout; [apply index_no_timeout|]. intros v _.
  destruct (negb v && fgt (Dinic.residual e) EPS); discriminate.
Qed.

Lemma reach_visit_measure vis q e vis' q' :
  Dinic.reach_visit (vis, q) e = Ret (vis', q') ->
  length q' + unvisited vis' = length q + unvisited vis.
Proof.
  unfold Dinic.reach_visit. intros H. inv_bind H. rename a into v.
  destruct (negb v && fgt (Dinic.residual e) EPS) eqn:Hc.
  - injection H as <- <-. apply andb_true_iff in Hc as [Hv _].
    destruct v; [discriminate|]. apply index_Ret in Ha.
    pose proof (unvisited_insert vis (Dinic.to e) Ha) as Hun.
    rewrite length_app. simpl. lia.
  - injection H as <- <-. reflexivity.
Qed.

Lemma reach_visits_measure adj_u vis q vis' q' :
  for_each Dinic.reach_visit adj_u (vis, q) = Ret (vis', q') ->
  length q' + unvisited vis' = length q + unvisited vis.
Proof.
  revert vis q. induction adj_u as [|e adj_u IH]; intros vis q H; simpl in H.
  - injection H as <- <-. reflexivity.
  - inv_bind H. destruct a as [vis1 q1].
    apply reach_visit_measure in Ha. apply IH in H. lia.
Qed.

Lemma reach_loop_no_timeout budget g vis q :
  length q + unvisited vis <= budget ->
  Dinic.reach_loop budget g vis q <> OutOfFuel.
Proof.
  revert vis q. induction budget as [|b IH]; intros vis q Hm.
  - destruct q; simpl in *; [discriminate|lia].
  - destruct q as [|u q]; simpl; [discriminate|].
    apply bind_no_timeout; [apply index_no_timeout|]. intros adj_u _.
    apply bind_no_timeout.
    { apply for_each_no_timeout. intros. apply reach_visit_no_timeout. }
    intros [vis' q'] Hvisit. apply reach_visits_measure in Hvisit.
    apply IH. simpl in Hm. lia.
Qed.

Lemma unvisited_replicate k : unvisited (replicate k false) = k.
Proof.
  unfold unvisited. induction k as [|k IH]; [reflexivity|].
  change (replicate (S k) false) with (false :: replicate k false).
  rewrite filter_cons. destruct (decide (false = false)); [|congruence].
  simpl. rewrite IH. reflexivity.
Qed.

Lemma reachable_from_no_timeout g s : Dinic.reachable_from g s <> OutOfFuel.
Proof.
  unfold Dinic.reachable_from. apply bind_no_timeout; [apply index_no_timeout|].
  intros x Hx. apply index_Ret in Hx.
  apply lookup_replicate in Hx as Hs. destruct Hs as [_ Hs].
  assert (Hlk : replicate (Dinic.n g) false !! s = Some false)
    by (apply lookup_replicate; auto).
  pose proof (unvisited_insert _ s Hlk) as Hun.
  rewrite unvisited_replicate in Hun.
  apply reach_loop_no_timeout. simpl. lia.
Qed.

(** ** Comparisons of floats *)

Lemma SFcompare_rank f1 f2 :
  f1 <> S754_nan -> f2 <> S754_nan ->
  exists c, SFcompare f1 f2 = Some c /\
    match c with
    | Lt => lex_lt (rank f1) (rank f2)
    | Eq => rank f1 = rank f2
    | Gt => lex_lt (rank f2) (rank f1)
    end.
Proof.
  destruct f1 as [s1|s1| |s1 m1 e1], f2 as [s2|s2| |s2 m2 e2]; intros H1 H2;
    try congruence; simpl;
    try (destruct s1); try (destruct s2); simpl;
    try (eexists; split; [reflexivity|]; simpl; first [reflexivity | lia]).
  all: change (Pos.compare_cont Eq m1 m2) with (Pos.compare m1 m2).
  all: destruct (Z.compare_spec e1 e2), (Pos.compare_spec m1 m2); simpl;
    eexists; (split; [reflexivity|]); simpl;
    try lia; try (f_equal; lia); try congruence.
Qed.

Lemma SFcompare_nan_l f : SFcompare S754_nan f = None.
Proof. destruct f; reflexivity. Qed.

Lemma SFcompare_nan_r f : SFcompare f S754_nan = None.
Proof. destruct f; reflexivity. Qed.

Lemma ltb_rank x y :
  (x <? y)%float = true <->
  is_number x /\ is_number y /\ lex_lt (rank (Prim2SF x)) (rank (Prim2SF y)).
Proof.
  rewrite ltb_spec. unfold SFltb, is_number.
  destruct (Prim2SF x) as [sx|sx| |sx mx ex] eqn:Hx;
    [| |rewrite SFcompare_nan_l; split; [discriminate|intros (H & _); congruence]|];
    (destruct (Prim2SF y) as [sy|sy| |sy my ey] eqn:Hy;
     [| |rewrite SFcompare_nan_r; split; [discriminate|intros (_ & H & _); congruence]|]).
  all: match goal with
       | |- context [SFcompare ?a ?b] =>
           destruct (SFcompare_rank a b) as (c & -> & Hc); [discriminate..|]
       end.
  all: destruct c; (split; [intros H; try discriminate;
                            (split; [discriminate|split; [discriminate|exact Hc]])
                           |intros (_ & _ & H); try reflexivity; exfalso]).
  all: revert Hc H; unfold lex_lt;
    repeat match goal with |- context [rank ?f] => destruct (rank f) as [[? ?] ?] end;
    intros; try (injection Hc as -> -> ->); lia.
Qed.

Lemma ltb_number x y :
  (x <? y)%float = true -> is_number x /\ is_number y.
Proof. rewrite ltb_rank. tauto. Qed.

Lemma ltb_asym x y : (x <? y)%float = true -> (y <? x)%float = false.
Proof.
  intros H. apply not_true_is_false. rewrite ltb_rank in *.
  intros (_ & _ & H'). destruct H as (_ & _ & H). revert H H'. unfold lex_lt.
  destruct (rank (Prim2SF x)) as [[? ?] ?], (rank (Prim2SF y)) as [[? ?] ?].
  lia.
Qed.

Lemma ltb_trans x y z :
  (x <? y)%float = true -> (y <? z)%float = true -> (x <? z)%float = true.
Proof.
  rewrite !ltb_rank. intros (Hx & _ & H) (_ & Hz & H').
  split; [exact Hx|]. split; [exact Hz|]. revert H H'. unfold lex_lt.
  destruct (rank (Prim2SF x)) as [[? ?] ?], (rank (Prim2SF y)) as [[? ?] ?],
    (rank (Prim2SF z)) as [[? ?] ?].
  lia.
Qed.

Lemma zero_lt_EPS : (0 <? EPS)%float = true.
Proof. reflexivity. Qed.

Lemma fmax_zero_not_negative x : not_negative (fmax 0 x).
Proof.
  unfold not_negative, fmax. destruct (0 <? x)%float eqn:H.
  - apply ltb_asym, H.
  - reflexivity.
Qed.

Lemma above_EPS_not_negative d : fgt d EPS = true -> not_negative d.
Proof.
  unfold fgt, not_negative. intros H. apply ltb_asym.
  apply ltb_trans with EPS; [exact zero_lt_EPS|exact H].
Qed.

Lemma below_neg_EPS_opp_not_negative d :
  (d <? - EPS)%float = true -> not_negative (- d)%float.
Proof.
  unfold not_negative. intros H. apply not_true_is_false. intros H'.
  apply ltb_rank in H as (_ & _ & H). apply ltb_rank in H' as (_ & _ & H').
  rewrite opp_spec in H'.
  change (Prim2SF (- EPS)) with (S754_finite true 4835703278458517 (-82)) in H.
  change (Prim2SF 0) with (S754_zero false) in H'.
  destruct (Prim2SF d) as [s|s| |s m e]; try destruct s; simpl in H, H'; lia.
Qed.

(** ** The node set and the index assignment *)

Lemma foldl_endpoints_mono (l : list EdgeSpec.t) (s : gset string) x :
  x ∈ s ->
  x ∈ foldl (fun s e => s ∪ {[EdgeSpec.from e]} ∪ {[EdgeSpec.to e]}) s l.
Proof.
  revert s. induction l as [|e l IH]; intros s Hx; simpl; [exact Hx|].
  apply IH. set_solver.
Qed.

Lemma foldl_endpoints_elem (l : list EdgeSpec.t) (s : gset string) e :
  e ∈ l ->
  EdgeSpec.from e ∈
    foldl (fun s e => s ∪ {[EdgeSpec.from e]} ∪ {[EdgeSpec.to e]}) s l /\
  EdgeSpec.to e ∈
    foldl (fun s e => s ∪ {[EdgeSpec.from e]} ∪ {[EdgeSpec.to e]}) s l.
Proof.
  revert s. induction l as [|e' l IH]; intros s He; [inversion He|].
  simpl. apply elem_of_cons in He as [->|He]; [clear IH|apply IH, He].
  split; apply foldl_endpoints_mono.
  - apply elem_of_union_l, elem_of_union_r, elem_of_singleton. reflexivity.
  - apply elem_of_union_r, elem_of_singleton. reflexivity.
Qed.

Lemma foldl_keys_mono (l : list string) (s : gset string) x :
  x ∈ s -> x ∈ foldl (fun s k => s ∪ {[k]}) s l.
Proof.
  revert s. induction l as [|k l IH]; intros s Hx; simpl; [exact Hx|].
  apply IH. set_solver.
Qed.

Lemma foldl_keys_elem (l : list string) (s : gset string) k :
  k ∈ l -> k ∈ foldl (fun s k => s ∪ {[k]}) s l.
Proof.
  revert s. induction l as [|k' l IH]; intros s Hk; [inversion Hk|].
  simpl. apply elem_of_cons in Hk as [->|Hk]; [|apply IH, Hk].
  apply foldl_keys_mono. set_solver.
Qed.

Lemma node_set_sink data snk : snk ∈ node_set data snk.
Proof. unfold node_set. set_solver. Qed.

Lemma node_set_endpoints data snk e :
  e ∈ edges data ->
  EdgeSpec.from e ∈ node_set data snk /\ EdgeSpec.to e ∈ node_set data snk.
Proof.
  intros He. unfold node_set.
  destruct (foldl_endpoints_elem (edges data) (list_to_set (nodes data)) e He)
    as [Hf Ht].
  split; apply elem_of_union_l; apply foldl_keys_mono; assumption.
Qed.

Lemma node_set_source data snk s :
  s ∈ dom (sources data) -> s ∈ node_set data snk.
Proof.
  intros Hs. unfold node_set. apply elem_of_union_l, foldl_keys_elem.
  apply elem_of_elements, Hs.
Qed.

Lemma assign_indices_fold (l : list string) m k idx next :
  foldl (fun '(m, idx) v => (<[v := (idx, idx + 1)]> m, idx + 2)) (m, k) l
    = (idx, next) ->
  indices_below m k ->
  indices_below idx next /\ k <= next /\
  (forall v, v ∈ l \/ is_Some (m !! v) -> is_Some (idx !! v)).
Proof.
  revert m k. induction l as [|x l IH]; intros m k Hfold Hm; simpl in Hfold.
  - injection Hfold as <- <-. split; [exact Hm|]. split; [lia|].
    intros v [Hv|Hv]; [inversion Hv|exact Hv].
  - apply IH in Hfold as (Hidx & Hle & Hdom).
    + split; [exact Hidx|]. split; [lia|].
      intros v Hv. apply Hdom.
      destruct (decide (v = x)) as [->|Hne].
      * right. rewrite lookup_insert_eq. eauto.
      * rewrite lookup_insert_ne by congruence.
        destruct Hv as [Hv|Hv]; [|right; exact Hv].
        apply elem_of_cons in Hv as [Hv|Hv]; [congruence|left; exact Hv].
    + intros v i o Hv. destruct (decide (x = v)) as [->|Hne].
      * rewrite lookup_insert_eq in Hv. injection Hv as <- <-. lia.
      * rewrite lookup_insert_ne in Hv by exact Hne.
        apply Hm in Hv. lia.
Qed.

Lemma assign_indices_spec (l : list string) idx next :
  assign_indices l = (idx, next) ->
  indices_below idx next /\ (forall v, v ∈ l -> is_Some (idx !! v)).
Proof.
  intros H. apply assign_indices_fold in H as (Hidx & _ & Hdom).
  - split; [exact Hidx|]. intros v Hv. apply Hdom. left. exact Hv.
  - intros v i o Hv. rewrite lookup_empty in Hv. discriminate.
Qed.

(** ** [add_edge] within range *)

Lemma length_append_edge a u e :
  length (Dinic.append_edge a u e) = length a.
Proof.
  unfold Dinic.append_edge. destruct (a !! u); [apply length_insert|reflexivity].
Qed.

Lemma add_edge_Ret g u v c :
  u < length (Dinic.adj g) -> v < length (Dinic.adj g) ->
  exists g' h,
    Dinic.add_edge g u v c = Ret (g', h) /\
    length (Dinic.adj g') = length (Dinic.adj g) /\
    Dinic.n g' = Dinic.n g.
Proof.
  intros Hu Hv. unfold Dinic.add_edge.
  destruct (index_lt _ _ Hv) as (adj_v & -> & _).
  destruct (index_lt _ _ Hu) as (adj_u & -> & _).
  rewrite !bind_Ret.
  set (a2 := Dinic.append_edge _ v _).
  assert (Hlen : length a2 = length (Dinic.adj g))
    by (unfold a2; rewrite !length_append_edge; reflexivity).
  destruct (index_lt a2 u) as (adj_u' & -> & _); [lia|].
  rewrite bind_Ret. eexists _, _. split; [reflexivity|].
  split; [exact Hlen|reflexivity].
Qed.

Lemma add_node_edge_Ret idx caps g v :
  indices_below idx (length (Dinic.adj g)) -> is_Some (idx !! v) ->
  exists g',
    add_node_edge idx caps g v = Ret g' /\
    length (Dinic.adj g') = length (Dinic.adj g) /\
    Dinic.n g' = Dinic.n g.
Proof.
  intros Hidx [[i o] Hv]. unfold add_node_edge.
  apply getitem_Ret in Hv as Hget. rewrite Hget, bind_Ret.
  destruct (Hidx _ _ _ Hv) as [Hi Ho].
  destruct (add_edge_Ret g i o
              (match caps !! v with Some c => c | None => INF end) Hi Ho)
    as (g' & h & -> & Hlen & Hn).
  rewrite bind_Ret. exists g'. split; [reflexivity|]. split; assumption.
Qed.

Lemma add_node_edges_Ret idx caps (l : list string) g :
  indices_below idx (length (Dinic.adj g)) ->
  (forall v, v ∈ l -> is_Some (idx !! v)) ->
  exists g',
    for_each (add_node_edge idx caps) l g = Ret g' /\
    length (Dinic.adj g') = length (Dinic.adj g) /\
    Dinic.n g' = Dinic.n g.
Proof.
  revert g. induction l as [|v l IH]; intros g Hidx Hdom; simpl.
  - eauto.
  - destruct (add_node_edge_Ret idx caps g v Hidx) as (g' & -> & Hlen & Hn).
    { apply Hdom, list_elem_of_here. }
    rewrite bind_Ret.
    destruct (IH g') as (g'' & -> & Hlen' & Hn').
    + rewrite Hlen. exact Hidx.
    + intros w Hw. apply Hdom, list_elem_of_further, Hw.
    + exists g''. split; [reflexivity|]. split; congruence.
Qed.

(** ** What [add_edge] adds *)

Lemma append_edge_lookup a u e w l' :
  Dinic.append_edge a u e !! w = Some l' ->
  exists l, a !! w = Some l /\ (l' = l \/ (w = u /\ l' = l ++ [e])).
Proof.
  unfold Dinic.append_edge. destruct (a !! u) as [l|] eqn:Hu; [|eauto].
  destruct (decide (u = w)) as [<-|Hne].
  - rewrite list_lookup_insert_eq by (eapply lookup_lt_Some; eauto).
    intros [= <-]. eauto.
  - rewrite list_lookup_insert_ne by exact Hne. eauto.
Qed.

Lemma append_edge_keeps a u e w l :
  a !! w = Some l ->
  exists l', Dinic.append_edge a u e !! w = Some l' /\
             (forall x, x ∈ l -> x ∈ l').
Proof.
  intros Hw. unfold Dinic.append_edge. destruct (a !! u) as [lu|] eqn:Hu; [|eauto].
  destruct (decide (u = w)) as [<-|Hne].
  - rewrite list_lookup_insert_eq by (eapply lookup_lt_Some; eauto).
    exists (lu ++ [e]). split; [reflexivity|]. intros x Hx.
    apply elem_of_app. left. congruence.
  - rewrite list_lookup_insert_ne by exact Hne. eauto.
Qed.

Lemma append_edge_adds a u e l :
  a !! u = Some l -> Dinic.append_edge a u e !! u = Some (l ++ [e]).
Proof.
  intros Hu. unfold Dinic.append_edge. rewrite Hu.
  apply list_lookup_insert_eq. eapply lookup_lt_Some; eauto.
Qed.

Lemma not_negative_zero : not_negative 0.
Proof. reflexivity. Qed.

Lemma add_edge_spec g u v c g' h :
  Dinic.add_edge g u v c = Ret (g', h) ->
  length (Dinic.adj g') = length (Dinic.adj g) /\
  Dinic.n g' = Dinic.n g /\
  has_edge g' u v c /\
  (forall u' v' c', has_edge g u' v' c' -> has_edge g' u' v' c') /\
  (not_negative c -> caps_not_negative g -> caps_not_negative g').
Proof.
  unfold Dinic.add_edge. intros H.
  inv_bind H. rename a into adj_v. inv_bind H. rename a into adj_u.
  inv_bind H. injection H as <- _. simpl.
  apply index_Ret in Ha0 as Hu.
  split; [rewrite !length_append_edge; reflexivity|].
  split; [reflexivity|]. split; [|split].
  - apply (append_edge_adds _ _ (Dinic.new_edge v (length adj_v) c)) in Hu.
    destruct (append_edge_keeps _ v (Dinic.new_edge u (length adj_u) 0) _ _ Hu)
      as (l' & Hl' & Hsub).
    exists l', (Dinic.new_edge v (length adj_v) c).
    split; [exact Hl'|]. split; [|split; reflexivity].
    apply Hsub, elem_of_app. right. apply list_elem_of_here.
  - intros u' v' c' (l & e & Hl & He & Hto & Hcap).
    destruct (append_edge_keeps _ u (Dinic.new_edge v (length adj_v) c) _ _ Hl)
      as (l1 & Hl1 & Hsub1).
    destruct (append_edge_keeps _ v (Dinic.new_edge u (length adj_u) 0) _ _ Hl1)
      as (l2 & Hl2 & Hsub2).
    exists l2, e. split; [exact Hl2|]. split; [apply Hsub2, Hsub1, He|].
    split; assumption.
  - intros Hc Hg w l2 e Hl2 He.
    apply append_edge_lookup in Hl2 as (l1 & Hl1 & Hcase2).
    apply append_edge_lookup in Hl1 as (l & Hl & Hcase1).
    assert (Hin : e ∈ l \/ e = Dinic.new_edge v (length adj_v) c \/
                  e = Dinic.new_edge u (length adj_u) 0).
    { destruct Hcase2 as [->|[_ ->]], Hcase1 as [->|[_ ->]];
        repeat (apply elem_of_app in He as [He|He]);
        try (apply list_elem_of_singleton in He); auto. }
    destruct Hin as [Hin|[->| ->]].
    + eapply Hg; eauto.
    + exact Hc.
    + exact not_negative_zero.
Qed.

(** ** The validation of the edge bounds *)

Lemma add_user_edges_inl idx es st msg :
  add_user_edges idx es st = Ret (inl msg) ->
  exists e, e ∈ es /\ hi_lt_lo e = true /\
            msg = hi_lt_lo_message (EdgeSpec.from e) (EdgeSpec.to e).
Proof.
  revert st. induction es as [|e es IH]; intros [[g em] dem] H; simpl in H.
  - discriminate.
  - destruct (EdgeSpec.get_hi e + EPS <? EdgeSpec.get_lo e)%float eqn:Hbad.
    + injection H as <-. exists e. split; [apply list_elem_of_here|]. eauto.
    + inv_bind H. destruct a as [i_u u_out].
      inv_bind H. destruct a as [v_in o_v].
      inv_bind H. destruct a as [g' h].
      apply IH in H as (e' & He' & Hbad' & ->).
      exists e'. split; [apply list_elem_of_further, He'|]. eauto.
Qed.

Lemma add_user_edges_first_bad idx es g em dem :
  indices_below idx (length (Dinic.adj g)) ->
  (forall e, e ∈ es ->
     is_Some (idx !! EdgeSpec.from e) /\ is_Some (idx !! EdgeSpec.to e)) ->
  Exists (fun e => hi_lt_lo e = true) es ->
  exists msg, add_user_edges idx es (g, em, dem) = Ret (inl msg).
Proof.
  intros Hidx Hdom Hex. revert g em dem Hidx.
  induction es as [|e es IH]; intros g em dem Hidx; [inversion Hex|].
  simpl. destruct (EdgeSpec.get_hi e + EPS <? EdgeSpec.get_lo e)%float eqn:Hbad.
  - eauto.
  - destruct (Hdom e) as [[[iu ou] Hu] [[iv ov] Hv]]; [apply list_elem_of_here|].
    apply getitem_Ret in Hu as Hgu. apply getitem_Ret in Hv as Hgv.
    rewrite Hgu, bind_Ret, Hgv, bind_Ret.
    destruct (Hidx _ _ _ Hu) as [_ Hou]. destruct (Hidx _ _ _ Hv) as [Hiv _].
    destruct (add_edge_Ret g ou iv
                (fmax 0 (EdgeSpec.get_hi e - EdgeSpec.get_lo e)) Hou Hiv)
      as (g' & h & -> & Hlen & _).
    rewrite bind_Ret. apply IH.
    + intros e' He'. apply Hdom, list_elem_of_further, He'.
    + apply Exists_cons in Hex as [Hex|Hex]; [|exact Hex].
      unfold hi_lt_lo in Hex. congruence.
    + rewrite Hlen. exact Hidx.
Qed.

Lemma add_user_edges_accept idx es g em dem :
  indices_below idx (length (Dinic.adj g)) ->
  (forall e, e ∈ es ->
     is_Some (idx !! EdgeSpec.from e) /\ is_Some (idx !! EdgeSpec.to e)) ->
  Forall (fun e => hi_lt_lo e = false) es ->
  exists g' em' dem',
    add_user_edges idx es (g, em, dem) = Ret (inr (g', em', dem')) /\
    length (Dinic.adj g') = length (Dinic.adj g) /\ Dinic.n g' = Dinic.n g.
Proof.
  intros Hidx Hdom Hall. revert g em dem Hidx.
  induction es as [|e es IH]; intros g em dem Hidx; simpl; [eauto 6|].
  apply Forall_cons in Hall as [Hok Hall]. unfold hi_lt_lo in Hok. rewrite Hok.
  destruct (Hdom e) as [[[iu ou] Hu] [[iv ov] Hv]]; [apply list_elem_of_here|].
  apply getitem_Ret in Hu as Hgu. apply getitem_Ret in Hv as Hgv.
  rewrite Hgu, bind_Ret, Hgv, bind_Ret.
  destruct (Hidx _ _ _ Hu) as [_ Hou]. destruct (Hidx _ _ _ Hv) as [Hiv _].
  destruct (add_edge_Ret g ou iv
              (fmax 0 (EdgeSpec.get_hi e - EdgeSpec.get_lo e)) Hou Hiv)
    as (g' & h & -> & Hlen & Hn).
  rewrite bind_Ret.
  destruct (IH (fun e' He' => Hdom e' (list_elem_of_further _ _ _ He')) Hall
              g' (em ++ [Rec.mk (EdgeSpec.from e) (EdgeSpec.to e)
                           (EdgeSpec.get_lo e) (EdgeSpec.get_hi e) ou iv])
              (<[EdgeSpec.to e :=
                   (demand_of (<[EdgeSpec.from e :=
                        (demand_of dem (EdgeSpec.from e) - EdgeSpec.get_lo e)%float]> dem)
                      (EdgeSpec.to e) + EdgeSpec.get_lo e)%float]>
                 (<[EdgeSpec.from e :=
                      (demand_of dem (EdgeSpec.from e) - EdgeSpec.get_lo e)%float]> dem)))
    as (g'' & em'' & dem'' & Hrun & Hlen' & Hn').
  { rewrite Hlen. exact Hidx. }
  exists g'', em'', dem''. split; [exact Hrun|]. split; congruence.
Qed.

Lemma build_indices data snk idx next :
  assign_indices (sorted str_lt (elements (node_set data snk))) = (idx, next) ->
  indices_below idx (next + 2) /\
  (forall v, v ∈ node_set data snk -> is_Some (idx !! v)).
Proof.
  intros H. apply assign_indices_spec in H as [Hidx Hdom]. split.
  - intros v i o Hv. apply Hidx in Hv. lia.
  - intros v Hv. apply Hdom, elem_of_sorted, elem_of_elements, Hv.
Qed.

Lemma build_inl data snk msg :
  build data snk = Ret (inl msg) ->
  exists e, e ∈ edges data /\ hi_lt_lo e = true /\
            msg = hi_lt_lo_message (EdgeSpec.from e) (EdgeSpec.to e).
Proof.
  unfold build. destruct (assign_indices _) as [idx next]. intros H.
  inv_bind H. inv_bind H. destruct a0 as [msg'|[[g2 em] dem]].
  - injection H as <-. apply add_user_edges_inl in Ha0 as (e & He & Hbad & ->).
    exists e. split; [|eauto]. apply elem_of_sorted in He. exact He.
  - inv_bind H. destruct a0 as [ts dem1]. inv_bind H. destruct a0 as [g3 sp].
    discriminate.
Qed.

Lemma build_rejects data snk :
  Exists (fun e => hi_lt_lo e = true) (edges data) ->
  exists msg, build data snk = Ret (inl msg).
Proof.
  intros Hex. unfold build.
  destruct (assign_indices _) as [idx next] eqn:Hassign.
  apply build_indices in Hassign as [Hidx Hdom].
  destruct (add_node_edges_Ret idx (node_caps data)
              (sorted str_lt (elements (node_set data snk)))
              (Dinic.init (next + 2))) as (g1 & -> & Hlen & _).
  { simpl. rewrite length_replicate. exact Hidx. }
  { intros v Hv. apply Hdom. apply elem_of_sorted, elem_of_elements in Hv.
    exact Hv. }
  rewrite bind_Ret.
  destruct (add_user_edges_first_bad idx (sorted edge_sort_key_lt (edges data))
              g1 [] ∅) as (msg & ->).
  - rewrite Hlen. simpl. rewrite length_replicate. exact Hidx.
  - intros e He. apply elem_of_sorted in He.
    destruct (node_set_endpoints data snk e He). split; apply Hdom; assumption.
  - apply Exists_exists in Hex as (e & He & Hbad). apply Exists_exists.
    exists e. split; [|exact Hbad]. apply elem_of_sorted. exact He.
  - exists msg. reflexivity.
Qed.

(** ** The three kinds of result *)

Lemma certificate_infeasible net g flowed r :
  certificate net g flowed = Ret r ->
  exists cut db tn te, r = Infeasible cut db tn te.
Proof.
  unfold certificate. intros H. do 4 inv_bind H. injection H as <-. eauto.
Qed.

Lemma reconstruct_ok net g r :
  reconstruct net g = Ret r ->
  exists flows, r = Ok (total_supply net) flows.
Proof.
  unfold reconstruct. intros H. inv_bind H. injection H as <-. eauto.
Qed.

Lemma run_belts_error fuel data msg :
  run_belts fuel data = Ret (Error msg) ->
  (sink data = None /\ msg = "sink not specified") \/
  (exists snk, sink data = Some snk /\ build data snk = Ret (inl msg)).
Proof.
  unfold run_belts. destruct (sink data) as [snk|].
  - intros H. right. exists snk. split; [reflexivity|].
    inv_bind H. destruct a as [msg'|net].
    + injection H as <-. exact Ha.
    + inv_bind H. destruct a as [flowed g].
      destruct (flowed + EPS <? sum_pos_demands net)%float.
      * apply certificate_infeasible in H as (? & ? & ? & ? & H). discriminate.
      * apply reconstruct_ok in H as (? & H). discriminate.
  - intros H. injection H as <-. left. split; reflexivity.
Qed.

(** C3: [run_belts] returns status "error" exactly when the sink is
    missing or some edge has [hi + 1e-9 < lo].  An error for a request
    with a sink carries the message "edge hi < lo for u->v" of an edge
    [u -> v] of the request with [hi + 1e-9 < lo].  The error is returned
    before the solve: it is the outcome even when [max_flow] is allowed no
    iteration at all, and an error result has a message and nothing else. *)
Theorem error_iff_no_sink_or_hi_lt_lo :
  forall fuel data,
    ((exists msg, run_belts fuel data = Ret (Error msg)) <->
     (sink data = None \/ Exists (fun e => hi_lt_lo e = true) (edges data)))
    /\
    (forall msg, run_belts fuel data = Ret (Error msg) ->
       run_belts 0 data = Ret (Error msg) /\
       (sink data <> None ->
        exists e, e ∈ edges data /\ hi_lt_lo e = true /\
          msg = ("edge hi < lo for " ++ EdgeSpec.from e ++ "->" ++ EdgeSpec.to e)%string)).
Proof.
  intros fuel data. split; [split|].
  - intros [msg H]. apply run_belts_error in H as [[H _]|(snk & Hs & H)].
    + left. exact H.
    + right. apply build_inl in H as (e & He & Hbad & _).
      apply Exists_exists. eauto.
  - intros [Hnone|Hex]; unfold run_belts.
    + rewrite Hnone. eauto.
    + destruct (sink data) as [snk|]; [|eauto].
      destruct (build_rejects data snk Hex) as (msg & ->). eauto.
  - intros msg H. apply run_belts_error in H as [[Hs ->]|(snk & Hs & H)].
    + split; [unfold run_belts; rewrite Hs; reflexivity|]. congruence.
    + split; [unfold run_belts; rewrite Hs, H; reflexivity|].
      intros _. apply build_inl in H. exact H.
Qed.

(** ** The reported throughput *)

Lemma add_supplies_total srcs (l : list string) t d t' d' :
  for_each (add_supply srcs) l (t, d) = Ret (t', d') ->
  t' = foldl (fun acc s => (acc + default 0%float (srcs !! s))%float) t l.
Proof.
  revert t d. induction l as [|s l IH]; intros t d H; simpl in H.
  - injection H as <- _. reflexivity.
  - inv_bind H. destruct a as [t1 d1]. unfold add_supply in Ha.
    inv_bind Ha. injection Ha as <- <-. apply getitem_Ret in Ha0.
    apply IH in H. simpl. rewrite Ha0. exact H.
Qed.

Lemma build_total_supply data snk net :
  build data snk = Ret (inr net) ->
  total_supply net = supply_sum (sources data).
Proof.
  unfold build. destruct (assign_indices _) as [idx next]. intros H.
  inv_bind H. inv_bind H. destruct a0 as [msg|[[g2 em] dem]]; [discriminate|].
  inv_bind H. destruct a0 as [ts dem1]. inv_bind H. destruct a0 as [g3 sp].
  injection H as <-. simpl. apply add_supplies_total in Ha1. exact Ha1.
Qed.

Lemma run_belts_ok fuel data mf flows :
  run_belts fuel data = Ret (Ok mf flows) ->
  exists snk net,
    sink data = Some snk /\ build data snk = Ret (inr net) /\
    mf = total_supply net.
Proof.
  unfold run_belts. destruct (sink data) as [snk|]; [|discriminate].
  intros H. inv_bind H. destruct a as [msg|net]; [discriminate|].
  exists snk, net. split; [reflexivity|]. split; [exact Ha|].
  inv_bind H. destruct a as [flowed g].
  destruct (flowed + EPS <? sum_pos_demands net)%float.
  - apply certificate_infeasible in H as (? & ? & ? & ? & H). discriminate.
  - apply reconstruct_ok in H as (? & H). injection H as -> _. reflexivity.
Qed.

(** C4: whenever [run_belts] returns status "ok", the reported
    max_flow_per_min is the sum of the supplies in the sources mapping. *)
Theorem ok_reports_supply_sum :
  forall fuel data mf flows,
    run_belts fuel data = Ret (Ok mf flows) ->
    mf = supply_sum (sources data).
Proof.
  intros fuel data mf flows H.
  apply run_belts_ok in H as (snk & net & _ & Hbuild & ->).
  apply build_total_supply in Hbuild. exact Hbuild.
Qed.

Lemma ok_reports_supply_sum_witness :
  run_belts 64 backward_request = Ret (Ok 10 [Flow.mk "t" "s" 10]) /\
  10%float = supply_sum (sources backward_request).
Proof.
  assert (H : run_belts 64 backward_request = Ret (Ok 10 [Flow.mk "t" "s" 10]))
    by (vm_compute; reflexivity).
  split; [exact H|].
  exact (ok_reports_supply_sum 64 backward_request 10 [Flow.mk "t" "s" 10] H).
Defined.

(** ** The capacities the builder constructs *)

Lemma init_caps_not_negative k : caps_not_negative (Dinic.init k).
Proof.
  intros u adj_u e Hu He. simpl in Hu.
  apply lookup_replicate in Hu as [-> _]. inversion He.
Qed.

Lemma add_node_edge_spec idx caps g v g' :
  add_node_edge idx caps g v = Ret g' ->
  (forall w c, caps !! w = Some c -> not_negative c) ->
  caps_not_negative g -> caps_not_negative g'.
Proof.
  unfold add_node_edge. intros H Hcaps Hg.
  inv_bind H. destruct a as [v_in v_out]. inv_bind H. destruct a as [g1 h].
  injection H as <-. apply add_edge_spec in Ha0 as (_ & _ & _ & _ & Hkeep).
  apply Hkeep; [|exact Hg].
  destruct (caps !! v) as [c|] eqn:Hc; [eapply Hcaps; eauto|reflexivity].
Qed.

Lemma add_user_edges_spec idx es g em dem g' em' dem' :
  add_user_edges idx es (g, em, dem) = Ret (inr (g', em', dem')) ->
  (exists new,
     em' = em ++ new /\ Forall2 rec_of es new /\
     Forall (fun r => has_edge g' (Rec.u_out r) (Rec.v_in r)
                        (fmax 0 (Rec.hi r - Rec.lo r))) new) /\
  (forall u v c, has_edge g u v c -> has_edge g' u v c) /\
  (caps_not_negative g -> caps_not_negative g').
Proof.
  revert g em dem. induction es as [|e es IH]; intros g em dem H; simpl in H.
  - injection H as <- <- <-. split; [|auto].
    exists []. rewrite app_nil_r. auto.
  - destruct (EdgeSpec.get_hi e + EPS <? EdgeSpec.get_lo e)%float; [discriminate|].
    inv_bind H. destruct a as [i_u u_out].
    inv_bind H. destruct a as [v_in o_v].
    inv_bind H. destruct a as [g1 h].
    apply add_edge_spec in Ha1 as (_ & _ & Hnew & Hmono & Hcaps).
    apply IH in H as ((new & -> & Hrecs & Hedges) & Hmono' & Hcaps').
    split; [|split].
    + eexists (_ :: new). split; [rewrite <- app_assoc; reflexivity|].
      split; [constructor; [repeat split|exact Hrecs]|].
      constructor; [apply Hmono'; exact Hnew|exact Hedges].
    + intros u v c Huv. apply Hmono', Hmono, Huv.
    + intros Hg. apply Hcaps', Hcaps; [apply fmax_zero_not_negative|exact Hg].
Qed.

Lemma add_super_edge_spec idx demand s t g sp v g' sp' :
  add_super_edge idx demand s t (g, sp) v = Ret (g', sp') ->
  (forall u w c, has_edge g u w c -> has_edge g' u w c) /\
  (caps_not_negative g -> caps_not_negative g').
Proof.
  unfold add_super_edge. intros H. inv_bind H. destruct a as [v_in v_out].
  destruct (fgt (demand_of demand v) EPS) eqn:Hpos;
    [|destruct (demand_of demand v <? - EPS)%float eqn:Hneg].
  - inv_bind H. destruct a as [g1 h]. injection H as <- _.
    apply add_edge_spec in Ha0 as (_ & _ & _ & Hmono & Hcaps).
    split; [exact Hmono|]. apply Hcaps, above_EPS_not_negative, Hpos.
  - inv_bind H. destruct a as [g1 h]. injection H as <- _.
    apply add_edge_spec in Ha0 as (_ & _ & _ & Hmono & Hcaps).
    split; [exact Hmono|]. apply Hcaps, below_neg_EPS_opp_not_negative, Hneg.
  - injection H as <- _. auto.
Qed.

Lemma build_spec data snk net :
  build data snk = Ret (inr net) ->
  Forall2 rec_of (sorted edge_sort_key_lt (edges data)) (edge_map net) /\
  Forall (fun r => has_edge (G net) (Rec.u_out r) (Rec.v_in r)
                     (fmax 0 (Rec.hi r - Rec.lo r))) (edge_map net) /\
  ((forall v c, node_caps data !! v = Some c -> not_negative c) ->
   caps_not_negative (G net)).
Proof.
  unfold build. destruct (assign_indices _) as [idx next]. intros H.
  inv_bind H. rename a into g1.
  inv_bind H. destruct a as [msg|[[g2 em] dem]]; [discriminate|].
  inv_bind H. destruct a as [ts dem1]. inv_bind H. destruct a as [g3 sp].
  injection H as <-. simpl.
  apply add_user_edges_spec in Ha0 as ((new & -> & Hrecs & Hedges) & _ & Hcaps2).
  simpl.
  set (P := fun st : Dinic.t * float =>
              (forall u w c, has_edge g2 u w c -> has_edge (fst st) u w c) /\
              (caps_not_negative g2 -> caps_not_negative (fst st))).
  assert (H3 : P (g3, sp)).
  { refine (for_each_invariant P _ _ (g2, 0%float) (g3, sp) _ _ Ha2);
      [|split; [intros u w c Hh|intros Hh]; exact Hh].
    intros [g s] v [g' s'] _ [Hm Hc] Hstep.
    apply add_super_edge_spec in Hstep as [Hm' Hc'].
    simpl in *. split.
    - intros u w c Hh. apply Hm', Hm, Hh.
    - intros Hg2. apply Hc', Hc, Hg2. }
  destruct H3 as [Hmono3 Hcaps3]. simpl in *.
  split; [exact Hrecs|]. split.
  - eapply Forall_impl; [exact Hedges|]. intros r Hr. apply Hmono3, Hr.
  - intros Hcaps. apply Hcaps3, Hcaps2.
    eapply (for_each_invariant caps_not_negative); [|apply init_caps_not_negative|exact Ha].
    intros g v g' _ Hg Hstep. eapply add_node_edge_spec; eauto.
Qed.

(** ** The builder accepts every request whose edges pass the test *)

Lemma add_supply_Ret srcs st s :
  s ∈ dom srcs -> exists st', add_supply srcs st s = Ret st'.
Proof.
  intros Hs. apply elem_of_dom in Hs as [x Hx]. destruct st as [t d].
  unfold add_supply. apply getitem_Ret in Hx. rewrite Hx, bind_Ret. eauto.
Qed.

Lemma add_super_edge_Ret idx demand s t g sp v :
  indices_below idx (length (Dinic.adj g)) -> is_Some (idx !! v) ->
  s < length (Dinic.adj g) -> t < length (Dinic.adj g) ->
  exists g' sp',
    add_super_edge idx demand s t (g, sp) v = Ret (g', sp') /\
    length (Dinic.adj g') = length (Dinic.adj g).
Proof.
  intros Hidx [[i o] Hv] Hs Ht. unfold add_super_edge.
  apply getitem_Ret in Hv as Hget. rewrite Hget, bind_Ret.
  destruct (Hidx _ _ _ Hv) as [Hi Ho].
  destruct (fgt (demand_of demand v) EPS);
    [|destruct (demand_of demand v <? - EPS)%float].
  - destruct (add_edge_Ret g s i (demand_of demand v) Hs Hi)
      as (g' & h & -> & Hlen & _).
    rewrite bind_Ret. eauto.
  - destruct (add_edge_Ret g o t (- demand_of demand v)%float Ho Ht)
      as (g' & h & -> & Hlen & _).
    rewrite bind_Ret. eauto.
  - eauto.
Qed.

Lemma build_accepts data snk :
  Forall (fun e => hi_lt_lo e = false) (edges data) ->
  exists net, build data snk = Ret (inr net).
Proof.
  intros Hall. unfold build.
  destruct (assign_indices _) as [idx next] eqn:Hassign.
  apply build_indices in Hassign as [Hidx Hdom].
  set (nodes := sorted str_lt (elements (node_set data snk))).
  assert (Hnodes : forall v, v ∈ nodes -> is_Some (idx !! v)).
  { intros v Hv. apply Hdom. apply elem_of_sorted, elem_of_elements in Hv.
    exact Hv. }
  destruct (add_node_edges_Ret idx (node_caps data) nodes
              (Dinic.init (next + 2))) as (g1 & -> & Hlen1 & _).
  { simpl. rewrite length_replicate. exact Hidx. }
  { exact Hnodes. }
  simpl in Hlen1. rewrite length_replicate in Hlen1. rewrite bind_Ret.
  destruct (add_user_edges_accept idx (sorted edge_sort_key_lt (edges data))
              g1 [] ∅) as (g2 & em & dem & -> & Hlen2 & _).
  { rewrite Hlen1. exact Hidx. }
  { intros e He. apply elem_of_sorted in He.
    destruct (node_set_endpoints data snk e He). split; apply Hdom; assumption. }
  { apply Forall_forall. intros e He. apply elem_of_sorted in He.
    revert e He. apply Forall_forall. exact Hall. }
  rewrite bind_Ret.
  destruct (for_each_Ret (fun _ => True) (add_supply (sources data))
              (sorted str_lt (elements (dom (sources data)))) (0%float, dem))
    as ([ts dem1] & -> & _); [|exact I|].
  { intros st s Hs _. apply elem_of_sorted, elem_of_elements in Hs.
    destruct (add_supply_Ret (sources data) st s Hs) as [st' ->]. eauto. }
  rewrite bind_Ret.
  destruct (for_each_Ret
              (fun st : Dinic.t * float => length (Dinic.adj (fst st)) = next + 2)
              (add_super_edge idx
                 (<[snk := (demand_of dem1 snk + ts)%float]> dem1)
                 next (next + 1))
              nodes (g2, 0%float)) as ([g3 sp] & -> & _).
  { intros [g sp] v Hv Hlen. simpl in Hlen.
    destruct (add_super_edge_Ret idx
                (<[snk := (demand_of dem1 snk + ts)%float]> dem1)
                next (next + 1) g sp v) as (g' & sp' & -> & Hlen').
    - rewrite Hlen. exact Hidx.
    - apply Hnodes, Hv.
    - lia.
    - lia.
    - exists (g', sp'). split; [reflexivity|]. simpl. congruence. }
  { simpl. congruence. }
  rewrite bind_Ret. eauto.
Qed.

(** The builder's test is [hi + EPS < lo], computed in floats.  It is not
    the test [lo - EPS <= hi] in floats negated: there are bounds with
    [hi < lo] and a rounded [lo - EPS] at most [hi] that the builder
    rejects.  As real numbers these bounds are more than [1e-9] apart. *)
Lemma tolerance_tests_disagree :
  let lo := 0x1.acec7519d60d1p-29%float in
  let hi := 0x1.237c15d89f586p-29%float in
  (hi <? lo)%float = true /\ (lo - EPS <=? hi)%float = true /\
  hi_lt_lo (belt "a" "b" lo hi) = true /\
  build (mkRequest [] [belt "a" "b" lo hi] ∅ (Some "t") ∅) "t" =
    Ret (inl "edge hi < lo for a->b").
Proof. repeat split; vm_compute; reflexivity. Qed.

(** C10: a declared node cap of -5 becomes the capacity of the node's
    internal residual edge as it is. *)
Lemma negative_node_cap_kept :
  exists net e,
    build negative_cap_request "t" = Ret (inr net) /\
    Dinic.adj (G net) !! 0 = Some [e] /\
    Dinic.cap e = (-5)%float /\ (Dinic.cap e <? 0)%float = true.
Proof.
  eexists _, _. split; [vm_compute; reflexivity|].
  repeat split; vm_compute; reflexivity.
Qed.

(** ** The frame of the graph *)

Lemma same_edge_refl e : same_edge e e.
Proof. repeat split. Qed.

Lemma same_frame_refl a : same_frame a a.
Proof.
  apply Forall2_same_length_lookup_2; [reflexivity|].
  intros i l l' Hl Hl'. assert (l = l') as <- by congruence.
  apply Forall2_same_length_lookup_2; [reflexivity|].
  intros j e e' He He'. assert (e = e') as <- by congruence.
  apply same_edge_refl.
Qed.

Lemma same_frame_trans a b c :
  same_frame a b -> same_frame b c -> same_frame a c.
Proof.
  unfold same_frame. revert b c.
  induction a as [|l a IH]; intros b c Hab Hbc.
  - inversion Hab; subst. inversion Hbc; subst. constructor.
  - inversion Hab as [|? l' ? b' Hl Ha]; subst.
    inversion Hbc as [|? l'' ? c' Hl' Hb]; subst.
    constructor; [|eapply IH; eauto].
    clear - Hl Hl'. revert l' l'' Hl Hl'.
    induction l as [|e l IHl]; intros l' l'' Hl Hl'.
    + inversion Hl; subst. inversion Hl'; subst. constructor.
    + inversion Hl as [|? e' ? m' He Hm]; subst.
      inversion Hl' as [|? e'' ? m'' He' Hm']; subst.
      constructor; [|eapply IHl; eauto].
      destruct He as (? & ? & ?), He' as (? & ? & ?). repeat split; congruence.
Qed.

Lemma same_frame_set_flow a u i adj_u e f :
  a !! u = Some adj_u -> adj_u !! i = Some e ->
  same_frame a (<[u := <[i := Dinic.set_flow e f]> adj_u]> a).
Proof.
  intros Hu Hi. apply Forall2_same_length_lookup_2.
  - rewrite length_insert. reflexivity.
  - intros w l l' Hl Hl'. destruct (decide (u = w)) as [<-|Hne].
    + rewrite list_lookup_insert_eq in Hl' by (eapply lookup_lt_Some; eauto).
      assert (l = adj_u) as -> by congruence. injection Hl' as <-.
      apply Forall2_same_length_lookup_2; [rewrite length_insert; reflexivity|].
      intros j x x' Hx Hx'. destruct (decide (i = j)) as [<-|Hne].
      * rewrite list_lookup_insert_eq in Hx' by (eapply lookup_lt_Some; eauto).
        assert (x = e) as -> by congruence. injection Hx' as <-.
        repeat split.
      * rewrite list_lookup_insert_ne in Hx' by exact Hne.
        assert (x = x') as <- by congruence. apply same_edge_refl.
    + rewrite list_lookup_insert_ne in Hl' by exact Hne.
      assert (l = l') as <- by congruence.
      apply Forall2_same_length_lookup_2; [reflexivity|].
      intros j x x' Hx Hx'. assert (x = x') as <- by congruence.
      apply same_edge_refl.
Qed.

Lemma add_flow_frame a u i f a' :
  Dinic.add_flow a u i f = Ret a' -> same_frame a a'.
Proof.
  unfold Dinic.add_flow. intros H. inv_bind H. inv_bind H. injection H as <-.
  apply index_Ret in Ha, Ha0. apply same_frame_set_flow; assumption.
Qed.

Lemma sub_flow_frame a u i f a' :
  Dinic.sub_flow a u i f = Ret a' -> same_frame a a'.
Proof.
  unfold Dinic.sub_flow. intros H. inv_bind H. inv_bind H. injection H as <-.
  apply index_Ret in Ha, Ha0. apply same_frame_set_flow; assumption.
Qed.

Lemma push_frame a u i f a' :
  Dinic.push a u i f = Ret a' -> same_frame a a'.
Proof.
  unfold Dinic.push. intros H. inv_bind H. inv_bind H. inv_bind H.
  apply add_flow_frame in Ha1. apply sub_flow_frame in H.
  eapply same_frame_trans; eauto.
Qed.

Lemma scan_frame rec level u pushed k i st r st' :
  (forall v p s r' s',
     rec v p s = Ret (r', s') -> same_frame (fst s) (fst s')) ->
  Dinic.scan rec level u pushed k i st = Ret (r, st') ->
  same_frame (fst st) (fst st').
Proof.
  intros Hrec. revert i st. induction k as [|k IH]; intros i [a it] H; simpl in H.
  - injection H as _ <-. apply same_frame_refl.
  - inv_bind H. rename a0 into adj_u. inv_bind H. rename a0 into e.
    inv_bind H. destruct a0.
    + inv_bind H. destruct a0 as [to_push [a1 it1]].
      apply Hrec in Ha2. simpl in Ha2.
      destruct (fgt to_push EPS).
      * inv_bind H. injection H as _ <-. simpl.
        apply push_frame in Ha3. eapply same_frame_trans; eauto.
      * apply IH in H. simpl in H. eapply same_frame_trans; eauto.
    + apply IH in H. exact H.
Qed.

Lemma dfs_flow_frame depth tgt level u pushed st r st' :
  Dinic.dfs_flow depth tgt level u pushed st = Ret (r, st') ->
  same_frame (fst st) (fst st').
Proof.
  revert u pushed st r st'.
  induction depth as [|d IH]; intros u pushed st r st' H; simpl in H.
  - destruct (Nat.eqb u tgt); [|discriminate].
    injection H as _ <-. apply same_frame_refl.
  - destruct (Nat.eqb u tgt).
    + injection H as _ <-. apply same_frame_refl.
    + inv_bind H. inv_bind H. eapply scan_frame; [|exact H].
      intros v p s r' s' Hs. eapply IH, Hs.
Qed.

Lemma blocking_flow_frame fuel g s tgt limit level st flow ex a' flow' :
  Dinic.blocking_flow fuel g s tgt limit level st flow = Ret (ex, a', flow') ->
  same_frame (fst st) a'.
Proof.
  revert st flow. induction fuel as [|fuel IH]; intros st flow H; [discriminate|].
  rewrite blocking_flow_S in H. inv_bind H. destruct a as [pushed st1].
  apply dfs_flow_frame in Ha. simpl in H.
  destruct (pushed <=? EPS)%float.
  - injection H as _ <- _. exact Ha.
  - destruct (fge (flow + pushed + EPS) limit).
    + injection H as _ <- _. exact Ha.
    + apply IH in H. eapply same_frame_trans; eauto.
Qed.

Lemma max_flow_loop_frame fuel g s tgt limit flow f g' :
  Dinic.max_flow_loop fuel g s tgt limit flow = Ret (f, g') ->
  Dinic.n g' = Dinic.n g /\ same_frame (Dinic.adj g) (Dinic.adj g').
Proof.
  revert g flow. induction fuel as [|fuel IH]; intros g flow H; [discriminate|].
  rewrite max_flow_loop_S in H. inv_bind H. rename a into level.
  inv_bind H. destruct (a <? 0)%Z.
  - injection H as _ <-. split; [reflexivity|apply same_frame_refl].
  - inv_bind H. destruct a0 as [[ex a1] flow1].
    apply blocking_flow_frame in Ha1. simpl in Ha1. destruct ex.
    + injection H as _ <-. split; [reflexivity|exact Ha1].
    + apply IH in H as [Hn Hframe]. simpl in *. split; [exact Hn|].
      eapply same_frame_trans; eauto.
Qed.

Lemma add_edge_edges g u v c g' h w adj_w e :
  Dinic.add_edge g u v c = Ret (g', h) ->
  Dinic.adj g' !! w = Some adj_w -> e ∈ adj_w ->
  (exists l, Dinic.adj g !! w = Some l /\ e ∈ l) \/
  (exists k, e = Dinic.new_edge v k c) \/
  (exists k, e = Dinic.new_edge u k 0).
Proof.
  unfold Dinic.add_edge. intros H Hw He.
  inv_bind H. rename a into adj_v. inv_bind H. rename a into adj_u.
  inv_bind H. injection H as <- _. simpl in Hw.
  apply append_edge_lookup in Hw as (l1 & Hl1 & Hcase2).
  apply append_edge_lookup in Hl1 as (l & Hl & Hcase1).
  destruct Hcase2 as [->|[_ ->]], Hcase1 as [->|[_ ->]];
    repeat (apply elem_of_app in He as [He|He]);
    try (apply list_elem_of_singleton in He); eauto.
Qed.

Lemma constructed_flows_zero g :
  constructed g ->
  forall u adj_u e,
    Dinic.adj g !! u = Some adj_u -> e ∈ adj_u -> Dinic.flow e = 0%float.
Proof.
  induction 1 as [k|g u v c g' h Hg IH Hadd]; intros w adj_w e Hw He.
  - simpl in Hw. apply lookup_replicate in Hw as [-> _]. inversion He.
  - destruct (add_edge_edges _ _ _ _ _ _ _ _ _ Hadd Hw He)
      as [(l & Hl & Hin)|[[k ->]|[k ->]]]; [eapply IH; eauto|reflexivity..].
Qed.

Lemma edge_at_set_flow a u i adj_u e f w j :
  a !! u = Some adj_u -> adj_u !! i = Some e ->
  edge_at (<[u := <[i := Dinic.set_flow e f]> adj_u]> a) w j =
  if decide (w = u /\ j = i) then Some (Dinic.set_flow e f) else edge_at a w j.
Proof.
  intros Hu Hi. unfold edge_at. destruct (decide (w = u)) as [->|Hne].
  - rewrite list_lookup_insert_eq by (eapply lookup_lt_Some; eauto). rewrite Hu.
    destruct (decide (j = i)) as [->|Hne].
    + rewrite list_lookup_insert_eq by (eapply lookup_lt_Some; eauto).
      rewrite decide_True by auto. reflexivity.
    + rewrite list_lookup_insert_ne by congruence.
      rewrite decide_False by tauto. reflexivity.
  - rewrite list_lookup_insert_ne by congruence.
    rewrite decide_False by tauto. reflexivity.
Qed.

Lemma edge_at_index a u i adj_u e :
  index a u = Ret adj_u -> index adj_u i = Ret e -> edge_at a u i = Some e.
Proof.
  intros Hu Hi. apply index_Ret in Hu, Hi. unfold edge_at. rewrite Hu. exact Hi.
Qed.

(** A push through [adj[u][i]], whose reverse handle points to another
    edge object, adds the amount to the flow of the one and subtracts it
    from the flow of the other; no other edge changes. *)
Lemma push_effect a u i p a' e r :
  Dinic.push a u i p = Ret a' ->
  edge_at a u i = Some e ->
  edge_at a (Dinic.to e) (Dinic.rev e) = Some r ->
  ~ (Dinic.to e = u /\ Dinic.rev e = i) ->
  edge_at a' u i = Some (Dinic.set_flow e (Dinic.flow e + p)%float) /\
  edge_at a' (Dinic.to e) (Dinic.rev e) =
    Some (Dinic.set_flow r (Dinic.flow r - p)%float) /\
  (forall w j, ~ (w = u /\ j = i) ->
               ~ (w = Dinic.to e /\ j = Dinic.rev e) ->
               edge_at a' w j = edge_at a w j).
Proof.
  unfold Dinic.push. intros H He Hr Hne.
  inv_bind H. rename a0 into adj_u. inv_bind H.
  rewrite (edge_at_index _ _ _ _ _ Ha Ha0) in He. injection He as ->.
  inv_bind H. rename a0 into a1. unfold Dinic.add_flow in Ha1.
  rewrite Ha, bind_Ret, Ha0, bind_Ret in Ha1. injection Ha1 as <-.
  apply index_Ret in Ha, Ha0.
  unfold Dinic.sub_flow in H. inv_bind H. rename a0 into adj_v. inv_bind H.
  rename a0 into r'. injection H as <-.
  pose proof (edge_at_index _ _ _ _ _ Ha1 Ha2) as Hr'.
  rewrite (edge_at_set_flow a u i adj_u e _ _ _ Ha Ha0) in Hr'.
  rewrite decide_False in Hr' by exact Hne.
  assert (r' = r) as -> by congruence.
  apply index_Ret in Ha1, Ha2.
  split; [|split].
  - rewrite (edge_at_set_flow _ _ _ _ _ _ _ _ Ha1 Ha2).
    rewrite decide_False by (intros [Hx Hy]; apply Hne; split; congruence).
    rewrite (edge_at_set_flow a u i adj_u e _ _ _ Ha Ha0).
    rewrite decide_True by auto. reflexivity.
  - rewrite (edge_at_set_flow _ _ _ _ _ _ _ _ Ha1 Ha2).
    rewrite decide_True by auto. reflexivity.
  - intros w j Hu Hv.
    rewrite (edge_at_set_flow _ _ _ _ _ _ _ _ Ha1 Ha2).
    rewrite decide_False by exact Hv.
    rewrite (edge_at_set_flow a u i adj_u e _ _ _ Ha Ha0).
    rewrite decide_False by exact Hu. reflexivity.
Qed.

(** C9: after a solve on the graph that [add_edge] builds from one edge
    of capacity 1, the paired reverse edge has capacity 0 and flow -1. *)
Lemma reverse_edge_flow_negative :
  Dinic.add_edge (Dinic.init 2) 0 1 1 = Ret (one_edge_graph, (0, 0)) /\
  exists g e,
    Dinic.max_flow 8 one_edge_graph 0 1 INF = Ret (1%float, g) /\
    Dinic.adj g !! 1 = Some [e] /\
    Dinic.cap e = 0%float /\ Dinic.flow e = (-1)%float /\
    (Dinic.flow e <? - EPS)%float = true.
Proof.
  split; [vm_compute; reflexivity|].
  eexists _, _. split; [vm_compute; reflexivity|].
  repeat split; vm_compute; reflexivity.
Qed.

(** Rounding can carry the flow of a forward edge above its capacity:
    on [wide_graph] with the flow cap [4e18] the edge into the sink, of
    capacity [1e18 + 128], first takes 192 and then its whole computed
    residual, and ends with flow [1e18 + 256]. *)
Lemma forward_flow_above_capacity :
  exists g f g' e,
    wide_graph = Ret g /\
    Dinic.max_flow 20 g 0 4 0x1.bc16d674ec8p+61 = Ret (f, g') /\
    edge_at (Dinic.adj g') 3 2 = Some e /\
    Dinic.to e = 4 /\
    Dinic.cap e = 0x1.bc16d674ec801p+59%float /\
    Dinic.flow e = 0x1.bc16d674ec802p+59%float /\
    (Dinic.cap e + EPS <? Dinic.flow e)%float = true.
Proof.
  eexists _, _, _, _. split; [vm_compute; reflexivity|].
  split; [vm_compute; reflexivity|].
  split; [vm_compute; reflexivity|].
  repeat split; vm_compute; reflexivity.
Qed.

(** ** Stable sorting is unique up to the order's equivalence *)

Section SortUnique.
Context {A : Type} (P : A -> Prop) (cmp : A -> A -> comparison).
Context (Hwo : weak_order P cmp).

Local Abbreviation lt := (lt_of cmp).
Local Abbreviation le := (le_of cmp).
Local Abbreviation count := (class_count cmp).

Lemma cmp_refl a : P a -> cmp a a = Eq.
Proof.
  intros Ha. pose proof (wo_antisym P cmp Hwo a a Ha Ha) as H.
  destruct (cmp a a); simpl in H; congruence.
Qed.

Lemma cmp_eq_sym a b : P a -> P b -> cmp a b = Eq -> cmp b a = Eq.
Proof.
  intros Ha Hb H. rewrite (wo_antisym P cmp Hwo b a Hb Ha), H. reflexivity.
Qed.

Lemma cmp_eq_r a b c : P a -> P b -> P c -> cmp a b = Eq -> cmp c a = cmp c b.
Proof.
  intros Ha Hb Hc H.
  rewrite (wo_antisym P cmp Hwo c a Hc Ha), (wo_antisym P cmp Hwo c b Hc Hb).
  f_equal. apply (wo_eq P cmp Hwo); assumption.
Qed.

Lemma le_trans a b c : P a -> P b -> P c -> le a b -> le b c -> le a c.
Proof.
  unfold le_of. intros Ha Hb Hc Hab Hbc.
  destruct (cmp a b) eqn:Eab; [| |congruence].
  - rewrite (wo_eq P cmp Hwo a b c Ha Hb Hc Eab). exact Hbc.
  - destruct (cmp b c) eqn:Ebc; [| |congruence].
    + rewrite <- (cmp_eq_r b c a Hb Hc Ha Ebc), Eab. discriminate.
    + rewrite (wo_trans P cmp Hwo a b c Ha Hb Hc Eab Ebc). discriminate.
Qed.

Lemma insert_sorted_Forall (Q : A -> Prop) x l :
  Q x -> Forall Q l -> Forall Q (insert_sorted lt x l).
Proof.
  intros Hx Hl. rewrite insert_sorted_perm. constructor; assumption.
Qed.

Lemma insert_sorted_sorted x l :
  P x -> Forall P l -> StronglySorted le l ->
  StronglySorted le (insert_sorted lt x l).
Proof.
  intros Hx Hl Hs. induction l as [|y l IH]; simpl.
  - constructor; constructor.
  - apply Forall_cons in Hl as [Hy Hl].
    apply StronglySorted_inv in Hs as [Hs Hyl].
    unfold lt_of at 1, is_lt. destruct (cmp x y) eqn:Exy; simpl.
    + constructor; [apply IH; assumption|].
      apply insert_sorted_Forall; [|exact Hyl].
      unfold le_of. rewrite (cmp_eq_sym x y Hx Hy Exy). discriminate.
    + constructor; [constructor; assumption|].
      assert (Hxy : le x y) by (unfold le_of; rewrite Exy; discriminate).
      constructor; [exact Hxy|].
      apply Forall_forall. intros z Hz.
      apply (le_trans x y z); [assumption..| |exact Hxy|].
      * eapply Forall_forall in Hl; eauto.
      * eapply Forall_forall in Hyl; eauto.
    + constructor; [apply IH; assumption|].
      apply insert_sorted_Forall; [|exact Hyl].
      unfold le_of. rewrite (wo_antisym P cmp Hwo y x Hy Hx), Exy. discriminate.
Qed.

Lemma foldl_insert_sorted l acc :
  Forall P l -> Forall P acc -> StronglySorted le acc ->
  StronglySorted le (foldl (fun acc x => insert_sorted lt x acc) acc l).
Proof.
  revert acc. induction l as [|x l IH]; intros acc Hl Hacc Hs; simpl.
  - exact Hs.
  - apply Forall_cons in Hl as [Hx Hl]. apply IH; [exact Hl| |].
    + apply insert_sorted_Forall; assumption.
    + apply insert_sorted_sorted; assumption.
Qed.

Lemma sorted_sorted l : Forall P l -> StronglySorted le (sorted lt l).
Proof.
  intros Hl. apply foldl_insert_sorted; [exact Hl|constructor|constructor].
Qed.

Lemma count_perm x l l' : l ≡ₚ l' -> count x l = count x l'.
Proof. intros H. unfold class_count. rewrite H. reflexivity. Qed.

Lemma count_cons x y l :
  count x (y :: l) = (if decide (cmp x y = Eq) then 1 else 0) + count x l.
Proof.
  unfold class_count. rewrite filter_cons. destruct (decide (cmp x y = Eq)); reflexivity.
Qed.

Lemma count_pos x l : 0 < count x l -> exists y, y ∈ l /\ cmp x y = Eq.
Proof.
  unfold class_count. intros H.
  destruct (filter (fun y => cmp x y = Eq) l) as [|y l'] eqn:Hf; [simpl in H; lia|].
  assert (Hy : y ∈ filter (fun y => cmp x y = Eq) l)
    by (rewrite Hf; apply list_elem_of_here).
  apply list_elem_of_filter in Hy as [Hy1 Hy2]. eauto.
Qed.

Lemma head_le_class a t b :
  P a -> Forall P t -> P b ->
  StronglySorted le (a :: t) ->
  0 < count b (a :: t) -> le a b.
Proof.
  intros Ha Ht Hb Hs Hc. apply count_pos in Hc as (y & Hy & Hby).
  apply StronglySorted_inv in Hs as [_ Hat].
  apply elem_of_cons in Hy as [->|Hy].
  - unfold le_of. rewrite (cmp_eq_sym b a Hb Ha Hby). discriminate.
  - assert (Py : P y) by (eapply Forall_forall in Ht; eauto).
    apply (le_trans a y b Ha Py Hb).
    + eapply Forall_forall in Hat; eauto.
    + unfold le_of. rewrite (cmp_eq_sym b y Hb Py Hby). discriminate.
Qed.

Lemma sorted_unique l1 l2 :
  Forall P l1 -> Forall P l2 ->
  StronglySorted le l1 -> StronglySorted le l2 ->
  (forall x, P x -> count x l1 = count x l2) ->
  Forall2 (fun a b => cmp a b = Eq) l1 l2.
Proof.
  revert l2. induction l1 as [|a t1 IH]; intros l2 H1 H2 Hs1 Hs2 Hc.
  - destruct l2 as [|b t2]; [constructor|].
    apply Forall_cons in H2 as [Hb _]. specialize (Hc b Hb).
    rewrite count_cons, decide_True in Hc by (apply cmp_refl, Hb).
    unfold class_count in Hc. simpl in Hc. lia.
  - apply Forall_cons in H1 as [Ha Ht1].
    destruct l2 as [|b t2].
    { specialize (Hc a Ha).
      rewrite count_cons, decide_True in Hc by (apply cmp_refl, Ha).
      unfold class_count in Hc. simpl in Hc. lia. }
    apply Forall_cons in H2 as [Hb Ht2].
    assert (Hab : le a b).
    { apply (head_le_class a t1 b); try assumption.
      rewrite (Hc b Hb), count_cons, decide_True by (apply cmp_refl, Hb). lia. }
    assert (Hba : le b a).
    { apply (head_le_class b t2 a); try assumption.
      rewrite <- (Hc a Ha), count_cons, decide_True by (apply cmp_refl, Ha). lia. }
    assert (Heq : cmp a b = Eq).
    { unfold le_of in Hab, Hba. rewrite (wo_antisym P cmp Hwo b a Hb Ha) in Hba.
      destruct (cmp a b); simpl in Hba; congruence. }
    constructor; [exact Heq|].
    apply StronglySorted_inv in Hs1 as [Hs1 _].
    apply StronglySorted_inv in Hs2 as [Hs2 _].
    apply IH; try assumption.
    intros x Hx. specialize (Hc x Hx). rewrite !count_cons in Hc.
    rewrite (cmp_eq_r a b x Ha Hb Hx Heq) in Hc.
    destruct (decide (cmp x b = Eq)); lia.
Qed.

Lemma sorted_perm_equiv l l' :
  Forall P l -> l ≡ₚ l' ->
  Forall2 (fun a b => cmp a b = Eq) (sorted lt l) (sorted lt l').
Proof.
  intros Hl Hperm.
  assert (Hl' : Forall P l') by (rewrite <- Hperm; exact Hl).
  apply sorted_unique.
  - rewrite sorted_perm. exact Hl.
  - rewrite sorted_perm. exact Hl'.
  - apply sorted_sorted, Hl.
  - apply sorted_sorted, Hl'.
  - intros x _. apply count_perm. rewrite !sorted_perm. exact Hperm.
Qed.

End SortUnique.

Lemma sorted_ext {A} (lt lt' : A -> A -> bool) (l : list A) :
  (forall a b, lt a b = lt' a b) -> sorted lt l = sorted lt' l.
Proof.
  intros Hext. unfold sorted. generalize (@nil A) as acc.
  induction l as [|x l IH]; intros acc; simpl; [reflexivity|].
  rewrite IH. f_equal. clear IH.
  induction acc as [|y acc IHacc]; simpl; [reflexivity|].
  rewrite Hext, IHacc. reflexivity.
Qed.

(** ** The orders of strings, floats and edge keys *)

Lemma weak_order_impl {A} (P Q : A -> Prop) cmp :
  weak_order P cmp -> (forall a, Q a -> P a) -> weak_order Q cmp.
Proof.
  intros [H1 H2 H3] HQ. constructor.
  - intros a b Ha Hb. apply H1; auto.
  - intros a b c Ha Hb Hc. apply H2; auto.
  - intros a b c Ha Hb Hc. apply H3; auto.
Qed.

Lemma trivial_weak_order {A} : weak_order (fun _ : A => True) (fun _ _ => Eq).
Proof. constructor; intros; first [reflexivity|discriminate]. Qed.

Lemma lex_weak_order {E A} (f : E -> A) (PA : A -> Prop) cmpA
    (PB : E -> Prop) cmpB :
  weak_order PA cmpA -> weak_order PB cmpB ->
  weak_order (fun e => PA (f e) /\ PB e)
             (fun e e' => lex (cmpA (f e) (f e')) (cmpB e e')).
Proof.
  intros HA HB. constructor.
  - intros a b [Ha Ha'] [Hb Hb'].
    rewrite (wo_antisym PA cmpA HA _ _ Ha Hb), (wo_antisym PB cmpB HB _ _ Ha' Hb').
    destruct (cmpA (f b) (f a)); reflexivity.
  - intros a b c [Ha Ha'] [Hb Hb'] [Hc Hc'] Hab Hbc.
    destruct (cmpA (f a) (f b)) eqn:Eab; simpl in Hab; try discriminate;
      destruct (cmpA (f b) (f c)) eqn:Ebc; simpl in Hbc; try discriminate.
    + rewrite (wo_eq PA cmpA HA _ _ _ Ha Hb Hc Eab), Ebc. simpl.
      exact (wo_trans PB cmpB HB a b c Ha' Hb' Hc' Hab Hbc).
    + rewrite (wo_eq PA cmpA HA _ _ _ Ha Hb Hc Eab), Ebc. reflexivity.
    + rewrite <- (cmp_eq_r PA cmpA HA _ _ _ Hb Hc Ha Ebc), Eab. reflexivity.
    + rewrite (wo_trans PA cmpA HA _ _ _ Ha Hb Hc Eab Ebc). reflexivity.
  - intros a b c [Ha Ha'] [Hb Hb'] [Hc Hc'] Hab.
    destruct (cmpA (f a) (f b)) eqn:Eab; simpl in Hab; try discriminate.
    rewrite (wo_eq PA cmpA HA _ _ _ Ha Hb Hc Eab).
    rewrite (wo_eq PB cmpB HB _ _ _ Ha' Hb' Hc' Hab). reflexivity.
Qed.

Lemma string_compare_trans a b c :
  String.compare a b = Lt -> String.compare b c = Lt -> String.compare a c = Lt.
Proof.
  revert b c. induction a as [|x a IH]; intros [|y b] [|z c]; simpl;
    try discriminate; try reflexivity.
  unfold Ascii.compare.
  destruct (N.compare_spec (N_of_ascii x) (N_of_ascii y)),
    (N.compare_spec (N_of_ascii y) (N_of_ascii z)),
    (N.compare_spec (N_of_ascii x) (N_of_ascii z));
    try discriminate; try reflexivity; try lia.
  apply IH.
Qed.

Lemma string_compare_refl a : String.compare a a = Eq.
Proof.
  pose proof (String.compare_antisym a a) as H.
  destruct (String.compare a a); simpl in H; congruence.
Qed.

Lemma string_weak_order : weak_order (fun _ : string => True) String.compare.
Proof.
  constructor.
  - intros a b _ _. apply String.compare_antisym.
  - intros a b c _ _ _. apply string_compare_trans.
  - intros a b c _ _ _ H. apply String.compare_eq_iff in H. congruence.
Qed.

Lemma string_eqb_compare a b :
  String.eqb a b = match String.compare a b with Eq => true | _ => false end.
Proof.
  destruct (String.eqb_spec a b) as [->|Hne].
  - rewrite string_compare_refl. reflexivity.
  - destruct (String.compare a b) eqn:H; try reflexivity.
    apply String.compare_eq_iff in H. congruence.
Qed.

Lemma fcmp_rank x y :
  is_number x -> is_number y ->
  match fcmp x y with
  | Lt => lex_lt (rank (Prim2SF x)) (rank (Prim2SF y))
  | Eq => rank (Prim2SF x) = rank (Prim2SF y)
  | Gt => lex_lt (rank (Prim2SF y)) (rank (Prim2SF x))
  end.
Proof.
  intros Hx Hy. unfold fcmp.
  destruct (SFcompare_rank _ _ Hx Hy) as (c & -> & Hc). exact Hc.
Qed.

Ltac rank_lia :=
  unfold lex_lt in *;
  repeat match goal with
         | H : context [rank ?f] |- _ => destruct (rank f) as [[? ?] ?]
         | |- context [rank ?f] => destruct (rank f) as [[? ?] ?]
         end;
  repeat match goal with
         | H : (_, _, _) = (_, _, _) |- _ => injection H as ? ? ?
         end;
  first [lia | exfalso; lia | congruence].

Lemma float_weak_order : weak_order is_number fcmp.
Proof.
  constructor.
  - intros a b Ha Hb.
    pose proof (fcmp_rank a b Ha Hb) as H1.
    pose proof (fcmp_rank b a Hb Ha) as H2.
    destruct (fcmp a b), (fcmp b a); simpl; try reflexivity; rank_lia.
  - intros a b c Ha Hb Hc Hab Hbc.
    pose proof (fcmp_rank a b Ha Hb) as H1. rewrite Hab in H1.
    pose proof (fcmp_rank b c Hb Hc) as H2. rewrite Hbc in H2.
    pose proof (fcmp_rank a c Ha Hc) as H3.
    destruct (fcmp a c); try reflexivity; rank_lia.
  - intros a b c Ha Hb Hc Hab.
    pose proof (fcmp_rank a b Ha Hb) as H1. rewrite Hab in H1.
    pose proof (fcmp_rank a c Ha Hc) as H2.
    pose proof (fcmp_rank b c Hb Hc) as H3.
    destruct (fcmp a c), (fcmp b c); try reflexivity; rank_lia.
Qed.

Lemma eqb_fcmp x y :
  (x =? y)%float = match fcmp x y with Eq => true | _ => false end.
Proof.
  rewrite FloatAxioms.eqb_spec. unfold SFeqb, fcmp.
  destruct (SFcompare (Prim2SF x) (Prim2SF y)) as [[]|]; reflexivity.
Qed.

Lemma ltb_fcmp x y : (x <? y)%float = is_lt (fcmp x y).
Proof.
  rewrite ltb_spec. unfold SFltb, fcmp.
  destruct (SFcompare (Prim2SF x) (Prim2SF y)) as [[]|]; reflexivity.
Qed.

Lemma edge_sort_key_lt_cmp e1 e2 :
  edge_sort_key_lt e1 e2 = is_lt (edge_cmp e1 e2).
Proof.
  unfold edge_sort_key_lt, edge_cmp, str_lt, String.ltb.
  rewrite !string_eqb_compare, !eqb_fcmp, !ltb_fcmp.
  destruct (String.compare (EdgeSpec.from e1) (EdgeSpec.from e2));
    simpl; try reflexivity.
  destruct (String.compare (EdgeSpec.to e1) (EdgeSpec.to e2));
    simpl; try reflexivity.
  destruct (fcmp (EdgeSpec.get_lo e1) (EdgeSpec.get_lo e2));
    simpl; try reflexivity.
  destruct (fcmp (EdgeSpec.get_hi e1) (EdgeSpec.get_hi e2)); reflexivity.
Qed.

Lemma edge_weak_order : weak_order bounds_are_numbers edge_cmp.
Proof.
  pose proof (lex_weak_order EdgeSpec.get_hi _ _ _ _ float_weak_order
                (@trivial_weak_order EdgeSpec.t)) as H4.
  pose proof (lex_weak_order EdgeSpec.get_lo _ _ _ _ float_weak_order H4) as H3.
  pose proof (lex_weak_order EdgeSpec.to _ _ _ _ string_weak_order H3) as H2.
  pose proof (lex_weak_order EdgeSpec.from _ _ _ _ string_weak_order H2) as H1.
  eapply weak_order_impl; [exact H1|].
  intros e [Hlo Hhi]. simpl. tauto.
Qed.

Lemma same_number_refl x : same_number x x.
Proof. left. reflexivity. Qed.

Lemma fcmp_Eq_same_number x y :
  is_number x -> is_number y -> fcmp x y = Eq -> same_number x y.
Proof.
  intros Hx Hy H. pose proof (fcmp_rank x y Hx Hy) as Hr. rewrite H in Hr.
  unfold same_number, is_zero. unfold is_number in Hx, Hy.
  destruct (Prim2SF x) as [sx|sx| |sx mx ex] eqn:Ex,
           (Prim2SF y) as [sy|sy| |sy my ey] eqn:Ey;
    try congruence; simpl in Hr;
    try (destruct sx); try (destruct sy); try discriminate;
    try (right; split; eauto; fail);
    left; apply Prim2SF_inj; rewrite Ex, Ey; try reflexivity;
    injection Hr as ? ?; f_equal; lia.
Qed.

Lemma edge_cmp_Eq e e' :
  bounds_are_numbers e -> bounds_are_numbers e' ->
  edge_cmp e e' = Eq -> same_edge_spec e e'.
Proof.
  intros [Hlo Hhi] [Hlo' Hhi']. unfold edge_cmp, same_edge_spec.
  destruct (String.compare (EdgeSpec.from e) (EdgeSpec.from e')) eqn:E1;
    simpl; try discriminate.
  destruct (String.compare (EdgeSpec.to e) (EdgeSpec.to e')) eqn:E2;
    simpl; try discriminate.
  destruct (fcmp (EdgeSpec.get_lo e) (EdgeSpec.get_lo e')) eqn:E3;
    simpl; try discriminate.
  destruct (fcmp (EdgeSpec.get_hi e) (EdgeSpec.get_hi e')) eqn:E4;
    simpl; try discriminate.
  intros _. apply String.compare_eq_iff in E1, E2.
  repeat split; try assumption; apply fcmp_Eq_same_number; assumption.
Qed.

Lemma sorted_edges_perm (l l' : list EdgeSpec.t) :
  Forall bounds_are_numbers l -> l ≡ₚ l' ->
  Forall2 same_edge_spec (sorted edge_sort_key_lt l) (sorted edge_sort_key_lt l').
Proof.
  intros Hl Hperm.
  rewrite !(sorted_ext edge_sort_key_lt (lt_of edge_cmp) _ edge_sort_key_lt_cmp).
  pose proof (sorted_perm_equiv _ _ edge_weak_order l l' Hl Hperm) as H.
  assert (H1 : Forall bounds_are_numbers
                 (sorted (lt_of edge_cmp) l))
    by (rewrite sorted_perm; exact Hl).
  assert (H2 : Forall bounds_are_numbers
                 (sorted (lt_of edge_cmp) l'))
    by (rewrite sorted_perm, <- Hperm; exact Hl).
  revert H H1 H2.
  generalize (sorted (lt_of edge_cmp) l).
  generalize (sorted (lt_of edge_cmp) l').
  intros m' m H. induction H as [|a b m m' Hab Hm IH]; intros H1 H2.
  - constructor.
  - apply Forall_cons in H1 as [Ha H1]. apply Forall_cons in H2 as [Hb H2].
    constructor; [apply edge_cmp_Eq; assumption|apply IH; assumption].
Qed.

(** ** Arithmetic on the two zeros *)

Lemma is_zero_dec x : is_zero x \/ ~ is_zero x.
Proof.
  unfold is_zero. destruct (Prim2SF x) as [s|s| |s m e]; eauto;
    right; intros [s' H]; discriminate.
Qed.

Lemma add_zero_l z y : is_zero z -> ~ is_zero y -> (z + y)%float = y.
Proof.
  intros [s Hz] Hy. apply Prim2SF_inj. rewrite add_spec, Hz.
  unfold is_zero in Hy. destruct (Prim2SF y) as [sy|sy| |sy my ey];
    try reflexivity. exfalso. eauto.
Qed.

Lemma add_zero_r x z : is_zero z -> ~ is_zero x -> (x + z)%float = x.
Proof.
  intros [s Hz] Hx. apply Prim2SF_inj. rewrite add_spec, Hz.
  unfold is_zero in Hx. destruct (Prim2SF x) as [sx|sx| |sx mx ex];
    try reflexivity. exfalso. eauto.
Qed.

Lemma add_zero_zero z z' : is_zero z -> is_zero z' -> is_zero (z + z')%float.
Proof.
  intros [s Hz] [s' Hz']. unfold is_zero. rewrite add_spec, Hz, Hz'.
  destruct s, s'; simpl; eauto.
Qed.

Lemma sub_zero_l z z' y :
  is_zero z -> is_zero z' -> ~ is_zero y -> (z - y)%float = (z' - y)%float.
Proof.
  intros [s Hz] [s' Hz'] Hy. apply Prim2SF_inj. rewrite !sub_spec, Hz, Hz'.
  unfold is_zero in Hy. destruct (Prim2SF y) as [sy|sy| |sy my ey];
    try reflexivity. exfalso. eauto.
Qed.

Lemma sub_zero_r x z : is_zero z -> ~ is_zero x -> (x - z)%float = x.
Proof.
  intros [s Hz] Hx. apply Prim2SF_inj. rewrite sub_spec, Hz.
  unfold is_zero in Hx. destruct (Prim2SF x) as [sx|sx| |sx mx ex];
    try reflexivity. exfalso. eauto.
Qed.

Lemma sub_zero_zero z z' : is_zero z -> is_zero z' -> is_zero (z - z')%float.
Proof.
  intros [s Hz] [s' Hz']. unfold is_zero. rewrite sub_spec, Hz, Hz'.
  destruct s, s'; simpl; eauto.
Qed.

Lemma add_congr x x' y y' :
  same_number x x' -> same_number y y' -> same_number (x + y) (x' + y').
Proof.
  intros [->|[Hx Hx']] [->|[Hy Hy']].
  - left. reflexivity.
  - destruct (is_zero_dec x') as [Hz|Hnz].
    + right. split; apply add_zero_zero; assumption.
    + left. rewrite !add_zero_r by assumption. reflexivity.
  - destruct (is_zero_dec y') as [Hz|Hnz].
    + right. split; apply add_zero_zero; assumption.
    + left. rewrite !add_zero_l by assumption. reflexivity.
  - right. split; apply add_zero_zero; assumption.
Qed.

Lemma sub_congr x x' y y' :
  same_number x x' -> same_number y y' -> same_number (x - y) (x' - y').
Proof.
  intros [->|[Hx Hx']] [->|[Hy Hy']].
  - left. reflexivity.
  - destruct (is_zero_dec x') as [Hz|Hnz].
    + right. split; apply sub_zero_zero; assumption.
    + left. rewrite !sub_zero_r by assumption. reflexivity.
  - destruct (is_zero_dec y') as [Hz|Hnz].
    + right. split; apply sub_zero_zero; assumption.
    + left. apply sub_zero_l; assumption.
  - right. split; apply sub_zero_zero; assumption.
Qed.

Lemma SFcompare_zero_l s s' f :
  SFcompare (S754_zero s) f = SFcompare (S754_zero s') f.
Proof. destruct f; reflexivity. Qed.

Lemma SFcompare_zero_r s s' f :
  SFcompare f (S754_zero s) = SFcompare f (S754_zero s').
Proof. destruct f; reflexivity. Qed.

Lemma ltb_congr x x' y y' :
  same_number x x' -> same_number y y' -> (x <? y)%float = (x' <? y')%float.
Proof.
  intros Hx Hy. rewrite !ltb_spec. unfold SFltb.
  assert (H : SFcompare (Prim2SF x) (Prim2SF y) =
              SFcompare (Prim2SF x') (Prim2SF y')); [|rewrite H; reflexivity].
  destruct Hx as [->|[[s Hx] [s' Hx']]], Hy as [->|[[t Hy] [t' Hy']]];
    rewrite ?Hx, ?Hx', ?Hy, ?Hy';
    first [reflexivity | apply SFcompare_zero_r | apply SFcompare_zero_l].
Qed.

Lemma zero_not_positive z : is_zero z -> (0 <? z)%float = false.
Proof. intros [s Hz]. rewrite ltb_spec, Hz. reflexivity. Qed.

Lemma fmax_zero_congr x x' : same_number x x' -> fmax 0 x = fmax 0 x'.
Proof.
  intros [->|[Hx Hx']]; [reflexivity|].
  unfold fmax. rewrite !zero_not_positive by assumption. reflexivity.
Qed.

Lemma above_EPS_eq x x' : same_number x x' -> fgt x EPS = true -> x = x'.
Proof.
  intros [->|[[s Hx] _]]; [reflexivity|]. unfold fgt.
  rewrite ltb_spec, Hx. discriminate.
Qed.

Lemma below_neg_EPS_eq x x' :
  same_number x x' -> (x <? - EPS)%float = true -> x = x'.
Proof.
  intros [->|[[s Hx] _]]; [reflexivity|].
  rewrite ltb_spec, Hx. discriminate.
Qed.

(** ** Runs on related inputs *)

Lemma outcome_rel_bind {A A' B B'} (R : A -> A' -> Prop) (S : B -> B' -> Prop)
    (m : outcome A) (m' : outcome A') (k : A -> outcome B) (k' : A' -> outcome B') :
  outcome_rel R m m' ->
  (forall a a', R a a' -> outcome_rel S (k a) (k' a')) ->
  outcome_rel S (m ≫= k) (m' ≫= k').
Proof.
  destruct m, m'; simpl; intros H Hk; try contradiction; auto.
Qed.

Lemma outcome_rel_refl {A} (m : outcome A) : outcome_rel eq m m.
Proof. destruct m; simpl; auto. Qed.

Lemma outcome_rel_eq {A} (m m' : outcome A) : outcome_rel eq m m' -> m = m'.
Proof. destruct m, m'; simpl; intros H; try contradiction; congruence. Qed.

Lemma outcome_rel_same {A B} (S : B -> B -> Prop)
    (m : outcome A) (k k' : A -> outcome B) :
  (forall a, outcome_rel S (k a) (k' a)) ->
  outcome_rel S (m ≫= k) (m ≫= k').
Proof. destruct m; simpl; auto. Qed.

Lemma for_each_rel {A A' S S'} (RA : A -> A' -> Prop) (RS : S -> S' -> Prop)
    (body : S -> A -> outcome S) (body' : S' -> A' -> outcome S')
    (l : list A) (l' : list A') (st : S) (st' : S') :
  Forall2 RA l l' ->
  (forall s s' x x', RS s s' -> RA x x' ->
                     outcome_rel RS (body s x) (body' s' x')) ->
  RS st st' ->
  outcome_rel RS (for_each body l st) (for_each body' l' st').
Proof.
  intros Hl Hbody. revert st st'.
  induction Hl as [|x x' l l' Hx Hl IH]; intros st st' Hst; simpl.
  - exact Hst.
  - eapply outcome_rel_bind; [apply Hbody; assumption|]. exact IH.
Qed.

Lemma Forall2_same {A} (R : A -> A -> Prop) (l : list A) :
  (forall a, R a a) -> Forall2 R l l.
Proof. intros H. induction l; constructor; auto. Qed.

(** ** The builder on key-equal edges *)

Lemma demand_of_insert d k x j :
  demand_of (<[k := x]> d) j = if decide (k = j) then x else demand_of d j.
Proof.
  unfold demand_of. destruct (decide (k = j)) as [->|Hne].
  - rewrite lookup_insert_eq. reflexivity.
  - rewrite lookup_insert_ne by exact Hne. reflexivity.
Qed.

Lemma same_demand_insert d d' k x x' :
  same_demand d d' -> same_number x x' ->
  same_demand (<[k := x]> d) (<[k := x']> d').
Proof.
  intros Hd Hx j. rewrite !demand_of_insert.
  destruct (decide (k = j)); [exact Hx|apply Hd].
Qed.

Lemma same_demand_refl d : same_demand d d.
Proof. intros k. apply same_number_refl. Qed.

Lemma add_user_edges_rel idx es es' g em em' dem dem' :
  Forall2 same_edge_spec es es' ->
  Forall2 same_rec em em' -> same_demand dem dem' ->
  outcome_rel same_edges_result
    (add_user_edges idx es (g, em, dem))
    (add_user_edges idx es' (g, em', dem')).
Proof.
  intros Hes. revert g em em' dem dem'.
  induction Hes as [|e e' es es' He Hes IH]; intros g em em' dem dem' Hem Hdem.
  - simpl. auto.
  - destruct He as (Hfrom & Hto & Hlo & Hhi). simpl.
    rewrite <- Hfrom, <- Hto.
    rewrite <- (ltb_congr _ _ _ _ (add_congr _ _ _ _ Hhi (same_number_refl EPS)) Hlo).
    destruct (EdgeSpec.get_hi e + EPS <? EdgeSpec.get_lo e)%float;
      [reflexivity|].
    rewrite <- (fmax_zero_congr _ _ (sub_congr _ _ _ _ Hhi Hlo)).
    apply outcome_rel_same. intros [i_u u_out].
    apply outcome_rel_same. intros [v_in o_v].
    apply outcome_rel_same. intros [g' h].
    apply IH.
    + apply Forall2_app; [exact Hem|]. constructor; [|constructor].
      repeat split; assumption.
    + apply same_demand_insert.
      * apply same_demand_insert; [exact Hdem|].
        apply sub_congr; [apply Hdem|exact Hlo].
      * apply add_congr; [|exact Hlo].
        apply same_demand_insert; [exact Hdem|].
        apply sub_congr; [apply Hdem|exact Hlo].
Qed.

Lemma add_supply_rel srcs t d d' s :
  same_demand d d' ->
  outcome_rel (fun st st' => fst st = fst st' /\ same_demand (snd st) (snd st'))
    (add_supply srcs (t, d) s) (add_supply srcs (t, d') s).
Proof.
  intros Hd. unfold add_supply. apply outcome_rel_same. intros supply.
  simpl. split; [reflexivity|].
  apply same_demand_insert; [exact Hd|].
  apply sub_congr; [apply Hd|apply same_number_refl].
Qed.

Lemma add_super_edge_rel idx d d' s t st v :
  same_demand d d' ->
  outcome_rel eq (add_super_edge idx d s t st v)
                 (add_super_edge idx d' s t st v).
Proof.
  intros Hd. destruct st as [g sp]. unfold add_super_edge.
  apply outcome_rel_same. intros [v_in v_out].
  pose proof (Hd v) as Hv. unfold fgt.
  rewrite <- (ltb_congr _ _ _ _ (same_number_refl EPS) Hv).
  rewrite <- (ltb_congr _ _ _ _ Hv (same_number_refl (- EPS)%float)).
  destruct (EPS <? demand_of d v)%float eqn:Hpos.
  - rewrite <- (above_EPS_eq _ _ Hv Hpos). apply outcome_rel_refl.
  - destruct (demand_of d v <? - EPS)%float eqn:Hneg.
    + rewrite <- (below_neg_EPS_eq _ _ Hv Hneg). apply outcome_rel_refl.
    + apply outcome_rel_refl.
Qed.

Lemma build_rel data data' snk :
  node_set data snk = node_set data' snk ->
  Forall2 same_edge_spec (sorted edge_sort_key_lt (edges data))
                         (sorted edge_sort_key_lt (edges data')) ->
  sources data = sources data' -> node_caps data = node_caps data' ->
  outcome_rel same_build_result (build data snk) (build data' snk).
Proof.
  intros Hnodes Hedges Hsrc Hcaps. unfold build.
  rewrite <- Hnodes, <- Hsrc, <- Hcaps.
  destruct (assign_indices _) as [idx next].
  apply outcome_rel_same. intros g1.
  eapply outcome_rel_bind.
  { apply add_user_edges_rel; [exact Hedges|constructor|apply same_demand_refl]. }
  intros [msg|[[g2 em] dem]] [msg'|[[g2' em'] dem']] Hr; simpl in Hr;
    try contradiction; [exact Hr|].
  destruct Hr as (<- & Hem & Hdem).
  eapply outcome_rel_bind.
  { apply (for_each_rel eq
             (fun st st' => fst st = fst st' /\ same_demand (snd st) (snd st'))).
    - apply Forall2_same. reflexivity.
    - intros [t d] [t' d'] s ? [Ht Hd] <-. simpl in Ht. subst t'.
      apply add_supply_rel. exact Hd.
    - split; [reflexivity|exact Hdem]. }
  intros [ts dem1] [ts' dem1'] [Hts Hdem1]. simpl in Hts, Hdem1. subst ts'.
  eapply outcome_rel_bind.
  { apply (for_each_rel eq eq).
    - apply Forall2_same. reflexivity.
    - intros st ? v ? <- <-. apply add_super_edge_rel.
      apply same_demand_insert; [exact Hdem1|].
      apply add_congr; [apply Hdem1|apply same_number_refl].
    - reflexivity. }
  intros [g3 sp] ? <-. simpl. repeat split; try reflexivity. exact Hem.
Qed.

(** ** The certificate and the reconstruction on key-equal records *)

Lemma tight_edge_rel g reachable db acc r r' :
  same_rec r r' ->
  outcome_rel eq (tight_edge g reachable db acc r)
                 (tight_edge g reachable db acc r').
Proof.
  intros (Hfrom & Hto & Hu & Hv & Hlo & Hhi). unfold tight_edge.
  rewrite <- Hfrom, <- Hto, <- Hu, <- Hv.
  rewrite <- (fmax_zero_congr _ _ (sub_congr _ _ _ _ Hhi Hlo)).
  apply outcome_rel_refl.
Qed.

Lemma flow_of_rel g acc r r' :
  same_rec r r' -> outcome_rel eq (flow_of g acc r) (flow_of g acc r').
Proof.
  intros (Hfrom & Hto & Hu & Hv & Hlo & Hhi). unfold flow_of.
  rewrite <- Hfrom, <- Hto, <- Hu, <- Hv.
  apply outcome_rel_same. intros oe.
  rewrite <- (fmax_zero_congr _ _
                (add_congr _ _ _ _ (same_number_refl _) Hlo)).
  reflexivity.
Qed.

Lemma insert_sorted_rel {A} (R : A -> A -> Prop) (lt : A -> A -> bool) x x' l l' :
  (forall a a' b b', R a a' -> R b b' -> lt a b = lt a' b') ->
  R x x' -> Forall2 R l l' ->
  Forall2 R (insert_sorted lt x l) (insert_sorted lt x' l').
Proof.
  intros Hlt Hx Hl. induction Hl as [|y y' l l' Hy Hl IH]; simpl.
  - constructor; [exact Hx|constructor].
  - rewrite <- (Hlt x x' y y' Hx Hy). destruct (lt x y).
    + constructor; [exact Hx|]. constructor; assumption.
    + constructor; assumption.
Qed.

Lemma sorted_rel {A} (R : A -> A -> Prop) (lt : A -> A -> bool) l l' :
  (forall a a' b b', R a a' -> R b b' -> lt a b = lt a' b') ->
  Forall2 R l l' -> Forall2 R (sorted lt l) (sorted lt l').
Proof.
  intros Hlt Hl. unfold sorted.
  assert (Hacc : Forall2 R (@nil A) (@nil A)) by constructor.
  revert Hacc. generalize (@nil A) at 1 3. generalize (@nil A).
  induction Hl as [|x x' l l' Hx Hl IH]; intros acc' acc Hacc; simpl.
  - exact Hacc.
  - apply IH. apply insert_sorted_rel; assumption.
Qed.

Lemma rec_key_lt_rel a a' b b' :
  same_rec a a' -> same_rec b b' -> rec_key_lt a b = rec_key_lt a' b'.
Proof.
  intros (Hf & Ht & _) (Hf' & Ht' & _). unfold rec_key_lt.
  rewrite Hf, Ht, Hf', Ht'. reflexivity.
Qed.

Lemma certificate_rel net net' g flowed :
  same_network net net' ->
  certificate net g flowed = certificate net' g flowed.
Proof.
  intros (Hn & Hi & Hs & Ht & HG & Hem & Hts & Hsp).
  apply outcome_rel_eq. unfold certificate. rewrite <- Hn, <- Hi, <- Hs, <- Hsp.
  apply outcome_rel_same. intros reachable.
  apply outcome_rel_same. intros cut.
  apply outcome_rel_same. intros tn.
  eapply outcome_rel_bind.
  - apply (for_each_rel same_rec eq); [exact Hem| |reflexivity].
    intros acc ? r r' <- Hr. apply tight_edge_rel, Hr.
  - intros te ? <-. reflexivity.
Qed.

Lemma reconstruct_rel net net' g :
  same_network net net' -> reconstruct net g = reconstruct net' g.
Proof.
  intros (Hn & Hi & Hs & Ht & HG & Hem & Hts & Hsp).
  apply outcome_rel_eq. unfold reconstruct. rewrite <- Hts.
  eapply outcome_rel_bind.
  - apply (for_each_rel same_rec eq); [|  |reflexivity].
    + apply sorted_rel; [apply rec_key_lt_rel|exact Hem].
    + intros acc ? r r' <- Hr. apply flow_of_rel, Hr.
  - intros flows ? <-. reflexivity.
Qed.

(** ** The node set does not depend on the order of the lists *)

Lemma foldl_endpoints_iff (l : list EdgeSpec.t) (s : gset string) x :
  x ∈ foldl (fun s e => s ∪ {[EdgeSpec.from e]} ∪ {[EdgeSpec.to e]}) s l <->
  x ∈ s \/ exists e, e ∈ l /\ (x = EdgeSpec.from e \/ x = EdgeSpec.to e).
Proof.
  revert s. induction l as [|e l IH]; intros s; simpl.
  - split; [auto|]. intros [H|(e & He & _)]; [exact H|inversion He].
  - rewrite IH. rewrite !elem_of_union, !elem_of_singleton. split.
    + intros [[[H|H]|H]|(e' & He' & H)]; eauto using list_elem_of_here.
      right. exists e'. split; [apply list_elem_of_further, He'|exact H].
    + intros [H|(e' & He' & H)]; [auto|].
      apply elem_of_cons in He' as [->|He']; [tauto|eauto].
Qed.

Lemma foldl_keys_iff (l : list string) (s : gset string) x :
  x ∈ foldl (fun s k => s ∪ {[k]}) s l <-> x ∈ s \/ x ∈ l.
Proof.
  revert s. induction l as [|k l IH]; intros s; simpl.
  - split; [auto|]. intros [H|H]; [exact H|inversion H].
  - rewrite IH, elem_of_union, elem_of_singleton, elem_of_cons. tauto.
Qed.

Lemma node_set_elem data snk x :
  x ∈ node_set data snk <->
  x ∈ nodes data \/
  (exists e, e ∈ edges data /\ (x = EdgeSpec.from e \/ x = EdgeSpec.to e)) \/
  x ∈ dom (sources data) \/ x = snk.
Proof.
  unfold node_set.
  rewrite elem_of_union, elem_of_singleton, foldl_keys_iff, foldl_endpoints_iff.
  rewrite elem_of_list_to_set, elem_of_elements. tauto.
Qed.

Lemma node_set_perm data data' snk :
  nodes data ≡ₚ nodes data' -> edges data ≡ₚ edges data' ->
  sources data = sources data' ->
  node_set data snk = node_set data' snk.
Proof.
  intros Hn He Hs. apply set_eq. intros x.
  rewrite !node_set_elem, Hn, Hs.
  assert (Hex : (exists e, e ∈ edges data /\
                   (x = EdgeSpec.from e \/ x = EdgeSpec.to e)) <->
                (exists e, e ∈ edges data' /\
                   (x = EdgeSpec.from e \/ x = EdgeSpec.to e))).
  { split; intros (e & Hin & H); exists e; (split; [|exact H]).
    - rewrite <- He. exact Hin.
    - rewrite He. exact Hin. }
  rewrite Hex. reflexivity.
Qed.

(** C6: two requests that differ only in the order of their edges list,
    one edge having a NaN lower bound, get different results. *)
Lemma nan_bound_order_dependent :
  Permutation (edges nan_first_request) (edges nan_second_request) /\
  nodes nan_first_request = nodes nan_second_request /\
  sources nan_first_request = sources nan_second_request /\
  sink nan_first_request = sink nan_second_request /\
  node_caps nan_first_request = node_caps nan_second_request /\
  run_belts 64 nan_first_request =
    Ret (Ok 0 [Flow.mk "a" "b" 0; Flow.mk "a" "b" 0; Flow.mk "b" "e" 3;
               Flow.mk "d" "a" 3; Flow.mk "e" "d" 3]) /\
  run_belts 64 nan_second_request =
    Ret (Ok 0 [Flow.mk "a" "b" 3; Flow.mk "a" "b" 0; Flow.mk "b" "e" 3;
               Flow.mk "d" "a" 3; Flow.mk "e" "d" 3]) /\
  run_belts 64 nan_first_request <> run_belts 64 nan_second_request.
Proof.
  assert (H1 : run_belts 64 nan_first_request =
    Ret (Ok 0 [Flow.mk "a" "b" 0; Flow.mk "a" "b" 0; Flow.mk "b" "e" 3;
               Flow.mk "d" "a" 3; Flow.mk "e" "d" 3]))
    by (vm_compute; reflexivity).
  assert (H2 : run_belts 64 nan_second_request =
    Ret (Ok 0 [Flow.mk "a" "b" 3; Flow.mk "a" "b" 0; Flow.mk "b" "e" 3;
               Flow.mk "d" "a" 3; Flow.mk "e" "d" 3]))
    by (vm_compute; reflexivity).
  split; [apply perm_swap|]. do 4 (split; [reflexivity|]).
  split; [exact H1|]. split; [exact H2|].
  rewrite H1, H2. intros H.
  apply (f_equal (fun r => match r with
                           | Ret (Ok _ (f :: _)) => (Flow.flow f =? 0)%float
                           | _ => false
                           end)) in H.
  vm_compute in H. discriminate.
Qed.

(** C6 (as amended): for every request whose edge bounds are numbers (no
    [lo] or [hi] is NaN) and every permutation of its edges list and of
    its nodes list, [run_belts] returns the same result, and runs out of
    iterations or raises in the same cases. *)
Theorem permuted_request_same_result :
  forall fuel data data',
    nodes data ≡ₚ nodes data' ->
    edges data ≡ₚ edges data' ->
    sources data = sources data' ->
    sink data = sink data' ->
    node_caps data = node_caps data' ->
    Forall bounds_are_numbers (edges data) ->
    run_belts fuel data = run_belts fuel data'.
Proof.
  intros fuel data data' Hn He Hsrc Hsink Hcaps Hnum.
  apply outcome_rel_eq. unfold run_belts. rewrite <- Hsink.
  destruct (sink data) as [snk|]; [|reflexivity].
  eapply outcome_rel_bind.
  - apply build_rel; [apply node_set_perm; assumption| |assumption..].
    apply sorted_edges_perm; assumption.
  - intros [msg|net] [msg'|net'] Hr; simpl in Hr; try contradiction.
    + subst msg'. reflexivity.
    + pose proof Hr as (_ & _ & Hs & Ht & HG & _ & _ & Hsp).
      rewrite <- Hs, <- Ht, <- HG, <- Hsp.
      apply outcome_rel_same. intros [flowed g].
      rewrite (certificate_rel net net' g flowed Hr).
      rewrite (reconstruct_rel net net' g Hr).
      apply outcome_rel_refl.
Qed.

Lemma permuted_request_same_result_witness :
  run_belts 64 sample_request = run_belts 64 reversed_sample_request.
Proof.
  apply (permuted_request_same_result 64 sample_request reversed_sample_request).
  - exact (Permutation_rev (nodes sample_request)).
  - exact (Permutation_rev (edges sample_request)).
  - reflexivity.
  - reflexivity.
  - reflexivity.
  - repeat constructor; intros H; vm_compute in H; discriminate.
Defined.

(** ** The two tests of the repository *)

(** C1: on the request of [test_belts_sample_ok] (sources s1 = 900 and
    s2 = 600, one sink, all lower bounds zero, ample headroom) the claim
    expects status "ok" with max_flow_per_min 1500.0.  The code returns
    "infeasible" with a deficit of 1500 as soon as [max_flow] is allowed
    one iteration, and never "ok": the supply is attached to the sink's
    side of the auxiliary network, where no belt leads on. *)
Theorem sample_reported_infeasible :
  forall fuel,
    run_belts (S fuel) sample_request = Ret (Infeasible ["sink"] 1500 [] []) /\
    forall mf flows, run_belts fuel sample_request <> Ret (Ok mf flows).
Proof.
  assert (H : forall fuel, run_belts (S fuel) sample_request =
                           Ret (Infeasible ["sink"] 1500 [] [])).
  { intros fuel. apply (run_belts_mono 1); [lia|vm_compute; reflexivity]. }
  intros fuel. split; [apply H|]. intros mf flows.
  destruct fuel as [|fuel]; [vm_compute; discriminate|].
  rewrite H. discriminate.
Qed.

(** C2: on the request of [test_belts_infeasible_due_to_node_cap] the
    result is "infeasible", and its cut_reachable list holds the sink and
    neither of the two sources, the opposite of what the claim requires. *)
Theorem cut_holds_sink_and_no_source :
  forall fuel,
  exists cut db tn te,
    run_belts (S fuel) capped_request = Ret (Infeasible cut db tn te) /\
    "sink" ∈ cut /\ ("s1" ∉ cut) /\ ("s2" ∉ cut) /\
    "s1" ∈ dom (sources capped_request) /\
    "s2" ∈ dom (sources capped_request) /\
    sink capped_request = Some "sink".
Proof.
  intros fuel. exists ["sink"], 1500%float, [], []. split.
  { apply (run_belts_mono 1); [lia|vm_compute; reflexivity]. }
  repeat split; try (vm_compute; reflexivity);
    try (rewrite list_elem_of_singleton; discriminate);
    try (apply list_elem_of_singleton; reflexivity);
    apply elem_of_dom; vm_compute; eauto.
Qed.

(** ** Reconstruction by endpoint *)

(** C5: the request with two parallel belts is reported "ok", and the
    belt from [a] to [b] with bounds [5, 6] is reported with flow 7, above
    its upper bound by far more than the tolerance.  Both parallel belts
    read the flow of the first residual edge that leads from [a] to [b]. *)
Theorem parallel_belt_reported_above_hi :
  forall fuel,
    run_belts (3 + fuel) parallel_request =
      Ret (Ok 0 [Flow.mk "a" "b" 2; Flow.mk "a" "b" 7; Flow.mk "b" "a" 7]) /\
    belt "a" "b" 5 6 ∈ edges parallel_request /\
    (6 + EPS <? 7)%float = true.
Proof.
  intros fuel. split.
  { apply (run_belts_mono 3); [lia|vm_compute; reflexivity]. }
  split; [|vm_compute; reflexivity].
  unfold parallel_request; simpl. apply list_elem_of_further, list_elem_of_here.
Qed.

(** C7: in the same "ok" result node [a], neither a source nor the sink,
    receives 7 and emits 9. *)
Theorem parallel_belts_break_conservation :
  forall fuel,
  exists mf flows,
    run_belts (3 + fuel) parallel_request = Ret (Ok mf flows) /\
    sources parallel_request !! "a" = None /\
    sink parallel_request <> Some "a" /\
    inflow flows "a" = 7%float /\ outflow flows "a" = 9%float /\
    (7 + EPS <? 9)%float = true.
Proof.
  intros fuel. eexists _, _. split.
  { apply (run_belts_mono 3); [lia|vm_compute; reflexivity]. }
  repeat split; try (vm_compute; reflexivity). discriminate.
Qed.

(** The lookup by endpoint also meets the reverse of a node's internal
    edge: it is the first edge that leaves [a.out], and it leads to [a.in]
    as a belt from [a] to itself does.  That belt, with bounds [5, 10], is
    reported with flow 2. *)
Lemma self_loop_reported_below_lo :
  forall fuel,
    run_belts (3 + fuel) self_loop_request =
      Ret (Ok 0 [Flow.mk "a" "a" 2; Flow.mk "a" "b" 3; Flow.mk "b" "a" 3]) /\
    belt "a" "a" 5 10 ∈ edges self_loop_request /\
    (2 + EPS <? 5)%float = true.
Proof.
  intros fuel. split.
  { apply (run_belts_mono 3); [lia|vm_compute; reflexivity]. }
  split; [|vm_compute; reflexivity].
  unfold self_loop_request; simpl. apply list_elem_of_here.
Qed.

(** The flow that the lower bounds force is not charged to the node caps:
    with a cap of 1 on [a] and lower bounds of 5 on the belts into and out
    of [a], the result is "ok" and 5 passes through [a]. *)
Lemma lower_bounds_exceed_node_cap :
  forall fuel,
  exists mf flows,
    run_belts (S fuel) capped_circulation_request = Ret (Ok mf flows) /\
    node_caps capped_circulation_request !! "a" = Some 1%float /\
    inflow flows "a" = 5%float /\ outflow flows "a" = 5%float /\
    (1 + EPS <? 5)%float = true.
Proof.
  intros fuel. eexists _, _. split.
  { apply (run_belts_mono 1); [lia|vm_compute; reflexivity]. }
  repeat split; vm_compute; reflexivity.
Qed.

(** ** The flow cap of [max_flow] *)

Lemma one_edge_levels :
  Dinic.bfs_level one_edge_graph 0 1 = Ret [0%Z; 1%Z].
Proof. vm_compute. reflexivity. Qed.

Lemma one_edge_dfs_stalls :
  Dinic.dfs_flow (Dinic.n one_edge_graph) 1 [0%Z; 1%Z] 0 (0 - 0)%float
    (Dinic.adj one_edge_graph, replicate (Dinic.n one_edge_graph) 0) =
  Ret (0%float, (Dinic.adj one_edge_graph, [1; 0])).
Proof. vm_compute. reflexivity. Qed.

Lemma one_edge_loop_spins fuel :
  Dinic.max_flow_loop fuel one_edge_graph 0 1 0 0 = OutOfFuel.
Proof.
  induction fuel as [|fuel IH]; [reflexivity|].
  rewrite max_flow_loop_S, one_edge_levels.
  change (Ret [0%Z; 1%Z] ≫= ?k) with (k [0%Z; 1%Z]). cbv beta.
  change (index [0%Z; 1%Z] 1) with (Ret (A:=Z) 1%Z).
  change (Ret 1%Z ≫= ?k) with (k 1%Z). cbv beta.
  change (1 <? 0)%Z with false. cbv iota.
  destruct fuel as [|fuel]; [reflexivity|].
  rewrite blocking_flow_S, one_edge_dfs_stalls.
  change (Ret ?x ≫= ?k) with (k x). cbv beta iota zeta.
  change (0 <=? EPS)%float with true. cbv iota.
  change (Ret ?x ≫= ?k) with (k x). cbv beta iota.
  exact IH.
Qed.

(** C8: with the flow cap [limit = 0.0] on the graph of one edge of
    capacity 1 from [s = 0] to [t = 1], [max_flow] does not return
    whatever the number of loop iterations it is allowed: the sink stays
    reachable, the blocking-flow search is offered a budget of 0, pushes
    nothing and breaks, and the outer loop starts over on the same graph. *)
Theorem max_flow_zero_limit_never_returns :
  forall fuel, Dinic.max_flow fuel one_edge_graph 0 1 0 = OutOfFuel.
Proof. intros fuel. apply one_edge_loop_spins. Qed.

(** ** Negation of floats *)

Lemma binary_round_aux_opp prec emax s m e l :
  binary_round_aux prec emax (negb s) m e l =
  SFopp (binary_round_aux prec emax s m e l).
Proof.
  unfold binary_round_aux.
  destruct (shr_fexp prec emax m e l) as [mrs e'].
  destruct (shr_fexp prec emax _ e' loc_Exact) as [mrs' e''].
  destruct (shr_m mrs'); try reflexivity.
  destruct (Z.leb e'' (emax - prec)); reflexivity.
Qed.

Lemma binary_round_opp prec emax s m e :
  binary_round prec emax (negb s) m e = SFopp (binary_round prec emax s m e).
Proof.
  unfold binary_round. destruct (shl_align _ _ _) as [mz ez].
  apply binary_round_aux_opp.
Qed.

Lemma binary_normalize_opp prec emax m e :
  sf_skew (binary_normalize prec emax m e false)
          (binary_normalize prec emax (- m) e false).
Proof.
  destruct m as [|m|m]; simpl.
  - right. eauto.
  - left. apply (binary_round_opp prec emax false).
  - left. rewrite <- (binary_round_opp prec emax true). reflexivity.
Qed.

Lemma cond_Zopp_negb s m : cond_Zopp (negb s) m = (- cond_Zopp s m)%Z.
Proof. destruct s; simpl; lia. Qed.

Lemma SFsub_opp_l prec emax F P :
  sf_skew (SFadd prec emax F P) (SFsub prec emax (SFopp F) P).
Proof.
  destruct F as [sf|sf| |sf mf ef], P as [sp|sp| |sp mp ep];
    try (left; reflexivity).
  - destruct sf, sp; simpl; first [left; reflexivity | right; split; eauto].
  - destruct sf, sp; simpl; left; reflexivity.
  - unfold SFadd, SFsub, SFopp; cbv zeta. rewrite cond_Zopp_negb.
    match goal with
    | |- sf_skew (binary_normalize _ _ ?m _ _) (binary_normalize _ _ ?m' _ _) =>
        replace m' with (- m)%Z by lia; apply binary_normalize_opp
    end.
Qed.

Lemma SFopp_involutive F : SFopp (SFopp F) = F.
Proof. destruct F as [s|s| |s m e]; simpl; rewrite ?negb_involutive; reflexivity. Qed.

Lemma opp_involutive x : (- - x)%float = x.
Proof. apply Prim2SF_inj. rewrite !opp_spec. apply SFopp_involutive. Qed.

Lemma is_zero_opp x : is_zero x -> is_zero (- x)%float.
Proof. intros [s H]. exists (negb s). rewrite opp_spec, H. reflexivity. Qed.

Lemma opp_congr x y : same_number x y -> same_number (- x) (- y).
Proof.
  intros [->|[Hx Hy]]; [left; reflexivity|].
  right. split; apply is_zero_opp; assumption.
Qed.

Lemma same_number_sym x y : same_number x y -> same_number y x.
Proof. intros [->|[Hx Hy]]; [left; reflexivity|right; split; assumption]. Qed.

Lemma same_number_trans x y z :
  same_number x y -> same_number y z -> same_number x z.
Proof.
  intros [->|[Hx Hy]] [->|[Hy' Hz]]; [left; reflexivity|right..]; split; assumption.
Qed.

Lemma sub_opp_l x p : same_number (- x - p) (- (x + p)).
Proof.
  destruct (SFsub_opp_l prec emax (Prim2SF x) (Prim2SF p)) as [H|[[s H] [s' H']]].
  - left. apply Prim2SF_inj. rewrite sub_spec, !opp_spec, add_spec. exact H.
  - right. split.
    + exists s'. rewrite sub_spec, opp_spec. exact H'.
    + exists (negb s). rewrite opp_spec, add_spec.
      unfold SF64add. rewrite H. reflexivity.
Qed.

Lemma skew_sym x y : skew x y -> skew y x.
Proof.
  unfold skew. intros H. apply opp_congr in H. rewrite opp_involutive in H.
  apply same_number_sym. exact H.
Qed.

Lemma skew_zero : skew 0 0.
Proof. right. split; [exists false|exists true]; reflexivity. Qed.

(** [e.flow += p] against [r.flow -= p]. *)
Lemma skew_push f r p : skew f r -> skew (f + p) (r - p).
Proof.
  unfold skew. intros H.
  eapply same_number_trans; [|apply sub_opp_l].
  apply sub_congr; [exact H|left; reflexivity].
Qed.

(** ** Reverse handles are paired *)

Lemma edge_at_Some a u i e :
  edge_at a u i = Some e <->
  exists l, a !! u = Some l /\ l !! i = Some e.
Proof.
  unfold edge_at. destruct (a !! u) as [l|]; split.
  - eauto.
  - intros (l' & [= <-] & H). exact H.
  - discriminate.
  - intros (l' & H & _). discriminate.
Qed.

Lemma edge_at_lt a u i e :
  edge_at a u i = Some e ->
  exists l, a !! u = Some l /\ i < length l /\ u < length a.
Proof.
  intros H. apply edge_at_Some in H as (l & Hl & Hi). exists l.
  split; [exact Hl|]. split; eapply lookup_lt_Some; eauto.
Qed.

Lemma same_frame_edge_at a a' u i e :
  same_frame a a' -> edge_at a u i = Some e ->
  exists e', edge_at a' u i = Some e' /\ same_edge e e'.
Proof.
  intros Hf H. apply edge_at_Some in H as (l & Hl & Hi).
  destruct (Forall2_lookup_l _ _ _ _ _ Hf Hl) as (l' & Hl' & Hll).
  destruct (Forall2_lookup_l _ _ _ _ _ Hll Hi) as (e' & He' & Hee).
  exists e'. split; [|exact Hee]. apply edge_at_Some. eauto.
Qed.

Lemma same_frame_edge_at_r a a' u i e' :
  same_frame a a' -> edge_at a' u i = Some e' ->
  exists e, edge_at a u i = Some e /\ same_edge e e'.
Proof.
  intros Hf H. apply edge_at_Some in H as (l' & Hl' & Hi).
  destruct (Forall2_lookup_r _ _ _ _ _ Hf Hl') as (l & Hl & Hll).
  destruct (Forall2_lookup_r _ _ _ _ _ Hll Hi) as (e & He & Hee).
  exists e. split; [|exact Hee]. apply edge_at_Some. eauto.
Qed.

Lemma same_frame_length a a' : same_frame a a' -> length a' = length a.
Proof. intros H. symmetry. eapply Forall2_length, H. Qed.

Lemma paired_frame a a' : same_frame a a' -> paired a -> paired a'.
Proof.
  intros Hf Hp u i e' He'.
  destruct (same_frame_edge_at_r _ _ _ _ _ Hf He') as (e & He & Hto & Hrev & _).
  destruct (Hp u i e He) as (r & Hr & Hru & Hri).
  destruct (same_frame_edge_at _ _ _ _ _ Hf Hr) as (r' & Hr' & Hto' & Hrev' & _).
  exists r'. rewrite <- Hto, <- Hrev. split; [exact Hr'|].
  split; [congruence|]. intros Hne. rewrite <- Hrev'. apply Hri, Hne.
Qed.

Lemma edge_at_append a u e l w j :
  a !! u = Some l ->
  edge_at (Dinic.append_edge a u e) w j =
  if decide (w = u /\ j = length l) then Some e else edge_at a w j.
Proof.
  intros Hu. unfold Dinic.append_edge. rewrite Hu. unfold edge_at.
  destruct (decide (w = u)) as [->|Hne].
  - rewrite list_lookup_insert_eq by (eapply lookup_lt_Some; eauto). rewrite Hu.
    destruct (decide (j = length l)) as [->|Hj].
    + rewrite decide_True by auto.
      rewrite lookup_app_r by lia. rewrite Nat.sub_diag. reflexivity.
    + rewrite decide_False by tauto.
      destruct (decide (j < length l)).
      * rewrite lookup_app_l by lia. reflexivity.
      * rewrite !lookup_ge_None_2; [reflexivity|lia|].
        rewrite length_app. simpl. lia.
  - rewrite list_lookup_insert_ne by congruence.
    rewrite decide_False by tauto. reflexivity.
Qed.

(** What [add_edge] leaves in the graph, position by position. *)
Lemma add_edge_edge_at g u v c g' h :
  Dinic.add_edge g u v c = Ret (g', h) ->
  exists adj_u adj_v,
    Dinic.adj g !! u = Some adj_u /\ Dinic.adj g !! v = Some adj_v /\
    Dinic.n g' = Dinic.n g /\ length (Dinic.adj g') = length (Dinic.adj g) /\
    h = (u, if decide (u = v) then S (length adj_u) else length adj_u) /\
    forall w j,
      edge_at (Dinic.adj g') w j =
      if decide (w = v /\
                 j = if decide (u = v) then S (length adj_u) else length adj_v)
      then Some (Dinic.new_edge u (length adj_u) 0)
      else if decide (w = u /\ j = length adj_u)
           then Some (Dinic.new_edge v (length adj_v) c)
           else edge_at (Dinic.adj g) w j.
Proof.
  unfold Dinic.add_edge. intros H.
  inv_bind H. rename a into adj_v. inv_bind H. rename a into adj_u.
  inv_bind H. rename a into adj_u'. injection H as <- <-.
  apply index_Ret in Ha, Ha0, Ha1.
  exists adj_u, adj_v. split; [exact Ha0|]. split; [exact Ha|].
  split; [reflexivity|]. split; [simpl; rewrite !length_append_edge; reflexivity|].
  set (a := Dinic.new_edge v (length adj_v) c) in *.
  set (b := Dinic.new_edge u (length adj_u) 0) in *.
  assert (H1 : Dinic.append_edge (Dinic.adj g) u a !! v =
               Some (if decide (u = v) then adj_u ++ [a] else adj_v)).
  { unfold Dinic.append_edge. rewrite Ha0. destruct (decide (u = v)) as [->|Hne].
    - apply list_lookup_insert_eq. eapply lookup_lt_Some; eauto.
    - rewrite list_lookup_insert_ne by exact Hne. exact Ha. }
  split.
  - f_equal. destruct (decide (u = v)) as [->|Hne].
    + rewrite (append_edge_adds _ _ b _ H1) in Ha1. injection Ha1 as <-.
      rewrite !length_app. simpl. lia.
    + unfold Dinic.append_edge in Ha1 at 1. rewrite H1 in Ha1.
      rewrite list_lookup_insert_ne in Ha1 by congruence.
      rewrite (append_edge_adds _ _ a _ Ha0) in Ha1. injection Ha1 as <-.
      rewrite length_app. simpl. lia.
  - intros w j. simpl.
    rewrite (edge_at_append _ _ b _ w j H1).
    rewrite (edge_at_append _ _ a _ w j Ha0).
    assert (Hlen : length (if decide (u = v) then adj_u ++ [a] else adj_v) =
                   if decide (u = v) then S (length adj_u) else length adj_v).
    { destruct (decide (u = v)); [rewrite length_app; simpl; lia|reflexivity]. }
    rewrite Hlen. reflexivity.
Qed.

Lemma init_well_formed k : well_formed (Dinic.init k).
Proof.
  split; [simpl; apply length_replicate|].
  intros u i e H. apply edge_at_Some in H as (l & Hl & Hi). simpl in Hl.
  apply lookup_replicate in Hl as [-> _]. discriminate.
Qed.

Lemma add_edge_well_formed g u v c g' h :
  Dinic.add_edge g u v c = Ret (g', h) -> well_formed g -> well_formed g'.
Proof.
  intros Hadd [Hlen Hp].
  destruct (add_edge_edge_at _ _ _ _ _ _ Hadd)
    as (adj_u & adj_v & Hu & Hv & Hn & Hlen' & _ & Hat).
  split; [congruence|]. intros w j e He. rewrite Hat in He.
  destruct (decide (w = v /\ j = _)) as [[-> ->]|HnB].
  - injection He as <-. simpl. exists (Dinic.new_edge v (length adj_v) c).
    rewrite Hat. rewrite decide_False.
    + rewrite decide_True by auto. split; [reflexivity|]. split; [reflexivity|].
      simpl. intros Hne. rewrite decide_False by congruence. reflexivity.
    + intros [-> Hj]. rewrite decide_True in Hj by reflexivity. lia.
  - destruct (decide (w = u /\ j = length adj_u)) as [[-> ->]|HnA].
    + injection He as <-. simpl. destruct (decide (u = v)) as [->|Hne].
      * assert (adj_u = adj_v) as -> by congruence.
        exists (Dinic.new_edge v (length adj_v) c). rewrite Hat.
        rewrite decide_False by (intros [_ Hj]; lia).
        rewrite decide_True by auto. split; [reflexivity|].
        split; [reflexivity|]. simpl. congruence.
      * exists (Dinic.new_edge u (length adj_u) 0). rewrite Hat.
        rewrite decide_True by auto. split; [reflexivity|].
        split; reflexivity.
    + destruct (Hp w j e He) as (r & Hr & Hrw & Hrj).
      exists r. split; [|split; assumption]. rewrite Hat.
      apply edge_at_lt in Hr as Hlt. destruct Hlt as (l & Hl & Hlt & _).
      rewrite decide_False.
      * rewrite decide_False; [exact Hr|].
        intros [Hx Hy]. rewrite Hx in Hl. assert (l = adj_u) as -> by congruence. lia.
      * intros [Hx Hy]. rewrite Hx in Hl. assert (l = adj_v) as -> by congruence.
        destruct (decide (u = v)) as [->|Hne]; [|lia].
        assert (adj_u = adj_v) as -> by congruence. lia.
Qed.

Lemma constructed_well_formed g : constructed g -> well_formed g.
Proof.
  induction 1 as [k|g u v c g' h Hg IH Hadd].
  - apply init_well_formed.
  - eapply add_edge_well_formed; eauto.
Qed.

Lemma one_edge_graph_constructed : constructed one_edge_graph.
Proof.
  apply (constructed_add (Dinic.init 2) 0 1 1 one_edge_graph (0, 0)).
  - apply constructed_init.
  - reflexivity.
Qed.

Lemma one_edge_graph_well_formed : well_formed one_edge_graph.
Proof. apply constructed_well_formed, one_edge_graph_constructed. Qed.

(** X4: in a graph built by [Dinic(n)] and calls of [add_edge] there is one
    adjacency list per vertex, and the reverse handle of every edge
    [adj[u][i]] names an edge [adj[e.to][e.rev]] that leads back to [u];
    unless the edge leads from [u] to [u], the reverse handle of that edge
    is [i] again. *)
Theorem constructed_reverse_handles_paired :
  forall g,
    constructed g ->
    length (Dinic.adj g) = Dinic.n g /\
    forall u i e,
      edge_at (Dinic.adj g) u i = Some e ->
      exists r,
        edge_at (Dinic.adj g) (Dinic.to e) (Dinic.rev e) = Some r /\
        Dinic.to r = u /\ (Dinic.to e <> u -> Dinic.rev r = i).
Proof. intros g Hg. apply (constructed_well_formed g Hg). Qed.

Lemma constructed_reverse_handles_paired_witness :
  length (Dinic.adj one_edge_graph) = Dinic.n one_edge_graph /\
  forall u i e,
    edge_at (Dinic.adj one_edge_graph) u i = Some e ->
    exists r,
      edge_at (Dinic.adj one_edge_graph) (Dinic.to e) (Dinic.rev e) = Some r /\
      Dinic.to r = u /\ (Dinic.to e <> u -> Dinic.rev r = i).
Proof.
  apply (constructed_reverse_handles_paired one_edge_graph).
  apply one_edge_graph_constructed.
Defined.

(** ** The handle that [add_edge] returns *)

Lemma add_edge_round_trip g u v c :
  u < length (Dinic.adj g) -> v < length (Dinic.adj g) -> u <> v ->
  exists g' i j,
    Dinic.add_edge g u v c = Ret (g', (u, i)) /\
    edge_at (Dinic.adj g') u i = Some (Dinic.mkEdge v j c 0) /\
    edge_at (Dinic.adj g') v j = Some (Dinic.mkEdge u i 0 0) /\
    (forall w k e, edge_at (Dinic.adj g) w k = Some e ->
                   edge_at (Dinic.adj g') w k = Some e) /\
    Dinic.n g' = Dinic.n g /\ length (Dinic.adj g') = length (Dinic.adj g).
Proof.
  intros Hu Hv Hne.
  destruct (add_edge_Ret g u v c Hu Hv) as (g' & h & Hadd & _).
  destruct (add_edge_edge_at _ _ _ _ _ _ Hadd)
    as (adj_u & adj_v & Hau & Hav & Hn & Hlen & -> & Hat).
  rewrite decide_False in Hadd, Hat by exact Hne.
  exists g', (length adj_u), (length adj_v). split; [exact Hadd|].
  split; [|split; [|split; [|auto]]].
  - rewrite Hat, decide_False by (intros [? _]; congruence).
    rewrite decide_True by auto. reflexivity.
  - rewrite Hat, decide_True by auto. reflexivity.
  - intros w k e He. rewrite Hat.
    apply edge_at_lt in He as Hlt. destruct Hlt as (l & Hl & Hlt & _).
    rewrite decide_False.
    + rewrite decide_False; [exact He|].
      intros [-> ->]. assert (l = adj_u) as -> by congruence. lia.
    + intros [-> ->]. assert (l = adj_v) as -> by congruence. lia.
Qed.

Lemma add_edge_self_loop g u c :
  u < length (Dinic.adj g) ->
  exists g' i,
    Dinic.add_edge g u u c = Ret (g', (u, S i)) /\
    edge_at (Dinic.adj g') u i = Some (Dinic.mkEdge u i c 0) /\
    edge_at (Dinic.adj g') u (S i) = Some (Dinic.mkEdge u i 0 0).
Proof.
  intros Hu.
  destruct (add_edge_Ret g u u c Hu Hu) as (g' & h & Hadd & _).
  destruct (add_edge_edge_at _ _ _ _ _ _ Hadd)
    as (adj_u & adj_v & Hau & Hav & Hn & Hlen & -> & Hat).
  assert (adj_v = adj_u) as -> by congruence.
  rewrite decide_True in Hadd, Hat by reflexivity.
  exists g', (length adj_u). split; [exact Hadd|]. split.
  - rewrite Hat, decide_False by (intros [_ ?]; lia).
    rewrite decide_True by auto. reflexivity.
  - rewrite Hat, decide_True by auto. reflexivity.
Qed.

Lemma add_edge_out_of_range g u v c :
  ~ (u < length (Dinic.adj g) /\ v < length (Dinic.adj g)) ->
  Dinic.add_edge g u v c = Raise IndexError.
Proof.
  intros Hout. unfold Dinic.add_edge, index.
  destruct (Dinic.adj g !! v) as [adj_v|] eqn:Hv; [|reflexivity].
  destruct (Dinic.adj g !! u) as [adj_u|] eqn:Hu; [|reflexivity].
  exfalso. apply Hout. split; eapply lookup_lt_Some; eauto.
Qed.

(** X1: [add_edge(u, v, cap)] between two different vertices of the graph
    returns the handle [(u, i)] of the new forward edge: [adj[u][i]] leads
    to [v] with capacity [cap] and flow 0.0, its reverse handle [j] names
    the new edge [adj[v][j]], which leads back to [u] with capacity 0.0 and
    reverse handle [i]; every edge that was in the graph is where it was. *)
Theorem add_edge_returns_paired_handle :
  forall g u v c,
    u < length (Dinic.adj g) -> v < length (Dinic.adj g) -> u <> v ->
    exists g' i j,
      Dinic.add_edge g u v c = Ret (g', (u, i)) /\
      edge_at (Dinic.adj g') u i = Some (Dinic.mkEdge v j c 0) /\
      edge_at (Dinic.adj g') v j = Some (Dinic.mkEdge u i 0 0) /\
      (forall w k e, edge_at (Dinic.adj g) w k = Some e ->
                     edge_at (Dinic.adj g') w k = Some e) /\
      Dinic.n g' = Dinic.n g /\ length (Dinic.adj g') = length (Dinic.adj g).
Proof. intros g u v c Hu Hv Hne. apply add_edge_round_trip; assumption. Qed.

Lemma add_edge_returns_paired_handle_witness :
  exists g' i j,
    Dinic.add_edge (Dinic.init 2) 0 1 1 = Ret (g', (0, i)) /\
    edge_at (Dinic.adj g') 0 i = Some (Dinic.mkEdge 1 j 1 0) /\
    edge_at (Dinic.adj g') 1 j = Some (Dinic.mkEdge 0 i 0 0) /\
    (forall w k e, edge_at (Dinic.adj (Dinic.init 2)) w k = Some e ->
                   edge_at (Dinic.adj g') w k = Some e) /\
    Dinic.n g' = Dinic.n (Dinic.init 2) /\
    length (Dinic.adj g') = length (Dinic.adj (Dinic.init 2)).
Proof.
  apply (add_edge_returns_paired_handle (Dinic.init 2) 0 1 1); simpl; lia.
Defined.

(** X2: [add_edge(u, u, cap)] appends both new edges to [adj[u]] after
    reading its length once: the edge of capacity [cap] lands at index [i]
    with reverse handle [i], its own position, and the handle returned is
    [(u, i + 1)], the position of the edge of capacity 0.0. *)
Theorem add_edge_self_loop_handle :
  forall g u c,
    u < length (Dinic.adj g) ->
    exists g' i,
      Dinic.add_edge g u u c = Ret (g', (u, S i)) /\
      edge_at (Dinic.adj g') u i = Some (Dinic.mkEdge u i c 0) /\
      edge_at (Dinic.adj g') u (S i) = Some (Dinic.mkEdge u i 0 0).
Proof. intros g u c Hu. apply add_edge_self_loop, Hu. Qed.

Lemma add_edge_self_loop_handle_witness :
  exists g' i,
    Dinic.add_edge (Dinic.init 1) 0 0 7 = Ret (g', (0, S i)) /\
    edge_at (Dinic.adj g') 0 i = Some (Dinic.mkEdge 0 i 7 0) /\
    edge_at (Dinic.adj g') 0 (S i) = Some (Dinic.mkEdge 0 i 0 0).
Proof. apply (add_edge_self_loop_handle (Dinic.init 1) 0 7). simpl. lia. Defined.

(** X3: for indices [u] and [v] that are not negative, [add_edge(u, v,
    cap)] raises [IndexError] when [u] or [v] is not below the number of
    adjacency lists, and returns a graph and a handle otherwise. *)
Theorem add_edge_raises_iff_out_of_range :
  forall g u v c,
    (~ (u < length (Dinic.adj g) /\ v < length (Dinic.adj g)) /\
     Dinic.add_edge g u v c = Raise IndexError) \/
    (u < length (Dinic.adj g) /\ v < length (Dinic.adj g) /\
     exists g' h, Dinic.add_edge g u v c = Ret (g', h)).
Proof.
  intros g u v c.
  destruct (decide (u < length (Dinic.adj g) /\ v < length (Dinic.adj g)))
    as [[Hu Hv]|Hout].
  - right. split; [exact Hu|]. split; [exact Hv|].
    destruct (add_edge_Ret g u v c Hu Hv) as (g' & h & H & _). eauto.
  - left. split; [exact Hout|]. apply add_edge_out_of_range, Hout.
Qed.

(** ** Paired edges carry opposite flows *)

Lemma push_others a u i p a' e :
  Dinic.push a u i p = Ret a' ->
  edge_at a u i = Some e ->
  forall w j, ~ (w = u /\ j = i) ->
              ~ (w = Dinic.to e /\ j = Dinic.rev e) ->
              edge_at a' w j = edge_at a w j.
Proof.
  unfold Dinic.push. intros H He w j Hu Hv.
  inv_bind H. rename a0 into adj_u. inv_bind H.
  rewrite (edge_at_index _ _ _ _ _ Ha Ha0) in He. injection He as ->.
  inv_bind H. rename a0 into a1. unfold Dinic.add_flow in Ha1.
  rewrite Ha, bind_Ret, Ha0, bind_Ret in Ha1. injection Ha1 as <-.
  apply index_Ret in Ha, Ha0.
  unfold Dinic.sub_flow in H. inv_bind H. rename a0 into adj_v. inv_bind H.
  rename a0 into r'. injection H as <-. apply index_Ret in Ha1, Ha2.
  rewrite (edge_at_set_flow _ _ _ _ _ _ _ _ Ha1 Ha2).
  rewrite decide_False by exact Hv.
  rewrite (edge_at_set_flow a u i adj_u e _ _ _ Ha Ha0).
  rewrite decide_False by exact Hu. reflexivity.
Qed.

Lemma push_edge a u i p a' :
  Dinic.push a u i p = Ret a' -> exists e, edge_at a u i = Some e.
Proof.
  unfold Dinic.push. intros H. inv_bind H. inv_bind H.
  eexists. eapply edge_at_index; eauto.
Qed.

Lemma push_skew a u i p a' :
  paired a -> skew_flows a -> Dinic.push a u i p = Ret a' -> skew_flows a'.
Proof.
  intros Hp Hs Hpush.
  destruct (push_edge _ _ _ _ _ Hpush) as [e He].
  destruct (Hp u i e He) as (r & Hr & Hru & Hri).
  pose proof (push_frame _ _ _ _ _ Hpush) as Hf.
  pose proof (push_others _ _ _ _ _ _ Hpush He) as Hoth.
  intros w j e2 r2 He2 Hne2 Hr2.
  destruct (same_frame_edge_at_r _ _ _ _ _ Hf He2) as (e2' & He2' & Hto2 & Hrev2 & _).
  destruct (Hp w j e2' He2') as (r2' & Hr2' & Hr2w & Hr2j).
  rewrite <- Hto2, <- Hrev2 in Hr2. rewrite <- Hto2 in Hne2.
  specialize (Hr2j Hne2).
  destruct (decide (Dinic.to e = u)) as [Hself|Hnself].
  - (* the pushed edge starts and ends at [u]: no other kind is touched *)
    assert (Hw : edge_at a' w j = edge_at a w j).
    { apply Hoth.
      - intros [-> ->]. congruence.
      - intros [-> ->]. rewrite Hself in He2'. congruence. }
    assert (Hw' : edge_at a' (Dinic.to e2') (Dinic.rev e2') =
                  edge_at a (Dinic.to e2') (Dinic.rev e2')).
    { apply Hoth.
      - intros [Hx Hy]. rewrite Hx, Hy in Hr2'. congruence.
      - intros [Hx Hy]. rewrite Hx, Hy in Hr2'. congruence. }
    rewrite Hw in He2. rewrite Hw' in Hr2.
    assert (e2 = e2') as -> by congruence.
    eapply Hs; eauto.
  - specialize (Hri Hnself).
    destruct (push_effect _ _ _ _ _ _ _ Hpush He Hr ltac:(tauto))
      as (Hnew_e & Hnew_r & _).
    pose proof (Hs u i e r He Hnself Hr) as Her.
    destruct (decide (w = u /\ j = i)) as [[-> ->]|Hn1].
    + assert (e2' = e) as -> by congruence.
      rewrite Hnew_e in He2. injection He2 as <-.
      rewrite Hnew_r in Hr2. injection Hr2 as <-. simpl.
      apply skew_push, Her.
    + destruct (decide (w = Dinic.to e /\ j = Dinic.rev e)) as [[-> ->]|Hn2].
      * assert (e2' = r) as -> by congruence.
        rewrite Hnew_r in He2. injection He2 as <-.
        rewrite Hru, Hri, Hnew_e in Hr2. injection Hr2 as <-. simpl.
        apply skew_sym, skew_push, Her.
      * rewrite (Hoth w j Hn1 Hn2) in He2.
        assert (e2 = e2') as -> by congruence.
        rewrite Hoth in Hr2.
        -- eapply Hs; eauto.
        -- intros [Hx Hy]. rewrite Hx, Hy in Hr2'.
           assert (r2' = e) as -> by congruence. apply Hn2. split; congruence.
        -- intros [Hx Hy]. rewrite Hx, Hy in Hr2'.
           assert (r2' = r) as -> by congruence. apply Hn1. split; congruence.
Qed.

Section PushInvariant.
Variable P : list (list Dinic.Edge) -> Prop.
Hypothesis P_push :
  forall a u i p a', P a -> Dinic.push a u i p = Ret a' -> P a'.

Lemma scan_invariant rec level u pushed k i st r st' :
  (forall v p s r' s', P (fst s) -> rec v p s = Ret (r', s') -> P (fst s')) ->
  P (fst st) ->
  Dinic.scan rec level u pushed k i st = Ret (r, st') -> P (fst st').
Proof.
  intros Hrec. revert i st. induction k as [|k IH]; intros i [a it] HP H; simpl in H.
  - injection H as _ <-. exact HP.
  - inv_bind H. rename a0 into adj_u. inv_bind H. rename a0 into e.
    inv_bind H. destruct a0.
    + inv_bind H. destruct a0 as [to_push [a1 it1]].
      apply Hrec in Ha2; [|exact HP]. simpl in Ha2.
      destruct (fgt to_push EPS).
      * inv_bind H. injection H as _ <-. simpl. eapply P_push; eauto.
      * apply IH in H; [exact H|exact Ha2].
    + apply IH in H; [exact H|exact HP].
Qed.

Lemma dfs_flow_invariant depth tgt level u pushed st r st' :
  P (fst st) ->
  Dinic.dfs_flow depth tgt level u pushed st = Ret (r, st') -> P (fst st').
Proof.
  revert u pushed st r st'.
  induction depth as [|d IH]; intros u pushed st r st' HP H; simpl in H.
  - destruct (Nat.eqb u tgt); [|discriminate]. injection H as _ <-. exact HP.
  - destruct (Nat.eqb u tgt).
    + injection H as _ <-. exact HP.
    + inv_bind H. inv_bind H. eapply scan_invariant; [|exact HP|exact H].
      intros v p s r' s' Hs Hrun. eapply IH; eauto.
Qed.

Lemma blocking_flow_invariant fuel g s tgt limit level st flow ex a' flow' :
  P (fst st) ->
  Dinic.blocking_flow fuel g s tgt limit level st flow = Ret (ex, a', flow') ->
  P a'.
Proof.
  revert st flow. induction fuel as [|fuel IH]; intros st flow HP H; [discriminate|].
  rewrite blocking_flow_S in H. inv_bind H. destruct a as [pushed st1].
  apply dfs_flow_invariant in Ha; [|exact HP]. simpl in H.
  destruct (pushed <=? EPS)%float.
  - injection H as _ <- _. exact Ha.
  - destruct (fge (flow + pushed + EPS) limit).
    + injection H as _ <- _. exact Ha.
    + eapply IH; eauto.
Qed.

Lemma max_flow_loop_invariant fuel g s tgt limit flow f g' :
  P (Dinic.adj g) ->
  Dinic.max_flow_loop fuel g s tgt limit flow = Ret (f, g') ->
  P (Dinic.adj g').
Proof.
  revert g flow. induction fuel as [|fuel IH]; intros g flow HP H; [discriminate|].
  rewrite max_flow_loop_S in H. inv_bind H. rename a into level.
  inv_bind H. destruct (a <? 0)%Z.
  - injection H as _ <-. exact HP.
  - inv_bind H. destruct a0 as [[ex a1] flow1].
    apply blocking_flow_invariant in Ha1; [|exact HP]. destruct ex.
    + injection H as _ <-. exact Ha1.
    + eapply IH; [|exact H]. exact Ha1.
Qed.
End PushInvariant.

Lemma constructed_skew g : constructed g -> skew_flows (Dinic.adj g).
Proof.
  intros Hg u i e r He _ Hr.
  apply edge_at_Some in He as (l & Hl & Hi).
  apply edge_at_Some in Hr as (l' & Hl' & Hi').
  rewrite (constructed_flows_zero g Hg _ _ e Hl) by (eapply list_elem_of_lookup_2; eauto).
  rewrite (constructed_flows_zero g Hg _ _ r Hl') by (eapply list_elem_of_lookup_2; eauto).
  apply skew_zero.
Qed.

Lemma max_flow_skew fuel g s t limit f g' :
  well_formed g -> skew_flows (Dinic.adj g) ->
  Dinic.max_flow fuel g s t limit = Ret (f, g') ->
  well_formed g' /\ skew_flows (Dinic.adj g').
Proof.
  intros [Hlen Hp] Hs Hrun. unfold Dinic.max_flow in Hrun.
  pose proof (max_flow_loop_frame _ _ _ _ _ _ _ _ Hrun) as [Hn Hf].
  destruct (max_flow_loop_invariant (fun a => paired a /\ skew_flows a))
    with (1 := fun a u i p a' (H : paired a /\ skew_flows a)
                   (Hpush : Dinic.push a u i p = Ret a') =>
                 conj (paired_frame _ _ (push_frame _ _ _ _ _ Hpush) (proj1 H))
                      (push_skew _ _ _ _ _ (proj1 H) (proj2 H) Hpush))
         (3 := Hrun) as [Hp' Hs']; [split; assumption|].
  split; [|exact Hs']. split; [|exact Hp'].
  rewrite (same_frame_length _ _ Hf). congruence.
Qed.

Lemma one_edge_solved_run :
  Dinic.max_flow 8 one_edge_graph 0 1 INF = Ret (1%float, one_edge_solved).
Proof. vm_compute. reflexivity. Qed.

(** X5: after [max_flow] on a graph built by [add_edge], the flow of the
    edge at the reverse handle of an edge between two different vertices
    is the negation of the flow of that edge (the two zeros count as one
    number); the reverse handles are paired as before. *)
Theorem max_flow_keeps_flows_skew_symmetric :
  forall fuel g s t limit f g',
    constructed g ->
    Dinic.max_flow fuel g s t limit = Ret (f, g') ->
    forall u i e,
      edge_at (Dinic.adj g') u i = Some e -> Dinic.to e <> u ->
      exists r,
        edge_at (Dinic.adj g') (Dinic.to e) (Dinic.rev e) = Some r /\
        Dinic.to r = u /\ Dinic.rev r = i /\
        same_number (Dinic.flow r) (- Dinic.flow e).
Proof.
  intros fuel g s t limit f g' Hg Hrun u i e He Hne.
  destruct (max_flow_skew fuel g s t limit f g'
              (constructed_well_formed g Hg) (constructed_skew g Hg) Hrun)
    as [[_ Hp] Hs].
  destruct (Hp u i e He) as (r & Hr & Hru & Hri).
  exists r. split; [exact Hr|]. split; [exact Hru|]. split; [apply Hri, Hne|].
  apply (Hs u i e r He Hne Hr).
Qed.

Lemma max_flow_keeps_flows_skew_symmetric_witness :
  edge_at (Dinic.adj one_edge_solved) 0 0 = Some (Dinic.mkEdge 1 0 1 1) /\
  exists r,
    edge_at (Dinic.adj one_edge_solved) 1 0 = Some r /\
    Dinic.to r = 0 /\ Dinic.rev r = 0 /\ same_number (Dinic.flow r) (- 1).
Proof.
  split; [reflexivity|].
  apply (max_flow_keeps_flows_skew_symmetric 8 one_edge_graph 0 1 INF 1
           one_edge_solved one_edge_graph_constructed one_edge_solved_run
           0 0 (Dinic.mkEdge 1 0 1 1)); [reflexivity|simpl; lia].
Defined.

(** ** The solve keeps every index in range *)

Lemma bind_no_raise {A B} (m : outcome A) (k : A -> outcome B) :
  no_raise m -> (forall a, m = Ret a -> no_raise (k a)) -> no_raise (m ≫= k).
Proof.
  intros Hm Hk e. destruct m as [a|e'|]; simpl.
  - apply Hk. reflexivity.
  - intros _. eapply Hm. reflexivity.
  - discriminate.
Qed.

Lemma Ret_no_raise {A} (a : A) : no_raise (Ret a).
Proof. intros e. discriminate. Qed.

Lemma index_no_raise {A} (l : list A) i : i < length l -> no_raise (index l i).
Proof.
  intros H e. destruct (index_lt l i H) as (a & -> & _). discriminate.
Qed.

Lemma for_each_no_raise {A S} (P : S -> Prop) (body : S -> A -> outcome S) l st :
  (forall s x, x ∈ l -> P s ->
     no_raise (body s x) /\ forall s', body s x = Ret s' -> P s') ->
  P st -> no_raise (for_each body l st).
Proof.
  revert st. induction l as [|x l IH]; intros st Hbody Hst; simpl.
  - apply Ret_no_raise.
  - destruct (Hbody st x (list_elem_of_here _ _) Hst) as [Hnr Hpost].
    apply bind_no_raise; [exact Hnr|]. intros s' Hs'. apply IH.
    + intros s y Hy. apply Hbody, list_elem_of_further, Hy.
    + apply Hpost, Hs'.
Qed.

Lemma no_raise_Ret {A} (m : outcome A) :
  no_raise m -> m <> OutOfFuel -> exists a, m = Ret a.
Proof.
  intros Hr Ht. destruct m as [a|e|]; [eauto|exfalso; eapply Hr; reflexivity|congruence].
Qed.

(** *** The edges of a paired graph point to vertices *)

Lemma paired_to_lt a u adj_u e :
  paired a -> a !! u = Some adj_u -> e ∈ adj_u -> Dinic.to e < length a.
Proof.
  intros Hp Hu He. apply list_elem_of_lookup in He as [i Hi].
  destruct (Hp u i e) as (r & Hr & _); [apply edge_at_Some; eauto|].
  apply edge_at_lt in Hr as (_ & _ & _ & H). exact H.
Qed.

(** *** [bfs_level] *)

Lemma bfs_visit_safe n u level q e :
  length level = n -> Forall (fun v => v < n) q -> u < n -> Dinic.to e < n ->
  no_raise (Dinic.bfs_visit u (level, q) e) /\
  forall level' q', Dinic.bfs_visit u (level, q) e = Ret (level', q') ->
    length level' = n /\ Forall (fun v => v < n) q'.
Proof.
  intros Hlen Hq Hu He. unfold Dinic.bfs_visit.
  destruct (index_lt level (Dinic.to e)) as (lv & -> & _); [lia|].
  rewrite bind_Ret.
  destruct ((lv <? 0)%Z && fgt (Dinic.residual e) EPS).
  - destruct (index_lt level u) as (lu & -> & _); [lia|]. rewrite bind_Ret.
    split; [apply Ret_no_raise|]. intros level' q' [= <- <-].
    split; [rewrite length_insert; exact Hlen|].
    apply Forall_app. split; [exact Hq|]. constructor; [exact He|constructor].
  - split; [apply Ret_no_raise|]. intros level' q' [= <- <-]. auto.
Qed.

Lemma bfs_visits_safe n a u adj_u level q :
  paired a -> length a = n -> a !! u = Some adj_u ->
  length level = n -> Forall (fun v => v < n) q ->
  no_raise (for_each (Dinic.bfs_visit u) adj_u (level, q)) /\
  forall level' q', for_each (Dinic.bfs_visit u) adj_u (level, q) = Ret (level', q') ->
    length level' = n /\ Forall (fun v => v < n) q'.
Proof.
  intros Hp Hlen Hu Hlevel Hq.
  assert (Hun : u < n) by (rewrite <- Hlen; eapply lookup_lt_Some; eauto).
  set (P := fun st : list Z * list nat =>
              length (fst st) = n /\ Forall (fun v => v < n) (snd st)).
  assert (Hbody : forall s x, x ∈ adj_u -> P s ->
            no_raise (Dinic.bfs_visit u s x) /\
            forall s', Dinic.bfs_visit u s x = Ret s' -> P s').
  { intros [l q0] e He [Hl Hq0]. simpl in *.
    destruct (bfs_visit_safe n u l q0 e Hl Hq0 Hun) as [Hnr Hpost].
    - rewrite <- Hlen. eapply paired_to_lt; eauto.
    - split; [exact Hnr|]. intros [l' q'] Hs. apply Hpost, Hs. }
  split.
  - apply (for_each_no_raise P); [exact Hbody|]. split; assumption.
  - intros level' q' Hrun.
    apply (for_each_invariant P) in Hrun; [exact Hrun| |split; assumption].
    intros s x s' Hx Hs Hstep. eapply Hbody; eauto.
Qed.

Lemma bfs_loop_no_raise n budget g level q :
  paired (Dinic.adj g) -> length (Dinic.adj g) = n ->
  length level = n -> Forall (fun v => v < n) q ->
  no_raise (Dinic.bfs_loop budget g level q).
Proof.
  intros Hp Hlen. revert level q.
  induction budget as [|b IH]; intros level q Hlevel Hq.
  - destruct q; simpl; [apply Ret_no_raise|intros e; discriminate].
  - destruct q as [|u q]; simpl; [apply Ret_no_raise|].
    apply Forall_cons in Hq as [Hu Hq].
    destruct (index_lt (Dinic.adj g) u) as (adj_u & -> & Hau); [lia|].
    rewrite bind_Ret.
    destruct (bfs_visits_safe n _ u adj_u level q Hp Hlen Hau Hlevel Hq)
      as [Hnr Hpost].
    apply bind_no_raise; [exact Hnr|]. intros [level' q'] Hrun.
    apply Hpost in Hrun as [Hl' Hq']. apply IH; assumption.
Qed.

Lemma bfs_level_Ret g s t :
  well_formed g -> s < Dinic.n g ->
  exists level, Dinic.bfs_level g s t = Ret level.
Proof.
  intros [Hlen Hp] Hs. apply no_raise_Ret; [|apply bfs_level_no_timeout].
  unfold Dinic.bfs_level.
  apply bind_no_raise; [apply index_no_raise; rewrite length_replicate; exact Hs|].
  intros _ _. apply (bfs_loop_no_raise (Dinic.n g)); try assumption.
  - rewrite length_insert, length_replicate. reflexivity.
  - constructor; [exact Hs|constructor].
Qed.

(** *** [reachable_from] *)

Lemma reach_visit_safe n vis q e :
  length vis = n -> Forall (fun v => v < n) q -> Dinic.to e < n ->
  no_raise (Dinic.reach_visit (vis, q) e) /\
  forall vis' q', Dinic.reach_visit (vis, q) e = Ret (vis', q') ->
    length vis' = n /\ Forall (fun v => v < n) q'.
Proof.
  intros Hlen Hq He. unfold Dinic.reach_visit.
  destruct (index_lt vis (Dinic.to e)) as (v & -> & _); [lia|].
  rewrite bind_Ret.
  destruct (negb v && fgt (Dinic.residual e) EPS).
  - split; [apply Ret_no_raise|]. intros vis' q' [= <- <-].
    split; [rewrite length_insert; exact Hlen|].
    apply Forall_app. split; [exact Hq|]. constructor; [exact He|constructor].
  - split; [apply Ret_no_raise|]. intros vis' q' [= <- <-]. auto.
Qed.

Lemma reach_visits_safe n a u adj_u vis q :
  paired a -> length a = n -> a !! u = Some adj_u ->
  length vis = n -> Forall (fun v => v < n) q ->
  no_raise (for_each Dinic.reach_visit adj_u (vis, q)) /\
  forall vis' q', for_each Dinic.reach_visit adj_u (vis, q) = Ret (vis', q') ->
    length vis' = n /\ Forall (fun v => v < n) q'.
Proof.
  intros Hp Hlen Hu Hvis Hq.
  set (P := fun st : list bool * list nat =>
              length (fst st) = n /\ Forall (fun v => v < n) (snd st)).
  assert (Hbody : forall s x, x ∈ adj_u -> P s ->
            no_raise (Dinic.reach_visit s x) /\
            forall s', Dinic.reach_visit s x = Ret s' -> P s').
  { intros [l q0] e He [Hl Hq0]. simpl in *.
    destruct (reach_visit_safe n l q0 e Hl Hq0) as [Hnr Hpost].
    - rewrite <- Hlen. eapply paired_to_lt; eauto.
    - split; [exact Hnr|]. intros [l' q'] Hs. apply Hpost, Hs. }
  split.
  - apply (for_each_no_raise P); [exact Hbody|]. split; assumption.
  - intros vis' q' Hrun.
    apply (for_each_invariant P) in Hrun; [exact Hrun| |split; assumption].
    intros s x s' Hx Hs Hstep. eapply Hbody; eauto.
Qed.

Lemma reach_loop_no_raise n budget g vis q :
  paired (Dinic.adj g) -> length (Dinic.adj g) = n ->
  length vis = n -> Forall (fun v => v < n) q ->
  no_raise (Dinic.reach_loop budget g vis q).
Proof.
  intros Hp Hlen. revert vis q.
  induction budget as [|b IH]; intros vis q Hvis Hq.
  - destruct q; simpl; [apply Ret_no_raise|intros e; discriminate].
  - destruct q as [|u q]; simpl; [apply Ret_no_raise|].
    apply Forall_cons in Hq as [Hu Hq].
    destruct (index_lt (Dinic.adj g) u) as (adj_u & -> & Hau); [lia|].
    rewrite bind_Ret.
    destruct (reach_visits_safe n _ u adj_u vis q Hp Hlen Hau Hvis Hq)
      as [Hnr Hpost].
    apply bind_no_raise; [exact Hnr|]. intros [vis' q'] Hrun.
    apply Hpost in Hrun as [Hl' Hq']. apply IH; assumption.
Qed.

Lemma reachable_from_Ret g s :
  well_formed g -> s < Dinic.n g ->
  exists vis, Dinic.reachable_from g s = Ret vis.
Proof.
  intros [Hlen Hp] Hs. apply no_raise_Ret; [|apply reachable_from_no_timeout].
  unfold Dinic.reachable_from.
  apply bind_no_raise; [apply index_no_raise; rewrite length_replicate; exact Hs|].
  intros _ _. apply (reach_loop_no_raise (Dinic.n g)); try assumption.
  - rewrite length_insert, length_replicate. reflexivity.
  - constructor; [exact Hs|constructor].
Qed.

(** *** [dfs_flow] *)

Lemma push_Ret a u i p e :
  paired a -> edge_at a u i = Some e -> exists a', Dinic.push a u i p = Ret a'.
Proof.
  intros Hp He. destruct (Hp u i e He) as (r & Hr & _).
  apply edge_at_Some in He as (adj_u & Hu & Hi).
  unfold Dinic.push, Dinic.add_flow.
  apply index_Ret in Hu as Hu', Hi as Hi'. rewrite Hu', !bind_Ret, Hi', !bind_Ret.
  set (a1 := <[u := _]> a).
  assert (Hf : same_frame a a1) by (apply same_frame_set_flow; assumption).
  destruct (same_frame_edge_at _ _ _ _ _ Hf Hr) as (r' & Hr' & _).
  apply edge_at_Some in Hr' as (adj_v & Hv & Hj).
  unfold Dinic.sub_flow. apply index_Ret in Hv, Hj.
  rewrite Hv, bind_Ret, Hj, bind_Ret. eauto.
Qed.

Lemma same_frame_row a a' u l :
  same_frame a a' -> a !! u = Some l ->
  exists l', a' !! u = Some l' /\ length l' = length l.
Proof.
  intros Hf Hl. destruct (Forall2_lookup_l _ _ _ _ _ Hf Hl) as (l' & Hl' & Hll).
  exists l'. split; [exact Hl'|]. symmetry. eapply Forall2_length, Hll.
Qed.

Lemma dfs_state_frame n a it a' it' :
  dfs_state_ok n (a, it) -> same_frame a a' -> length it' = n ->
  dfs_state_ok n (a', it').
Proof.
  intros (Hl & Hp & _) Hf Hit. split; [|split]; simpl in *.
  - rewrite (same_frame_length _ _ Hf). exact Hl.
  - eapply paired_frame; eauto.
  - exact Hit.
Qed.

Section ScanSafe.
Variable n : nat.
Variable rec : nat -> float -> list (list Dinic.Edge) * list nat ->
               outcome (float * (list (list Dinic.Edge) * list nat)).
Variable level : list Z.
Hypothesis Hlevel : length level = n.
Hypothesis Hrec :
  forall v p st, v < n -> dfs_state_ok n st ->
    no_raise (rec v p st) /\
    forall r st', rec v p st = Ret (r, st') ->
      dfs_state_ok n st' /\ same_frame (fst st) (fst st').

Lemma scan_safe u pushed k i st adj_u :
  u < n -> dfs_state_ok n st -> fst st !! u = Some adj_u ->
  k <= length adj_u - i ->
  no_raise (Dinic.scan rec level u pushed k i st) /\
  forall r st', Dinic.scan rec level u pushed k i st = Ret (r, st') ->
    dfs_state_ok n st' /\ same_frame (fst st) (fst st').
Proof.
  intros Hu. revert i st adj_u.
  induction k as [|k IH]; intros i [a it] adj_u Hst Hrow Hk; simpl in *.
  - split; [apply Ret_no_raise|]. intros r st' [= _ <-].
    split; [exact Hst|apply same_frame_refl].
  - pose proof Hst as (Hla & Hp & Hlit). simpl in *.
    apply index_Ret in Hrow as Hrow'. rewrite Hrow', bind_Ret.
    destruct (index_lt adj_u i) as (e & -> & He); [lia|]. rewrite bind_Ret.
    assert (Hto : Dinic.to e < n).
    { rewrite <- Hla. eapply paired_to_lt; eauto.
      eapply list_elem_of_lookup_2; eauto. }
    assert (Hnext : forall a' it',
              dfs_state_ok n (a', it') -> same_frame a a' ->
              no_raise (Dinic.scan rec level u pushed k (S i) (a', <[u := S i]> it')) /\
              forall r st',
                Dinic.scan rec level u pushed k (S i) (a', <[u := S i]> it') =
                  Ret (r, st') ->
                dfs_state_ok n st' /\ same_frame a (fst st')).
    { intros a' it' Hst' Hf.
      destruct (same_frame_row _ _ _ _ Hf Hrow) as (adj_u' & Hrow1 & Hlen1).
      destruct (IH (S i) (a', <[u := S i]> it') adj_u') as [Hnr Hpost].
      - destruct Hst' as (? & ? & ?). split; [|split]; simpl in *; try assumption.
        rewrite length_insert. assumption.
      - exact Hrow1.
      - lia.
      - split; [exact Hnr|]. intros r st' Hrun.
        apply Hpost in Hrun as [Hok Hf']. split; [exact Hok|].
        eapply same_frame_trans; eauto. }
    destruct (fgt (Dinic.residual e) EPS).
    + destruct (index_lt level (Dinic.to e)) as (lv & -> & _); [lia|].
      destruct (index_lt level u) as (lu & -> & _); [lia|]. rewrite !bind_Ret.
      destruct (lv =? lu + 1)%Z.
      * destruct (Hrec (Dinic.to e) (fmin pushed (Dinic.residual e)) (a, it) Hto Hst)
          as [Hnr Hpost].
        split.
        -- apply bind_no_raise; [exact Hnr|]. intros [to_push [a' it']] Hrun.
           apply Hpost in Hrun as [Hst' Hf]. simpl in Hf.
           destruct (fgt to_push EPS).
           ++ destruct (same_frame_edge_at a a' u i e Hf) as (e' & He' & _).
              { apply edge_at_Some. eauto. }
              destruct (push_Ret a' u i to_push e') as (a'' & ->);
                [apply Hst'|exact He'|].
              rewrite bind_Ret. apply Ret_no_raise.
           ++ apply Hnext; assumption.
        -- intros r st' Hrun.
           apply bind_Ret_inv in Hrun as ([to_push [a' it']] & Hcall & Hrun).
           apply Hpost in Hcall as [Hst' Hf]. simpl in Hf.
           destruct (fgt to_push EPS).
           ++ apply bind_Ret_inv in Hrun as (a'' & Hpush & Hrun).
              injection Hrun as _ <-. simpl.
              apply push_frame in Hpush.
              split; [|eapply same_frame_trans; eauto].
              eapply dfs_state_frame; [exact Hst'|exact Hpush|].
              rewrite length_insert. apply Hst'.
           ++ eapply Hnext; eauto.
      * apply Hnext; [exact Hst|apply same_frame_refl].
    + rewrite bind_Ret. apply Hnext; [exact Hst|apply same_frame_refl].
Qed.
End ScanSafe.

Lemma dfs_flow_safe n depth tgt level u pushed st :
  length level = n -> u < n -> dfs_state_ok n st ->
  no_raise (Dinic.dfs_flow depth tgt level u pushed st) /\
  forall r st', Dinic.dfs_flow depth tgt level u pushed st = Ret (r, st') ->
    dfs_state_ok n st' /\ same_frame (fst st) (fst st').
Proof.
  intros Hlevel. revert u pushed st.
  induction depth as [|d IH]; intros u pushed st Hu Hst; simpl.
  - destruct (Nat.eqb u tgt).
    + split; [apply Ret_no_raise|]. intros r st' [= _ <-].
      split; [exact Hst|apply same_frame_refl].
    + split; [intros e; discriminate|discriminate].
  - destruct (Nat.eqb u tgt).
    + split; [apply Ret_no_raise|]. intros r st' [= _ <-].
      split; [exact Hst|apply same_frame_refl].
    + pose proof Hst as (Hla & Hp & Hlit).
      destruct (index_lt (fst st) u) as (adj_u & -> & Hrow); [lia|].
      destruct (index_lt (snd st) u) as (i0 & -> & _); [lia|].
      rewrite !bind_Ret.
      eapply (scan_safe n (Dinic.dfs_flow d tgt level) level Hlevel); eauto.
Qed.

(** *** The two loops of [max_flow] *)

Lemma blocking_flow_no_raise fuel g s tgt limit level st flow :
  length level = Dinic.n g -> s < Dinic.n g -> dfs_state_ok (Dinic.n g) st ->
  no_raise (Dinic.blocking_flow fuel g s tgt limit level st flow).
Proof.
  intros Hlevel Hs. revert st flow.
  induction fuel as [|fuel IH]; intros st flow Hst; [intros e; discriminate|].
  rewrite blocking_flow_S.
  destruct (dfs_flow_safe (Dinic.n g) (Dinic.n g) tgt level s (limit - flow) st
              Hlevel Hs Hst) as [Hnr Hpost].
  apply bind_no_raise; [exact Hnr|]. intros [pushed st1] Hrun.
  apply Hpost in Hrun as [Hst1 _].
  destruct (pushed <=? EPS)%float; [apply Ret_no_raise|]. cbv zeta.
  destruct (fge _ limit); [apply Ret_no_raise|]. apply IH, Hst1.
Qed.

Lemma max_flow_loop_no_raise fuel g s tgt limit flow :
  well_formed g -> s < Dinic.n g -> tgt < Dinic.n g ->
  no_raise (Dinic.max_flow_loop fuel g s tgt limit flow).
Proof.
  revert g flow. induction fuel as [|fuel IH]; intros g flow Hwf Hs Ht;
    [intros e; discriminate|].
  rewrite max_flow_loop_S.
  destruct (bfs_level_Ret g s tgt Hwf Hs) as [level Hbfs]. rewrite Hbfs, bind_Ret.
  apply bfs_level_levels in Hbfs as (Hlen & _ & _).
  destruct (index_lt level tgt) as (lt & -> & _); [lia|]. rewrite bind_Ret.
  destruct (lt <? 0)%Z; [apply Ret_no_raise|].
  assert (Hst : dfs_state_ok (Dinic.n g) (Dinic.adj g, replicate (Dinic.n g) 0)).
  { destruct Hwf as [Hl Hp]. split; [exact Hl|]. split; [exact Hp|].
    simpl. apply length_replicate. }
  apply bind_no_raise; [apply blocking_flow_no_raise; assumption|].
  intros [[ex a] flow1] Hrun. apply blocking_flow_frame in Hrun. simpl in Hrun.
  destruct ex; [apply Ret_no_raise|].
  apply IH; [|exact Hs|exact Ht].
  destruct Hwf as [Hl Hp]. split; simpl.
  - rewrite (same_frame_length _ _ Hrun). exact Hl.
  - eapply paired_frame; eauto.
Qed.

(** X22: with the levels of [bfs_level(s, t)], the search [dfs_flow(s, t,
    ...)] of [max_flow] returns within as many nested calls as the graph
    has vertices, whatever the flows and the resume pointers are: every
    nested call is one level up.  It leaves the edges as they were up to
    their flows. *)
Theorem dfs_flow_returns_within_n_frames :
  forall g s t level pushed st,
    well_formed g -> s < Dinic.n g -> t < Dinic.n g ->
    Dinic.bfs_level g s t = Ret level ->
    dfs_state_ok (Dinic.n g) st ->
    exists r st',
      Dinic.dfs_flow (Dinic.n g) t level s pushed st = Ret (r, st') /\
      dfs_state_ok (Dinic.n g) st' /\ same_frame (fst st) (fst st').
Proof.
  intros g s t level pushed st Hwf Hs Ht Hbfs Hst.
  pose proof (bfs_level_levels _ _ _ _ Hbfs) as (Hlen & _ & _).
  destruct (dfs_flow_safe (Dinic.n g) (Dinic.n g) t level s pushed st Hlen Hs Hst)
    as [Hnr Hpost].
  destruct (index_lt level t) as (lt & Hlt & _); [lia|].
  destruct (no_raise_Ret _ Hnr) as ([r st'] & Hrun).
  { eapply dfs_flow_after_bfs_no_timeout; eauto. }
  exists r, st'. split; [exact Hrun|]. exact (Hpost r st' Hrun).
Qed.

Lemma dfs_flow_returns_within_n_frames_witness :
  exists r st',
    Dinic.dfs_flow (Dinic.n one_edge_graph) 1 [0%Z; 1%Z] 0 INF
      (Dinic.adj one_edge_graph, [0; 0]) = Ret (r, st') /\
    dfs_state_ok (Dinic.n one_edge_graph) st' /\
    same_frame (fst (Dinic.adj one_edge_graph, [0; 0])) (fst st').
Proof.
  apply (dfs_flow_returns_within_n_frames one_edge_graph 0 1 [0%Z; 1%Z] INF
           (Dinic.adj one_edge_graph, [0; 0])).
  - apply one_edge_graph_well_formed.
  - simpl. lia.
  - simpl. lia.
  - reflexivity.
  - split; [reflexivity|]. split; [apply one_edge_graph_well_formed|reflexivity].
Defined.

(** ** What the two searches mark *)

Lemma reach_visit_spec vis q e vis' q' :
  Dinic.reach_visit (vis, q) e = Ret (vis', q') ->
  (forall v, vis !! v = Some true -> vis' !! v = Some true) /\
  (exists new, q' = q ++ new /\
     (forall v, v ∈ new -> v = Dinic.to e /\ fgt (Dinic.residual e) EPS = true) /\
     (forall v, vis' !! v = Some true -> vis !! v = Some true \/ v ∈ new)) /\
  (fgt (Dinic.residual e) EPS = true -> vis' !! Dinic.to e = Some true).
Proof.
  unfold Dinic.reach_visit. intros H.
  apply bind_Ret_inv in H as (b & Hb & H). apply index_Ret in Hb.
  destruct (negb b && fgt (Dinic.residual e) EPS) eqn:Hc.
  - injection H as <- <-. apply andb_true_iff in Hc as [Hnb Hres].
    assert (Hlt : Dinic.to e < length vis) by (eapply lookup_lt_Some; eauto).
    split; [|split].
    + intros v Hv. destruct (decide (Dinic.to e = v)) as [<-|Hne].
      * apply list_lookup_insert_eq. exact Hlt.
      * rewrite list_lookup_insert_ne by exact Hne. exact Hv.
    + exists [Dinic.to e]. split; [reflexivity|]. split.
      * intros v Hv. apply list_elem_of_singleton in Hv as ->. auto.
      * intros v Hv. destruct (decide (Dinic.to e = v)) as [<-|Hne].
        -- right. apply list_elem_of_here.
        -- rewrite list_lookup_insert_ne in Hv by exact Hne. left. exact Hv.
    + intros _. apply list_lookup_insert_eq. exact Hlt.
  - injection H as <- <-. split; [auto|]. split.
    + exists []. rewrite app_nil_r. split; [reflexivity|].
      split; [intros v Hv; inversion Hv|auto].
    + intros Hres. rewrite Hres, andb_true_r in Hc.
      destruct b; [exact Hb|discriminate].
Qed.

Lemma reach_visits_spec l vis q vis' q' :
  for_each Dinic.reach_visit l (vis, q) = Ret (vis', q') ->
  (forall v, vis !! v = Some true -> vis' !! v = Some true) /\
  (exists new, q' = q ++ new /\
     (forall v, v ∈ new ->
        exists e, e ∈ l /\ Dinic.to e = v /\ fgt (Dinic.residual e) EPS = true) /\
     (forall v, vis' !! v = Some true -> vis !! v = Some true \/ v ∈ new)) /\
  (forall e, e ∈ l -> fgt (Dinic.residual e) EPS = true ->
     vis' !! Dinic.to e = Some true).
Proof.
  revert vis q. induction l as [|e l IH]; intros vis q H; simpl in H.
  - injection H as <- <-. split; [auto|]. split.
    + exists []. rewrite app_nil_r. split; [reflexivity|].
      split; [intros v Hv; inversion Hv|auto].
    + intros e He. inversion He.
  - apply bind_Ret_inv in H as ([vis1 q1] & Hstep & H).
    apply reach_visit_spec in Hstep
      as (Hmono1 & (new1 & -> & Hnew1 & Hback1) & Hhere).
    apply IH in H as (Hmono2 & (new2 & -> & Hnew2 & Hback2) & Hrest).
    split; [auto|]. split.
    + exists (new1 ++ new2). split; [rewrite app_assoc; reflexivity|]. split.
      * intros v Hv. apply elem_of_app in Hv as [Hv|Hv].
        -- destruct (Hnew1 v Hv) as [-> Hres]. exists e.
           split; [apply list_elem_of_here|auto].
        -- destruct (Hnew2 v Hv) as (e' & He' & Hto & Hres). exists e'.
           split; [apply list_elem_of_further, He'|auto].
      * intros v Hv. destruct (Hback2 v Hv) as [Hv1|Hv2].
        -- destruct (Hback1 v Hv1) as [Hv0|Hv0]; [left; exact Hv0|].
           right. apply elem_of_app. left. exact Hv0.
        -- right. apply elem_of_app. right. exact Hv2.
    + intros e' He' Hres. apply elem_of_cons in He' as [->|He'].
      * apply Hmono2, Hhere, Hres.
      * apply Hrest; assumption.
Qed.

Lemma closed_marks_mono a vis vis' u :
  (forall v, vis !! v = Some true -> vis' !! v = Some true) ->
  closed_marks a vis u -> closed_marks a vis' u.
Proof. intros Hmono Hc adj_u e Hu He Hres. eapply Hmono, Hc; eauto. Qed.

Lemma reach_loop_spec budget g s vis q vis' :
  Dinic.reach_loop budget g vis q = Ret vis' ->
  reach_inv (Dinic.adj g) s vis q ->
  length vis' = length vis /\ reach_inv (Dinic.adj g) s vis' [].
Proof.
  revert vis q. induction budget as [|b IH]; intros vis q H Hinv.
  - destruct q; [|discriminate]. injection H as <-. auto.
  - destruct q as [|u q]; simpl in H; [injection H as <-; auto|].
    apply bind_Ret_inv in H as (adj_u & Hu & H). apply index_Ret in Hu.
    apply bind_Ret_inv in H as ([vis1 q1] & Hvisit & H).
    assert (Hlen1 : length vis1 = length vis).
    { clear - Hvisit. revert vis q Hvisit.
      induction adj_u as [|e l IHl]; intros vis q Hvisit; simpl in Hvisit.
      - injection Hvisit as <- _. reflexivity.
      - apply bind_Ret_inv in Hvisit as ([v1 q1'] & Hstep & Hrest).
        apply IHl in Hrest. rewrite Hrest. unfold Dinic.reach_visit in Hstep.
        apply bind_Ret_inv in Hstep as (b & _ & Hstep).
        destruct (negb b && _); injection Hstep as <- _;
          [apply length_insert|reflexivity]. }
    apply reach_visits_spec in Hvisit
      as (Hmono & (new & -> & Hnew & Hback) & Hclosed).
    destruct Hinv as (Hsound & Hq & Hs & Hcl).
    apply IH in H as [Hlen Hfinal]; [split; [congruence|exact Hfinal]|].
    split; [|split; [|split]].
    + intros v Hv. destruct (Hback v Hv) as [Hv0|Hv0]; [apply Hsound, Hv0|].
      destruct (Hnew v Hv0) as (e & He & <- & Hres).
      apply (reach_next _ _ u adj_u e); try assumption.
      apply Hsound, Hq, list_elem_of_here.
    + intros v Hv. apply elem_of_app in Hv as [Hv|Hv].
      * apply Hmono, Hq, list_elem_of_further, Hv.
      * destruct (Hnew v Hv) as (e & He & <- & Hres). apply Hclosed; assumption.
    + apply Hmono, Hs.
    + intros w Hw. destruct (Hback w Hw) as [Hw0|Hw0].
      * destruct (Hcl w Hw0) as [Hin|Hc].
        -- apply elem_of_cons in Hin as [->|Hin].
           ++ right. intros adj_u' e Hu' He Hres.
              assert (adj_u' = adj_u) as -> by congruence.
              apply Hclosed; assumption.
           ++ left. apply elem_of_app. left. exact Hin.
        -- right. eapply closed_marks_mono; eauto.
      * left. apply elem_of_app. right. exact Hw0.
Qed.

Lemma reachable_from_spec g s :
  well_formed g -> s < Dinic.n g ->
  exists vis,
    Dinic.reachable_from g s = Ret vis /\ length vis = Dinic.n g /\
    forall v, vis !! v = Some true <-> residual_reach (Dinic.adj g) s v.
Proof.
  intros Hwf Hs. destruct (reachable_from_Ret g s Hwf Hs) as [vis Hrun].
  exists vis. split; [exact Hrun|].
  unfold Dinic.reachable_from in Hrun.
  apply bind_Ret_inv in Hrun as (_ & _ & Hrun).
  apply (reach_loop_spec _ _ s) in Hrun as [Hlen (Hsound & _ & Hstart & Hcl)].
  - rewrite length_insert, length_replicate in Hlen. split; [exact Hlen|].
    intros v. split; [apply Hsound|].
    induction 1 as [|u adj_u e Hreach IH Hu He Hres]; [exact Hstart|].
    destruct (Hcl u IH) as [Hin|Hc]; [inversion Hin|]. eapply Hc; eauto.
  - assert (Hins : forall v, <[s := true]> (replicate (Dinic.n g) false) !! v
                             = Some true -> v = s).
    { intros v Hv. destruct (decide (s = v)) as [->|Hne]; [reflexivity|].
      rewrite list_lookup_insert_ne in Hv by exact Hne.
      apply lookup_replicate in Hv as [Hv _]. discriminate. }
    split; [|split; [|split]].
    + intros v Hv. apply Hins in Hv as ->. apply reach_here.
    + intros v Hv. apply list_elem_of_singleton in Hv as ->.
      apply list_lookup_insert_eq. rewrite length_replicate. exact Hs.
    + apply list_lookup_insert_eq. rewrite length_replicate. exact Hs.
    + intros u Hu. apply Hins in Hu as ->. left. apply list_elem_of_here.
Qed.

(** *** [bfs_level] *)

Lemma bfs_visit_spec u lu level q e level' q' :
  level !! u = Some lu -> (0 <= lu)%Z ->
  Dinic.bfs_visit u (level, q) e = Ret (level', q') ->
  length level' = length level /\ levels_kept level level' /\
  (exists new, q' = q ++ new /\
     (forall v, v ∈ new ->
        v = Dinic.to e /\ fgt (Dinic.residual e) EPS = true /\
        level' !! v = Some (lu + 1)%Z) /\
     (forall v l, level' !! v = Some l -> (0 <= l)%Z ->
        level !! v = Some l \/ v ∈ new)) /\
  (fgt (Dinic.residual e) EPS = true -> marked level' (Dinic.to e)).
Proof.
  unfold Dinic.bfs_visit. intros Hu Hlu H.
  apply bind_Ret_inv in H as (lv & Hlv & H). apply index_Ret in Hlv.
  destruct ((lv <? 0)%Z && fgt (Dinic.residual e) EPS) eqn:Hc.
  - apply index_Ret in Hu. rewrite Hu, bind_Ret in H. injection H as <- <-.
    apply andb_true_iff in Hc as [Hneg Hres]. apply Z.ltb_lt in Hneg.
    assert (Hlt : Dinic.to e < length level) by (eapply lookup_lt_Some; eauto).
    split; [apply length_insert|]. split; [|split].
    + intros v l Hv Hl. destruct (decide (Dinic.to e = v)) as [<-|Hne].
      * rewrite Hlv in Hv. injection Hv as <-. lia.
      * rewrite list_lookup_insert_ne by exact Hne. exact Hv.
    + exists [Dinic.to e]. split; [reflexivity|]. split.
      * intros v Hv. apply list_elem_of_singleton in Hv as ->.
        split; [reflexivity|]. split; [exact Hres|].
        apply list_lookup_insert_eq. exact Hlt.
      * intros v l Hv Hl. destruct (decide (Dinic.to e = v)) as [<-|Hne].
        -- right. apply list_elem_of_here.
        -- rewrite list_lookup_insert_ne in Hv by exact Hne. left. exact Hv.
    + intros _. exists (lu + 1)%Z. split; [|lia].
      apply list_lookup_insert_eq. exact Hlt.
  - injection H as <- <-. split; [reflexivity|]. split; [intros v l Hv _; exact Hv|].
    split.
    + exists []. rewrite app_nil_r. split; [reflexivity|].
      split; [intros v Hv; inversion Hv|auto].
    + intros Hres. rewrite Hres, andb_true_r in Hc. apply Z.ltb_ge in Hc.
      exists lv. auto.
Qed.

Lemma bfs_visits_spec u lu l level q level' q' :
  level !! u = Some lu -> (0 <= lu)%Z ->
  for_each (Dinic.bfs_visit u) l (level, q) = Ret (level', q') ->
  length level' = length level /\ levels_kept level level' /\
  (exists new, q' = q ++ new /\
     (forall v, v ∈ new ->
        level' !! v = Some (lu + 1)%Z /\
        exists e, e ∈ l /\ Dinic.to e = v /\ fgt (Dinic.residual e) EPS = true) /\
     (forall v x, level' !! v = Some x -> (0 <= x)%Z ->
        level !! v = Some x \/ v ∈ new)) /\
  (forall e, e ∈ l -> fgt (Dinic.residual e) EPS = true ->
     marked level' (Dinic.to e)).
Proof.
  revert level q. induction l as [|e l IH]; intros level q Hu Hlu H; simpl in H.
  - injection H as <- <-. split; [reflexivity|].
    split; [intros v x Hv _; exact Hv|]. split.
    + exists []. rewrite app_nil_r. split; [reflexivity|].
      split; [intros v Hv; inversion Hv|auto].
    + intros e He. inversion He.
  - apply bind_Ret_inv in H as ([level1 q1] & Hstep & H).
    apply (bfs_visit_spec u lu) in Hstep
      as (Hlen1 & Hkept1 & (new1 & -> & Hnew1 & Hback1) & Hhere);
      [|exact Hu|exact Hlu].
    apply IH in H as (Hlen2 & Hkept2 & (new2 & -> & Hnew2 & Hback2) & Hrest);
      [|apply Hkept1; assumption|exact Hlu].
    split; [congruence|]. split; [|split].
    + intros v x Hv Hx. apply Hkept2; [|exact Hx]. apply Hkept1; assumption.
    + exists (new1 ++ new2). split; [rewrite app_assoc; reflexivity|]. split.
      * intros v Hv. apply elem_of_app in Hv as [Hv|Hv].
        -- destruct (Hnew1 v Hv) as (-> & Hres & Hl1). split.
           ++ apply Hkept2; [exact Hl1|lia].
           ++ exists e. split; [apply list_elem_of_here|auto].
        -- destruct (Hnew2 v Hv) as (Hl2 & e' & He' & Hto & Hres).
           split; [exact Hl2|]. exists e'.
           split; [apply list_elem_of_further, He'|auto].
      * intros v x Hv Hx. destruct (Hback2 v x Hv Hx) as [Hv1|Hv2].
        -- destruct (Hback1 v x Hv1 Hx) as [Hv0|Hv0]; [left; exact Hv0|].
           right. apply elem_of_app. left. exact Hv0.
        -- right. apply elem_of_app. right. exact Hv2.
    + intros e' He' Hres. apply elem_of_cons in He' as [->|He'].
      * destruct (Hhere Hres) as (x & Hx & Hx0). exists x.
        split; [apply Hkept2; assumption|exact Hx0].
      * apply Hrest; assumption.
Qed.

Lemma marked_kept level level' v :
  levels_kept level level' -> marked level v -> marked level' v.
Proof. intros Hk (l & Hl & Hl0). exists l. split; [apply Hk; assumption|exact Hl0]. Qed.

Lemma bfs_loop_spec budget g s level q level' :
  Dinic.bfs_loop budget g level q = Ret level' ->
  bfs_inv (Dinic.adj g) s level q ->
  length level' = length level /\ bfs_inv (Dinic.adj g) s level' [].
Proof.
  revert level q. induction budget as [|b IH]; intros level q H Hinv.
  - destruct q; [|discriminate]. injection H as <-. auto.
  - destruct q as [|u q]; simpl in H; [injection H as <-; auto|].
    apply bind_Ret_inv in H as (adj_u & Hu & H). apply index_Ret in Hu.
    apply bind_Ret_inv in H as ([level1 q1] & Hvisit & H).
    destruct Hinv as (Hsound & Hq & Hs & Hcl & Hlay).
    destruct (Hq u (list_elem_of_here _ _)) as (lu & Hlu & Hlu0).
    apply (bfs_visits_spec u lu) in Hvisit
      as (Hlen1 & Hkept & (new & -> & Hnew & Hback) & Hclosed);
      [|exact Hlu|exact Hlu0].
    apply IH in H as [Hlen Hfinal]; [split; [congruence|exact Hfinal]|].
    split; [|split; [|split; [|split]]].
    + intros v (x & Hx & Hx0). destruct (Hback v x Hx Hx0) as [Hv0|Hv0].
      * apply Hsound. exists x. auto.
      * destruct (Hnew v Hv0) as (_ & e & He & <- & Hres).
        apply (reach_next _ _ u adj_u e); try assumption.
        apply Hsound. exists lu. auto.
    + intros v Hv. apply elem_of_app in Hv as [Hv|Hv].
      * eapply marked_kept; [exact Hkept|]. apply Hq, list_elem_of_further, Hv.
      * destruct (Hnew v Hv) as (Hl & _). exists (lu + 1)%Z. split; [exact Hl|lia].
    + apply Hkept; [exact Hs|lia].
    + intros w (x & Hx & Hx0). destruct (Hback w x Hx Hx0) as [Hw0|Hw0].
      * destruct (Hcl w) as [Hin|Hc]; [exists x; auto| |].
        -- apply elem_of_cons in Hin as [->|Hin].
           ++ right. intros adj_u' e Hu' He Hres.
              assert (adj_u' = adj_u) as -> by congruence.
              apply Hclosed; assumption.
           ++ left. apply elem_of_app. left. exact Hin.
        -- right. intros adj_w e Hw He Hres.
           eapply marked_kept; [exact Hkept|]. eapply Hc; eauto.
      * left. apply elem_of_app. right. exact Hw0.
    + intros v x Hx Hx0. destruct (Hback v x Hx ltac:(lia)) as [Hv0|Hv0].
      * destruct (Hlay v x Hv0 Hx0) as (p & adj_p & e & Hp & Hap & He & Hto & Hres).
        exists p, adj_p, e. split; [apply Hkept; [exact Hp|lia]|auto].
      * destruct (Hnew v Hv0) as (Hl & e & He & Hto & Hres).
        assert (x = (lu + 1)%Z) as -> by congruence.
        exists u, adj_u, e. split; [|auto].
        replace (lu + 1 - 1)%Z with lu by lia. apply Hkept; assumption.
Qed.

Lemma bfs_level_spec g s t :
  well_formed g -> s < Dinic.n g ->
  exists level,
    Dinic.bfs_level g s t = Ret level /\ length level = Dinic.n g /\
    level !! s = Some 0%Z /\
    (forall v, marked level v <-> residual_reach (Dinic.adj g) s v) /\
    layered (Dinic.adj g) level.
Proof.
  intros Hwf Hs. destruct (bfs_level_Ret g s t Hwf Hs) as [level Hrun].
  exists level. split; [exact Hrun|].
  unfold Dinic.bfs_level in Hrun.
  apply bind_Ret_inv in Hrun as (_ & _ & Hrun).
  apply (bfs_loop_spec _ _ s) in Hrun
    as [Hlen (Hsound & _ & Hstart & Hcl & Hlay)].
  - rewrite length_insert, length_replicate in Hlen. split; [exact Hlen|].
    split; [exact Hstart|]. split; [|exact Hlay].
    intros v. split; [apply Hsound|].
    induction 1 as [|u adj_u e Hreach IH Hu He Hres].
    + exists 0%Z. split; [exact Hstart|lia].
    + destruct (Hcl u IH) as [Hin|Hc]; [inversion Hin|]. eapply Hc; eauto.
  - assert (Hins : forall v l,
              <[s := 0%Z]> (replicate (Dinic.n g) (-1)%Z) !! v = Some l ->
              (0 <= l)%Z -> v = s /\ l = 0%Z).
    { intros v l Hv Hl. destruct (decide (s = v)) as [->|Hne].
      - rewrite list_lookup_insert_eq in Hv by (rewrite length_replicate; exact Hs).
        injection Hv as <-. auto.
      - rewrite list_lookup_insert_ne in Hv by exact Hne.
        apply lookup_replicate in Hv as [-> _]. lia. }
    assert (Hat : <[s := 0%Z]> (replicate (Dinic.n g) (-1)%Z) !! s = Some 0%Z).
    { apply list_lookup_insert_eq. rewrite length_replicate. exact Hs. }
    split; [|split; [|split; [|split]]].
    + intros v (l & Hv & Hl). apply Hins in Hv as [-> _]; [apply reach_here|exact Hl].
    + intros v Hv. apply list_elem_of_singleton in Hv as ->.
      exists 0%Z. split; [exact Hat|lia].
    + exact Hat.
    + intros u (l & Hu & Hl). apply Hins in Hu as [-> _]; [|exact Hl].
      left. apply list_elem_of_here.
    + intros v l Hv Hl. apply Hins in Hv as [_ ->]; lia.
Qed.

Lemma isolated_reach a s v :
  a !! s = Some [] -> residual_reach a s v -> v = s.
Proof.
  intros Hs. induction 1 as [|u adj_u e _ IH Hu He _]; [reflexivity|].
  subst u. assert (adj_u = []) as -> by congruence. inversion He.
Qed.

Lemma one_edge_reach : residual_reach (Dinic.adj one_edge_graph) 0 1.
Proof.
  apply (reach_next _ 0 0 [Dinic.mkEdge 1 0 1 0] (Dinic.mkEdge 1 0 1 0)).
  - apply reach_here.
  - reflexivity.
  - apply list_elem_of_here.
  - reflexivity.
Qed.

(** X6: on a graph with paired reverse handles and a vertex [s],
    [bfs_level(s, t)] returns one level per vertex: [s] has level 0, the
    vertices with a level of 0 or more are those that [s] reaches along
    edges with [cap - flow > EPS], and every vertex at a positive level
    [l] has such an edge from a vertex at level [l - 1]. *)
Theorem bfs_level_levels_reachable :
  forall g s t,
    well_formed g -> s < Dinic.n g ->
    exists level,
      Dinic.bfs_level g s t = Ret level /\ length level = Dinic.n g /\
      level !! s = Some 0%Z /\
      (forall v, (exists l, level !! v = Some l /\ (0 <= l)%Z) <->
                 residual_reach (Dinic.adj g) s v) /\
      (forall v l, level !! v = Some l -> (0 < l)%Z ->
         exists u adj_u e,
           level !! u = Some (l - 1)%Z /\ Dinic.adj g !! u = Some adj_u /\
           e ∈ adj_u /\ Dinic.to e = v /\ fgt (Dinic.residual e) EPS = true).
Proof. intros g s t Hwf Hs. apply bfs_level_spec; assumption. Qed.

Lemma bfs_level_levels_reachable_witness :
  exists level,
    Dinic.bfs_level one_edge_graph 0 1 = Ret level /\
    length level = Dinic.n one_edge_graph /\
    level !! 0 = Some 0%Z /\
    (forall v, (exists l, level !! v = Some l /\ (0 <= l)%Z) <->
               residual_reach (Dinic.adj one_edge_graph) 0 v) /\
    (forall v l, level !! v = Some l -> (0 < l)%Z ->
       exists u adj_u e,
         level !! u = Some (l - 1)%Z /\
         Dinic.adj one_edge_graph !! u = Some adj_u /\
         e ∈ adj_u /\ Dinic.to e = v /\ fgt (Dinic.residual e) EPS = true).
Proof.
  apply (bfs_level_levels_reachable one_edge_graph 0 1).
  - apply one_edge_graph_well_formed.
  - simpl. lia.
Defined.

(** X7: on a graph with paired reverse handles and a vertex [s],
    [reachable_from(s)] returns one mark per vertex, and the marked
    vertices are exactly those that [s] reaches along edges with
    [cap - flow > EPS]. *)
Theorem reachable_from_marks_reachable :
  forall g s,
    well_formed g -> s < Dinic.n g ->
    exists vis,
      Dinic.reachable_from g s = Ret vis /\ length vis = Dinic.n g /\
      forall v, vis !! v = Some true <-> residual_reach (Dinic.adj g) s v.
Proof. intros g s Hwf Hs. apply reachable_from_spec; assumption. Qed.

Lemma reachable_from_marks_reachable_witness :
  exists vis,
    Dinic.reachable_from one_edge_graph 0 = Ret vis /\
    length vis = Dinic.n one_edge_graph /\
    forall v, vis !! v = Some true <->
              residual_reach (Dinic.adj one_edge_graph) 0 v.
Proof.
  apply (reachable_from_marks_reachable one_edge_graph 0).
  - apply one_edge_graph_well_formed.
  - simpl. lia.
Defined.

(** ** What [dfs_flow] and [max_flow] return *)

Lemma ltb_irrefl x : (x <? x)%float = false.
Proof.
  destruct (x <? x)%float eqn:H; [|reflexivity].
  pose proof (ltb_asym _ _ H). congruence.
Qed.

Lemma fmin_above p res : fgt (fmin p res) EPS = true -> fgt p EPS = true.
Proof.
  unfold fmin, fgt. destruct (res <? p)%float eqn:H; [|auto].
  intros H'. eapply ltb_trans; eauto.
Qed.

Lemma fmin_bound p res r :
  (fmin p res <? r)%float = false -> (p <? r)%float = false.
Proof.
  unfold fmin. destruct (res <? p)%float eqn:H; [|auto].
  intros H'. apply not_true_is_false. intros Hpr.
  rewrite (ltb_trans _ _ _ H Hpr) in H'. discriminate.
Qed.

Lemma scan_result rec level u pushed k i st r st' :
  (forall v p s r' s', rec v p s = Ret (r', s') ->
     (fgt r' EPS = true -> fgt p EPS = true /\ (p <? r')%float = false) /\
     (fgt r' EPS = false -> fst s' = fst s)) ->
  Dinic.scan rec level u pushed k i st = Ret (r, st') ->
  dfs_result pushed r st st'.
Proof.
  intros Hrec. revert i st. induction k as [|k IH]; intros i [a it] H; simpl in H.
  - injection H as <- <-. right. auto.
  - apply bind_Ret_inv in H as (adj_u & _ & H).
    apply bind_Ret_inv in H as (e & _ & H).
    apply bind_Ret_inv in H as (adm & _ & H). destruct adm.
    + apply bind_Ret_inv in H as ([to_push [a1 it1]] & Hcall & H).
      apply Hrec in Hcall as [Habove Hbelow].
      destruct (fgt to_push EPS) eqn:Hp.
      * apply bind_Ret_inv in H as (a2 & _ & H). injection H as <- <-.
        destruct (Habove eq_refl) as [H1 H2]. left.
        split; [exact Hp|]. split; [eapply fmin_above; eauto|].
        eapply fmin_bound; eauto.
      * specialize (Hbelow eq_refl). simpl in Hbelow. subst a1.
        apply IH in H. exact H.
    + apply IH in H. exact H.
Qed.

Lemma dfs_flow_result depth tgt level u pushed st r st' :
  Dinic.dfs_flow depth tgt level u pushed st = Ret (r, st') ->
  (u = tgt /\ r = pushed /\ st' = st) \/
  (u <> tgt /\ dfs_result pushed r st st').
Proof.
  revert u pushed st r st'.
  induction depth as [|d IH]; intros u pushed st r st' H; simpl in H.
  - destruct (Nat.eqb_spec u tgt); [|discriminate]. injection H as <- <-. auto.
  - destruct (Nat.eqb_spec u tgt); [injection H as <- <-; auto|].
    right. split; [assumption|].
    apply bind_Ret_inv in H as (adj_u & _ & H).
    apply bind_Ret_inv in H as (i0 & _ & H).
    eapply scan_result; [|exact H].
    intros v p s r' s' Hcall.
    apply IH in Hcall as [(_ & -> & ->)|[_ [(Hr & Hp & Hb)|[-> Hs]]]].
    + split; [|reflexivity]. intros Hp. split; [exact Hp|apply ltb_irrefl].
    + split; [auto|]. congruence.
    + split; [|auto]. intros Hz. vm_compute in Hz. discriminate.
Qed.

(** *** When [max_flow] stops *)

Lemma blocking_flow_return fuel g s tgt limit level st flow a flow' :
  Dinic.blocking_flow fuel g s tgt limit level st flow =
    Ret (Dinic.Return, a, flow') ->
  fge (flow' + EPS) limit = true.
Proof.
  revert st flow. induction fuel as [|fuel IH]; intros st flow H; [discriminate|].
  rewrite blocking_flow_S in H.
  apply bind_Ret_inv in H as ([pushed st1] & _ & H).
  destruct (pushed <=? EPS)%float; [discriminate|]. cbv zeta in H.
  destruct (fge (flow + pushed + EPS) limit) eqn:Hge.
  - injection H as _ <-. exact Hge.
  - eapply IH, H.
Qed.

Lemma well_formed_frame g a :
  well_formed g -> same_frame (Dinic.adj g) a -> well_formed (Dinic.set_adj g a).
Proof.
  intros [Hl Hp] Hf. split; simpl.
  - rewrite (same_frame_length _ _ Hf). exact Hl.
  - eapply paired_frame; eauto.
Qed.

Lemma max_flow_loop_stops fuel g s tgt limit flow f g' :
  well_formed g -> s < Dinic.n g ->
  Dinic.max_flow_loop fuel g s tgt limit flow = Ret (f, g') ->
  fge (f + EPS) limit = true \/ ~ residual_reach (Dinic.adj g') s tgt.
Proof.
  revert g flow. induction fuel as [|fuel IH]; intros g flow Hwf Hs H;
    [discriminate|].
  rewrite max_flow_loop_S in H.
  destruct (bfs_level_spec g s tgt Hwf Hs) as (level & Hbfs & _ & _ & Hiff & _).
  rewrite Hbfs, bind_Ret in H.
  apply bind_Ret_inv in H as (lt & Hlt & H). apply index_Ret in Hlt.
  destruct (lt <? 0)%Z eqn:Hneg.
  - injection H as <- <-. right. intros Hreach.
    apply Hiff in Hreach as (l & Hl & Hl0). apply Z.ltb_lt in Hneg.
    assert (l = lt) by congruence. lia.
  - apply bind_Ret_inv in H as ([[ex a] flow1] & Hblock & H). destruct ex.
    + injection H as <- <-. left. eapply blocking_flow_return, Hblock.
    + pose proof (blocking_flow_frame _ _ _ _ _ _ _ _ _ _ _ Hblock) as Hf.
      eapply IH; [| |exact H]; [apply well_formed_frame; assumption|exact Hs].
Qed.

Lemma max_flow_loop_unreachable fuel g s tgt limit flow :
  well_formed g -> s < Dinic.n g -> tgt < Dinic.n g ->
  ~ residual_reach (Dinic.adj g) s tgt ->
  Dinic.max_flow_loop (S fuel) g s tgt limit flow = Ret (flow, g).
Proof.
  intros Hwf Hs Ht Hno. rewrite max_flow_loop_S.
  destruct (bfs_level_spec g s tgt Hwf Hs) as (level & -> & Hlen & _ & Hiff & _).
  rewrite bind_Ret.
  destruct (index_lt level tgt) as (lt & -> & Hlt); [lia|]. rewrite bind_Ret.
  destruct (lt <? 0)%Z eqn:Hneg; [reflexivity|].
  exfalso. apply Hno, Hiff. exists lt. split; [exact Hlt|].
  apply Z.ltb_ge in Hneg. exact Hneg.
Qed.

(** *** Source and sink the same vertex *)

Lemma max_flow_same_vertex_default fuel g s :
  well_formed g -> s < Dinic.n g ->
  Dinic.max_flow (S (S fuel)) g s s INF = Ret (INF, g).
Proof.
  intros Hwf Hs. unfold Dinic.max_flow. rewrite max_flow_loop_S.
  destruct (bfs_level_spec g s s Hwf Hs) as (level & -> & Hlen & Hstart & _).
  rewrite bind_Ret. apply index_Ret in Hstart. rewrite Hstart, bind_Ret.
  change (0 <? 0)%Z with false. cbv iota.
  rewrite blocking_flow_S.
  assert (Hdfs : forall st, Dinic.dfs_flow (Dinic.n g) s level s (INF - 0) st =
                            Ret ((INF - 0)%float, st)).
  { intros st. destruct (Dinic.n g); simpl; rewrite Nat.eqb_refl; reflexivity. }
  rewrite Hdfs, bind_Ret.
  change (INF - 0 <=? EPS)%float with false. cbv iota zeta.
  change (fge (0 + (INF - 0) + EPS) INF) with true. cbv iota.
  rewrite bind_Ret. change (0 + (INF - 0))%float with INF.
  destruct g; reflexivity.
Qed.

(** *** A limit that is not above [EPS] *)

Lemma sub_zero x : (x - 0)%float = x.
Proof.
  apply Prim2SF_inj. rewrite sub_spec.
  change (Prim2SF 0) with (S754_zero false).
  destruct (Prim2SF x) as [[|]|[|]| |]; reflexivity.
Qed.

Lemma set_adj_same g : Dinic.set_adj g (Dinic.adj g) = g.
Proof. destruct g; reflexivity. Qed.

Lemma max_flow_loop_small_limit fuel g s tgt limit :
  well_formed g -> s < Dinic.n g -> tgt < Dinic.n g -> s <> tgt ->
  residual_reach (Dinic.adj g) s tgt ->
  fgt limit EPS = false ->
  Dinic.max_flow_loop fuel g s tgt limit 0 = OutOfFuel.
Proof.
  intros Hwf Hs Ht Hne Hreach Hlimit.
  induction fuel as [|fuel IH]; [reflexivity|].
  rewrite max_flow_loop_S.
  destruct (bfs_level_spec g s tgt Hwf Hs) as (level & Hbfs & Hlen & _ & Hiff & _).
  rewrite Hbfs, bind_Ret.
  apply Hiff in Hreach as (lt & Hlt & Hlt0).
  apply index_Ret in Hlt as Hidx. rewrite Hidx, bind_Ret.
  assert (Hneg : (lt <? 0)%Z = false) by (apply Z.ltb_ge; exact Hlt0).
  rewrite Hneg.
  destruct fuel as [|fuel]; [reflexivity|].
  rewrite blocking_flow_S, sub_zero.
  set (st0 := (Dinic.adj g, replicate (Dinic.n g) 0)).
  assert (Hst : dfs_state_ok (Dinic.n g) st0).
  { destruct Hwf as [Hl Hp]. split; [exact Hl|]. split; [exact Hp|].
    apply length_replicate. }
  destruct (dfs_flow_safe (Dinic.n g) (Dinic.n g) tgt level s limit st0
              Hlen Hs Hst) as [Hnr _].
  destruct (no_raise_Ret _ Hnr) as ([r st1] & Hdfs).
  { eapply dfs_flow_after_bfs_no_timeout; eauto. }
  rewrite Hdfs, bind_Ret.
  apply dfs_flow_result in Hdfs as [(Heq & _)|[_ [(_ & Habove & _)|[-> Hsame]]]];
    [congruence|congruence|].
  change (0 <=? EPS)%float with true. cbv iota. rewrite bind_Ret.
  simpl in Hsame. rewrite Hsame, set_adj_same. exact IH.
Qed.

(** X8: a call [dfs_flow(u, t, pushed, ...)] with [u != t] that returns,
    returns either [0.0] with every flow of the graph as it was, or an
    amount above [EPS]; in that case the amount asked for was above [EPS]
    and the amount returned is not above it. *)
Theorem dfs_flow_returns_zero_or_above_eps :
  forall depth t level u pushed st r st',
    u <> t ->
    Dinic.dfs_flow depth t level u pushed st = Ret (r, st') ->
    (r = 0%float /\ fst st' = fst st) \/
    (fgt r EPS = true /\ fgt pushed EPS = true /\ (pushed <? r)%float = false).
Proof.
  intros depth t level u pushed st r st' Hne H.
  apply dfs_flow_result in H as [(Heq & _)|[_ [H|H]]]; [congruence|auto|auto].
Qed.

Lemma dfs_flow_returns_zero_or_above_eps_witness :
  Dinic.dfs_flow 2 1 [0%Z; 1%Z] 0 INF (Dinic.adj one_edge_graph, [0; 0]) =
    Ret (1%float, (Dinic.adj one_edge_solved, [0; 0])) /\
  ((1%float = 0%float /\
    fst (Dinic.adj one_edge_solved, [0; 0]) = fst (Dinic.adj one_edge_graph, [0; 0])) \/
   (fgt 1 EPS = true /\ fgt INF EPS = true /\ (INF <? 1)%float = false)).
Proof.
  assert (H : Dinic.dfs_flow 2 1 [0%Z; 1%Z] 0 INF (Dinic.adj one_edge_graph, [0; 0]) =
              Ret (1%float, (Dinic.adj one_edge_solved, [0; 0])))
    by (vm_compute; reflexivity).
  split; [exact H|].
  apply (dfs_flow_returns_zero_or_above_eps 2 1 [0%Z; 1%Z] 0 INF
           (Dinic.adj one_edge_graph, [0; 0]) 1
           (Dinic.adj one_edge_solved, [0; 0])); [lia|exact H].
Defined.

(** X9: when [max_flow(s, t, limit)] returns flow [f] on a graph with
    paired reverse handles, either [f + EPS >= limit], or [s] no longer
    reaches [t] along edges with [cap - flow > EPS] in the graph it
    leaves. *)
Theorem max_flow_stops_at_limit_or_cut :
  forall fuel g s t limit f g',
    well_formed g -> s < Dinic.n g ->
    Dinic.max_flow fuel g s t limit = Ret (f, g') ->
    fge (f + EPS) limit = true \/ ~ residual_reach (Dinic.adj g') s t.
Proof.
  intros fuel g s t limit f g' Hwf Hs H. eapply max_flow_loop_stops; eauto.
Qed.

Lemma max_flow_stops_at_limit_or_cut_witness :
  Dinic.max_flow 8 one_edge_graph 0 1 INF = Ret (1%float, one_edge_solved) /\
  (fge (1 + EPS) INF = true \/
   ~ residual_reach (Dinic.adj one_edge_solved) 0 1).
Proof.
  split; [exact one_edge_solved_run|].
  apply (max_flow_stops_at_limit_or_cut 8 one_edge_graph 0 1 INF 1 one_edge_solved).
  - apply one_edge_graph_well_formed.
  - simpl. lia.
  - exact one_edge_solved_run.
Defined.

(** X10: when [s] does not reach [t] along edges with [cap - flow > EPS],
    [max_flow(s, t, limit)] returns [0.0] after its first search and leaves
    the graph as it was, whatever the limit. *)
Theorem max_flow_unreachable_sink_returns_zero :
  forall fuel g s t limit,
    well_formed g -> s < Dinic.n g -> t < Dinic.n g ->
    ~ residual_reach (Dinic.adj g) s t ->
    Dinic.max_flow (S fuel) g s t limit = Ret (0%float, g).
Proof.
  intros fuel g s t limit Hwf Hs Ht Hno.
  apply max_flow_loop_unreachable; assumption.
Qed.

Lemma max_flow_unreachable_sink_returns_zero_witness :
  Dinic.max_flow 1 (Dinic.init 2) 0 1 INF = Ret (0%float, Dinic.init 2).
Proof.
  apply (max_flow_unreachable_sink_returns_zero 0 (Dinic.init 2) 0 1 INF).
  - apply init_well_formed.
  - simpl. lia.
  - simpl. lia.
  - intros H. apply (isolated_reach (Dinic.adj (Dinic.init 2)) 0 1) in H;
      [lia|reflexivity].
Defined.

(** X11: with source and sink the same vertex, [max_flow(s, s)] with the
    default limit returns [1e18] and leaves the graph as it was: the
    search is at the sink at once and returns what it was offered. *)
Theorem max_flow_same_vertex_returns_limit :
  forall fuel g s,
    well_formed g -> s < Dinic.n g ->
    Dinic.max_flow (S (S fuel)) g s s INF = Ret (INF, g).
Proof. intros fuel g s Hwf Hs. apply max_flow_same_vertex_default; assumption. Qed.

Lemma max_flow_same_vertex_returns_limit_witness :
  Dinic.max_flow 2 one_edge_graph 0 0 INF = Ret (INF, one_edge_graph).
Proof.
  apply (max_flow_same_vertex_returns_limit 0 one_edge_graph 0).
  - apply one_edge_graph_well_formed.
  - simpl. lia.
Defined.

(** X12: when [s] reaches a different vertex [t] along edges with
    [cap - flow > EPS] and the limit is not above [EPS], [max_flow(s, t,
    limit)] does not return, whatever the number of iterations it is
    allowed: each search is offered the limit, pushes nothing and breaks
    the inner loop only. *)
Theorem max_flow_small_limit_never_returns :
  forall fuel g s t limit,
    well_formed g -> s < Dinic.n g -> t < Dinic.n g -> s <> t ->
    residual_reach (Dinic.adj g) s t ->
    fgt limit EPS = false ->
    Dinic.max_flow fuel g s t limit = OutOfFuel.
Proof.
  intros fuel g s t limit Hwf Hs Ht Hne Hreach Hlimit.
  apply max_flow_loop_small_limit; assumption.
Qed.

Lemma max_flow_small_limit_never_returns_witness :
  Dinic.max_flow 100 one_edge_graph 0 1 EPS = OutOfFuel.
Proof.
  apply (max_flow_small_limit_never_returns 100 one_edge_graph 0 1 EPS).
  - apply one_edge_graph_well_formed.
  - simpl. lia.
  - simpl. lia.
  - lia.
  - exact one_edge_reach.
  - reflexivity.
Defined.

Lemma max_flow_loop_out_of_range fuel g s tgt limit flow :
  well_formed g -> Dinic.n g <= s \/ Dinic.n g <= tgt ->
  Dinic.max_flow_loop (S fuel) g s tgt limit flow = Raise IndexError.
Proof.
  intros Hwf Hout. rewrite max_flow_loop_S.
  destruct (decide (s < Dinic.n g)) as [Hs|Hs].
  - destruct Hout as [Hout|Hout]; [lia|].
    destruct (bfs_level_spec g s tgt Hwf Hs) as (level & -> & Hlen & _).
    rewrite bind_Ret. unfold index. rewrite lookup_ge_None_2 by lia. reflexivity.
  - unfold Dinic.bfs_level, index.
    rewrite lookup_ge_None_2 by (rewrite length_replicate; lia). reflexivity.
Qed.

Lemma max_flow_then_unreachable fuel g s tgt limit f g' :
  well_formed g -> s < Dinic.n g -> tgt < Dinic.n g ->
  Dinic.max_flow fuel g s tgt limit = Ret (f, g') ->
  fge (f + EPS) limit = false ->
  exists vis, Dinic.reachable_from g' s = Ret vis /\ vis !! tgt = Some false.
Proof.
  intros Hwf Hs Ht Hrun Hlim. unfold Dinic.max_flow in Hrun.
  pose proof (max_flow_loop_frame _ _ _ _ _ _ _ _ Hrun) as [Hn Hf].
  assert (Hwf' : well_formed g').
  { destruct Hwf as [Hl Hp]. split.
    - rewrite (same_frame_length _ _ Hf). congruence.
    - eapply paired_frame; eauto. }
  destruct (max_flow_loop_stops _ _ _ _ _ _ _ _ Hwf Hs Hrun) as [Hge|Hno];
    [congruence|].
  destruct (reachable_from_spec g' s Hwf') as (vis & Hvis & Hlen & Hiff); [lia|].
  exists vis. split; [exact Hvis|].
  destruct (lookup_lt_is_Some_2 vis tgt) as [b Hb]; [lia|].
  destruct b; [|exact Hb]. exfalso. apply Hno, Hiff, Hb.
Qed.

(** X13: on a graph with paired reverse handles and for [s] and [t] that
    are not negative, [max_flow(s, t, limit)] raises [IndexError] in its
    first iteration when [s] or [t] is not below [n]; when both are, no
    index is ever out of range: it returns or is still in its loops. *)
Theorem max_flow_raises_iff_out_of_range :
  forall fuel g s t limit,
    well_formed g ->
    (Dinic.n g <= s \/ Dinic.n g <= t ->
     Dinic.max_flow (S fuel) g s t limit = Raise IndexError) /\
    (s < Dinic.n g -> t < Dinic.n g ->
     Dinic.max_flow fuel g s t limit = OutOfFuel \/
     exists f g', Dinic.max_flow fuel g s t limit = Ret (f, g')).
Proof.
  intros fuel g s t limit Hwf. split.
  - intros Hout. apply max_flow_loop_out_of_range; assumption.
  - intros Hs Ht.
    pose proof (max_flow_loop_no_raise fuel g s t limit 0 Hwf Hs Ht) as Hnr.
    unfold Dinic.max_flow.
    destruct (Dinic.max_flow_loop fuel g s t limit 0) as [[f g']|e|];
      [right; eauto|exfalso; eapply Hnr; reflexivity|left; reflexivity].
Qed.

Lemma max_flow_raises_iff_out_of_range_witness :
  Dinic.max_flow 1 one_edge_graph 0 2 INF = Raise IndexError /\
  (Dinic.max_flow 8 one_edge_graph 0 1 INF = OutOfFuel \/
   exists f g', Dinic.max_flow 8 one_edge_graph 0 1 INF = Ret (f, g')).
Proof.
  split.
  - apply (max_flow_raises_iff_out_of_range 0 one_edge_graph 0 2 INF
             one_edge_graph_well_formed).
    right. simpl. lia.
  - apply (max_flow_raises_iff_out_of_range 8 one_edge_graph 0 1 INF
             one_edge_graph_well_formed); simpl; lia.
Defined.

(** X14: after [max_flow(s, t, limit)] has returned a flow [f] with
    [f + EPS < limit], [reachable_from(s)] on the graph it leaves does not
    mark [t]: the marked vertices are a cut between [s] and [t]. *)
Theorem max_flow_then_sink_unmarked :
  forall fuel g s t limit f g',
    well_formed g -> s < Dinic.n g -> t < Dinic.n g ->
    Dinic.max_flow fuel g s t limit = Ret (f, g') ->
    fge (f + EPS) limit = false ->
    exists vis, Dinic.reachable_from g' s = Ret vis /\ vis !! t = Some false.
Proof.
  intros fuel g s t limit f g' Hwf Hs Ht Hrun Hlim.
  eapply max_flow_then_unreachable; eauto.
Qed.

Lemma max_flow_then_sink_unmarked_witness :
  exists vis,
    Dinic.reachable_from one_edge_solved 0 = Ret vis /\ vis !! 1 = Some false.
Proof.
  apply (max_flow_then_sink_unmarked 8 one_edge_graph 0 1 INF 1 one_edge_solved).
  - apply one_edge_graph_well_formed.
  - simpl. lia.
  - simpl. lia.
  - exact one_edge_solved_run.
  - reflexivity.
Defined.

(** ** [run_belts] keeps every index and key in range *)

Lemma add_node_edge_constructed idx caps g v g' :
  add_node_edge idx caps g v = Ret g' ->
  constructed g -> constructed g' /\ Dinic.n g' = Dinic.n g.
Proof.
  unfold add_node_edge. intros H Hg.
  apply bind_Ret_inv in H as ([v_in v_out] & _ & H).
  apply bind_Ret_inv in H as ([g1 h] & Hadd & H). injection H as <-.
  split; [eapply constructed_add; eauto|].
  apply add_edge_spec in Hadd as (_ & Hn & _). exact Hn.
Qed.

Lemma add_user_edges_constructed idx es g em dem g' em' dem' :
  add_user_edges idx es (g, em, dem) = Ret (inr (g', em', dem')) ->
  constructed g -> Forall (rec_indexed idx) em ->
  constructed g' /\ Dinic.n g' = Dinic.n g /\ Forall (rec_indexed idx) em'.
Proof.
  revert g em dem. induction es as [|e es IH]; intros g em dem H Hg Hem;
    simpl in H.
  - injection H as <- <- <-. auto.
  - destruct (EdgeSpec.get_hi e + EPS <? EdgeSpec.get_lo e)%float; [discriminate|].
    apply bind_Ret_inv in H as ([i_u u_out] & Hu & H).
    apply bind_Ret_inv in H as ([v_in o_v] & Hv & H).
    apply bind_Ret_inv in H as ([g1 h] & Hadd & H).
    apply getitem_Ret in Hu, Hv.
    apply IH in H as (Hg' & Hn' & Hem').
    + split; [exact Hg'|]. split; [|exact Hem'].
      apply add_edge_spec in Hadd as (_ & Hn & _). congruence.
    + eapply constructed_add; eauto.
    + apply Forall_app. split; [exact Hem|]. constructor; [|constructor].
      split; simpl; eauto.
Qed.

Lemma add_super_edge_constructed idx demand s t g sp v g' sp' :
  add_super_edge idx demand s t (g, sp) v = Ret (g', sp') ->
  constructed g -> constructed g' /\ Dinic.n g' = Dinic.n g.
Proof.
  unfold add_super_edge. intros H Hg.
  apply bind_Ret_inv in H as ([v_in v_out] & _ & H).
  destruct (fgt (demand_of demand v) EPS);
    [|destruct (demand_of demand v <? - EPS)%float].
  - apply bind_Ret_inv in H as ([g1 h] & Hadd & H). injection H as <- _.
    split; [eapply constructed_add; eauto|].
    apply add_edge_spec in Hadd as (_ & Hn & _). exact Hn.
  - apply bind_Ret_inv in H as ([g1 h] & Hadd & H). injection H as <- _.
    split; [eapply constructed_add; eauto|].
    apply add_edge_spec in Hadd as (_ & Hn & _). exact Hn.
  - injection H as <- _. auto.
Qed.

Lemma build_network_ok data snk net :
  build data snk = Ret (inr net) ->
  network_ok net /\
  net_nodes net = sorted str_lt (elements (node_set data snk)).
Proof.
  unfold build. destruct (assign_indices _) as [idx next] eqn:Hassign. intros H.
  apply assign_indices_spec in Hassign as [Hidx Hdom].
  apply bind_Ret_inv in H as (g1 & Hnodes & H).
  apply bind_Ret_inv in H as ([msg|[[g2 em] dem]] & Hedges & H); [discriminate|].
  apply bind_Ret_inv in H as ([ts dem1] & _ & H).
  apply bind_Ret_inv in H as ([g3 sp] & Hsuper & H).
  injection H as <-. split; [|reflexivity].
  set (P := fun g : Dinic.t => constructed g /\ Dinic.n g = next + 2).
  assert (H1 : P g1).
  { refine (for_each_invariant P _ _ _ _ _ _ Hnodes).
    - intros g v g' _ [Hg Hn] Hstep.
      apply add_node_edge_constructed in Hstep as [Hg' Hn']; [|exact Hg].
      split; [exact Hg'|congruence].
    - split; [apply constructed_init|reflexivity]. }
  destruct H1 as [Hg1 Hn1].
  apply add_user_edges_constructed in Hedges as (Hg2 & Hn2 & Hem);
    [|exact Hg1|constructor].
  set (Q := fun st : Dinic.t * float => P (fst st)).
  assert (H3 : Q (g3, sp)).
  { refine (for_each_invariant Q _ _ _ _ _ _ Hsuper).
    - intros [g s] v [g' s'] _ [Hg Hn] Hstep.
      apply add_super_edge_constructed in Hstep as [Hg' Hn']; [|exact Hg].
      split; [exact Hg'|simpl in *; congruence].
    - split; [exact Hg2|simpl; congruence]. }
  destruct H3 as [Hg3 Hn3]. unfold network_ok. simpl in *.
  split; [exact Hg3|]. split; [exact Hn3|]. split; [reflexivity|].
  split; [exact Hidx|]. split; [exact Hdom|exact Hem].
Qed.

Lemma build_Ret data snk : exists r, build data snk = Ret r.
Proof.
  destruct (decide (Forall (fun e => hi_lt_lo e = false) (edges data)))
    as [Hall|Hex].
  - destruct (build_accepts data snk Hall) as [net ->]. eauto.
  - apply not_Forall_Exists in Hex; [|intros e; apply _].
    destruct (build_rejects data snk) as [msg ->]; [|eauto].
    eapply Exists_impl; [exact Hex|]. intros e He. simpl in He.
    destruct (hi_lt_lo e); congruence.
Qed.

(** *** The certificate and the reconstruction index within range *)

Lemma first_edge_to_Ret g u v :
  u < length (Dinic.adj g) -> exists oe, first_edge_to g u v = Ret oe.
Proof.
  intros Hu. unfold first_edge_to.
  destruct (index_lt _ _ Hu) as (adj_u & -> & _). rewrite bind_Ret. eauto.
Qed.

Lemma rec_in_range net r :
  network_ok net -> r ∈ edge_map net -> Rec.u_out r < sstar net /\ Rec.v_in r < sstar net.
Proof.
  intros (_ & _ & _ & Hidx & _ & Hem) Hr.
  eapply Forall_forall in Hem; [|exact Hr].
  destruct Hem as [[i Hi] [o Ho]].
  apply Hidx in Hi as [_ Hi]. apply Hidx in Ho as [Ho _]. auto.
Qed.

Section ReconstructSafe.
Variable net : network.
Variable g : Dinic.t.
Hypothesis Hnet : network_ok net.
Hypothesis Hlen : length (Dinic.adj g) = sstar net + 2.

Lemma flow_of_Ret acc r :
  r ∈ edge_map net -> exists acc', flow_of g acc r = Ret acc'.
Proof.
  intros Hr. destruct (rec_in_range net r Hnet Hr) as [Hu Hv]. unfold flow_of.
  destruct (first_edge_to_Ret g (Rec.u_out r) (Rec.v_in r)) as [oe ->]; [lia|].
  rewrite bind_Ret. eauto.
Qed.

Lemma reconstruct_Ret : exists r, reconstruct net g = Ret r.
Proof.
  unfold reconstruct.
  destruct (for_each_Ret (fun _ => True) (flow_of g)
              (sorted rec_key_lt (edge_map net)) []) as (flows & -> & _);
    [|exact I|rewrite bind_Ret; eauto].
  intros acc r Hr _. apply elem_of_sorted in Hr.
  destruct (flow_of_Ret acc r Hr) as [acc' ->]. eauto.
Qed.

End ReconstructSafe.

Section CertificateSafe.
Variable net : network.
Variable g : Dinic.t.
Variable reachable : list bool.
Hypothesis Hnet : network_ok net.
Hypothesis Hlen : length (Dinic.adj g) = sstar net + 2.
Hypothesis Hreach : length reachable = sstar net + 2.

Lemma cut_node_Ret acc v :
  v ∈ net_nodes net ->
  exists acc', cut_node (orig_to_indices net) reachable acc v = Ret acc'.
Proof.
  destruct Hnet as (_ & _ & _ & Hidx & Hdom & _). intros Hv.
  destruct (Hdom v Hv) as [[i o] Hio]. unfold cut_node.
  apply getitem_Ret in Hio as Hget. rewrite Hget, bind_Ret.
  destruct (Hidx _ _ _ Hio) as [Hi _].
  destruct (index_lt reachable i) as (r & -> & _); [lia|]. rewrite bind_Ret. eauto.
Qed.

Lemma tight_node_Ret acc v :
  v ∈ net_nodes net ->
  exists acc', tight_node (orig_to_indices net) g reachable acc v = Ret acc'.
Proof.
  destruct Hnet as (_ & _ & _ & Hidx & Hdom & _). intros Hv.
  destruct (Hdom v Hv) as [[i o] Hio]. unfold tight_node.
  apply getitem_Ret in Hio as Hget. rewrite Hget, bind_Ret.
  destruct (Hidx _ _ _ Hio) as [Hi _].
  destruct (index_lt (Dinic.adj g) i) as (adj_i & -> & _); [lia|].
  rewrite bind_Ret. destruct adj_i as [|e adj_i]; [eauto|].
  destruct (index_lt reachable i) as (r & -> & _); [lia|]. rewrite bind_Ret. eauto.
Qed.

Lemma tight_edge_Ret db acc r :
  r ∈ edge_map net -> exists acc', tight_edge g reachable db acc r = Ret acc'.
Proof.
  intros Hr. destruct (rec_in_range net r Hnet Hr) as [Hu Hv]. unfold tight_edge.
  destruct (index_lt reachable (Rec.u_out r)) as (ru & -> & _); [lia|].
  rewrite bind_Ret.
  assert (Hcross : exists c,
            (if ru then rv ← index reachable (Rec.v_in r); mret (negb rv)
             else mret false) = Ret c).
  { destruct ru; [|eauto].
    destruct (index_lt reachable (Rec.v_in r)) as (rv & -> & _); [lia|].
    rewrite bind_Ret. eauto. }
  destruct Hcross as [c ->]. rewrite bind_Ret. destruct c; [|eauto].
  destruct (first_edge_to_Ret g (Rec.u_out r) (Rec.v_in r)) as [oe ->]; [lia|].
  rewrite bind_Ret. destruct oe as [e|]; [|eauto].
  destruct (Dinic.residual e <=? SAT)%float; eauto.
Qed.

Lemma certificate_Ret flowed :
  Dinic.reachable_from g (sstar net) = Ret reachable ->
  exists r, certificate net g flowed = Ret r.
Proof.
  intros Hrun. unfold certificate. rewrite Hrun, bind_Ret.
  destruct (for_each_Ret (fun _ => True)
              (cut_node (orig_to_indices net) reachable) (net_nodes net) [])
    as (cut & -> & _); [|exact I|].
  { intros acc v Hv _. destruct (cut_node_Ret acc v Hv) as [acc' ->]. eauto. }
  rewrite bind_Ret. cbv zeta.
  destruct (for_each_Ret (fun _ => True)
              (tight_node (orig_to_indices net) g reachable) (net_nodes net) [])
    as (tn & -> & _); [|exact I|].
  { intros acc v Hv _. destruct (tight_node_Ret acc v Hv) as [acc' ->]. eauto. }
  rewrite bind_Ret.
  destruct (for_each_Ret (fun _ => True)
              (tight_edge g reachable (sum_pos_demands net - flowed))
              (edge_map net) [])
    as (te & -> & _); [|exact I|].
  { intros acc r Hr _.
    destruct (tight_edge_Ret (sum_pos_demands net - flowed) acc r Hr) as [acc' ->].
    eauto. }
  rewrite bind_Ret. eauto.
Qed.
End CertificateSafe.

Lemma run_belts_no_raise fuel data : no_raise (run_belts fuel data).
Proof.
  unfold run_belts. destruct (sink data) as [snk|]; [|apply Ret_no_raise].
  destruct (build_Ret data snk) as [[msg|net] Hbuild]; rewrite Hbuild, bind_Ret;
    [apply Ret_no_raise|].
  apply build_network_ok in Hbuild as [Hnet _].
  pose proof Hnet as (Hg & Hn & Ht & _).
  pose proof (constructed_well_formed _ Hg) as Hwf.
  apply bind_no_raise.
  { unfold Dinic.max_flow. apply max_flow_loop_no_raise; [exact Hwf|lia..]. }
  intros [flowed g] Hrun. unfold Dinic.max_flow in Hrun.
  apply max_flow_loop_frame in Hrun as [Hn' Hf].
  assert (Hlen : length (Dinic.adj g) = sstar net + 2).
  { rewrite (same_frame_length _ _ Hf). destruct Hwf as [-> _]. exact Hn. }
  assert (Hwf' : well_formed g).
  { split; [congruence|]. eapply paired_frame; [exact Hf|apply Hwf]. }
  destruct (flowed + EPS <? sum_pos_demands net)%float.
  - destruct (reachable_from_spec g (sstar net) Hwf') as (vis & Hvis & Hvlen & _);
      [lia|].
    destruct (certificate_Ret net g vis Hnet Hlen) with (flowed := flowed)
      as [r ->]; [congruence|exact Hvis|apply Ret_no_raise].
  - destruct (reconstruct_Ret net g Hnet Hlen) as [r ->]. apply Ret_no_raise.
Qed.

(** X15: [run_belts] raises no [IndexError] and no [KeyError], whatever
    the request: every list index and every dictionary lookup it makes, in
    the builder, in [max_flow], in [reachable_from], in the certificate and
    in the reconstruction, is within range.  It returns a result, or
    [max_flow] is still in its loops. *)
Theorem run_belts_never_raises :
  forall fuel data,
    run_belts fuel data = OutOfFuel \/ exists r, run_belts fuel data = Ret r.
Proof.
  intros fuel data. pose proof (run_belts_no_raise fuel data) as Hnr.
  destruct (run_belts fuel data) as [r|e|];
    [right; eauto|exfalso; eapply Hnr; reflexivity|left; reflexivity].
Qed.

(** ** The lists of a result *)

Lemma ends_weak_order : weak_order (fun _ : string * string => True) ends_cmp.
Proof.
  pose proof (lex_weak_order (fun k : string * string => snd k)
                (fun _ => True) String.compare (fun _ => True) (fun _ _ => Eq)
                string_weak_order trivial_weak_order) as H2.
  pose proof (lex_weak_order (fun k : string * string => fst k)
                (fun _ => True) String.compare _ _ string_weak_order H2) as H1.
  eapply weak_order_impl; [exact H1|]. intros a _. simpl. auto.
Qed.

Lemma rec_weak_order :
  weak_order (fun _ : Rec.t => True) (fun r1 r2 => ends_cmp (rec_ends r1) (rec_ends r2)).
Proof.
  destruct ends_weak_order as [H1 H2 H3]. constructor.
  - intros a b _ _. apply H1; exact I.
  - intros a b c _ _ _. apply H2; exact I.
  - intros a b c _ _ _. apply H3; exact I.
Qed.

Lemma rec_key_lt_cmp r1 r2 :
  rec_key_lt r1 r2 = is_lt (ends_cmp (rec_ends r1) (rec_ends r2)).
Proof.
  unfold rec_key_lt, ends_cmp, rec_ends, str_lt, String.ltb. simpl.
  rewrite !string_eqb_compare.
  destruct (String.compare (Rec.from r1) (Rec.from r2)); simpl; try reflexivity.
  destruct (String.compare (Rec.to r1) (Rec.to r2)); reflexivity.
Qed.

Lemma sorted_recs_sorted (l : list Rec.t) :
  StronglySorted (fun r1 r2 => ends_cmp (rec_ends r1) (rec_ends r2) <> Gt)
                 (sorted rec_key_lt l).
Proof.
  rewrite (sorted_ext rec_key_lt
             (lt_of (fun r1 r2 => ends_cmp (rec_ends r1) (rec_ends r2))))
    by apply rec_key_lt_cmp.
  apply (sorted_sorted (fun _ => True) _ rec_weak_order).
  apply Forall_forall. auto.
Qed.

Lemma StronglySorted_Forall2 {A B} (R : A -> B -> Prop)
    (le : A -> A -> Prop) (le' : B -> B -> Prop) l l' :
  (forall a a' b b', R a a' -> R b b' -> le a b -> le' a' b') ->
  Forall2 R l l' -> StronglySorted le l -> StronglySorted le' l'.
Proof.
  intros Hle Hl. induction Hl as [|x x' l l' Hx Hl IH]; intros Hs.
  - constructor.
  - apply StronglySorted_inv in Hs as [Hs Hall]. constructor; [apply IH, Hs|].
    clear IH Hs. induction Hl as [|y y' l l' Hy Hl IH]; [constructor|].
    apply Forall_cons in Hall as [Hxy Hall].
    constructor; [eapply Hle; eauto|apply IH, Hall].
Qed.

(** *** The flows of an "ok" result *)

Lemma flows_of_spec g l acc flows :
  for_each (flow_of g) l acc = Ret flows ->
  exists new, flows = acc ++ new /\ Forall2 (flow_of_rec g) l new.
Proof.
  revert acc. induction l as [|r l IH]; intros acc H; simpl in H.
  - injection H as <-. exists []. rewrite app_nil_r. split; [reflexivity|constructor].
  - apply bind_Ret_inv in H as (acc1 & Hstep & H).
    unfold flow_of in Hstep. apply bind_Ret_inv in Hstep as (oe & Hoe & Hstep).
    injection Hstep as <-.
    apply IH in H as (new & -> & Hnew).
    eexists (_ :: new). split; [rewrite <- app_assoc; reflexivity|].
    constructor; [|exact Hnew]. split; [reflexivity|]. simpl.
    eexists. split; [reflexivity|].
    unfold first_edge_to in Hoe. apply bind_Ret_inv in Hoe as (adj_u & Hu & Hoe).
    apply index_Ret in Hu. injection Hoe as <-.
    destruct (find _ adj_u) as [e|] eqn:Hfind; [|auto].
    right. apply find_some in Hfind as [Hin Hto].
    apply Nat.eqb_eq in Hto. exists adj_u, e.
    split; [exact Hu|]. split; [apply list_elem_of_In, Hin|auto].
Qed.

Lemma fmax_zero_number x : is_number (fmax 0 x).
Proof.
  unfold fmax. destruct (0 <? x)%float eqn:H.
  - apply ltb_number in H. tauto.
  - unfold is_number. discriminate.
Qed.

Lemma run_belts_ok_inv fuel data mf flows :
  run_belts fuel data = Ret (Ok mf flows) ->
  exists snk net flowed g,
    sink data = Some snk /\ build data snk = Ret (inr net) /\
    Dinic.max_flow fuel (G net) (sstar net) (tstar net) INF = Ret (flowed, g) /\
    (flowed + EPS <? sum_pos_demands net)%float = false /\
    reconstruct net g = Ret (Ok mf flows).
Proof.
  unfold run_belts. destruct (sink data) as [snk|]; [|discriminate].
  intros H. apply bind_Ret_inv in H as ([msg|net] & Hbuild & H); [discriminate|].
  apply bind_Ret_inv in H as ([flowed g] & Hflow & H).
  exists snk, net, flowed, g. split; [reflexivity|]. split; [exact Hbuild|].
  split; [exact Hflow|].
  destruct (flowed + EPS <? sum_pos_demands net)%float; [|auto].
  apply certificate_infeasible in H as (? & ? & ? & ? & H). discriminate.
Qed.

Lemma run_belts_infeasible_inv fuel data cut db tn te :
  run_belts fuel data = Ret (Infeasible cut db tn te) ->
  exists snk net flowed g,
    sink data = Some snk /\ build data snk = Ret (inr net) /\
    Dinic.max_flow fuel (G net) (sstar net) (tstar net) INF = Ret (flowed, g) /\
    (flowed + EPS <? sum_pos_demands net)%float = true /\
    certificate net g flowed = Ret (Infeasible cut db tn te).
Proof.
  unfold run_belts. destruct (sink data) as [snk|]; [|discriminate].
  intros H. apply bind_Ret_inv in H as ([msg|net] & Hbuild & H); [discriminate|].
  apply bind_Ret_inv in H as ([flowed g] & Hflow & H).
  exists snk, net, flowed, g. split; [reflexivity|]. split; [exact Hbuild|].
  split; [exact Hflow|].
  destruct (flowed + EPS <? sum_pos_demands net)%float; [auto|].
  apply reconstruct_ok in H as (? & H). discriminate.
Qed.

Lemma edge_map_ends data snk net :
  build data snk = Ret (inr net) ->
  map rec_ends (edge_map net) =
  map edge_ends (sorted edge_sort_key_lt (edges data)).
Proof.
  intros H. apply build_spec in H as (Hrecs & _).
  induction Hrecs as [|e r es rs (Hf & Ht & _) _ IH]; [reflexivity|].
  simpl. rewrite IH. unfold rec_ends, edge_ends. rewrite Hf, Ht. reflexivity.
Qed.

Lemma ok_flows_shape fuel data mf flows :
  run_belts fuel data = Ret (Ok mf flows) ->
  map flow_ends flows ≡ₚ map edge_ends (edges data) /\
  StronglySorted (fun f1 f2 => ends_cmp (flow_ends f1) (flow_ends f2) <> Gt) flows /\
  Forall (fun f => is_number (Flow.flow f) /\ not_negative (Flow.flow f)) flows.
Proof.
  intros H.
  apply run_belts_ok_inv in H as (snk & net & flowed & g & _ & Hbuild & _ & _ & H).
  unfold reconstruct in H. apply bind_Ret_inv in H as (fl & Hloop & H).
  injection H as _ <-.
  apply flows_of_spec in Hloop as (new & -> & Hnew). simpl.
  split; [|split].
  - assert (Hmap : map flow_ends new =
                   map rec_ends (sorted rec_key_lt (edge_map net))).
    { clear - Hnew. induction Hnew as [|r f rs fs [Hends _] _ IH]; [reflexivity|].
      simpl. rewrite IH, Hends. reflexivity. }
    rewrite Hmap, sorted_perm, (edge_map_ends _ _ _ Hbuild), sorted_perm.
    reflexivity.
  - eapply (StronglySorted_Forall2 (flow_of_rec g)); [|exact Hnew|apply sorted_recs_sorted].
    intros r f r' f' [Hf _] [Hf' _]. rewrite Hf, Hf'. auto.
  - clear - Hnew. induction Hnew as [|r f rs fs [_ (x & Hx & _)] _ IH]; constructor.
    + rewrite Hx. split; [apply fmax_zero_number|apply fmax_zero_not_negative].
    + exact IH.
Qed.

(** *** The certificate of an "infeasible" result *)

Section Certificate.
Variable idx : gmap string (nat * nat).
Variable reachable : list bool.

Lemma cut_nodes_spec l acc cut :
  for_each (cut_node idx reachable) l acc = Ret cut ->
  exists new, cut = acc ++ new /\ sublist new l /\
    forall v, v ∈ new <-> v ∈ l /\ in_reachable idx reachable v.
Proof.
  revert acc. induction l as [|v l IH]; intros acc H; simpl in H.
  - injection H as <-. exists []. rewrite app_nil_r. split; [reflexivity|].
    split; [constructor|]. intros v. split; [intros Hv; inversion Hv|].
    intros [Hv _]. inversion Hv.
  - apply bind_Ret_inv in H as (acc1 & Hstep & H).
    unfold cut_node in Hstep.
    apply bind_Ret_inv in Hstep as ([i o] & Hio & Hstep). apply getitem_Ret in Hio.
    apply bind_Ret_inv in Hstep as (r & Hr & Hstep). apply index_Ret in Hr.
    injection Hstep as <-.
    apply IH in H as (new & -> & Hsub & Hiff). destruct r.
    + exists (v :: new). split; [rewrite <- app_assoc; reflexivity|].
      split; [constructor; exact Hsub|]. intros w. rewrite !elem_of_cons, Hiff.
      split; [intros [->|[Hw Hr']]|intros [[->|Hw] Hr']]; auto.
      split; [auto|]. exists i, o. auto.
    + exists new. split; [reflexivity|]. split; [constructor; exact Hsub|].
      intros w. rewrite elem_of_cons, Hiff.
      split; [intros [Hw Hr']; auto|intros [[->|Hw] Hr']; auto].
      destruct Hr' as (i' & o' & Hio' & Hr'). congruence.
Qed.

Lemma tight_nodes_spec g l acc tn :
  for_each (tight_node idx g reachable) l acc = Ret tn ->
  forall v, v ∈ tn -> v ∈ acc \/ (v ∈ l /\ in_reachable idx reachable v).
Proof.
  revert acc. induction l as [|w l IH]; intros acc H v Hv; simpl in H.
  - injection H as <-. auto.
  - apply bind_Ret_inv in H as (acc1 & Hstep & H).
    destruct (IH _ H v Hv) as [Hacc|[Hl Hr]];
      [|right; split; [apply list_elem_of_further, Hl|exact Hr]].
    unfold tight_node in Hstep.
    apply bind_Ret_inv in Hstep as ([i o] & Hio & Hstep). apply getitem_Ret in Hio.
    apply bind_Ret_inv in Hstep as (adj_i & _ & Hstep).
    destruct adj_i as [|e adj_i]; [injection Hstep as <-; auto|].
    apply bind_Ret_inv in Hstep as (r & Hr & Hstep). apply index_Ret in Hr.
    injection Hstep as <-.
    destruct (r && _) eqn:Hc; [|auto].
    apply elem_of_app in Hacc as [Hacc|Hacc]; [auto|].
    apply list_elem_of_singleton in Hacc as ->. right.
    split; [apply list_elem_of_here|]. apply andb_true_iff in Hc as [-> _].
    exists i, o. auto.
Qed.

Lemma tight_edges_spec g db l acc te :
  for_each (tight_edge g reachable db) l acc = Ret te ->
  forall x, x ∈ te -> x ∈ acc \/ exists r, r ∈ l /\ tight_edge_of reachable db r x.
Proof.
  revert acc. induction l as [|r l IH]; intros acc H x Hx; simpl in H.
  - injection H as <-. auto.
  - apply bind_Ret_inv in H as (acc1 & Hstep & H).
    destruct (IH _ H x Hx) as [Hacc|(r' & Hr' & Hx')];
      [|right; exists r'; split; [apply list_elem_of_further, Hr'|exact Hx']].
    unfold tight_edge in Hstep.
    apply bind_Ret_inv in Hstep as (ru & Hru & Hstep). apply index_Ret in Hru.
    apply bind_Ret_inv in Hstep as (c & Hc & Hstep).
    destruct c; [|injection Hstep as <-; auto].
    destruct ru; [|discriminate].
    apply bind_Ret_inv in Hc as (rv & Hrv & Hc). apply index_Ret in Hrv.
    injection Hc as Hc. destruct rv; [discriminate|].
    apply bind_Ret_inv in Hstep as (oe & _ & Hstep).
    destruct oe as [e|]; [|injection Hstep as <-; auto].
    destruct (Dinic.residual e <=? SAT)%float; [|injection Hstep as <-; auto].
    injection Hstep as <-. apply elem_of_app in Hacc as [Hacc|Hacc]; [auto|].
    apply list_elem_of_singleton in Hacc as ->. right. exists r.
    split; [apply list_elem_of_here|]. repeat split; assumption.
Qed.
End Certificate.

Lemma str_lt_cmp a b : str_lt a b = lt_of String.compare a b.
Proof. reflexivity. Qed.

Lemma sorted_strings_sorted (l : list string) :
  StronglySorted (fun a b => String.compare a b <> Gt) (sorted str_lt l).
Proof.
  rewrite (sorted_ext str_lt (lt_of String.compare)) by apply str_lt_cmp.
  apply (sorted_sorted (fun _ => True) _ string_weak_order).
  apply Forall_forall. auto.
Qed.

Lemma infeasible_certificate_shape fuel data cut db tn te :
  run_belts fuel data = Ret (Infeasible cut db tn te) ->
  exists snk,
    sink data = Some snk /\
    sublist cut (sorted str_lt (elements (node_set data snk))) /\
    (forall v, v ∈ tn -> v ∈ cut) /\
    StronglySorted (fun a b => String.compare a b <> Gt) tn /\
    Forall (fun x =>
              (exists e, e ∈ edges data /\
                 TightEdge.from x = EdgeSpec.from e /\
                 TightEdge.to x = EdgeSpec.to e /\
                 TightEdge.flow_needed x =
                   fmin db (fmax 0 (EdgeSpec.get_hi e - EdgeSpec.get_lo e))) /\
              TightEdge.to x ∉ cut) te.
Proof.
  intros H.
  apply run_belts_infeasible_inv in H
    as (snk & net & flowed & g & Hsink & Hbuild & _ & _ & H).
  exists snk. split; [exact Hsink|].
  pose proof (build_network_ok _ _ _ Hbuild) as [Hnet Hnodes].
  pose proof (build_spec _ _ _ Hbuild) as (Hrecs & _).
  unfold certificate in H.
  apply bind_Ret_inv in H as (reachable & _ & H).
  apply bind_Ret_inv in H as (cut0 & Hcut & H).
  apply bind_Ret_inv in H as (tn0 & Htn & H).
  apply bind_Ret_inv in H as (te0 & Hte & H).
  injection H as <- <- <- <-.
  apply cut_nodes_spec in Hcut as (new & -> & Hsub & Hiff). simpl.
  split; [rewrite <- Hnodes; exact Hsub|]. split; [|split].
  - intros v Hv. apply elem_of_sorted in Hv.
    destruct (tight_nodes_spec _ _ _ _ _ _ Htn v Hv) as [Hv0|Hv0];
      [inversion Hv0|]. apply Hiff, Hv0.
  - apply sorted_strings_sorted.
  - apply Forall_forall. intros x Hx.
    destruct (tight_edges_spec _ _ _ _ _ _ Hte x Hx)
      as [Hx0|(r & Hr & Hxf & Hxt & Hu & Hv & Hneed)]; [inversion Hx0|].
    split.
    + apply list_elem_of_lookup in Hr as [k Hk].
      destruct (Forall2_lookup_r _ _ _ _ _ Hrecs Hk)
        as (e & He & Hef & Het & Hlo & Hhi).
      exists e. split.
      { apply (elem_of_sorted edge_sort_key_lt). eapply list_elem_of_lookup_2; eauto. }
      rewrite Hxf, Hxt, Hneed, Hef, Het, Hlo, Hhi. auto.
    + intros Hin. apply Hiff in Hin as (_ & i & o & Hio & Hri).
      destruct Hnet as (_ & _ & _ & _ & _ & Hem).
      eapply Forall_forall in Hem; [|exact Hr].
      destruct Hem as [_ [o' Ho']]. rewrite Hxt in Hio.
      assert (i = Rec.v_in r) as -> by congruence. congruence.
Qed.

(** X16: an "ok" result has one flow per edge of the request: the list of
    the [(from, to)] pairs of its flows is a permutation of that of the
    edges, the flows are listed in ascending order of [(from, to)], and
    every reported flow is a number that is not negative. *)
Theorem ok_flows_one_per_edge :
  forall fuel data mf flows,
    run_belts fuel data = Ret (Ok mf flows) ->
    map flow_ends flows ≡ₚ map edge_ends (edges data) /\
    StronglySorted (fun f1 f2 => ends_cmp (flow_ends f1) (flow_ends f2) <> Gt)
                   flows /\
    Forall (fun f => is_number (Flow.flow f) /\ (Flow.flow f <? 0)%float = false)
           flows.
Proof. intros fuel data mf flows H. eapply ok_flows_shape, H. Qed.

Lemma ok_flows_one_per_edge_witness :
  run_belts 64 parallel_request =
    Ret (Ok 0 [Flow.mk "a" "b" 2; Flow.mk "a" "b" 7; Flow.mk "b" "a" 7]) /\
  map flow_ends [Flow.mk "a" "b" 2; Flow.mk "a" "b" 7; Flow.mk "b" "a" 7]
    ≡ₚ map edge_ends (edges parallel_request) /\
  StronglySorted (fun f1 f2 => ends_cmp (flow_ends f1) (flow_ends f2) <> Gt)
                 [Flow.mk "a" "b" 2; Flow.mk "a" "b" 7; Flow.mk "b" "a" 7] /\
  Forall (fun f => is_number (Flow.flow f) /\ (Flow.flow f <? 0)%float = false)
         [Flow.mk "a" "b" 2; Flow.mk "a" "b" 7; Flow.mk "b" "a" 7].
Proof.
  assert (H : run_belts 64 parallel_request =
    Ret (Ok 0 [Flow.mk "a" "b" 2; Flow.mk "a" "b" 7; Flow.mk "b" "a" 7]))
    by (vm_compute; reflexivity).
  split; [exact H|].
  exact (ok_flows_one_per_edge 64 parallel_request 0 _ H).
Defined.

Lemma stuck_request_run :
  run_belts 1 stuck_request =
    Ret (Infeasible ["b"; "y"] 8 ["y"] [TightEdge.mk "b" "c" 0]).
Proof. vm_compute. reflexivity. Qed.

(** X17: in an "infeasible" result [cut_reachable] is a sublist of the
    sorted node names, [tight_nodes] is sorted and every tight node is in
    [cut_reachable], and every entry of [tight_edges] carries the endpoints
    of an edge of the request whose [to] node is not in [cut_reachable],
    with [flow_needed = min(demand_balance, max(0, hi - lo))]. *)
Theorem infeasible_certificate_lists :
  forall fuel data cut db tn te,
    run_belts fuel data = Ret (Infeasible cut db tn te) ->
    exists snk,
      sink data = Some snk /\
      sublist cut (sorted str_lt (elements (node_set data snk))) /\
      (forall v, v ∈ tn -> v ∈ cut) /\
      StronglySorted (fun a b => String.compare a b <> Gt) tn /\
      Forall (fun x =>
                (exists e, e ∈ edges data /\
                   TightEdge.from x = EdgeSpec.from e /\
                   TightEdge.to x = EdgeSpec.to e /\
                   TightEdge.flow_needed x =
                     fmin db (fmax 0 (EdgeSpec.get_hi e - EdgeSpec.get_lo e))) /\
                TightEdge.to x ∉ cut) te.
Proof.
  intros fuel data cut db tn te H. eapply infeasible_certificate_shape, H.
Qed.

Lemma infeasible_certificate_lists_witness :
  exists snk,
    sink stuck_request = Some snk /\
    sublist ["b"; "y"] (sorted str_lt (elements (node_set stuck_request snk))) /\
    (forall v, v ∈ ["y"] -> v ∈ ["b"; "y"]) /\
    StronglySorted (fun a b => String.compare a b <> Gt) ["y"] /\
    Forall (fun x =>
              (exists e, e ∈ edges stuck_request /\
                 TightEdge.from x = EdgeSpec.from e /\
                 TightEdge.to x = EdgeSpec.to e /\
                 TightEdge.flow_needed x =
                   fmin 8 (fmax 0 (EdgeSpec.get_hi e - EdgeSpec.get_lo e))) /\
              TightEdge.to x ∉ ["b"; "y"]) [TightEdge.mk "b" "c" 0].
Proof.
  exact (infeasible_certificate_lists 1 stuck_request _ _ _ _ stuck_request_run).
Defined.

(** ** Requests without supplies and lower bounds *)

Lemma append_edge_other a u e w :
  w <> u -> Dinic.append_edge a u e !! w = a !! w.
Proof.
  intros Hne. unfold Dinic.append_edge. destruct (a !! u); [|reflexivity].
  apply list_lookup_insert_ne. congruence.
Qed.

Lemma add_edge_other g u v c g' h w :
  Dinic.add_edge g u v c = Ret (g', h) -> w <> u -> w <> v ->
  Dinic.adj g' !! w = Dinic.adj g !! w.
Proof.
  unfold Dinic.add_edge. intros H Hu Hv.
  apply bind_Ret_inv in H as (adj_v & _ & H).
  apply bind_Ret_inv in H as (adj_u & _ & H).
  apply bind_Ret_inv in H as (adj_u' & _ & H). injection H as <- _. simpl.
  rewrite !append_edge_other by assumption. reflexivity.
Qed.

Lemma is_zero_0 : is_zero 0.
Proof. exists false. reflexivity. Qed.

Lemma all_zero_insert demand k x :
  all_zero demand -> is_zero x -> all_zero (<[k := x]> demand).
Proof.
  intros Hd Hx k'. unfold demand_of. destruct (decide (k = k')) as [->|Hne].
  - rewrite lookup_insert_eq. exact Hx.
  - rewrite lookup_insert_ne by exact Hne. apply Hd.
Qed.

Lemma all_zero_empty : all_zero ∅.
Proof. intros k. unfold demand_of. rewrite lookup_empty. apply is_zero_0. Qed.

Lemma add_node_edge_isolated idx caps g v g' next :
  add_node_edge idx caps g v = Ret g' -> indices_below idx next ->
  Dinic.adj g' !! next = Dinic.adj g !! next.
Proof.
  unfold add_node_edge. intros H Hidx.
  apply bind_Ret_inv in H as ([v_in v_out] & Hio & H). apply getitem_Ret in Hio.
  apply bind_Ret_inv in H as ([g1 h] & Hadd & H). injection H as <-.
  apply Hidx in Hio as [Hi Ho]. eapply add_edge_other; eauto; lia.
Qed.

Lemma add_user_edges_zero idx next es g em dem g' em' dem' :
  add_user_edges idx es (g, em, dem) = Ret (inr (g', em', dem')) ->
  indices_below idx next ->
  Forall (fun e => is_zero (EdgeSpec.get_lo e)) es -> all_zero dem ->
  all_zero dem' /\ Dinic.adj g' !! next = Dinic.adj g !! next.
Proof.
  intros H Hidx. revert g em dem H.
  induction es as [|e es IH]; intros g em dem H Hlo Hdem; simpl in H.
  - injection H as <- <- <-. auto.
  - destruct (EdgeSpec.get_hi e + EPS <? EdgeSpec.get_lo e)%float; [discriminate|].
    apply Forall_cons in Hlo as [Hlo0 Hlo].
    apply bind_Ret_inv in H as ([i_u u_out] & Hu & H).
    apply bind_Ret_inv in H as ([v_in o_v] & Hv & H).
    apply bind_Ret_inv in H as ([g1 h] & Hadd & H).
    apply getitem_Ret in Hu, Hv.
    apply Hidx in Hu as [_ Hu]. apply Hidx in Hv as [Hv _].
    apply IH in H as [Hdem' Hadj]; [|exact Hlo|].
    + split; [exact Hdem'|]. rewrite Hadj. eapply add_edge_other; eauto; lia.
    + apply all_zero_insert.
      * apply all_zero_insert; [exact Hdem|]. apply sub_zero_zero; [apply Hdem|exact Hlo0].
      * apply add_zero_zero; [|exact Hlo0].
        apply all_zero_insert; [exact Hdem|]. apply sub_zero_zero; [apply Hdem|exact Hlo0].
Qed.

Lemma zero_not_above_EPS d : is_zero d -> fgt d EPS = false.
Proof. intros [s H]. unfold fgt. rewrite ltb_spec, H. reflexivity. Qed.

Lemma zero_not_below_EPS d : is_zero d -> (d <? - EPS)%float = false.
Proof. intros [s H]. rewrite ltb_spec, H. reflexivity. Qed.

Lemma add_super_edge_zero idx demand s t st v st' :
  add_super_edge idx demand s t st v = Ret st' -> all_zero demand -> st' = st.
Proof.
  destruct st as [g sp]. unfold add_super_edge. intros H Hd.
  apply bind_Ret_inv in H as ([v_in v_out] & _ & H).
  rewrite (zero_not_above_EPS _ (Hd v)), (zero_not_below_EPS _ (Hd v)) in H.
  injection H as <-. reflexivity.
Qed.

Lemma build_zero data snk net :
  build data snk = Ret (inr net) ->
  sources data = ∅ ->
  Forall (fun e => is_zero (EdgeSpec.get_lo e)) (edges data) ->
  total_supply net = 0%float /\ sum_pos_demands net = 0%float /\
  Dinic.adj (G net) !! sstar net = Some [].
Proof.
  unfold build. destruct (assign_indices _) as [idx next] eqn:Hassign.
  intros H Hsrc Hlo. apply assign_indices_spec in Hassign as [Hidx _].
  apply bind_Ret_inv in H as (g1 & Hnodes & H).
  apply bind_Ret_inv in H as ([msg|[[g2 em] dem]] & Hedges & H); [discriminate|].
  rewrite Hsrc, dom_empty_L, elements_empty in H.
  change (sorted str_lt []) with (@nil string) in H. simpl in H.
  apply bind_Ret_inv in H as ([g3 sp] & Hsuper & H). injection H as <-. simpl.
  assert (H1 : Dinic.adj g1 !! next = Some []).
  { refine (for_each_invariant (fun g => Dinic.adj g !! next = Some [])
              _ _ _ _ _ _ Hnodes).
    - intros g v g' _ Hg Hstep.
      rewrite (add_node_edge_isolated _ _ _ _ _ _ Hstep Hidx). exact Hg.
    - simpl. apply lookup_replicate. split; [reflexivity|lia]. }
  apply (add_user_edges_zero idx next) in Hedges as [Hdem H2];
    [|exact Hidx| |apply all_zero_empty].
  2:{ apply Forall_forall. intros e He. apply elem_of_sorted in He.
      revert e He. apply Forall_forall. exact Hlo. }
  assert (H3 : (g3, sp) = (g2, 0%float)).
  { refine (for_each_invariant (fun st => st = (g2, 0%float)) _ _ _ _ _ _ Hsuper);
      [|reflexivity].
    intros st v st' _ -> Hstep. eapply add_super_edge_zero; [exact Hstep|].
    apply all_zero_insert; [exact Hdem|].
    apply add_zero_zero; [apply Hdem|apply is_zero_0]. }
  injection H3 as -> ->. split; [reflexivity|]. split; [reflexivity|].
  congruence.
Qed.

Lemma zero_request_ok fuel data snk :
  sink data = Some snk -> sources data = ∅ ->
  Forall (fun e => is_zero (EdgeSpec.get_lo e) /\ hi_lt_lo e = false) (edges data) ->
  exists flows,
    run_belts (S fuel) data = Ret (Ok 0 flows) /\
    map flow_ends flows ≡ₚ map edge_ends (edges data) /\
    Forall (fun f => Flow.flow f = 0%float) flows.
Proof.
  intros Hsink Hsrc Hall.
  assert (Hlo : Forall (fun e => is_zero (EdgeSpec.get_lo e)) (edges data))
    by (eapply Forall_impl; [exact Hall|]; intros e [H _]; exact H).
  assert (Hacc : Forall (fun e => hi_lt_lo e = false) (edges data))
    by (eapply Forall_impl; [exact Hall|]; intros e [_ H]; exact H).
  destruct (build_accepts data snk Hacc) as [net Hbuild].
  pose proof (build_network_ok _ _ _ Hbuild) as [Hnet _].
  pose proof (build_spec _ _ _ Hbuild) as (Hrecs & _).
  destruct (build_zero _ _ _ Hbuild Hsrc Hlo) as (Hts & Hsp & Hiso).
  pose proof Hnet as (Hg & Hn & Ht & _).
  pose proof (constructed_well_formed _ Hg) as Hwf.
  assert (Hflow : Dinic.max_flow (S fuel) (G net) (sstar net) (tstar net) INF =
                  Ret (0%float, G net)).
  { apply max_flow_loop_unreachable; [exact Hwf|lia|lia|].
    intros Hreach. apply (isolated_reach _ _ _ Hiso) in Hreach. lia. }
  assert (Hlen : length (Dinic.adj (G net)) = sstar net + 2)
    by (destruct Hwf as [-> _]; exact Hn).
  destruct (reconstruct_Ret net (G net) Hnet Hlen) as [r Hrec].
  pose proof Hrec as Hshape. apply reconstruct_ok in Hshape as [flows ->].
  assert (Hrun : run_belts (S fuel) data = Ret (Ok 0 flows)).
  { unfold run_belts. rewrite Hsink, Hbuild, bind_Ret, Hflow, bind_Ret, Hsp.
    change (0 + EPS <? 0)%float with false. cbv iota.
    rewrite Hrec, Hts. reflexivity. }
  exists flows. split; [exact Hrun|].
  split; [apply (ok_flows_shape _ _ _ _ Hrun)|].
  unfold reconstruct in Hrec. apply bind_Ret_inv in Hrec as (fl & Hloop & Hrec).
  injection Hrec as <-.
  apply flows_of_spec in Hloop as (new & -> & Hnew). simpl.
  assert (Hzero : Forall (fun r => is_zero (Rec.lo r))
                         (sorted rec_key_lt (edge_map net))).
  { apply Forall_forall. intros r Hr. apply elem_of_sorted in Hr.
    apply list_elem_of_lookup in Hr as [k Hk].
    destruct (Forall2_lookup_r _ _ _ _ _ Hrecs Hk) as (e & He & _ & _ & -> & _).
    assert (Hin : e ∈ edges data).
    { apply (elem_of_sorted edge_sort_key_lt). eapply list_elem_of_lookup_2; eauto. }
    exact (proj1 (Forall_forall _ _) Hlo e Hin). }
  clear - Hnew Hzero Hg.
  induction Hnew as [|r f rs fs [_ (x & Hx & Hsrc)] _ IH]; constructor.
  - apply Forall_cons in Hzero as [Hr _]. rewrite Hx.
    assert (x = 0%float) as ->.
    { destruct Hsrc as [->|(adj_u & e & Hu & He & _ & ->)]; [reflexivity|].
      eapply constructed_flows_zero; eauto. }
    unfold fmax. rewrite zero_not_positive; [reflexivity|].
    apply add_zero_zero; [apply is_zero_0|exact Hr].
  - apply IH. apply Forall_cons in Hzero as [_ Hz]. exact Hz.
Qed.

(** *** [add_edge] *)

(** X19: a request with a sink, no sources and edges whose lower bounds
    are all zero and that all pass the bounds test is "ok" as soon as
    [max_flow] is allowed one iteration: [max_flow_per_min] is [0.0], there
    is one flow per edge and every flow is [0.0]. *)
Theorem zero_request_is_ok_with_zero_flows :
  forall fuel data snk,
    sink data = Some snk -> sources data = ∅ ->
    Forall (fun e => is_zero (EdgeSpec.get_lo e) /\ hi_lt_lo e = false)
           (edges data) ->
    exists flows,
      run_belts (S fuel) data = Ret (Ok 0 flows) /\
      map flow_ends flows ≡ₚ map edge_ends (edges data) /\
      Forall (fun f => Flow.flow f = 0%float) flows.
Proof. intros fuel data snk Hs Hsrc Hall. eapply zero_request_ok; eauto. Qed.

Lemma zero_request_is_ok_with_zero_flows_witness :
  exists flows,
    run_belts 1 idle_request = Ret (Ok 0 flows) /\
    map flow_ends flows ≡ₚ map edge_ends (edges idle_request) /\
    Forall (fun f => Flow.flow f = 0%float) flows.
Proof.
  apply (zero_request_is_ok_with_zero_flows 0 idle_request "t").
  - reflexivity.
  - reflexivity.
  - constructor; [|constructor]. split; [exists false; reflexivity|reflexivity].
Defined.

(** ** The layout of the built graph *)

Lemma assign_indices_fold_positions (l : list string)
    (m : gmap string (nat * nat)) c idx next :
  foldl (fun '(m, idx) v => (<[v := (idx, idx + 1)]> m, idx + 2)) (m, c) l
    = (idx, next) ->
  NoDup l -> (forall v, v ∈ l -> m !! v = None) ->
  next = c + 2 * length l /\
  (forall k v, l !! k = Some v -> idx !! v = Some (c + 2 * k, c + 2 * k + 1)) /\
  (forall v, v ∉ l -> idx !! v = m !! v).
Proof.
  revert m c. induction l as [|x l IH]; intros m c H Hnd Hfresh; simpl in H.
  - injection H as <- <-. split; [simpl; lia|]. split; [intros k v Hk; discriminate|auto].
  - apply NoDup_cons in Hnd as [Hx Hnd].
    apply IH in H as (Hnext & Hpos & Hout); [|exact Hnd|].
    + split; [simpl; lia|]. split.
      * intros [|k] v Hk; simpl in Hk.
        -- injection Hk as <-. rewrite (Hout x Hx), lookup_insert_eq.
           f_equal. f_equal; lia.
        -- rewrite (Hpos k v Hk). f_equal. f_equal; lia.
      * intros v Hv. rewrite not_elem_of_cons in Hv. destruct Hv as [Hne Hv].
        rewrite (Hout v Hv). apply lookup_insert_ne. congruence.
    + intros v Hv. rewrite lookup_insert_ne; [apply Hfresh, list_elem_of_further, Hv|].
      intros <-. contradiction.
Qed.

Lemma assign_indices_positions (l : list string) idx next :
  assign_indices l = (idx, next) -> NoDup l ->
  next = 2 * length l /\
  (forall k v, l !! k = Some v -> idx !! v = Some (2 * k, 2 * k + 1)) /\
  (forall v i o, idx !! v = Some (i, o) ->
     exists k, l !! k = Some v /\ i = 2 * k /\ o = 2 * k + 1).
Proof.
  intros H Hnd. apply assign_indices_fold_positions in H as (Hnext & Hpos & Hout);
    [|exact Hnd|intros v _; apply lookup_empty].
  split; [lia|]. split; [exact Hpos|].
  intros v i o Hv. destruct (decide (v ∈ l)) as [Hin|Hnin].
  - apply list_elem_of_lookup in Hin as [k Hk]. exists k. split; [exact Hk|].
    rewrite (Hpos k v Hk) in Hv. simpl in Hv. injection Hv as <- <-. lia.
  - rewrite (Hout v Hnin), lookup_empty in Hv. discriminate.
Qed.

Lemma sorted_nodes_NoDup (s : gset string) : NoDup (sorted str_lt (elements s)).
Proof. rewrite sorted_perm. apply NoDup_elements. Qed.

(** *** The first edge of an in-vertex *)

Lemma append_edge_head a u x w e rest :
  a !! w = Some (e :: rest) ->
  exists rest', Dinic.append_edge a u x !! w = Some (e :: rest').
Proof.
  intros Hw. unfold Dinic.append_edge. destruct (a !! u) as [l|] eqn:Hu; [|eauto].
  destruct (decide (u = w)) as [->|Hne].
  - rewrite list_lookup_insert_eq by (eapply lookup_lt_Some; eauto).
    assert (l = e :: rest) as -> by congruence. simpl. eauto.
  - rewrite list_lookup_insert_ne by exact Hne. eauto.
Qed.

Lemma add_edge_head g u v c g' h w e rest :
  Dinic.add_edge g u v c = Ret (g', h) ->
  Dinic.adj g !! w = Some (e :: rest) ->
  exists rest', Dinic.adj g' !! w = Some (e :: rest').
Proof.
  unfold Dinic.add_edge. intros H Hw.
  apply bind_Ret_inv in H as (adj_v & _ & H).
  apply bind_Ret_inv in H as (adj_u & _ & H).
  apply bind_Ret_inv in H as (adj_u' & _ & H). injection H as <- _. simpl.
  destruct (append_edge_head _ u (Dinic.new_edge v (length adj_v) c) _ _ _ Hw)
    as [rest1 H1].
  eapply append_edge_head, H1.
Qed.

Lemma add_edge_first g u v c g' h :
  Dinic.add_edge g u v c = Ret (g', h) -> u <> v ->
  Dinic.adj g !! u = Some [] ->
  exists e, Dinic.adj g' !! u = Some [e] /\ Dinic.to e = v /\ Dinic.cap e = c /\
            Dinic.flow e = 0%float.
Proof.
  unfold Dinic.add_edge. intros H Hne Hu.
  apply bind_Ret_inv in H as (adj_v & _ & H).
  apply bind_Ret_inv in H as (adj_u & _ & H).
  apply bind_Ret_inv in H as (adj_u' & _ & H). injection H as <- _. simpl.
  exists (Dinic.new_edge v (length adj_v) c).
  split; [|split; [|split]; reflexivity].
  rewrite append_edge_other by exact Hne.
  apply (append_edge_adds _ _ (Dinic.new_edge v (length adj_v) c)) in Hu.
  exact Hu.
Qed.

Lemma add_node_edge_head idx caps g v g' w e rest :
  add_node_edge idx caps g v = Ret g' ->
  Dinic.adj g !! w = Some (e :: rest) ->
  exists rest', Dinic.adj g' !! w = Some (e :: rest').
Proof.
  unfold add_node_edge. intros H Hw.
  apply bind_Ret_inv in H as ([v_in v_out] & _ & H).
  apply bind_Ret_inv in H as ([g1 h] & Hadd & H). injection H as <-.
  eapply add_edge_head; eauto.
Qed.

Lemma internal_first_keep idx caps a a' v :
  (forall w e rest, a !! w = Some (e :: rest) ->
     exists rest', a' !! w = Some (e :: rest')) ->
  internal_first idx caps a v -> internal_first idx caps a' v.
Proof.
  intros Hkeep (i & o & e & rest & Hio & Hrow & Hto & Hcap).
  destruct (Hkeep _ _ _ Hrow) as [rest' Hrow']. exists i, o, e, rest'. auto.
Qed.

Lemma add_node_edges_first idx caps (l : list string) g g' :
  for_each (add_node_edge idx caps) l g = Ret g' ->
  NoDup l ->
  (forall v i o, idx !! v = Some (i, o) -> o = i + 1 /\ Nat.Even i) ->
  (forall v v' i o i' o', idx !! v = Some (i, o) -> idx !! v' = Some (i', o') ->
     v <> v' -> i <> i') ->
  (forall v i o, v ∈ l -> idx !! v = Some (i, o) -> Dinic.adj g !! i = Some []) ->
  forall v, v ∈ l -> internal_first idx caps (Dinic.adj g') v.
Proof.
  intros H Hnd Hform Hinj. revert g H.
  induction l as [|x l IH]; intros g H Hempty v Hv; [inversion Hv|].
  simpl in H. apply bind_Ret_inv in H as (g1 & Hstep & H).
  apply NoDup_cons in Hnd as [Hx Hnd].
  apply elem_of_cons in Hv as [->|Hv].
  - assert (H1 : internal_first idx caps (Dinic.adj g1) x).
    { unfold add_node_edge in Hstep.
      apply bind_Ret_inv in Hstep as ([i o] & Hio & Hstep). apply getitem_Ret in Hio.
      apply bind_Ret_inv in Hstep as ([g2 h] & Hadd & Hstep). injection Hstep as <-.
      destruct (Hform _ _ _ Hio) as [-> _].
      destruct (add_edge_first _ _ _ _ _ _ Hadd) as (e & He & Hto & Hcap & _);
        [lia|eapply Hempty; eauto using list_elem_of_here|].
      exists i, (i + 1), e, []. auto. }
    clear - H H1. revert g1 H H1. induction l as [|y l IHl]; intros g1 H H1; simpl in H.
    + injection H as <-. exact H1.
    + apply bind_Ret_inv in H as (g2 & Hstep & H). apply (IHl g2 H).
      eapply internal_first_keep; [|exact H1].
      intros w e rest. eapply add_node_edge_head, Hstep.
  - apply (IH Hnd g1 H); [|exact Hv].
    intros w i o Hw Hio.
    unfold add_node_edge in Hstep.
    apply bind_Ret_inv in Hstep as ([ix ox] & Hx' & Hstep). apply getitem_Ret in Hx'.
    apply bind_Ret_inv in Hstep as ([g2 h] & Hadd & Hstep). injection Hstep as <-.
    assert (Hne : w <> x) by (intros ->; contradiction).
    destruct (Hform _ _ _ Hio) as [-> Hev], (Hform _ _ _ Hx') as [-> Hev'].
    pose proof (Hinj _ _ _ _ _ _ Hio Hx' Hne) as Hii.
    rewrite (add_edge_other _ _ _ _ _ _ i Hadd).
    + eapply Hempty; [apply list_elem_of_further, Hw|exact Hio].
    + exact Hii.
    + intros ->. destruct Hev as [a Ha], Hev' as [b Hb]. lia.
Qed.

Lemma add_user_edges_head idx es g em dem g' em' dem' w e rest :
  add_user_edges idx es (g, em, dem) = Ret (inr (g', em', dem')) ->
  Dinic.adj g !! w = Some (e :: rest) ->
  exists rest', Dinic.adj g' !! w = Some (e :: rest').
Proof.
  revert g em dem rest. induction es as [|x es IH]; intros g em dem rest H Hw;
    simpl in H.
  - injection H as <- _ _. eauto.
  - destruct (EdgeSpec.get_hi x + EPS <? EdgeSpec.get_lo x)%float; [discriminate|].
    apply bind_Ret_inv in H as ([i_u u_out] & _ & H).
    apply bind_Ret_inv in H as ([v_in o_v] & _ & H).
    apply bind_Ret_inv in H as ([g1 h] & Hadd & H).
    destruct (add_edge_head _ _ _ _ _ _ _ _ _ Hadd Hw) as [rest1 H1].
    eapply IH; eauto.
Qed.

Lemma add_super_edge_head idx demand s t g sp v g' sp' w e rest :
  add_super_edge idx demand s t (g, sp) v = Ret (g', sp') ->
  Dinic.adj g !! w = Some (e :: rest) ->
  exists rest', Dinic.adj g' !! w = Some (e :: rest').
Proof.
  unfold add_super_edge. intros H Hw.
  apply bind_Ret_inv in H as ([v_in v_out] & _ & H).
  destruct (fgt (demand_of demand v) EPS);
    [|destruct (demand_of demand v <? - EPS)%float].
  - apply bind_Ret_inv in H as ([g1 h] & Hadd & H). injection H as <- _.
    eapply add_edge_head; eauto.
  - apply bind_Ret_inv in H as ([g1 h] & Hadd & H). injection H as <- _.
    eapply add_edge_head; eauto.
  - injection H as <- _. eauto.
Qed.

Lemma build_layout data snk net :
  build data snk = Ret (inr net) ->
  sstar net = 2 * length (net_nodes net) /\
  tstar net = sstar net + 1 /\
  Dinic.n (G net) = sstar net + 2 /\
  forall k v, net_nodes net !! k = Some v ->
    orig_to_indices net !! v = Some (2 * k, 2 * k + 1) /\
    exists e rest,
      Dinic.adj (G net) !! (2 * k) = Some (e :: rest) /\
      Dinic.to e = 2 * k + 1 /\ Dinic.cap e = cap_of (node_caps data) v.
Proof.
  intros Hbuild. pose proof (build_network_ok _ _ _ Hbuild) as [Hnet _].
  destruct Hnet as (_ & Hn & Ht & _). revert Hbuild Hn Ht.
  unfold build. destruct (assign_indices _) as [idx next] eqn:Hassign. intros H.
  apply assign_indices_positions in Hassign as (Hnext & Hpos & Hinv);
    [|apply sorted_nodes_NoDup].
  apply bind_Ret_inv in H as (g1 & Hnodes & H).
  apply bind_Ret_inv in H as ([msg|[[g2 em] dem]] & Hedges & H); [discriminate|].
  apply bind_Ret_inv in H as ([ts dem1] & _ & H).
  apply bind_Ret_inv in H as ([g3 sp] & Hsuper & H).
  injection H as <-. simpl. intros Hn Ht.
  split; [exact Hnext|]. split; [reflexivity|]. split; [exact Hn|].
  intros k v Hk. split; [apply Hpos, Hk|].
  assert (H1 : internal_first idx (node_caps data) (Dinic.adj g1) v).
  { eapply (add_node_edges_first idx (node_caps data)); [exact Hnodes| | | | |].
    - apply sorted_nodes_NoDup.
    - intros w i o Hw. apply Hinv in Hw as (j & _ & -> & ->).
      split; [reflexivity|]. exists j. lia.
    - intros w w' i o i' o' Hw Hw' Hne.
      apply Hinv in Hw as (j & Hj & -> & ->).
      apply Hinv in Hw' as (j' & Hj' & -> & ->).
      intros Heq. assert (j = j') as -> by lia. congruence.
    - intros w i o _ Hw. simpl. apply lookup_replicate. split; [reflexivity|].
      apply Hinv in Hw as (j & Hj & -> & _). apply lookup_lt_Some in Hj. lia.
    - eapply list_elem_of_lookup_2; eauto. }
  assert (H2 : internal_first idx (node_caps data) (Dinic.adj g2) v).
  { eapply internal_first_keep; [|exact H1].
    intros w e rest. eapply add_user_edges_head, Hedges. }
  assert (H3 : internal_first idx (node_caps data) (Dinic.adj g3) v).
  { refine (for_each_invariant
              (fun st : Dinic.t * float =>
                 internal_first idx (node_caps data) (Dinic.adj (fst st)) v)
              _ _ _ _ _ _ Hsuper); [|exact H2].
    intros [g s] x [g' s'] _ Hg Hstep. simpl in *.
    eapply internal_first_keep; [|exact Hg].
    intros w e rest. eapply add_super_edge_head, Hstep. }
  destruct H3 as (i & o & e & rest & Hio & Hrow & Hto & Hcap).
  rewrite (Hpos k v Hk) in Hio. injection Hio as <- <-. eauto.
Qed.

(** X20: the builder splits the node at position [k] of the sorted node
    names into the in-vertex [2k] and the out-vertex [2k + 1]; the super
    source is vertex [2 * len(nodes)], the super sink the next one and the
    last; and the first edge out of every in-vertex is the node's internal
    edge to its out-vertex, with the declared cap of the node or [1e18]. *)
Theorem builder_splits_nodes_in_order :
  forall data snk net,
    build data snk = Ret (inr net) ->
    net_nodes net = sorted str_lt (elements (node_set data snk)) /\
    sstar net = 2 * length (net_nodes net) /\
    tstar net = sstar net + 1 /\
    Dinic.n (G net) = sstar net + 2 /\
    forall k v, net_nodes net !! k = Some v ->
      orig_to_indices net !! v = Some (2 * k, 2 * k + 1) /\
      exists e rest,
        Dinic.adj (G net) !! (2 * k) = Some (e :: rest) /\
        Dinic.to e = 2 * k + 1 /\ Dinic.cap e = cap_of (node_caps data) v.
Proof.
  intros data snk net H. split; [apply (build_network_ok _ _ _ H)|].
  apply (build_layout _ _ _ H).
Qed.

Lemma builder_splits_nodes_in_order_witness :
  exists net,
    build stuck_request "t" = Ret (inr net) /\
    net_nodes net = sorted str_lt (elements (node_set stuck_request "t")) /\
    sstar net = 2 * length (net_nodes net) /\
    tstar net = sstar net + 1 /\
    Dinic.n (G net) = sstar net + 2 /\
    forall k v, net_nodes net !! k = Some v ->
      orig_to_indices net !! v = Some (2 * k, 2 * k + 1) /\
      exists e rest,
        Dinic.adj (G net) !! (2 * k) = Some (e :: rest) /\
        Dinic.to e = 2 * k + 1 /\
        Dinic.cap e = cap_of (node_caps stuck_request) v.
Proof.
  destruct (build_accepts stuck_request "t") as [net H].
  - repeat constructor.
  - exists net. split; [exact H|].
    exact (builder_splits_nodes_in_order stuck_request "t" net H).
Defined.

(** ** The meaning of the certificate and of the error *)

Lemma tight_nodes_iff idx g reachable l acc tn :
  for_each (tight_node idx g reachable) l acc = Ret tn ->
  forall v, v ∈ tn <->
    v ∈ acc \/
    (v ∈ l /\ exists i o e rest,
       idx !! v = Some (i, o) /\ Dinic.adj g !! i = Some (e :: rest) /\
       reachable !! i = Some true /\
       (abs (Dinic.residual e) <=? SAT)%float = true).
Proof.
  revert acc. induction l as [|w l IH]; intros acc H v; simpl in H.
  - injection H as <-. split; [auto|]. intros [Hv|[Hv _]]; [exact Hv|inversion Hv].
  - apply bind_Ret_inv in H as (acc1 & Hstep & H). rewrite (IH _ H v).
    unfold tight_node in Hstep.
    apply bind_Ret_inv in Hstep as ([i o] & Hio & Hstep). apply getitem_Ret in Hio.
    apply bind_Ret_inv in Hstep as (adj_i & Hrow & Hstep). apply index_Ret in Hrow.
    assert (Hhere : v ∈ acc1 <->
              v ∈ acc \/ (v = w /\ exists e rest,
                 Dinic.adj g !! i = Some (e :: rest) /\
                 reachable !! i = Some true /\
                 (abs (Dinic.residual e) <=? SAT)%float = true)).
    { destruct adj_i as [|e adj_i].
      - injection Hstep as <-. split; [auto|].
        intros [Hv|(_ & e & rest & Hr & _)]; [exact Hv|congruence].
      - apply bind_Ret_inv in Hstep as (r & Hr & Hstep). apply index_Ret in Hr.
        injection Hstep as <-. destruct (r && _) eqn:Hc.
        + apply andb_true_iff in Hc as [-> Hsat].
          rewrite elem_of_app, list_elem_of_singleton. split.
          * intros [Hv | ->]; [auto|]. right. split; [reflexivity|]. eauto.
          * intros [Hv|[-> _]]; auto.
        + split; [auto|]. intros [Hv|(_ & e' & rest & Hrow' & Hr' & Hsat)]; [exact Hv|].
          assert (e' = e) as -> by congruence.
          assert (r = true) as -> by congruence.
          rewrite Hsat in Hc. discriminate. }
    rewrite Hhere, elem_of_cons. split.
    + intros [[Hv|(-> & e & rest & He)]|[Hv Hrest]]; [auto| |auto].
      right. split; [auto|]. exists i, o, e, rest. tauto.
    + intros [Hv|[[->|Hv] (i' & o' & e & rest & Hio' & He)]]; [auto| |].
      * left. right. split; [reflexivity|].
        assert (i' = i) as -> by congruence. eauto.
      * right. split; [exact Hv|]. eauto 10.
Qed.

Lemma same_frame_head a a' i e rest :
  same_frame a a' -> a !! i = Some (e :: rest) ->
  exists e' rest', a' !! i = Some (e' :: rest') /\ same_edge e e'.
Proof.
  intros Hf Hrow. destruct (Forall2_lookup_l _ _ _ _ _ Hf Hrow) as (l' & Hl' & Hll).
  inversion Hll as [|? e' ? rest' He Hrest]; subst. eauto.
Qed.

Lemma infeasible_cut_meaning fuel data cut db tn te :
  run_belts fuel data = Ret (Infeasible cut db tn te) ->
  exists snk net flowed g,
    sink data = Some snk /\ build data snk = Ret (inr net) /\
    Dinic.max_flow fuel (G net) (sstar net) (tstar net) INF = Ret (flowed, g) /\
    (flowed + EPS <? sum_pos_demands net)%float = true /\
    db = (sum_pos_demands net - flowed)%float /\
    (forall v, v ∈ cut <->
       exists k, net_nodes net !! k = Some v /\
                 residual_reach (Dinic.adj g) (sstar net) (2 * k)) /\
    (forall v, v ∈ tn <->
       exists k e rest,
         net_nodes net !! k = Some v /\
         residual_reach (Dinic.adj g) (sstar net) (2 * k) /\
         Dinic.adj g !! (2 * k) = Some (e :: rest) /\
         Dinic.to e = 2 * k + 1 /\ Dinic.cap e = cap_of (node_caps data) v /\
         (abs (Dinic.residual e) <=? SAT)%float = true).
Proof.
  intros H.
  apply run_belts_infeasible_inv in H
    as (snk & net & flowed & g & Hsink & Hbuild & Hflow & Htest & H).
  exists snk, net, flowed, g. do 4 (split; [assumption|]).
  pose proof (build_network_ok _ _ _ Hbuild) as [Hnet _].
  pose proof (build_layout _ _ _ Hbuild) as (_ & _ & _ & Hlay).
  pose proof Hnet as (Hg & Hn & Ht & _).
  pose proof (constructed_well_formed _ Hg) as Hwf.
  pose proof Hflow as Hframe. unfold Dinic.max_flow in Hframe.
  apply max_flow_loop_frame in Hframe as [Hn' Hf].
  assert (Hwf' : well_formed g).
  { destruct Hwf as [Hl Hp]. split.
    - rewrite (same_frame_length _ _ Hf). congruence.
    - eapply paired_frame; eauto. }
  destruct (reachable_from_spec g (sstar net) Hwf') as (vis & Hvis & _ & Hiff);
    [lia|].
  unfold certificate in H. rewrite Hvis, bind_Ret in H.
  apply bind_Ret_inv in H as (cut0 & Hcut & H).
  apply bind_Ret_inv in H as (tn0 & Htn & H).
  apply bind_Ret_inv in H as (te0 & Hte & H).
  injection H as <- <- <- <-. split; [reflexivity|].
  apply cut_nodes_spec in Hcut as (new & -> & _ & Hcutiff).
  change ([] ++ new) with new.
  split.
  - intros v. rewrite Hcutiff. split.
    + intros [Hv (i & o & Hio & Hr)].
      apply list_elem_of_lookup in Hv as [k Hk]. exists k. split; [exact Hk|].
      destruct (Hlay k v Hk) as [Hpos _].
      assert (i = 2 * k) as <- by congruence. apply Hiff, Hr.
    + intros (k & Hk & Hr). split; [eapply list_elem_of_lookup_2; eauto|].
      destruct (Hlay k v Hk) as [Hpos _].
      exists (2 * k), (2 * k + 1). split; [exact Hpos|]. apply Hiff, Hr.
  - intros v. rewrite elem_of_sorted, (tight_nodes_iff _ _ _ _ _ _ Htn v). split.
    + intros [Hv|[Hv (i & o & e & rest & Hio & Hrow & Hr & Hsat)]]; [inversion Hv|].
      apply list_elem_of_lookup in Hv as [k Hk].
      destruct (Hlay k v Hk) as [Hpos (e0 & rest0 & Hrow0 & Hto0 & Hcap0)].
      assert (i = 2 * k) as -> by congruence.
      destruct (same_frame_head _ _ _ _ _ Hf Hrow0)
        as (e' & rest' & Hrow' & Hto' & _ & Hcap').
      assert (e' = e) as -> by congruence.
      exists k, e, rest. split; [exact Hk|]. split; [apply Hiff, Hr|].
      split; [exact Hrow|]. split; [congruence|]. split; [congruence|exact Hsat].
    + intros (k & e & rest & Hk & Hr & Hrow & _ & _ & Hsat). right.
      split; [eapply list_elem_of_lookup_2; eauto|].
      destruct (Hlay k v Hk) as [Hpos _].
      exists (2 * k), (2 * k + 1), e, rest.
      split; [exact Hpos|]. split; [exact Hrow|]. split; [apply Hiff, Hr|exact Hsat].
Qed.

(** *** Which edge an error names *)

Lemma add_user_edges_first_rejected idx es st msg :
  add_user_edges idx es st = Ret (inl msg) ->
  exists pre e post,
    es = pre ++ e :: post /\
    Forall (fun x => hi_lt_lo x = false) pre /\ hi_lt_lo e = true /\
    msg = hi_lt_lo_message (EdgeSpec.from e) (EdgeSpec.to e).
Proof.
  revert st. induction es as [|e es IH]; intros [[g em] dem] H; simpl in H.
  - discriminate.
  - destruct (EdgeSpec.get_hi e + EPS <? EdgeSpec.get_lo e)%float eqn:Hbad.
    + injection H as <-. exists [], e, es. split; [reflexivity|].
      split; [constructor|]. split; [exact Hbad|reflexivity].
    + apply bind_Ret_inv in H as ([i_u u_out] & _ & H).
      apply bind_Ret_inv in H as ([v_in o_v] & _ & H).
      apply bind_Ret_inv in H as ([g' h] & _ & H).
      apply IH in H as (pre & e' & post & -> & Hpre & Hbad' & ->).
      exists (e :: pre), e', post. split; [reflexivity|].
      split; [constructor; [exact Hbad|exact Hpre]|]. auto.
Qed.

Lemma error_names_first_rejected fuel data snk msg :
  sink data = Some snk ->
  run_belts fuel data = Ret (Error msg) ->
  exists pre e post,
    sorted edge_sort_key_lt (edges data) = pre ++ e :: post /\
    Forall (fun x => hi_lt_lo x = false) pre /\ hi_lt_lo e = true /\
    msg = ("edge hi < lo for " ++ EdgeSpec.from e ++ "->" ++ EdgeSpec.to e)%string.
Proof.
  intros Hsink H. apply run_belts_error in H as [[Hnone _]|(snk' & Hs & H)];
    [congruence|].
  unfold build in H. destruct (assign_indices _) as [idx next].
  apply bind_Ret_inv in H as (g1 & _ & H).
  apply bind_Ret_inv in H as ([msg'|[[g2 em] dem]] & Hedges & H).
  - injection H as <-. eapply add_user_edges_first_rejected, Hedges.
  - apply bind_Ret_inv in H as ([ts dem1] & _ & H).
    apply bind_Ret_inv in H as ([g3 sp] & _ & H). discriminate.
Qed.

(** X18: in an "infeasible" result, [demand_balance] is [sum_pos_demands -
    flowed] with [flowed + 1e-9 < sum_pos_demands]; [cut_reachable] lists
    exactly the nodes whose in-vertex the super source reaches along edges
    with [cap - flow > EPS] in the graph that [max_flow] has left; and
    [tight_nodes] lists exactly those of them whose internal edge, the
    first edge out of the in-vertex, has [|cap - flow| <= 1e-6].  The node
    at position [k] of the sorted node names has in-vertex [2k] and
    out-vertex [2k + 1]. *)
Theorem infeasible_cut_is_residual_reachable :
  forall fuel data cut db tn te,
    run_belts fuel data = Ret (Infeasible cut db tn te) ->
    exists snk net flowed g,
      sink data = Some snk /\ build data snk = Ret (inr net) /\
      Dinic.max_flow fuel (G net) (sstar net) (tstar net) INF = Ret (flowed, g) /\
      (flowed + EPS <? sum_pos_demands net)%float = true /\
      db = (sum_pos_demands net - flowed)%float /\
      (forall v, v ∈ cut <->
         exists k, net_nodes net !! k = Some v /\
                   residual_reach (Dinic.adj g) (sstar net) (2 * k)) /\
      (forall v, v ∈ tn <->
         exists k e rest,
           net_nodes net !! k = Some v /\
           residual_reach (Dinic.adj g) (sstar net) (2 * k) /\
           Dinic.adj g !! (2 * k) = Some (e :: rest) /\
           Dinic.to e = 2 * k + 1 /\ Dinic.cap e = cap_of (node_caps data) v /\
           (abs (Dinic.residual e) <=? SAT)%float = true).
Proof.
  intros fuel data cut db tn te H. eapply infeasible_cut_meaning, H.
Qed.

Lemma infeasible_cut_is_residual_reachable_witness :
  exists snk net flowed g,
    sink stuck_request = Some snk /\ build stuck_request snk = Ret (inr net) /\
    Dinic.max_flow 1 (G net) (sstar net) (tstar net) INF = Ret (flowed, g) /\
    (flowed + EPS <? sum_pos_demands net)%float = true /\
    8%float = (sum_pos_demands net - flowed)%float /\
    (forall v, v ∈ ["b"; "y"] <->
       exists k, net_nodes net !! k = Some v /\
                 residual_reach (Dinic.adj g) (sstar net) (2 * k)) /\
    (forall v, v ∈ ["y"] <->
       exists k e rest,
         net_nodes net !! k = Some v /\
         residual_reach (Dinic.adj g) (sstar net) (2 * k) /\
         Dinic.adj g !! (2 * k) = Some (e :: rest) /\
         Dinic.to e = 2 * k + 1 /\
         Dinic.cap e = cap_of (node_caps stuck_request) v /\
         (abs (Dinic.residual e) <=? SAT)%float = true).
Proof.
  exact (infeasible_cut_is_residual_reachable 1 stuck_request _ _ _ _
           stuck_request_run).
Defined.

(** X21: when a request with a sink gets an error, the edge that the
    message names is the first edge, in the order of the keys [(from, to,
    lo, hi)], with [hi + 1e-9 < lo]: every edge before it in that order
    passes the test. *)
Theorem error_names_first_rejected_edge :
  forall fuel data snk msg,
    sink data = Some snk ->
    run_belts fuel data = Ret (Error msg) ->
    exists pre e post,
      sorted edge_sort_key_lt (edges data) = pre ++ e :: post /\
      Forall (fun x => hi_lt_lo x = false) pre /\ hi_lt_lo e = true /\
      msg = ("edge hi < lo for " ++ EdgeSpec.from e ++ "->" ++ EdgeSpec.to e)%string.
Proof.
  intros fuel data snk msg Hs H. eapply error_names_first_rejected; eauto.
Qed.

Lemma error_names_first_rejected_edge_witness :
  exists pre e post,
    sorted edge_sort_key_lt (edges rejected_request) = pre ++ e :: post /\
    Forall (fun x => hi_lt_lo x = false) pre /\ hi_lt_lo e = true /\
    "edge hi < lo for b->c" =
      ("edge hi < lo for " ++ EdgeSpec.from e ++ "->" ++ EdgeSpec.to e)%string.
Proof.
  apply (error_names_first_rejected_edge 0 rejected_request "t").
  - reflexivity.
  - reflexivity.
Defined.

(** ** Requests whose supplies reach the sink only *)

Lemma add_edge_row_elem g u v c g' h w l' e :
  Dinic.add_edge g u v c = Ret (g', h) ->
  Dinic.adj g' !! w = Some l' -> e ∈ l' ->
  (exists l, Dinic.adj g !! w = Some l /\ e ∈ l) \/
  (w = u /\ exists k, e = Dinic.new_edge v k c) \/
  (w = v /\ exists k, e = Dinic.new_edge u k 0).
Proof.
  unfold Dinic.add_edge. intros H Hw He.
  apply bind_Ret_inv in H as (adj_v & _ & H).
  apply bind_Ret_inv in H as (adj_u & _ & H).
  apply bind_Ret_inv in H as (adj_u' & _ & H). injection H as <- _. simpl in Hw.
  apply append_edge_lookup in Hw as (l1 & Hl1 & Hcase2).
  apply append_edge_lookup in Hl1 as (l & Hl & Hcase1).
  destruct Hcase2 as [->|[-> ->]].
  - destruct Hcase1 as [->|[-> ->]]; [eauto|].
    apply elem_of_app in He as [He|He]; [eauto|].
    apply list_elem_of_singleton in He. eauto 6.
  - apply elem_of_app in He as [He|He].
    + destruct Hcase1 as [->|[-> ->]]; [eauto|].
      apply elem_of_app in He as [He|He]; [eauto|].
      apply list_elem_of_singleton in He. eauto 6.
    + apply list_elem_of_singleton in He. eauto 6.
Qed.

Lemma add_edge_sink_side g u v c g' h si so sstar :
  Dinic.add_edge g u v c = Ret (g', h) -> sink_side g si so sstar ->
  (u = sstar -> v = si) -> v <> sstar -> (u = si -> v = so) -> u <> so ->
  sink_side g' si so sstar.
Proof.
  intros Hadd (Hs & Hi & Ho) Hus Hvs Hui Huo. split; [|split]; intros l e Hl He.
  - destruct (add_edge_row_elem _ _ _ _ _ _ _ _ _ Hadd Hl He)
      as [(l0 & Hl0 & He0)|[(Hw & k & ->)|(Hw & k & ->)]].
    + eapply Hs; eauto.
    + simpl. apply Hus. congruence.
    + congruence.
  - destruct (add_edge_row_elem _ _ _ _ _ _ _ _ _ Hadd Hl He)
      as [(l0 & Hl0 & He0)|[(Hw & k & ->)|(Hw & k & ->)]].
    + eapply Hi; eauto.
    + right. simpl. apply Hui. congruence.
    + left. reflexivity.
  - destruct (add_edge_row_elem _ _ _ _ _ _ _ _ _ Hadd Hl He)
      as [(l0 & Hl0 & He0)|[(Hw & k & ->)|(Hw & k & ->)]].
    + eapply Ho; eauto.
    + congruence.
    + reflexivity.
Qed.

Lemma sink_side_reach g si so sstar v :
  sink_side g si so sstar ->
  (forall u l e, Dinic.adj g !! u = Some l -> e ∈ l -> Dinic.flow e = 0%float) ->
  residual_reach (Dinic.adj g) sstar v -> v = sstar \/ v = si \/ v = so.
Proof.
  intros (Hs & Hi & Ho) Hflow.
  assert (Hdead : forall u l e, Dinic.adj g !! u = Some l -> e ∈ l ->
                    Dinic.cap e = 0%float ->
                    fgt (Dinic.residual e) EPS = true -> False).
  { intros u l e Hu He Hcap Hres. unfold Dinic.residual in Hres.
    rewrite Hcap, (Hflow u l e Hu He) in Hres. vm_compute in Hres. discriminate. }
  induction 1 as [|u adj_u e _ IH Hu He Hres]; [auto|].
  destruct IH as [->|[->| ->]].
  - right. left. eapply Hs; eauto.
  - destruct (Hi _ _ Hu He) as [Hcap|Hto]; [|auto].
    exfalso. eapply Hdead; eauto.
  - exfalso. eapply Hdead; eauto.
Qed.

(** *** Demands after the supplies *)

Lemma supply_not_positive_demand z x :
  is_zero z -> (x <? 0)%float = false -> fgt (z - x) EPS = false.
Proof.
  intros [s Hz] Hx. unfold fgt. rewrite ltb_spec in *. rewrite sub_spec, Hz.
  change (Prim2SF EPS) with (S754_finite false 4835703278458517 (-82)).
  change (Prim2SF 0) with (S754_zero false) in Hx.
  destruct (Prim2SF x) as [sx|sx| |sx mx ex]; try reflexivity.
  - destruct s, sx; reflexivity.
  - destruct sx; [discriminate|reflexivity].
  - destruct sx; [discriminate|reflexivity].
Qed.

Lemma add_supplies_demand srcs (l : list string) t d t' d' :
  for_each (add_supply srcs) l (t, d) = Ret (t', d') -> NoDup l ->
  forall k,
    (k ∈ l -> exists x, srcs !! k = Some x /\
                        demand_of d' k = (demand_of d k - x)%float) /\
    (k ∉ l -> demand_of d' k = demand_of d k).
Proof.
  revert t d. induction l as [|s l IH]; intros t d H Hnd k; simpl in H.
  - injection H as _ <-. split; [intros Hk; inversion Hk|auto].
  - apply bind_Ret_inv in H as ([t1 d1] & Hstep & H).
    unfold add_supply in Hstep. apply bind_Ret_inv in Hstep as (x & Hx & Hstep).
    apply getitem_Ret in Hx. injection Hstep as <- <-.
    apply NoDup_cons in Hnd as [Hs Hnd].
    destruct (IH _ _ H Hnd k) as [Hin Hout]. split.
    + intros Hk. apply elem_of_cons in Hk as [->|Hk].
      * exists x. split; [exact Hx|]. rewrite (Hout Hs), demand_of_insert.
        rewrite decide_True by reflexivity. reflexivity.
      * destruct (Hin Hk) as (y & Hy & Hd). exists y. split; [exact Hy|].
        rewrite Hd, demand_of_insert. rewrite decide_False; [reflexivity|].
        intros <-. contradiction.
    + intros Hk. rewrite not_elem_of_cons in Hk. destruct Hk as [Hne Hk].
      rewrite (Hout Hk), demand_of_insert. rewrite decide_False by congruence.
      reflexivity.
Qed.

(** *** The three loops of the builder *)

Section SinkSide.
Variable nodes : list string.
Variable idx : gmap string (nat * nat).
Variable snk : string.
Variable ks : nat.
Hypothesis Hks : nodes !! ks = Some snk.
Hypothesis Hnd : NoDup nodes.
Hypothesis Hinv :
  forall v i o, idx !! v = Some (i, o) ->
    exists k, nodes !! k = Some v /\ i = 2 * k /\ o = 2 * k + 1.

Local Abbreviation next := (2 * length nodes).
Local Abbreviation si := (2 * ks).
Local Abbreviation so := (2 * ks + 1).

Lemma position_unique k v : nodes !! k = Some v -> v = snk -> k = ks.
Proof. intros Hk ->. eapply NoDup_lookup; eauto. Qed.

Lemma add_node_edge_sink_side caps g v g' :
  add_node_edge idx caps g v = Ret g' ->
  sink_side g si so next -> sink_side g' si so next.
Proof.
  unfold add_node_edge. intros H Hg.
  apply bind_Ret_inv in H as ([i o] & Hio & H). apply getitem_Ret in Hio.
  apply bind_Ret_inv in H as ([g1 h] & Hadd & H). injection H as <-.
  apply Hinv in Hio as (k & Hk & -> & ->). apply lookup_lt_Some in Hk as Hlt.
  eapply add_edge_sink_side; [exact Hadd|exact Hg|..]; lia.
Qed.

Lemma add_user_edges_sink_side es g em dem g' em' dem' :
  add_user_edges idx es (g, em, dem) = Ret (inr (g', em', dem')) ->
  Forall (fun e => EdgeSpec.from e <> snk) es ->
  sink_side g si so next -> sink_side g' si so next.
Proof.
  revert g em dem. induction es as [|e es IH]; intros g em dem H Hfrom Hg;
    simpl in H.
  - injection H as <- _ _. exact Hg.
  - destruct (EdgeSpec.get_hi e + EPS <? EdgeSpec.get_lo e)%float; [discriminate|].
    apply Forall_cons in Hfrom as [Hne Hfrom].
    apply bind_Ret_inv in H as ([i_u u_out] & Hu & H).
    apply bind_Ret_inv in H as ([v_in o_v] & Hv & H).
    apply bind_Ret_inv in H as ([g1 h] & Hadd & H).
    apply getitem_Ret in Hu, Hv.
    apply Hinv in Hu as (k & Hk & -> & ->). apply Hinv in Hv as (k' & Hk' & -> & ->).
    apply lookup_lt_Some in Hk as Hlt. apply lookup_lt_Some in Hk' as Hlt'.
    eapply IH; [exact H|exact Hfrom|].
    eapply add_edge_sink_side; [exact Hadd|exact Hg|..];
      try lia.
    intros Heq. apply Hne. assert (k = ks) as -> by lia. congruence.
Qed.

Lemma add_super_edges_sink_side demand (l : list string) g sp g' sp' :
  for_each (add_super_edge idx demand next (next + 1)) l (g, sp) = Ret (g', sp') ->
  NoDup l ->
  fgt (demand_of demand snk) EPS = true ->
  (forall v, v <> snk -> fgt (demand_of demand v) EPS = false) ->
  sink_side g si so next ->
  sink_side g' si so next /\
  (forall u w c, has_edge g u w c -> has_edge g' u w c) /\
  (snk ∉ l -> sp' = sp) /\
  (snk ∈ l -> sp' = (sp + demand_of demand snk)%float /\
              has_edge g' next si (demand_of demand snk)).
Proof.
  intros H Hl Hsnk Hother. revert g sp H Hl.
  induction l as [|v l IH]; intros g sp H Hl Hg; simpl in H.
  - injection H as <- <-. split; [exact Hg|]. split; [auto|].
    split; [auto|]. intros Hin. inversion Hin.
  - apply bind_Ret_inv in H as ([g1 sp1] & Hstep & H).
    apply NoDup_cons in Hl as [Hv Hl].
    pose proof Hstep as Hmono. apply add_super_edge_spec in Hmono as [Hmono _].
    unfold add_super_edge in Hstep.
    apply bind_Ret_inv in Hstep as ([v_in v_out] & Hio & Hstep).
    apply getitem_Ret in Hio. apply Hinv in Hio as (k & Hk & -> & ->).
    apply lookup_lt_Some in Hk as Hlt.
    destruct (decide (v = snk)) as [->|Hne].
    + rewrite Hsnk in Hstep.
      apply bind_Ret_inv in Hstep as ([g2 h] & Hadd & Hstep).
      injection Hstep as <- <-.
      assert (k = ks) as -> by (eapply position_unique; eauto).
      assert (Hg1 : sink_side g2 si so next).
      { eapply add_edge_sink_side; [exact Hadd|exact Hg|..]; lia. }
      apply add_edge_spec in Hadd as (_ & _ & Hnew & _).
      destruct (IH _ _ H Hl Hg1) as (Hg' & Hmono' & Hout & _).
      split; [exact Hg'|]. split; [intros u w c Hh; apply Hmono', Hmono, Hh|].
      split; [intros Hnin; exfalso; apply Hnin, list_elem_of_here|].
      intros _. split; [apply Hout, Hv|apply Hmono', Hnew].
    + rewrite (Hother v Hne) in Hstep.
      assert (Hg1 : sink_side g1 si so next /\ sp1 = sp).
      { match type of Hstep with
        | (if ?c then _ else _) = _ => destruct c
        end.
        - apply bind_Ret_inv in Hstep as ([g2 h] & Hadd & Hstep).
          injection Hstep as <- <-. split; [|reflexivity].
          eapply add_edge_sink_side; [exact Hadd|exact Hg|..];
            try lia.
          intros Heq. apply Hne. assert (k = ks) as -> by lia. congruence.
        - injection Hstep as <- <-. auto. }
      destruct Hg1 as [Hg1 ->].
      destruct (IH _ _ H Hl Hg1) as (Hg' & Hmono' & Hout & Hin).
      split; [exact Hg'|]. split; [intros u w c Hh; apply Hmono', Hmono, Hh|].
      split.
      * intros Hnin. apply Hout. intros Hin'. apply Hnin, list_elem_of_further, Hin'.
      * intros Hin'. apply elem_of_cons in Hin' as [Heq|Hin']; [congruence|].
        apply Hin, Hin'.
Qed.
End SinkSide.

Lemma build_positions data snk net :
  build data snk = Ret (inr net) ->
  NoDup (net_nodes net) /\ sstar net = 2 * length (net_nodes net) /\
  forall v i o, orig_to_indices net !! v = Some (i, o) ->
    exists k, net_nodes net !! k = Some v /\ i = 2 * k /\ o = 2 * k + 1.
Proof.
  unfold build. destruct (assign_indices _) as [idx next] eqn:Hassign. intros H.
  apply assign_indices_positions in Hassign as (Hnext & _ & Hinv);
    [|apply sorted_nodes_NoDup].
  apply bind_Ret_inv in H as (g1 & _ & H).
  apply bind_Ret_inv in H as ([msg|[[g2 em] dem]] & _ & H); [discriminate|].
  apply bind_Ret_inv in H as ([ts dem1] & _ & H).
  apply bind_Ret_inv in H as ([g3 sp] & _ & H).
  injection H as <-. simpl.
  split; [apply sorted_nodes_NoDup|]. split; [exact Hnext|exact Hinv].
Qed.

Lemma not_zero_above_EPS x : fgt x EPS = true -> ~ is_zero x.
Proof. intros H Hz. rewrite (zero_not_above_EPS x Hz) in H. discriminate. Qed.

Lemma build_sink_side data snk net :
  build data snk = Ret (inr net) ->
  Forall (fun e => is_zero (EdgeSpec.get_lo e) /\ EdgeSpec.from e <> snk)
         (edges data) ->
  snk ∉ dom (sources data) ->
  (forall s x, sources data !! s = Some x -> (x <? 0)%float = false) ->
  fgt (supply_sum (sources data)) EPS = true ->
  exists ks,
    net_nodes net !! ks = Some snk /\
    sink_side (G net) (2 * ks) (2 * ks + 1) (sstar net) /\
    has_edge (G net) (sstar net) (2 * ks) (supply_sum (sources data)) /\
    sum_pos_demands net = supply_sum (sources data).
Proof.
  intros Hbuild Hall Hnsrc Hsup Hts.
  pose proof (build_positions _ _ _ Hbuild) as (Hnd & Hnext & Hinv).
  pose proof (build_network_ok _ _ _ Hbuild) as [(_ & _ & _ & Hidx & _) Hnodes].
  assert (Hin : snk ∈ net_nodes net).
  { rewrite Hnodes. apply elem_of_sorted, elem_of_elements, node_set_sink. }
  apply list_elem_of_lookup in Hin as [ks Hks]. exists ks. split; [exact Hks|].
  revert Hbuild Hnd Hnext Hinv Hidx Hnodes Hks.
  unfold build. destruct (assign_indices _) as [idx next]. intros H.
  apply bind_Ret_inv in H as (g1 & Hloop1 & H).
  apply bind_Ret_inv in H as ([msg|[[g2 em] dem]] & Hloop2 & H); [discriminate|].
  apply bind_Ret_inv in H as ([ts dem1] & Hloop3 & H).
  apply bind_Ret_inv in H as ([g3 sp] & Hloop4 & H).
  injection H as <-. cbn -[Nat.mul]. intros Hnd Hnext Hinv Hidx _ Hks. subst next.
  set (nodes := sorted str_lt (elements (node_set data snk))) in *.
  assert (Hsorted : Forall (fun e => is_zero (EdgeSpec.get_lo e) /\
                                     EdgeSpec.from e <> snk)
                           (sorted edge_sort_key_lt (edges data))).
  { apply Forall_forall. intros e He. apply elem_of_sorted in He.
    exact (proj1 (Forall_forall _ _) Hall e He). }
  (* the node edges *)
  assert (H1 : sink_side g1 (2 * ks) (2 * ks + 1) (2 * length nodes)).
  { refine (for_each_invariant
              (fun g => sink_side g (2 * ks) (2 * ks + 1) (2 * length nodes))
              _ _ _ _ _ _ Hloop1).
    - intros g v g' _ Hg Hstep.
      eapply (add_node_edge_sink_side nodes idx ks); eauto.
    - split; [|split]; intros l e Hl He; simpl in Hl;
        apply lookup_replicate in Hl as [-> _]; inversion He. }
  (* the belts *)
  assert (H2 : sink_side g2 (2 * ks) (2 * ks + 1) (2 * length nodes)).
  { eapply (add_user_edges_sink_side nodes idx snk ks); eauto.
    eapply Forall_impl; [exact Hsorted|]. intros e [_ He]. exact He. }
  apply (add_user_edges_zero idx (2 * length nodes)) in Hloop2 as [Hdem _];
    [|exact Hidx| |apply all_zero_empty].
  2:{ eapply Forall_impl; [exact Hsorted|]. intros e [He _]. exact He. }
  (* the supplies *)
  pose proof (add_supplies_total _ _ _ _ _ _ Hloop3) as Hts'.
  change (foldl _ 0%float _) with (supply_sum (sources data)) in Hts'. subst ts.
  pose proof (add_supplies_demand _ _ _ _ _ _ Hloop3
                (sorted_nodes_NoDup (dom (sources data)))) as Hdem1.
  set (ts := supply_sum (sources data)) in *.
  set (demand2 := <[snk := (demand_of dem1 snk + ts)%float]> dem1) in *.
  assert (Hd_snk : demand_of demand2 snk = ts).
  { unfold demand2. rewrite demand_of_insert, decide_True by reflexivity.
    destruct (Hdem1 snk) as [_ Hout]. rewrite Hout.
    - apply add_zero_l; [apply Hdem|apply not_zero_above_EPS, Hts].
    - rewrite elem_of_sorted, elem_of_elements. exact Hnsrc. }
  assert (Hd_other : forall v, v <> snk -> fgt (demand_of demand2 v) EPS = false).
  { intros v Hne. unfold demand2. rewrite demand_of_insert.
    rewrite decide_False by congruence.
    destruct (Hdem1 v) as [Hin Hout].
    destruct (decide (v ∈ sorted str_lt (elements (dom (sources data)))))
      as [Hv|Hv].
    - destruct (Hin Hv) as (x & Hx & ->).
      apply supply_not_positive_demand; [apply Hdem|eapply Hsup; eauto].
    - rewrite (Hout Hv). apply zero_not_above_EPS, Hdem. }
  (* the super edges *)
  destruct (add_super_edges_sink_side nodes idx snk ks Hks Hnd Hinv demand2
              nodes g2 0%float g3 sp Hloop4 Hnd)
    as (H3 & _ & _ & Hsp); [rewrite Hd_snk; exact Hts|exact Hd_other|exact H2|].
  destruct Hsp as [-> Hedge]; [eapply list_elem_of_lookup_2; eauto|].
  rewrite Hd_snk in *. split; [exact H3|]. split; [exact Hedge|].
  apply add_zero_l; [apply is_zero_0|apply not_zero_above_EPS, Hts].
Qed.

Lemma NoDup_only x (l : list string) :
  NoDup l -> (forall v, v ∈ l <-> v = x) -> l = [x].
Proof.
  intros Hnd Hiff. destruct l as [|a l].
  - assert (H : x ∈ @nil string) by (apply Hiff; reflexivity). inversion H.
  - assert (a = x) as -> by (apply Hiff, list_elem_of_here).
    apply NoDup_cons in Hnd as [Hx _]. destruct l as [|b l]; [reflexivity|].
    assert (b = x) as -> by (apply Hiff, list_elem_of_further, list_elem_of_here).
    exfalso. apply Hx, list_elem_of_here.
Qed.

Lemma supplied_request_infeasible fuel data snk :
  sink data = Some snk ->
  Forall (fun e => is_zero (EdgeSpec.get_lo e) /\ hi_lt_lo e = false /\
                   EdgeSpec.from e <> snk) (edges data) ->
  snk ∉ dom (sources data) ->
  (forall s x, sources data !! s = Some x -> (x <? 0)%float = false) ->
  fgt (supply_sum (sources data)) EPS = true ->
  exists tn,
    run_belts (S fuel) data =
      Ret (Infeasible [snk] (supply_sum (sources data)) tn []).
Proof.
  intros Hsink Hall Hnsrc Hsup Hts.
  assert (Hacc : Forall (fun e => hi_lt_lo e = false) (edges data))
    by (eapply Forall_impl; [exact Hall|]; intros e (_ & H & _); exact H).
  assert (Hside : Forall (fun e => is_zero (EdgeSpec.get_lo e) /\
                                   EdgeSpec.from e <> snk) (edges data))
    by (eapply Forall_impl; [exact Hall|]; intros e (H & _ & H'); auto).
  destruct (build_accepts data snk Hacc) as [net Hbuild].
  pose proof (build_network_ok _ _ _ Hbuild) as [Hnet Hnodes].
  pose proof (build_spec _ _ _ Hbuild) as (Hrecs & _).
  pose proof (build_positions _ _ _ Hbuild) as (Hnd & Hnext & Hinv).
  pose proof (build_layout _ _ _ Hbuild) as (_ & _ & _ & Hlay).
  destruct (build_sink_side _ _ _ Hbuild Hside Hnsrc Hsup Hts)
    as (ks & Hks & Hss & Hedge & Hsp).
  pose proof Hnet as (Hg & Hn & Ht & _ & _ & Hem).
  pose proof (constructed_well_formed _ Hg) as Hwf.
  pose proof (constructed_flows_zero _ Hg) as Hzero.
  apply lookup_lt_Some in Hks as Hlt.
  assert (Hreach : forall v, residual_reach (Dinic.adj (G net)) (sstar net) v ->
                     v = sstar net \/ v = 2 * ks \/ v = 2 * ks + 1).
  { intros v. apply sink_side_reach; assumption. }
  assert (Hflow : Dinic.max_flow (S fuel) (G net) (sstar net) (tstar net) INF =
                  Ret (0%float, G net)).
  { apply max_flow_loop_unreachable; [exact Hwf|lia|lia|].
    intros Hr. apply Hreach in Hr. lia. }
  assert (Hlen : length (Dinic.adj (G net)) = sstar net + 2)
    by (destruct Hwf as [-> _]; exact Hn).
  destruct (reachable_from_spec (G net) (sstar net) Hwf) as (vis & Hvis & Hvlen & Hiff);
    [lia|].
  destruct (certificate_Ret net (G net) vis Hnet Hlen) with (flowed := 0%float)
    as [r Hcert]; [congruence|exact Hvis|].
  assert (Hrun : run_belts (S fuel) data = Ret r).
  { unfold run_belts. rewrite Hsink, Hbuild, bind_Ret, Hflow, bind_Ret, Hsp.
    change (0 + EPS)%float with EPS. unfold fgt in Hts. rewrite Hts. exact Hcert. }
  rewrite Hrun. unfold certificate in Hcert. rewrite Hvis, bind_Ret in Hcert.
  apply bind_Ret_inv in Hcert as (cut0 & Hcut & Hcert).
  apply bind_Ret_inv in Hcert as (tn0 & Htn & Hcert).
  apply bind_Ret_inv in Hcert as (te0 & Hte & Hcert).
  injection Hcert as <-. exists (sorted str_lt tn0).
  rewrite Hsp, sub_zero.
  apply cut_nodes_spec in Hcut as (new & -> & Hsub & Hcutiff).
  change ([] ++ new) with new.
  assert (Hnew : new = [snk]).
  { apply NoDup_only; [eapply sublist_NoDup; eauto|].
    intros v. rewrite Hcutiff. split.
    - intros [Hv (i & o & Hio & Hr)].
      apply Hinv in Hio as (k & Hk & -> & _).
      apply Hiff, Hreach in Hr. apply lookup_lt_Some in Hk as Hk'.
      assert (k = ks) as -> by lia. congruence.
    - intros ->. split; [eapply list_elem_of_lookup_2; eauto|].
      destruct (Hlay ks snk Hks) as [Hpos _].
      exists (2 * ks), (2 * ks + 1). split; [exact Hpos|]. apply Hiff.
      destruct Hedge as (adj_s & e & Hrow & He & Hto & Hcap). rewrite <- Hto.
      apply (reach_next _ _ (sstar net) adj_s e);
        [apply reach_here|exact Hrow|exact He|].
      unfold Dinic.residual. rewrite Hcap, (Hzero _ _ _ Hrow He), sub_zero.
      exact Hts. }
  assert (Hnone : te0 = []).
  { destruct te0 as [|x te0]; [reflexivity|]. exfalso.
    destruct (tight_edges_spec _ _ _ _ _ _ Hte x (list_elem_of_here _ _))
      as [Hx|(rc & Hrc & _ & _ & Hu & _)]; [inversion Hx|].
    eapply Forall_forall in Hem; [|exact Hrc]. destruct Hem as [[i Hi] _].
    apply Hinv in Hi as (k & Hk & _ & Hout).
    apply Hiff, Hreach in Hu. apply lookup_lt_Some in Hk as Hk'.
    assert (k = ks) as -> by lia.
    apply list_elem_of_lookup in Hrc as [j Hj].
    destruct (Forall2_lookup_r _ _ _ _ _ Hrecs Hj) as (e & He & Hef & _).
    assert (Hin : e ∈ edges data).
    { apply (elem_of_sorted edge_sort_key_lt). eapply list_elem_of_lookup_2; eauto. }
    destruct (proj1 (Forall_forall _ _) Hside e Hin) as [_ Hne].
    apply Hne. congruence. }
  rewrite Hnew, Hnone. reflexivity.
Qed.

(** X23: a request whose edges all have lower bound zero and pass the
    bounds test, whose sink has no edge leaving it and is not itself a
    source, whose supplies are not negative and add up to more than
    [1e-9], is reported "infeasible" as soon as [max_flow] is allowed one
    iteration: the super source feeds the in-vertex of the sink with the
    total supply (lines 205-210 and 214-221), nothing leaves the sink, so
    [cut_reachable] is the sink alone, [demand_balance] is the total supply
    and [tight_edges] is empty. *)
Theorem supplied_request_reported_infeasible :
  forall fuel data snk,
    sink data = Some snk ->
    Forall (fun e => is_zero (EdgeSpec.get_lo e) /\ hi_lt_lo e = false /\
                     EdgeSpec.from e <> snk) (edges data) ->
    snk ∉ dom (sources data) ->
    (forall s x, sources data !! s = Some x -> not_negative x) ->
    fgt (supply_sum (sources data)) EPS = true ->
    exists tn,
      run_belts (S fuel) data =
        Ret (Infeasible [snk] (supply_sum (sources data)) tn []).
Proof.
  intros fuel data snk Hsink Hall Hnsrc Hsup Hts.
  apply supplied_request_infeasible; assumption.
Qed.

Lemma supplied_request_reported_infeasible_witness :
  exists tn,
    run_belts 1 sample_request =
      Ret (Infeasible ["sink"] (supply_sum (sources sample_request)) tn []).
Proof.
  apply (supplied_request_reported_infeasible 0 sample_request "sink").
  - reflexivity.
  - repeat (constructor;
            [split; [exists false; reflexivity|split; [reflexivity|discriminate]]|]).
    constructor.
  - apply not_elem_of_dom. reflexivity.
  - intros s x H. simpl in H.
    apply lookup_insert_Some in H as [[_ <-]|[_ H]]; [reflexivity|].
    apply lookup_insert_Some in H as [[_ <-]|[_ H]]; [reflexivity|].
    rewrite lookup_empty in H. discriminate.
  - reflexivity.
Defined.

(** ** Rounding to a grid *)

Lemma grid_nonneg A : (0 <= grid A)%Z.
Proof. unfold grid. lia. Qed.

Lemma grid_mono A B : (0 <= A <= B)%Z -> (grid A <= grid B)%Z.
Proof.
  intros H. unfold grid. pose proof (Z.log2_le_mono A B (proj2 H)). lia.
Qed.

Lemma pow2_pos n : (0 <= n)%Z -> (0 < 2 ^ n)%Z.
Proof. intros H. apply Z.pow_pos_nonneg; lia. Qed.

Lemma pow2_split m n : (0 <= m <= n)%Z -> (2 ^ n = 2 ^ (n - m) * 2 ^ m)%Z.
Proof. intros H. rewrite <- Z.pow_add_r by lia. f_equal. lia. Qed.

Lemma mod_pow2_le A m n :
  (0 <= m <= n)%Z -> (A mod 2 ^ n = 0)%Z -> (A mod 2 ^ m = 0)%Z.
Proof.
  intros H Hn. pose proof (pow2_pos n ltac:(lia)) as Hpn.
  apply Z.mod_divide in Hn; [|lia]. destruct Hn as [k ->].
  rewrite (pow2_split m n H), Z.mul_assoc. apply Z.mod_mul.
  pose proof (pow2_pos m ltac:(lia)). lia.
Qed.

Lemma multiple_above A B n :
  (0 <= n)%Z -> (B mod 2 ^ n = 0)%Z -> (A / 2 ^ n * 2 ^ n < B)%Z ->
  ((A / 2 ^ n + 1) * 2 ^ n <= B)%Z.
Proof.
  intros Hn HB Hlt. pose proof (pow2_pos n Hn) as Hp.
  apply Z.mod_divide in HB; [|lia]. destruct HB as [k ->].
  apply Z.mul_lt_mono_pos_r in Hlt; [|lia].
  apply Z.mul_le_mono_nonneg_r; lia.
Qed.

Lemma div_mul_le A n : (0 <= n)%Z -> (A / 2 ^ n * 2 ^ n <= A)%Z.
Proof.
  intros Hn. pose proof (pow2_pos n Hn).
  pose proof (Z.mul_div_le A (2 ^ n) ltac:(lia)). lia.
Qed.

Lemma div_mul_gt A n : (0 <= n)%Z -> (A < (A / 2 ^ n + 1) * 2 ^ n)%Z.
Proof.
  intros Hn. pose proof (pow2_pos n Hn).
  pose proof (Z.mul_succ_div_gt A (2 ^ n) ltac:(lia)). lia.
Qed.

Lemma div_mul_exact A n :
  (0 <= n)%Z -> (A mod 2 ^ n = 0)%Z -> (A / 2 ^ n * 2 ^ n = A)%Z.
Proof.
  intros Hn Hm. pose proof (pow2_pos n Hn).
  pose proof (Z.div_mod A (2 ^ n) ltac:(lia)). lia.
Qed.

(** Rounding stays below the next point of the grid and above the one
    before. *)
Lemma rounds_pos_near A R :
  rounds_pos A R -> (A - 2 ^ grid A < R < A + 2 ^ grid A)%Z.
Proof.
  pose proof (grid_nonneg A) as Hn. pose proof (pow2_pos _ Hn) as Hp.
  pose proof (div_mul_le A _ Hn). pose proof (div_mul_gt A _ Hn).
  intros [->|[Hne ->]]; [lia|].
  split; [lia|].
  assert (A / 2 ^ grid A * 2 ^ grid A <> A)%Z; [|lia].
  intros Heq. apply Hne. rewrite <- Heq at 1. apply Z.mod_mul. lia.
Qed.

Lemma rounds_pos_exact A R : on_grid A -> rounds_pos A R -> R = A.
Proof.
  intros Hg [->|[Hne _]]; [|contradiction].
  apply div_mul_exact; [apply grid_nonneg|exact Hg].
Qed.

(** Rounding is monotone against the numbers a double can hold. *)
Lemma rounds_pos_le A R B :
  (0 < A <= B)%Z -> on_grid B -> rounds_pos A R -> (R <= B)%Z.
Proof.
  intros HA HB HR.
  pose proof (grid_nonneg A) as Hn.
  assert (Hm : (B mod 2 ^ grid A = 0)%Z).
  { apply (mod_pow2_le B (grid A) (grid B)); [|exact HB].
    split; [exact Hn|apply grid_mono; lia]. }
  pose proof (div_mul_le A _ Hn) as Hle.
  destruct HR as [->|[Hne ->]]; [lia|].
  apply multiple_above; [exact Hn|exact Hm|].
  assert (A / 2 ^ grid A * 2 ^ grid A <> A)%Z.
  { intros Heq. apply Hne. rewrite <- Heq at 1. apply Z.mod_mul.
    pose proof (pow2_pos _ Hn). lia. }
  assert (A <> B) by (intros ->; contradiction). lia.
Qed.

Lemma rounds_pos_ge A R B :
  (0 < B <= A)%Z -> on_grid B -> rounds_pos A R -> (B <= R)%Z.
Proof.
  intros HB Hg HR.
  pose proof (grid_nonneg A) as Hn. pose proof (pow2_pos _ Hn) as Hp.
  pose proof (div_mul_le A _ Hn) as Hle. pose proof (div_mul_gt A _ Hn) as Hgt.
  assert (Hfloor : (B <= A / 2 ^ grid A * 2 ^ grid A)%Z).
  { destruct (Z.eq_dec (grid A) 0%Z) as [H0|H0].
    - rewrite H0. change (2 ^ 0)%Z with 1%Z. rewrite Z.div_1_r. lia.
    - assert (HlA : (Z.log2 A = 52 + grid A)%Z) by (unfold grid in *; lia).
      destruct (Z.log2_spec A ltac:(lia)) as [HA1 _].
      destruct (Z.log2_spec B ltac:(lia)) as [_ HB2].
      pose proof (Z.log2_le_mono B A ltac:(lia)) as Hmono.
      destruct (Z.eq_dec (Z.log2 B) (Z.log2 A)) as [Heq|Hne].
      + assert (grid B = grid A) as HgB by (unfold grid; lia).
        unfold on_grid in Hg. rewrite HgB in Hg.
        apply Z.mod_divide in Hg; [|lia]. destruct Hg as [k ->].
        assert (k <= A / 2 ^ grid A)%Z; [|nia].
        apply Z.div_le_lower_bound; lia.
      + assert (2 ^ Z.succ (Z.log2 B) <= 2 ^ Z.log2 A)%Z
          by (apply Z.pow_le_mono_r; lia).
        assert (2 ^ Z.log2 A <= A / 2 ^ grid A * 2 ^ grid A)%Z; [|lia].
        rewrite HlA. rewrite Z.pow_add_r by lia.
        assert (2 ^ 52 <= A / 2 ^ grid A)%Z; [|nia].
        apply Z.div_le_lower_bound; [lia|].
        rewrite Z.mul_comm, <- Z.pow_add_r by lia. rewrite <- HlA. lia. }
  destruct HR as [->|[_ ->]]; lia.
Qed.

(** Two numbers that doubles can hold are at least one step of the
    smaller one's grid apart. *)
Lemma on_grid_gap C B :
  (0 <= C < B)%Z -> on_grid C -> on_grid B -> (C + 2 ^ grid C <= B)%Z.
Proof.
  intros H HC HB. pose proof (grid_nonneg C) as Hn. pose proof (pow2_pos _ Hn) as Hp.
  assert (Hm : (B mod 2 ^ grid C = 0)%Z).
  { apply (mod_pow2_le B (grid C) (grid B)); [|exact HB].
    split; [exact Hn|apply grid_mono; lia]. }
  unfold on_grid in HC. set (g := grid C) in *. clearbody g.
  apply Z.mod_divide in Hm; [|lia]. destruct Hm as [k ->].
  apply Z.mod_divide in HC; [|lia]. destruct HC as [j ->].
  destruct H as [_ H]. apply Z.mul_lt_mono_pos_r in H; [|lia].
  replace (j * 2 ^ g + 2 ^ g)%Z with ((j + 1) * 2 ^ g)%Z by ring.
  apply Z.mul_le_mono_nonneg_r; lia.
Qed.

Lemma rounds_pos_pos A R : (0 < A)%Z -> rounds_pos A R -> (0 < R)%Z.
Proof.
  intros HA HR.
  pose proof (grid_nonneg A) as Hn. pose proof (pow2_pos _ Hn) as Hp.
  assert (0 <= A / 2 ^ grid A)%Z by (apply Z.div_pos; lia).
  destruct HR as [->|[_ ->]]; [|nia].
  destruct (Z.eq_dec (grid A) 0%Z) as [H0|H0].
  - rewrite H0. change (2 ^ 0)%Z with 1%Z. rewrite Z.div_1_r. lia.
  - assert (HlA : (Z.log2 A = 52 + grid A)%Z) by (unfold grid in *; lia).
    destruct (Z.log2_spec A ltac:(lia)) as [HA1 _].
    assert (2 ^ 52 <= A / 2 ^ grid A)%Z; [|nia].
    apply Z.div_le_lower_bound; [lia|].
    rewrite Z.mul_comm, <- Z.pow_add_r by lia. rewrite <- HlA. lia.
Qed.

(** The step at the heart of the bound on a flow: with [F < C], a push of
    at most the rounded residual leaves the rounded flow at or below every
    double above [C]. *)
Lemma rounded_push_bound F C B Rr P S :
  (0 <= F < C)%Z -> on_grid C -> on_grid B -> (C < B)%Z ->
  rounds_pos (C - F) Rr -> (0 < P <= Rr)%Z -> rounds_pos (F + P) S ->
  (S <= B)%Z.
Proof.
  intros HF HC HB HCB HRr HP HS.
  apply rounds_pos_near in HRr.
  pose proof (grid_mono (C - F) C ltac:(lia)) as Hg.
  pose proof (Z.pow_le_mono_r 2 _ _ ltac:(lia) Hg) as Hpw.
  pose proof (on_grid_gap C B ltac:(lia) HC HB).
  apply (rounds_pos_le (F + P) S B); [lia|exact HB|exact HS].
Qed.

(** ** The rounding of [SpecFloat] *)

Lemma fexp_eq e : fexp prec emax e = Z.max (e - 53) (-1074).
Proof. reflexivity. Qed.

Lemma digits2_size m : digits2_pos m = Pos.size m.
Proof. induction m as [m IH|m IH|]; simpl; congruence. Qed.

Lemma digits2_log2 m : Zpos (digits2_pos m) = (Z.log2 (Zpos m) + 1)%Z.
Proof.
  rewrite digits2_size. destruct m as [m|m|]; simpl; try reflexivity; lia.
Qed.

Lemma log2_mul_pow2 a k :
  (0 < a)%Z -> (0 <= k)%Z -> Z.log2 (a * 2 ^ k) = (Z.log2 a + k)%Z.
Proof.
  intros Ha Hk. rewrite Z.log2_mul_pow2 by lia. lia.
Qed.

Lemma shr_1_shifted a : (0 <= shr_m a)%Z -> shifted 1 a (shr_1 a).
Proof.
  destruct a as [m r s]. unfold shifted, inexact. simpl. intros Hm.
  change (2 ^ 1)%Z with 2%Z.
  destruct m as [|[p|p|]|p]; simpl; try lia.
  - split; [reflexivity|]. destruct r, s; simpl; intuition congruence.
  - split; [rewrite (Pos2Z.inj_xI p); apply Z.div_unique with 1%Z; lia|].
    split; [discriminate|]. intros [_ H].
    rewrite (Pos2Z.inj_xI p) in H.
    rewrite Z.add_comm, Z.mul_comm, Z.mod_add in H by lia. discriminate.
  - split; [rewrite (Pos2Z.inj_xO p); apply Z.div_unique with 0%Z; lia|].
    rewrite (Pos2Z.inj_xO p), Z.mul_comm, Z.mod_mul by lia.
    destruct r, s; simpl; intuition congruence.
  - split; [reflexivity|]. split; [discriminate|]. intros [_ H]. discriminate.
Qed.

Lemma shifted_nonneg k a b : (0 <= k)%Z -> (0 <= shr_m a)%Z -> shifted k a b -> (0 <= shr_m b)%Z.
Proof.
  intros Hk Ha [-> _]. apply Z.div_pos; [exact Ha|apply pow2_pos, Hk].
Qed.

Lemma shifted_trans j k a b c :
  (0 <= j)%Z -> (0 <= k)%Z -> (0 <= shr_m a)%Z ->
  shifted j a b -> shifted k b c -> shifted (j + k) a c.
Proof.
  intros Hj Hk Ha [Hb Hib] [Hc Hic].
  pose proof (pow2_pos j Hj) as Hpj. pose proof (pow2_pos k Hk) as Hpk.
  split.
  - rewrite Hc, Hb, Z.pow_add_r, Z.div_div by lia. reflexivity.
  - rewrite Hic, Hib, Hb, Z.pow_add_r by lia.
    rewrite Z.rem_mul_r by lia.
    pose proof (Z.mod_pos_bound (shr_m a) (2 ^ j) Hpj).
    pose proof (Z.mod_pos_bound (shr_m a / 2 ^ j) (2 ^ k) Hpk).
    split; [intros [[H1 H2] H3]; split; [exact H1|]; rewrite H2, H3; lia|].
    intros [H1 H2]. split; [split; [exact H1|nia]|nia].
Qed.

Lemma iter_shr_1_shifted p a :
  (0 <= shr_m a)%Z -> shifted (Zpos p) a (SpecFloat.iter_pos shr_1 p a).
Proof.
  revert a. induction p as [p IH|p IH|]; intros a Ha; simpl.
  - pose proof (shr_1_shifted a Ha) as H1.
    pose proof (shifted_nonneg 1 _ _ ltac:(lia) Ha H1) as Ha1.
    pose proof (IH _ Ha1) as H2.
    pose proof (shifted_nonneg (Zpos p) _ _ ltac:(lia) Ha1 H2) as Ha2.
    pose proof (IH _ Ha2) as H3.
    replace (Zpos p~1) with (1 + (Zpos p + Zpos p))%Z by (rewrite (Pos2Z.inj_xI p); lia).
    eapply shifted_trans; [lia|lia|exact Ha|exact H1|].
    eapply shifted_trans; [lia|lia|exact Ha1|exact H2|exact H3].
  - pose proof (IH _ Ha) as H2.
    pose proof (shifted_nonneg (Zpos p) _ _ ltac:(lia) Ha H2) as Ha2.
    pose proof (IH _ Ha2) as H3.
    replace (Zpos p~0) with (Zpos p + Zpos p)%Z by (rewrite (Pos2Z.inj_xO p); lia).
    eapply shifted_trans; [lia|lia|exact Ha|exact H2|exact H3].
  - apply shr_1_shifted, Ha.
Qed.

Lemma shr_noop mrs e n : (n <= 0)%Z -> shr mrs e n = (mrs, e).
Proof. destruct n; [reflexivity|lia|reflexivity]. Qed.

Lemma round_nearest_even_cases m l :
  round_nearest_even m l = m \/
  (l <> loc_Exact /\ round_nearest_even m l = (m + 1)%Z).
Proof.
  destruct l as [|[]]; simpl; auto.
  destruct (Z.even m); [auto|right; split; [discriminate|reflexivity]].
Qed.

Lemma loc_exact_inexact mrs :
  loc_of_shr_record mrs = loc_Exact <-> inexact mrs = false.
Proof.
  destruct mrs as [m [] []]; unfold inexact; simpl; split; congruence.
Qed.

Lemma digits_bounds m :
  (2 ^ (Zpos (digits2_pos m) - 1) <= Zpos m < 2 ^ Zpos (digits2_pos m))%Z.
Proof.
  rewrite digits2_log2. replace (Z.log2 (Z.pos m) + 1 - 1)%Z with (Z.log2 (Zpos m)) by lia.
  apply Z.log2_spec. lia.
Qed.

Lemma digits_unique m d :
  (2 ^ (d - 1) <= Zpos m < 2 ^ d)%Z -> Zpos (digits2_pos m) = d.
Proof.
  intros H. rewrite digits2_log2.
  assert (0 < d)%Z.
  { destruct (Z_lt_le_dec 0 d) as [Hd|Hd]; [exact Hd|].
    destruct (Z.eq_dec d 0%Z) as [->|Hne]; [simpl in H; lia|].
    rewrite (Z.pow_neg_r 2 d) in H by lia. pose proof (Pos2Z.is_pos m). lia. }
  rewrite (Z.log2_unique (Zpos m) (d - 1)); [lia|lia|].
  replace (Z.succ (d - 1)) with d by lia. exact H.
Qed.

(** A mantissa that is already at its exponent goes through the rounding
    as it is. *)
Lemma binary_round_aux_canonical s p e :
  fexp prec emax (Zpos (digits2_pos p) + e) = e ->
  binary_round_aux prec emax s (Zpos p) e loc_Exact =
    if (e <=? 971)%Z then S754_finite s p e else S754_infinity s.
Proof.
  intros H. unfold binary_round_aux, shr_fexp.
  change (Zdigits2 (Zpos p)) with (Zpos (digits2_pos p)).
  rewrite H, Z.sub_diag. cbn [shr shr_record_of_loc shr_m loc_of_shr_record
                              round_nearest_even].
  change (Zdigits2 (Zpos p)) with (Zpos (digits2_pos p)).
  rewrite H, Z.sub_diag. cbn [shr shr_record_of_loc shr_m].
  reflexivity.
Qed.

Lemma iter_xO m q : Zpos (Pos.iter xO m q) = (Zpos m * 2 ^ Zpos q)%Z.
Proof.
  revert m. induction q as [|q IH] using Pos.peano_ind; intros m.
  - simpl. lia.
  - rewrite Pos.iter_succ, Pos2Z.inj_xO, IH, Pos2Z.inj_succ, Z.pow_succ_r by lia.
    ring.
Qed.

Lemma shl_align_value m e e' :
  (e' <= e)%Z ->
  Zpos (fst (shl_align m e e')) = (Zpos m * 2 ^ (e - e'))%Z /\
  snd (shl_align m e e') = e'.
Proof.
  intros H. unfold shl_align. destruct (e' - e)%Z as [|q|q] eqn:Hq; [|lia|].
  - simpl. replace (e - e')%Z with 0%Z by lia. split; lia.
  - simpl. rewrite iter_xO. replace (e - e')%Z with (Zpos q) by lia. auto.
Qed.

Lemma round_result_canonical s p e :
  (-1074 <= e)%Z -> fexp prec emax (Zpos (digits2_pos p) + e) = e ->
  round_result s (Zpos p * 2 ^ (e + 1074))
    (binary_round_aux prec emax s (Zpos p) e loc_Exact).
Proof.
  intros He H. rewrite (binary_round_aux_canonical s p e H).
  destruct (Z.leb_spec e 971) as [Hle|Hgt].
  - right. exists p, e. auto.
  - left. split; [reflexivity|].
    rewrite fexp_eq in H.
    assert (Hd : Zpos (digits2_pos p) = 53%Z) by lia.
    pose proof (digits_bounds p) as [Hlo _]. rewrite Hd in Hlo.
    change (53 - 1)%Z with 52%Z in Hlo.
    replace 2098%Z with (52 + 2046)%Z by lia. rewrite Z.pow_add_r by lia.
    assert (2 ^ 2046 <= 2 ^ (e + 1074))%Z by (apply Z.pow_le_mono_r; lia).
    pose proof (pow2_pos 2046 ltac:(lia)). nia.
Qed.

Lemma binary_round_aux_shift s M e n :
  (-1074 <= e)%Z ->
  (fexp prec emax (Zpos (digits2_pos M) + e) - e)%Z = Zpos n ->
  exists m1,
    (m1 = (Zpos M / 2 ^ Zpos n)%Z \/
     ((Zpos M mod 2 ^ Zpos n)%Z <> 0%Z /\ m1 = (Zpos M / 2 ^ Zpos n + 1)%Z)) /\
    round_result s (m1 * 2 ^ (e + Zpos n + 1074))
      (binary_round_aux prec emax s (Zpos M) e loc_Exact).
Proof.
  intros He Hn. rewrite fexp_eq in Hn.
  assert (Hd : Zpos (digits2_pos M) = (53 + Zpos n)%Z) by lia.
  pose proof (digits_bounds M) as [Hlo Hhi]. rewrite Hd in Hlo, Hhi.
  pose proof (pow2_pos (Zpos n) ltac:(lia)) as Hpn.
  assert (Hq : (2 ^ 52 <= Zpos M / 2 ^ Zpos n < 2 ^ 53)%Z).
  { split.
    - apply Z.div_le_lower_bound; [lia|].
      rewrite Z.mul_comm, <- Z.pow_add_r by lia.
      replace (52 + Zpos n)%Z with (53 + Zpos n - 1)%Z by lia. exact Hlo.
    - apply Z.div_lt_upper_bound; [lia|].
      rewrite Z.mul_comm, <- Z.pow_add_r by lia. exact Hhi. }
  unfold binary_round_aux, shr_fexp.
  change (Zdigits2 (Zpos M)) with (Zpos (digits2_pos M)).
  rewrite fexp_eq.
  replace (Z.max (Zpos (digits2_pos M) + e - 53) (-1074) - e)%Z with (Zpos n) by lia.
  cbn [shr shr_record_of_loc].
  pose proof (iter_shr_1_shifted n (Build_shr_record (Zpos M) false false)
                ltac:(simpl; lia)) as [Hm Hin].
  set (mrs := SpecFloat.iter_pos shr_1 n _) in *. cbn [shr_m] in Hm, Hin.
  set (m1 := round_nearest_even (shr_m mrs) (loc_of_shr_record mrs)).
  assert (Hm1 : m1 = (Zpos M / 2 ^ Zpos n)%Z \/
                ((Zpos M mod 2 ^ Zpos n)%Z <> 0%Z /\
                 m1 = (Zpos M / 2 ^ Zpos n + 1)%Z)).
  { unfold m1. destruct (round_nearest_even_cases (shr_m mrs) (loc_of_shr_record mrs))
      as [->|[Hloc ->]]; rewrite Hm; [left; reflexivity|right].
    split; [|reflexivity]. intros Hz. apply Hloc, loc_exact_inexact, Hin.
    split; [reflexivity|exact Hz]. }
  exists m1. split; [exact Hm1|]. clearbody m1. clear Hm Hin mrs.
  assert (Hr : (2 ^ 52 <= m1 <= 2 ^ 53)%Z) by (destruct Hm1 as [->|[_ ->]]; lia).
  destruct m1 as [|p1|p1]; [lia| |lia].
  destruct (Z.eq_dec (Zpos p1) (2 ^ 53)%Z) as [Htop|Hlow].
  - (* the carry: one more shift *)
    assert (Hd1 : Zpos (digits2_pos p1) = 54%Z)
      by (apply digits_unique; rewrite Htop; split; [reflexivity|reflexivity]).
    change (Zdigits2 (Zpos p1)) with (Zpos (digits2_pos p1)).
    rewrite fexp_eq, Hd1.
    replace (Z.max (54 + (e + Zpos n) - 53) (-1074) - (e + Zpos n))%Z with 1%Z by lia.
    assert (Hp1 : p1 = 9007199254740992%positive) by (injection Htop; auto).
    subst p1. cbn [shr shr_record_of_loc SpecFloat.iter_pos shr_1 shr_m].
    destruct (Z.leb_spec (e + Zpos n + 1) (emax - prec)) as [Hle|Hgt].
    + right. eexists _, _. split; [reflexivity|]. split; [lia|].
      replace (e + Zpos n + 1 + 1074)%Z with (Z.succ (e + Zpos n + 1074)) by lia.
      rewrite Z.pow_succ_r by lia. lia.
    + left. split; [reflexivity|]. change (emax - prec)%Z with 971%Z in Hgt.
      replace 2098%Z with (53 + 2045)%Z by lia. rewrite Z.pow_add_r by lia.
      assert (2 ^ 2045 <= 2 ^ (e + Zpos n + 1074))%Z by (apply Z.pow_le_mono_r; lia).
      pose proof (pow2_pos 2045 ltac:(lia)).
      change (Zpos 9007199254740992) with (2 ^ 53)%Z. nia.
  - assert (Hd1 : Zpos (digits2_pos p1) = 53%Z)
      by (apply digits_unique; change (53 - 1)%Z with 52%Z; lia).
    change (Zdigits2 (Zpos p1)) with (Zpos (digits2_pos p1)).
    rewrite fexp_eq, Hd1.
    replace (Z.max (53 + (e + Zpos n) - 53) (-1074) - (e + Zpos n))%Z with 0%Z by lia.
    cbn [shr shr_record_of_loc shr_m].
    destruct (Z.leb_spec (e + Zpos n) (emax - prec)) as [Hle|Hgt].
    + right. exists p1, (e + Zpos n)%Z. split; [reflexivity|]. split; [lia|reflexivity].
    + left. split; [reflexivity|]. change (emax - prec)%Z with 971%Z in Hgt.
      replace 2098%Z with (52 + 2046)%Z by lia. rewrite Z.pow_add_r by lia.
      assert (2 ^ 2046 <= 2 ^ (e + Zpos n + 1074))%Z by (apply Z.pow_le_mono_r; lia).
      pose proof (pow2_pos 2046 ltac:(lia)). nia.
Qed.

Lemma grid_units M e :
  (-1074 <= e)%Z ->
  grid (Zpos M * 2 ^ (e + 1074)) =
    (fexp prec emax (Zpos (digits2_pos M) + e) + 1074)%Z.
Proof.
  intros He. unfold grid. rewrite log2_mul_pow2 by lia.
  rewrite fexp_eq, digits2_log2. lia.
Qed.

Lemma rounds_pos_on_grid A : on_grid A -> rounds_pos A A.
Proof.
  intros H. left. symmetry. apply div_mul_exact; [apply grid_nonneg|exact H].
Qed.

(** Rounding a positive mantissa at an exponent gives a neighbour of its
    value on the grid. *)
Lemma binary_round_rounds s M e :
  (-1074 <= e)%Z ->
  exists R, rounds_pos (Zpos M * 2 ^ (e + 1074)) R /\
            round_result s R (binary_round prec emax s M e).
Proof.
  intros He. pose proof (grid_units M e He) as Hg.
  unfold binary_round.
  set (fe := fexp prec emax (Zpos (digits2_pos M) + e)) in *.
  assert (Hfe : (-1074 <= fe)%Z) by (unfold fe; rewrite fexp_eq; lia).
  destruct (Z_lt_le_dec fe e) as [Hlt|Hge].
  - (* fewer bits than the format: aligned to the left, exact *)
    destruct (shl_align_value M e fe ltac:(lia)) as [Hv He'].
    destruct (shl_align M e fe) as [mz ez]. simpl in Hv, He'. subst ez.
    exists (Zpos M * 2 ^ (e + 1074))%Z. split.
    + apply rounds_pos_on_grid. unfold on_grid. rewrite Hg.
      rewrite (pow2_split (fe + 1074) (e + 1074)) by lia.
      rewrite Z.mul_assoc. apply Z.mod_mul.
      pose proof (pow2_pos (fe + 1074) ltac:(lia)). lia.
    + replace (Zpos M * 2 ^ (e + 1074))%Z with (Zpos mz * 2 ^ (fe + 1074))%Z.
      * apply round_result_canonical; [exact Hfe|].
        assert (Hd : Zpos (digits2_pos mz) = (Zpos (digits2_pos M) + (e - fe))%Z).
        { apply digits_unique. rewrite Hv.
          pose proof (digits_bounds M) as [Hlo Hhi].
          pose proof (pow2_pos (e - fe) ltac:(lia)).
          pose proof (Pos2Z.is_pos (digits2_pos M)).
          replace (Zpos (digits2_pos M) + (e - fe) - 1)%Z
            with (Zpos (digits2_pos M) - 1 + (e - fe))%Z by lia.
          rewrite !Z.pow_add_r by lia. nia. }
        rewrite Hd. replace (Zpos (digits2_pos M) + (e - fe) + fe)%Z
          with (Zpos (digits2_pos M) + e)%Z by lia. reflexivity.
      * rewrite Hv, <- Z.mul_assoc, <- Z.pow_add_r by lia. do 2 f_equal. lia.
  - assert (Hal : shl_align M e fe = (M, e)).
    { unfold shl_align. destruct (fe - e)%Z eqn:Hq; [reflexivity|reflexivity|lia]. }
    rewrite Hal. destruct (fe - e)%Z as [|n|n] eqn:Hn; [| |lia].
    + exists (Zpos M * 2 ^ (e + 1074))%Z. split.
      * apply rounds_pos_on_grid. unfold on_grid. rewrite Hg.
        replace (fe + 1074)%Z with (e + 1074)%Z by lia. apply Z.mod_mul.
        pose proof (pow2_pos (e + 1074) ltac:(lia)). lia.
      * apply round_result_canonical; [exact He|]. fold fe. lia.
    + destruct (binary_round_aux_shift s M e n He Hn) as (m1 & Hm1 & Hres).
      exists (m1 * 2 ^ (e + Zpos n + 1074))%Z. split; [|exact Hres].
      pose proof (pow2_pos (Zpos n) ltac:(lia)) as Hpn.
      pose proof (pow2_pos (e + 1074) ltac:(lia)) as Hpk.
      unfold rounds_pos. rewrite Hg.
      replace (fe + 1074)%Z with (Zpos n + (e + 1074))%Z by lia.
      replace (e + Zpos n + 1074)%Z with (Zpos n + (e + 1074))%Z by lia.
      rewrite (Z.pow_add_r 2 (Zpos n) (e + 1074)) by lia.
      rewrite Z.div_mul_cancel_r by lia.
      rewrite Z.mul_mod_distr_r by lia.
      destruct Hm1 as [->|[Hne ->]]; [left; reflexivity|right].
      split; [nia|reflexivity].
Qed.

(** ** The order, the sum and the difference of doubles in units *)

Lemma rounds_pos_intro A R : (0 < A)%Z -> rounds_pos A R -> rounds A R.
Proof. destruct A; [lia|auto|lia]. Qed.

Lemma rounds_neg_intro A R : (A < 0)%Z -> rounds_pos (- A) (- R) -> rounds A R.
Proof. destruct A; [lia|lia|auto]. Qed.

Lemma on_grid_0 : on_grid 0.
Proof. reflexivity. Qed.

Lemma rounds_le A R B : rounds A R -> on_grid (Z.abs B) -> (A <= B)%Z -> (R <= B)%Z.
Proof.
  intros HR HB Hle. destruct A as [|p|p]; simpl in HR.
  - lia.
  - rewrite Z.abs_eq in HB by lia. apply (rounds_pos_le (Zpos p) R B); [lia|exact HB|exact HR].
  - pose proof HR as Hpos; apply rounds_pos_pos in Hpos; [|lia].
    destruct (Z_lt_le_dec B 0) as [Hneg|Hnn]; [|lia].
    rewrite Z.abs_neq in HB by lia.
    pose proof (rounds_pos_ge (- Zneg p) (- R) (- B) ltac:(lia) HB HR). lia.
Qed.

Lemma rounds_ge A R B : rounds A R -> on_grid (Z.abs B) -> (B <= A)%Z -> (B <= R)%Z.
Proof.
  intros HR HB Hle. destruct A as [|p|p]; simpl in HR.
  - lia.
  - pose proof HR as Hpos; apply rounds_pos_pos in Hpos; [|lia].
    destruct (Z_lt_le_dec 0 B) as [Hp|Hnp]; [|lia].
    rewrite Z.abs_eq in HB by lia.
    apply (rounds_pos_ge (Zpos p) R B); [lia|exact HB|exact HR].
  - rewrite Z.abs_neq in HB by lia.
    pose proof (rounds_pos_le (- Zneg p) (- R) (- B) ltac:(lia) HB HR). lia.
Qed.

Lemma rounds_sign A R :
  rounds A R -> ((0 < A)%Z -> (0 < R)%Z) /\ ((A < 0)%Z -> (R < 0)%Z) /\ (A = 0%Z -> R = 0%Z).
Proof.
  intros HR. destruct A as [|p|p]; simpl in HR.
  - subst. lia.
  - apply rounds_pos_pos in HR; lia.
  - apply rounds_pos_pos in HR; lia.
Qed.

(** What [Prim2SF_valid] says of a finite double. *)
Lemma valid_finite s m e :
  SpecFloat.valid_binary prec emax (S754_finite s m e) = true ->
  (-1074 <= e <= 971)%Z /\ (Zpos (digits2_pos m) <= 53)%Z /\
  (Zpos (digits2_pos m) = 53%Z \/ e = (-1074)%Z).
Proof.
  simpl. unfold bounded, canonical_mantissa. rewrite fexp_eq.
  intros H. apply andb_true_iff in H as [H1 H2].
  apply Z.eqb_eq in H1. apply Z.leb_le in H2. change (emax - prec)%Z with 971%Z in H2.
  lia.
Qed.

Lemma valid_on_grid s m e :
  SpecFloat.valid_binary prec emax (S754_finite s m e) = true ->
  on_grid (Zpos m * 2 ^ (e + 1074)) /\ (0 < Zpos m * 2 ^ (e + 1074) < 2 ^ 2098)%Z.
Proof.
  intros Hv. apply valid_finite in Hv as (He & Hd & Hc).
  pose proof (pow2_pos (e + 1074) ltac:(lia)) as Hp.
  split.
  - unfold on_grid. rewrite grid_units, fexp_eq by lia.
    replace (Z.max (Zpos (digits2_pos m) + e - 53) (-1074) + 1074)%Z
      with (e + 1074)%Z by lia.
    apply Z.mod_mul. lia.
  - split; [lia|]. pose proof (digits_bounds m) as [_ Hhi].
    assert (Zpos m < 2 ^ 53)%Z.
    { eapply Z.lt_le_trans; [exact Hhi|]. apply Z.pow_le_mono_r; lia. }
    assert (2 ^ (e + 1074) <= 2 ^ 2045)%Z by (apply Z.pow_le_mono_r; lia).
    replace 2098%Z with (53 + 2045)%Z by lia. rewrite (Z.pow_add_r 2 53 2045) by lia.
    pose proof (pow2_pos 2045 ltac:(lia)). nia.
Qed.

Lemma value_on_grid x a :
  value x = Some (Fin a) -> on_grid (Z.abs a) /\ (Z.abs a < 2 ^ 2098)%Z.
Proof.
  unfold value. pose proof (Prim2SF_valid x) as Hv.
  destruct (Prim2SF x) as [s|s| |s m e]; simpl; intros H; try discriminate.
  - injection H as <-. split; [exact on_grid_0|reflexivity].
  - destruct s; discriminate.
  - injection H as <-. apply valid_on_grid in Hv as [Hg Hb].
    destruct s; simpl; [rewrite Z.abs_neq by lia; rewrite Z.opp_involutive
                       |rewrite Z.abs_eq by lia]; split; auto; lia.
Qed.

(** The order of two finite doubles of the same sign is the order of
    their numbers of units. *)
Lemma compare_units m1 e1 m2 e2 s1 s2 :
  SpecFloat.valid_binary prec emax (S754_finite s1 m1 e1) = true ->
  SpecFloat.valid_binary prec emax (S754_finite s2 m2 e2) = true ->
  match Z.compare e1 e2 with
  | Lt => Lt
  | Gt => Gt
  | Eq => Pos.compare_cont Eq m1 m2
  end = (Zpos m1 * 2 ^ (e1 + 1074) ?= Zpos m2 * 2 ^ (e2 + 1074))%Z.
Proof.
  intros H1 H2.
  apply valid_finite in H1 as (He1 & Hd1 & Hc1).
  apply valid_finite in H2 as (He2 & Hd2 & Hc2).
  pose proof (digits_bounds m1) as [Hlo1 Hhi1].
  pose proof (digits_bounds m2) as [Hlo2 Hhi2].
  assert (Hm1 : (Zpos m1 < 2 ^ 53)%Z)
    by (eapply Z.lt_le_trans; [exact Hhi1|apply Z.pow_le_mono_r; lia]).
  assert (Hm2 : (Zpos m2 < 2 ^ 53)%Z)
    by (eapply Z.lt_le_trans; [exact Hhi2|apply Z.pow_le_mono_r; lia]).
  symmetry. destruct (Z.compare_spec e1 e2) as [->|Hlt|Hgt].
  - change (Pos.compare_cont Eq m1 m2) with (Zpos m1 ?= Zpos m2)%Z.
    pose proof (pow2_pos (e2 + 1074) ltac:(lia)).
    destruct (Z.compare_spec (Zpos m1) (Zpos m2)) as [Heq|Hl|Hg].
    + rewrite Heq. apply Z.compare_refl.
    + apply Z.compare_lt_iff. nia.
    + apply Z.compare_gt_iff. nia.
  - apply Z.compare_lt_iff.
    assert (Hd : Zpos (digits2_pos m2) = 53%Z) by lia.
    rewrite Hd in Hlo2. change (53 - 1)%Z with 52%Z in Hlo2.
    assert (2 ^ (e1 + 1074 + 1) <= 2 ^ (e2 + 1074))%Z by (apply Z.pow_le_mono_r; lia).
    rewrite Z.pow_add_r in H by lia. change (2 ^ 1)%Z with 2%Z in H.
    pose proof (pow2_pos (e1 + 1074) ltac:(lia)).
    change (2 ^ 53)%Z with (2 * 2 ^ 52)%Z in Hm1. nia.
  - apply Z.compare_gt_iff.
    assert (Hd : Zpos (digits2_pos m1) = 53%Z) by lia.
    rewrite Hd in Hlo1. change (53 - 1)%Z with 52%Z in Hlo1.
    assert (2 ^ (e2 + 1074 + 1) <= 2 ^ (e1 + 1074))%Z by (apply Z.pow_le_mono_r; lia).
    rewrite Z.pow_add_r in H by lia. change (2 ^ 1)%Z with 2%Z in H.
    pose proof (pow2_pos (e2 + 1074) ltac:(lia)).
    change (2 ^ 53)%Z with (2 * 2 ^ 52)%Z in Hm2. nia.
Qed.

Lemma SFcompare_ext f1 f2 u v :
  SpecFloat.valid_binary prec emax f1 = true ->
  SpecFloat.valid_binary prec emax f2 = true ->
  sf_ext f1 = Some u -> sf_ext f2 = Some v ->
  SFcompare f1 f2 = Some (ext_compare u v).
Proof.
  intros H1 H2 Hu Hv.
  destruct f1 as [s1|s1| |s1 m1 e1], f2 as [s2|s2| |s2 m2 e2]; simpl in Hu, Hv;
    try discriminate; injection Hu as <-; injection Hv as <-;
    try (destruct s1); try (destruct s2); try reflexivity.
  all: try (pose proof (valid_on_grid _ _ _ H1) as [_ Hb1]).
  all: try (pose proof (valid_on_grid _ _ _ H2) as [_ Hb2]).
  all: cbv beta iota delta [SFcompare ext_compare cond_Zopp]; f_equal; symmetry;
    try (apply Z.compare_lt_iff; lia); try (apply Z.compare_gt_iff; lia).
  - rewrite Z.compare_opp, Z.compare_antisym.
    rewrite <- (compare_units m1 e1 m2 e2 true true H1 H2).
    destruct (e1 ?= e2)%Z; reflexivity.
  - symmetry. apply (compare_units m1 e1 m2 e2 false false H1 H2).
Qed.

Lemma compare_value x y u v :
  value x = Some u -> value y = Some v ->
  SFcompare (Prim2SF x) (Prim2SF y) = Some (ext_compare u v).
Proof. apply SFcompare_ext; apply Prim2SF_valid. Qed.

Lemma value_None x : value x = None <-> Prim2SF x = S754_nan.
Proof.
  unfold value. destruct (Prim2SF x) as [s|s| |s m e]; simpl;
    split; try discriminate; try congruence; destruct s; discriminate.
Qed.

Lemma ltb_value x y :
  (x <? y)%float = true <->
  exists u v, value x = Some u /\ value y = Some v /\ ext_compare u v = Lt.
Proof.
  rewrite ltb_spec. unfold SFltb.
  destruct (value x) as [u|] eqn:Hu; [destruct (value y) as [v|] eqn:Hv|].
  - rewrite (compare_value x y u v Hu Hv). split.
    + intros H. exists u, v. destruct (ext_compare u v); try discriminate. auto.
    + intros (u' & v' & Hu' & Hv' & H). injection Hu' as <-. injection Hv' as <-.
      rewrite H. reflexivity.
  - apply value_None in Hv. rewrite Hv, SFcompare_nan_r.
    split; [discriminate|intros (? & ? & _ & ? & _); discriminate].
  - apply value_None in Hu. rewrite Hu, SFcompare_nan_l.
    split; [discriminate|intros (? & ? & ? & _); discriminate].
Qed.

Lemma leb_value x y :
  (x <=? y)%float = true <->
  exists u v, value x = Some u /\ value y = Some v /\ ext_compare u v <> Gt.
Proof.
  rewrite leb_spec. unfold SFleb.
  destruct (value x) as [u|] eqn:Hu; [destruct (value y) as [v|] eqn:Hv|].
  - rewrite (compare_value x y u v Hu Hv). split.
    + intros H. exists u, v. destruct (ext_compare u v); try discriminate;
        (split; [reflexivity|split; [reflexivity|discriminate]]).
    + intros (u' & v' & Hu' & Hv' & H). injection Hu' as <-. injection Hv' as <-.
      destruct (ext_compare u v); try reflexivity. congruence.
  - apply value_None in Hv. rewrite Hv, SFcompare_nan_r.
    split; [discriminate|intros (? & ? & _ & ? & _); discriminate].
  - apply value_None in Hu. rewrite Hu, SFcompare_nan_l.
    split; [discriminate|intros (? & ? & ? & _); discriminate].
Qed.

Lemma ltb_false_value x y u v :
  value x = Some u -> value y = Some v ->
  (x <? y)%float = false <-> ext_compare u v <> Lt.
Proof.
  intros Hu Hv. rewrite ltb_spec. unfold SFltb.
  rewrite (compare_value x y u v Hu Hv).
  destruct (ext_compare u v); split; congruence.
Qed.

Lemma rounds_self a : on_grid (Z.abs a) -> rounds a a.
Proof.
  intros H. destruct a as [|p|p]; [reflexivity| |].
  - apply rounds_pos_on_grid, H.
  - simpl. apply rounds_pos_on_grid, H.
Qed.

Lemma binary_normalize_rounds M e :
  (-1074 <= e)%Z ->
  exists R, rounds (M * 2 ^ (e + 1074)) R /\
            rounded_to R (binary_normalize prec emax M e false).
Proof.
  intros He. pose proof (pow2_pos (e + 1074) ltac:(lia)) as Hp.
  destruct M as [|p|p]; simpl binary_normalize.
  - exists 0%Z. split; [reflexivity|left; reflexivity].
  - destruct (binary_round_rounds false p e He) as (R & HR & Hres).
    exists R. split; [apply rounds_pos_intro; [lia|exact HR]|].
    destruct Hres as [[-> Hbig]|(m & e' & -> & He' & <-)].
    + right. left. auto.
    + left. reflexivity.
  - destruct (binary_round_rounds true p e He) as (R & HR & Hres).
    exists (- R)%Z. split.
    + apply rounds_neg_intro; [lia|]. rewrite Z.opp_involutive.
      replace (- (Zneg p * 2 ^ (e + 1074)))%Z with (Zpos p * 2 ^ (e + 1074))%Z by lia.
      exact HR.
    + destruct Hres as [[-> Hbig]|(m & e' & -> & He' & <-)].
      * right. right. split; [reflexivity|lia].
      * left. reflexivity.
Qed.

Lemma aligned_units s m e ez :
  (-1074 <= ez <= e)%Z ->
  (cond_Zopp s (Zpos (fst (shl_align m e ez))) * 2 ^ (ez + 1074))%Z =
  cond_Zopp s (Zpos m * 2 ^ (e + 1074)).
Proof.
  intros H. destruct (shl_align_value m e ez ltac:(lia)) as [-> _].
  replace (e + 1074)%Z with ((e - ez) + (ez + 1074))%Z by lia.
  rewrite (Z.pow_add_r 2 (e - ez) (ez + 1074)) by lia. destruct s; simpl; ring.
Qed.

Lemma SFadd_finite f1 f2 a b :
  SpecFloat.valid_binary prec emax f1 = true ->
  SpecFloat.valid_binary prec emax f2 = true ->
  sf_ext f1 = Some (Fin a) -> sf_ext f2 = Some (Fin b) ->
  exists R, rounds (a + b) R /\ rounded_to R (SFadd prec emax f1 f2).
Proof.
  intros H1 H2 Ha Hb.
  destruct f1 as [s1|s1| |s1 m1 e1]; simpl in Ha; try discriminate;
    [|destruct s1; discriminate|]; injection Ha as <-;
    (destruct f2 as [s2|s2| |s2 m2 e2]; simpl in Hb; try discriminate;
     [|destruct s2; discriminate|]; injection Hb as <-).
  - exists 0%Z. split; [reflexivity|left]. destruct s1, s2; reflexivity.
  - exists (cond_Zopp s2 (Zpos m2 * 2 ^ (e2 + 1074))). split; [|left; reflexivity].
    apply rounds_self. apply valid_on_grid in H2 as [Hg Hb].
    destruct s2; simpl; [rewrite Z.abs_neq by lia; rewrite Z.opp_involutive
                        |rewrite Z.abs_eq by lia]; exact Hg.
  - exists (cond_Zopp s1 (Zpos m1 * 2 ^ (e1 + 1074))).
    rewrite Z.add_0_r. split; [|left; reflexivity].
    apply rounds_self. apply valid_on_grid in H1 as [Hg Hb].
    destruct s1; simpl; [rewrite Z.abs_neq by lia; rewrite Z.opp_involutive
                        |rewrite Z.abs_eq by lia]; exact Hg.
  - apply valid_finite in H1 as (He1 & _). apply valid_finite in H2 as (He2 & _).
    cbv beta iota delta [SFadd].
    destruct (binary_normalize_rounds
                (cond_Zopp s1 (Zpos (fst (shl_align m1 e1 (Z.min e1 e2)))) +
                 cond_Zopp s2 (Zpos (fst (shl_align m2 e2 (Z.min e1 e2)))))
                (Z.min e1 e2) ltac:(lia)) as (R & HR & Hres).
    exists R. split; [|exact Hres].
    rewrite Z.mul_add_distr_r, !aligned_units in HR by lia. exact HR.
Qed.

Lemma SFsub_add_opp f1 f2 :
  SFsub prec emax f1 f2 = SFadd prec emax f1 (SFopp f2).
Proof.
  destruct f1 as [s1|s1| |s1 m1 e1], f2 as [s2|s2| |s2 m2 e2];
    try reflexivity; destruct s1, s2; reflexivity.
Qed.

Lemma sf_ext_opp f a : sf_ext f = Some (Fin a) -> sf_ext (SFopp f) = Some (Fin (- a)).
Proof.
  destruct f as [s|s| |s m e]; simpl; try discriminate.
  - intros H. injection H as <-. reflexivity.
  - destruct s; discriminate.
  - intros H. injection H as <-. destruct s; simpl; f_equal; f_equal; lia.
Qed.

Lemma valid_opp f :
  SpecFloat.valid_binary prec emax f = true ->
  SpecFloat.valid_binary prec emax (SFopp f) = true.
Proof. destruct f; auto. Qed.

Lemma add_value x y a b :
  value x = Some (Fin a) -> value y = Some (Fin b) ->
  exists R, rounds (a + b) R /\ rounded_to R (Prim2SF (x + y)).
Proof.
  intros Ha Hb. rewrite add_spec.
  apply SFadd_finite; auto using Prim2SF_valid.
Qed.

Lemma sub_value x y a b :
  value x = Some (Fin a) -> value y = Some (Fin b) ->
  exists R, rounds (a - b) R /\ rounded_to R (Prim2SF (x - y)).
Proof.
  intros Ha Hb. rewrite sub_spec. unfold SF64sub. rewrite SFsub_add_opp.
  apply SFadd_finite; auto using Prim2SF_valid, valid_opp, sf_ext_opp.
Qed.

(** ** Signs, bounds and infinities of sums and differences *)

Lemma value_0 : value 0 = Some (Fin 0).
Proof. reflexivity. Qed.

Lemma value_EPS : value EPS = Some (Fin (4835703278458517 * 2 ^ 992)).
Proof. reflexivity. Qed.

Lemma value_infinity : value infinity = Some PosInf.
Proof. reflexivity. Qed.

Lemma units_EPS_pos : (0 < 4835703278458517 * 2 ^ 992)%Z.
Proof. pose proof (pow2_pos 992 ltac:(lia)). lia. Qed.

Lemma value_opp x : value (- x) = option_map ext_opp (value x).
Proof.
  unfold value. rewrite opp_spec.
  destruct (Prim2SF x) as [s|s| |s m e]; simpl; try reflexivity.
  - destruct s; reflexivity.
  - destruct s; simpl; do 2 f_equal; lia.
Qed.

Lemma value_zero_sub y : value (0 - y) = option_map ext_opp (value y).
Proof.
  unfold value. rewrite sub_spec. change (Prim2SF 0) with (S754_zero false).
  destruct (Prim2SF y) as [s|s| |s m e]; simpl; try reflexivity.
  - destruct s; reflexivity.
  - destruct s; reflexivity.
  - destruct s; simpl; do 2 f_equal; lia.
Qed.

Lemma same_number_value x y : same_number x y -> value x = value y.
Proof.
  intros [->|[[s Hx] [s' Hy]]]; [reflexivity|].
  unfold value. rewrite Hx, Hy. reflexivity.
Qed.

Lemma value_PosInf x : value x = Some PosInf -> x = infinity.
Proof.
  unfold value. intros H. apply Prim2SF_inj.
  destruct (Prim2SF x) as [s|s| |s m e]; simpl in H; try discriminate.
  destruct s; [discriminate|reflexivity].
Qed.

Lemma rounded_to_value R x :
  rounded_to R (Prim2SF x) ->
  value x = Some (Fin R) \/
  (value x = Some PosInf /\ (2 ^ 2098 <= R)%Z) \/
  (value x = Some NegInf /\ (R <= - 2 ^ 2098)%Z).
Proof.
  unfold value. intros [H|[[-> H]|[-> H]]]; auto.
Qed.

Lemma rounds_pos_elim A R : (0 < A)%Z -> rounds A R -> rounds_pos A R.
Proof. destruct A; [lia|auto|lia]. Qed.

(** Sums and differences with an infinity. *)
Lemma add_PosInf_l x y v :
  value x = Some PosInf -> value y = Some v -> v <> NegInf ->
  value (x + y) = Some PosInf.
Proof.
  unfold value. rewrite add_spec.
  destruct (Prim2SF x) as [s|[]| |s m e]; simpl; try discriminate. intros _.
  destruct (Prim2SF y) as [s'|[]| |s' m' e']; simpl; try discriminate;
    intros H; injection H as <-; congruence.
Qed.

Lemma add_PosInf_r x y u :
  value x = Some u -> u <> NegInf -> value y = Some PosInf ->
  value (x + y) = Some PosInf.
Proof.
  unfold value. rewrite add_spec.
  destruct (Prim2SF y) as [s|[]| |s m e]; simpl; try discriminate.
  destruct (Prim2SF x) as [s'|[]| |s' m' e']; simpl; try discriminate;
    intros H; injection H as <-; congruence.
Qed.

Lemma sub_PosInf_l x y v :
  value x = Some PosInf -> value y = Some v -> v <> PosInf ->
  value (x - y) = Some PosInf.
Proof.
  unfold value. rewrite sub_spec.
  destruct (Prim2SF x) as [s|[]| |s m e]; simpl; try discriminate. intros _.
  destruct (Prim2SF y) as [s'|[]| |s' m' e']; simpl; try discriminate;
    intros H; injection H as <-; congruence.
Qed.

Lemma sub_PosInf_r x y u :
  value x = Some u -> u <> PosInf -> value y = Some PosInf ->
  value (x - y) = Some NegInf.
Proof.
  unfold value. rewrite sub_spec.
  destruct (Prim2SF y) as [s|[]| |s m e]; simpl; try discriminate.
  destruct (Prim2SF x) as [s'|[]| |s' m' e']; simpl; try discriminate;
    intros H; injection H as <-; congruence.
Qed.

Lemma sub_NegInf_l x y v :
  value x = Some NegInf -> value y = Some v ->
  value (x - y) = Some NegInf \/ value (x - y) = None.
Proof.
  unfold value. rewrite sub_spec.
  destruct (Prim2SF x) as [s|[]| |s m e]; simpl; try discriminate. intros _.
  destruct (Prim2SF y) as [s'|[]| |s' m' e']; simpl; auto.
Qed.

(** What the comparisons with zero say of a value. *)
Lemma zero_leb x :
  (0 <=? x)%float = true <->
  (exists a, value x = Some (Fin a) /\ (0 <= a)%Z) \/ value x = Some PosInf.
Proof.
  rewrite leb_value. rewrite value_0. split.
  - intros (u & v & Hu & Hv & H). injection Hu as <-.
    destruct v as [|a|]; cbn [ext_compare] in H; [congruence| |auto].
    left. exists a. split; [exact Hv|]. apply Z.compare_le_iff, H.
  - intros [(a & Ha & Hle)|H].
    + exists (Fin 0), (Fin a). split; [reflexivity|]. split; [exact Ha|].
      cbn [ext_compare]. apply Z.compare_le_iff, Hle.
    + exists (Fin 0), PosInf. split; [reflexivity|]. split; [exact H|discriminate].
Qed.

Lemma zero_ltb x :
  (0 <? x)%float = true <->
  (exists a, value x = Some (Fin a) /\ (0 < a)%Z) \/ value x = Some PosInf.
Proof.
  rewrite ltb_value. rewrite value_0. split.
  - intros (u & v & Hu & Hv & H). injection Hu as <-.
    destruct v as [|a|]; cbn [ext_compare] in H; [congruence| |auto].
    left. exists a. split; [exact Hv|]. apply Z.compare_lt_iff, H.
  - intros [(a & Ha & Hle)|H].
    + exists (Fin 0), (Fin a). split; [reflexivity|]. split; [exact Ha|].
      cbn [ext_compare]. apply Z.compare_lt_iff, Hle.
    + exists (Fin 0), PosInf. split; [reflexivity|]. split; [exact H|reflexivity].
Qed.

Lemma above_EPS_positive x : fgt x EPS = true -> (0 <? x)%float = true.
Proof.
  unfold fgt. intros H. apply ltb_trans with EPS; [reflexivity|exact H].
Qed.

(** An amount that is positive and below infinity is a positive number
    of units. *)
Lemma finite_amount p :
  (0 <? p)%float = true -> (p <? infinity)%float = true ->
  exists b, value p = Some (Fin b) /\ (0 < b)%Z.
Proof.
  intros Hp Hfin. apply zero_ltb in Hp as [H|H]; [exact H|].
  apply ltb_value in Hfin as (u & v & Hu & Hv & Hlt).
  rewrite H in Hu. injection Hu as <-. rewrite value_infinity in Hv.
  injection Hv as <-. discriminate.
Qed.

Lemma ext_le_trans u v w :
  ext_compare u v <> Gt -> ext_compare v w <> Gt -> ext_compare u w <> Gt.
Proof.
  destruct u, v, w; simpl; try congruence.
  rewrite !Z.compare_le_iff. lia.
Qed.

Lemma ext_le_lt_trans u v w :
  ext_compare u v <> Gt -> ext_compare v w = Lt -> ext_compare u w = Lt.
Proof.
  destruct u, v, w; simpl; try congruence.
  rewrite Z.compare_le_iff, !Z.compare_lt_iff. lia.
Qed.

Lemma leb_trans x y z :
  (x <=? y)%float = true -> (y <=? z)%float = true -> (x <=? z)%float = true.
Proof.
  rewrite !leb_value. intros (u & v & Hu & Hv & H) (v' & w & Hv' & Hw & H').
  rewrite Hv in Hv'. injection Hv' as <-.
  exists u, w. split; [exact Hu|]. split; [exact Hw|].
  eapply ext_le_trans; eauto.
Qed.

Lemma leb_ltb_leb x y z :
  (x <=? y)%float = true -> (y <? z)%float = true -> (x <=? z)%float = true.
Proof.
  rewrite !leb_value, ltb_value. intros (u & v & Hu & Hv & H) (v' & w & Hv' & Hw & H').
  rewrite Hv in Hv'. injection Hv' as <-.
  exists u, w. split; [exact Hu|]. split; [exact Hw|].
  rewrite (ext_le_lt_trans u v w H H'). discriminate.
Qed.

(** Adding a positive amount to a flow that is not negative. *)
Lemma add_nonneg x p :
  (0 <=? x)%float = true -> (0 <? p)%float = true -> (0 <=? x + p)%float = true.
Proof.
  intros Hx Hp. apply zero_leb in Hx. apply zero_ltb in Hp. apply zero_leb.
  destruct Hx as [(a & Ha & Hle)|Hx]; [destruct Hp as [(b & Hb & Hlt)|Hp]|].
  - destruct (add_value x p a b Ha Hb) as (R & HR & Hres).
    apply rounds_sign in HR as (Hpos & _). specialize (Hpos ltac:(lia)).
    apply rounded_to_value in Hres as [H|[[H _]|[_ H]]]; [left; eauto with lia|auto|lia].
  - right. apply (add_PosInf_r x p (Fin a)); [exact Ha|discriminate|exact Hp].
  - destruct Hp as [(b & Hb & _)|Hp].
    + right. apply (add_PosInf_l x p (Fin b)); [exact Hx|exact Hb|discriminate].
    + right. apply (add_PosInf_l x p PosInf); [exact Hx|exact Hp|discriminate].
Qed.

(** Taking from a flow a finite amount that is not above it. *)
Lemma sub_nonneg x p :
  (0 <? p)%float = true -> (p <? infinity)%float = true ->
  (0 <? x)%float = true -> (x <? p)%float = false ->
  (0 <=? x - p)%float = true.
Proof.
  intros Hp Hfin Hx Hle. destruct (finite_amount p Hp Hfin) as (b & Hb & Hb0).
  apply zero_ltb in Hx. apply zero_leb.
  destruct Hx as [(a & Ha & Ha0)|Hx].
  - apply (ltb_false_value x p _ _ Ha Hb) in Hle. cbn [ext_compare] in Hle.
    assert (b <= a)%Z by (apply Z.compare_ge_iff; destruct (a ?= b)%Z; congruence).
    destruct (sub_value x p a b Ha Hb) as (R & HR & Hres).
    apply rounds_sign in HR as (Hpos & _ & Hzero).
    assert (0 <= R)%Z by (destruct (Z.eq_dec a b); [rewrite Hzero; lia|
                          specialize (Hpos ltac:(lia)); lia]).
    apply rounded_to_value in Hres as [H'|[[H' _]|[_ H']]];
      [left; eauto|auto|lia].
  - right. apply (sub_PosInf_l x p (Fin b)); [exact Hx|exact Hb|discriminate].
Qed.

Lemma sub_le x p :
  (0 <=? x)%float = true -> (0 <? p)%float = true -> (p <? infinity)%float = true ->
  (x - p <=? x)%float = true.
Proof.
  intros Hx Hp Hfin. destruct (finite_amount p Hp Hfin) as (b & Hb & Hb0).
  apply zero_leb in Hx. apply leb_value.
  destruct Hx as [(a & Ha & Ha0)|Hx].
  - destruct (sub_value x p a b Ha Hb) as (R & HR & Hres).
    destruct (value_on_grid x a Ha) as [Hg Hbound].
    pose proof (rounds_le _ _ a HR Hg ltac:(lia)) as HRa.
    apply rounded_to_value in Hres as [H'|[[H' Hbig]|[H' _]]].
    + exists (Fin R), (Fin a). split; [exact H'|]. split; [exact Ha|].
      cbn [ext_compare]. apply Z.compare_le_iff, HRa.
    + lia.
    + exists NegInf, (Fin a). split; [exact H'|]. split; [exact Ha|discriminate].
  - exists PosInf, PosInf. split; [|split; [exact Hx|discriminate]].
    apply (sub_PosInf_l x p (Fin b)); [exact Hx|exact Hb|discriminate].
Qed.

(** A push of at most the computed residual [c - f] leaves the flow at or
    below every double above the capacity [c]. *)
Lemma push_bound f c p z :
  (0 <=? f)%float = true -> (0 <? c - f)%float = true ->
  (0 <? p)%float = true -> (c - f <? p)%float = false ->
  (c <? z)%float = true -> (f + p <=? z)%float = true.
Proof.
  intros Hf Hres Hp Hle Hcz.
  apply zero_leb in Hf. apply ltb_value in Hcz as (uc & uz & Hc & Hz & Hlt).
  assert (Hnum : exists w, value (c - f)%float = Some w /\ ext_compare (Fin 0) w = Lt).
  { apply ltb_value in Hres as (u & w & Hu & Hw & H). rewrite value_0 in Hu.
    injection Hu as <-. eauto. }
  destruct Hnum as (w & Hw & Hw0).
  destruct uc as [|C|]; [| |destruct uz; discriminate].
  { destruct Hf as [(F & HF & _)|HF];
      destruct (sub_NegInf_l c f _ Hc HF) as [H|H]; rewrite H in Hw;
      try discriminate; injection Hw as <-; discriminate. }
  destruct Hf as [(F & HF & HF0)|HF].
  2:{ rewrite (sub_PosInf_r c f (Fin C) Hc ltac:(discriminate) HF) in Hw.
      injection Hw as <-. discriminate. }
  destruct (sub_value c f C F Hc HF) as (Rr & HRr & Hres').
  destruct (value_on_grid c C Hc) as [HgC HbC].
  assert (HCF : (0 < C - F)%Z).
  { destruct (Z_lt_le_dec 0 (C - F)) as [H|H]; [exact H|exfalso].
    assert (Rr <= 0)%Z.
    { apply rounds_sign in HRr as (_ & Hneg & Hzero).
      destruct (Z.eq_dec (C - F)%Z 0%Z) as [E|E]; [rewrite (Hzero E); lia|].
      specialize (Hneg ltac:(lia)). lia. }
    apply rounded_to_value in Hres' as [H'|[[H' Hbig]|[H' _]]]; rewrite H' in Hw;
      injection Hw as <-; cbn [ext_compare] in Hw0;
      try discriminate; try (rewrite Z.compare_lt_iff in Hw0; lia).
    pose proof (pow2_pos 2098 ltac:(lia)). lia. }
  assert (HC0 : (0 < C)%Z) by lia.
  rewrite Z.abs_eq in HgC, HbC by lia.
  pose proof (rounds_le _ _ C HRr ltac:(rewrite Z.abs_eq by lia; exact HgC) ltac:(lia))
    as HRC.
  assert (Hw' : w = Fin Rr /\ (0 < Rr)%Z).
  { apply rounded_to_value in Hres' as [H'|[[H' Hbig]|[H' Hsmall]]]; rewrite H' in Hw;
      injection Hw as <-; cbn [ext_compare] in Hw0; try discriminate; [|lia].
    split; [reflexivity|apply Z.compare_lt_iff, Hw0]. }
  destruct Hw' as [-> HRr0].
  apply zero_ltb in Hp. destruct Hp as [(P & HP & HP0)|HP].
  2:{ apply (ltb_false_value _ _ _ _ Hw HP) in Hle. exfalso. apply Hle. reflexivity. }
  apply (ltb_false_value _ _ _ _ Hw HP) in Hle. cbn [ext_compare] in Hle.
  assert (HPR : (P <= Rr)%Z) by (apply Z.compare_ge_iff; destruct (Rr ?= P)%Z; congruence).
  destruct (add_value f p F P HF HP) as (Sr & HS & Hsum).
  apply leb_value.
  destruct uz as [|Bz|]; [discriminate| |].
  - cbn [ext_compare] in Hlt. rewrite Z.compare_lt_iff in Hlt.
    destruct (value_on_grid z Bz Hz) as [HgZ HbZ]. rewrite Z.abs_eq in HgZ, HbZ by lia.
    assert (HSZ : (Sr <= Bz)%Z).
    { apply (rounded_push_bound F C Bz Rr P Sr); try assumption; try lia.
      - apply rounds_pos_elim; assumption.
      - apply rounds_pos_elim; [lia|assumption]. }
    apply rounded_to_value in Hsum as [H'|[[H' Hbig]|[H' _]]].
    + exists (Fin Sr), (Fin Bz). split; [exact H'|]. split; [exact Hz|].
      cbn [ext_compare]. apply Z.compare_le_iff, HSZ.
    + lia.
    + exists NegInf, (Fin Bz). split; [exact H'|]. split; [exact Hz|discriminate].
  - apply rounded_to_value in Hsum as [H'|[[H' _]|[H' _]]];
      eexists _, PosInf; (split; [exact H'|]); (split; [exact Hz|]);
      discriminate.
Qed.

(** With a flow cap that is not [+inf], what is left of it is not [+inf]
    either. *)
Lemma sub_below_infinity limit flow :
  limit <> infinity -> (0 <=? flow)%float = true -> (limit - flow)%float <> infinity.
Proof.
  intros Hlim Hflow Heq.
  assert (Hv : value (limit - flow)%float = Some PosInf) by (rewrite Heq; reflexivity).
  apply zero_leb in Hflow.
  destruct (value limit) as [[|L|]|] eqn:HL.
  - destruct Hflow as [(F & HF & _)|HF];
      destruct (sub_NegInf_l limit flow _ HL HF) as [H|H]; rewrite H in Hv; discriminate.
  - destruct Hflow as [(F & HF & HF0)|HF].
    + destruct (sub_value limit flow L F HL HF) as (R & HR & Hres).
      destruct (value_on_grid limit L HL) as [Hg Hb].
      apply rounded_to_value in Hres as [H'|[[H' Hbig]|[H' _]]]; rewrite H' in Hv;
        try discriminate.
      assert (0 < L - F)%Z.
      { apply rounds_sign in HR as (_ & Hneg & Hzero).
        pose proof (pow2_pos 2098 ltac:(lia)).
        destruct (Z_lt_le_dec 0 (L - F)) as [Hd|Hd]; [exact Hd|exfalso].
        destruct (Z.eq_dec (L - F)%Z 0%Z) as [E|E]; [rewrite (Hzero E) in Hbig; lia|].
        specialize (Hneg ltac:(lia)). lia. }
      pose proof (rounds_le _ _ L HR Hg ltac:(lia)). lia.
    + rewrite (sub_PosInf_r limit flow (Fin L) HL ltac:(discriminate) HF) in Hv.
      discriminate.
  - apply Hlim, value_PosInf, HL.
  - apply value_None in HL. unfold value in Hv. rewrite sub_spec, HL in Hv.
    discriminate.
Qed.

Lemma fmin_below_infinity a b : a <> infinity -> fmin a b <> infinity.
Proof.
  unfold fmin. intros Ha. destruct (b <? a)%float eqn:Hlt; [|exact Ha].
  intros ->. apply ltb_value in Hlt as (u & v & Hu & _ & H).
  rewrite value_infinity in Hu. injection Hu as <-. destruct v; discriminate.
Qed.

(** An amount above [EPS] that is not above an offer below [+inf] is
    finite. *)
Lemma amount_below_infinity pushed p :
  pushed <> infinity -> fgt pushed EPS = true -> fgt p EPS = true ->
  (pushed <? p)%float = false -> (p <? infinity)%float = true.
Proof.
  unfold fgt. intros Hne Hpushed Hp Hle.
  apply ltb_value in Hpushed as (_ & u & _ & Hu & _).
  apply ltb_value in Hp as (e & v & He & Hv & Hlt).
  apply (ltb_false_value _ _ _ _ Hu Hv) in Hle.
  apply ltb_value. exists v, PosInf. split; [exact Hv|]. split; [reflexivity|].
  destruct v as [|b|]; try reflexivity.
  exfalso. destruct u as [|a|]; try (apply Hle; reflexivity).
  apply Hne, value_PosInf, Hu.
Qed.

(** The residual [0 - r] of a reverse edge whose flow [r] is the negation
    of the forward flow [f] is [f]. *)
Lemma reverse_residual f r :
  same_number r (- f) -> value (0 - r)%float = value f.
Proof.
  intros H. rewrite value_zero_sub, (same_number_value _ _ H), value_opp.
  destruct (value f) as [[|a|]|]; simpl; try reflexivity.
  rewrite Z.opp_involutive. reflexivity.
Qed.

Lemma ltb_same_value x x' y y' :
  value x = value x' -> value y = value y' -> (x <? y)%float = (x' <? y')%float.
Proof.
  intros Hx Hy.
  destruct (x <? y)%float eqn:H; symmetry.
  - apply ltb_value in H as (u & v & Hu & Hv & Hlt). apply ltb_value.
    exists u, v. rewrite <- Hx, <- Hy. auto.
  - apply not_true_is_false. intros H'. apply ltb_value in H' as (u & v & Hu & Hv & Hlt).
    rewrite <- Hx in Hu. rewrite <- Hy in Hv.
    assert ((x <? y)%float = true) by (apply ltb_value; eauto). congruence.
Qed.

Lemma leb_same_value x x' y y' :
  value x = value x' -> value y = value y' -> (x <=? y)%float = (x' <=? y')%float.
Proof.
  intros Hx Hy.
  destruct (x <=? y)%float eqn:H; symmetry.
  - apply leb_value in H as (u & v & Hu & Hv & Hlt). apply leb_value.
    exists u, v. rewrite <- Hx, <- Hy. auto.
  - apply not_true_is_false. intros H'. apply leb_value in H' as (u & v & Hu & Hv & Hlt).
    rewrite <- Hx in Hu. rewrite <- Hy in Hv.
    assert ((x <=? y)%float = true) by (apply leb_value; eauto). congruence.
Qed.

(** The negation of a flow that is not negative is not positive. *)
Lemma opp_nonpos f r :
  (0 <=? f)%float = true -> same_number r (- f) -> (r <=? 0)%float = true.
Proof.
  intros Hf Hr. apply zero_leb in Hf. apply leb_value.
  rewrite (same_number_value _ _ Hr), value_opp, value_0.
  destruct Hf as [(a & -> & Ha) | ->]; simpl.
  - exists (Fin (- a)), (Fin 0). split; [reflexivity|]. split; [reflexivity|].
    cbn [ext_compare]. apply Z.compare_le_iff. lia.
  - exists NegInf, (Fin 0). split; [reflexivity|]. split; [reflexivity|discriminate].
Qed.

(** ** The flows at every point of a solve *)

(** The pairs of edges after a push: the pushed pair, or a pair that the
    push has not touched. *)
Lemma push_pairs a u i p a' e r :
  paired a -> Dinic.push a u i p = Ret a' ->
  edge_at a u i = Some e -> Dinic.to e <> u ->
  edge_at a (Dinic.to e) (Dinic.rev e) = Some r ->
  forall w j e2, edge_at a' w j = Some e2 ->
    (w = u /\ j = i /\ e2 = Dinic.set_flow e (Dinic.flow e + p)%float /\
     edge_at a' (Dinic.to e2) (Dinic.rev e2) =
       Some (Dinic.set_flow r (Dinic.flow r - p)%float)) \/
    (w = Dinic.to e /\ j = Dinic.rev e /\
     e2 = Dinic.set_flow r (Dinic.flow r - p)%float /\
     edge_at a' (Dinic.to e2) (Dinic.rev e2) =
       Some (Dinic.set_flow e (Dinic.flow e + p)%float)) \/
    (edge_at a w j = Some e2 /\
     (Dinic.to e2 <> w ->
      edge_at a' (Dinic.to e2) (Dinic.rev e2) =
      edge_at a (Dinic.to e2) (Dinic.rev e2))).
Proof.
  intros Hp Hpush He Hne Hr w j e2 He2.
  destruct (Hp u i e He) as (r0 & Hr0 & Hru & Hri).
  assert (r0 = r) as -> by congruence. specialize (Hri Hne).
  destruct (push_effect _ _ _ _ _ _ _ Hpush He Hr ltac:(tauto))
    as (Hnew_e & Hnew_r & Hoth).
  destruct (decide (w = u /\ j = i)) as [[-> ->]|Hn1].
  - left. rewrite Hnew_e in He2. injection He2 as <-. simpl. auto.
  - destruct (decide (w = Dinic.to e /\ j = Dinic.rev e)) as [[-> ->]|Hn2].
    + right. left. rewrite Hnew_r in He2. injection He2 as <-. simpl.
      rewrite Hru, Hri. auto.
    + right. right. rewrite (Hoth w j Hn1 Hn2) in He2. split; [exact He2|].
      intros Hne2. destruct (Hp w j e2 He2) as (r2 & Hr2 & Hr2w & Hr2j).
      specialize (Hr2j Hne2). apply Hoth.
      * intros [Hx Hy]. rewrite Hx, Hy in Hr2.
        assert (r2 = e) as -> by congruence. apply Hn2. split; congruence.
      * intros [Hx Hy]. rewrite Hx, Hy in Hr2.
        assert (r2 = r) as -> by congruence. apply Hn1. split; congruence.
Qed.

Lemma forward_of_push e r p :
  forward_of e r -> fgt (Dinic.residual e) EPS = true -> fgt p EPS = true ->
  (Dinic.residual e <? p)%float = false ->
  forward_of (Dinic.set_flow e (Dinic.flow e + p)%float)
             (Dinic.set_flow r (Dinic.flow r - p)%float).
Proof.
  intros (Hcap & Hflow & Hbound) Hres Hp Hle.
  apply above_EPS_positive in Hres, Hp. unfold Dinic.residual in *.
  split; [exact Hcap|]. split; simpl.
  - apply add_nonneg; assumption.
  - intros _ z Hz. eapply push_bound; eassumption.
Qed.

Lemma reverse_of_push e r p :
  forward_of r e -> skew (Dinic.flow e) (Dinic.flow r) ->
  fgt (Dinic.residual e) EPS = true -> fgt p EPS = true ->
  (p <? infinity)%float = true -> (Dinic.residual e <? p)%float = false ->
  forward_of (Dinic.set_flow r (Dinic.flow r - p)%float)
             (Dinic.set_flow e (Dinic.flow e + p)%float).
Proof.
  intros (Hcap & Hflow & Hbound) Hskew Hres Hp Hfin Hle.
  unfold Dinic.residual, fgt in *. rewrite Hcap in Hres, Hle.
  apply skew_sym in Hskew. unfold skew in Hskew.
  pose proof (reverse_residual _ _ Hskew) as Hv.
  rewrite (ltb_same_value _ EPS _ (Dinic.flow r) eq_refl Hv) in Hres.
  rewrite (ltb_same_value _ (Dinic.flow r) _ p Hv eq_refl) in Hle.
  pose proof (above_EPS_positive _ Hp) as Hp0.
  pose proof (above_EPS_positive _ Hres) as Hr0.
  split; [exact Hcap|]. split; simpl.
  - apply sub_nonneg; assumption.
  - intros Hc z Hz. eapply leb_trans; [apply sub_le; assumption|].
    apply Hbound; assumption.
Qed.

(** Every push of [dfs_flow] keeps the bounds on the flows. *)
Lemma guarded_push_bounds a u i p a' :
  paired a -> skew_flows a -> pair_bounds a -> loops_idle a ->
  guarded_push a u i p a' -> pair_bounds a' /\ loops_idle a'.
Proof.
  intros Hp Hs Hb Hl (e & He & Hne & Hres & Hpe & Hfin & Hle & Hpush).
  destruct (Hp u i e He) as (r & Hr & Hru & Hri). specialize (Hri Hne).
  pose proof (Hs u i e r He Hne Hr) as Hskew.
  assert (Hpair : forward_of (Dinic.set_flow e (Dinic.flow e + p)%float)
                             (Dinic.set_flow r (Dinic.flow r - p)%float) \/
                  forward_of (Dinic.set_flow r (Dinic.flow r - p)%float)
                             (Dinic.set_flow e (Dinic.flow e + p)%float)).
  { destruct (Hb u i e r He Hne Hr) as [Hf|Hf].
    - left. apply forward_of_push; assumption.
    - right. apply reverse_of_push; assumption. }
  split.
  - intros w j e2 r2 He2 Hne2 Hr2.
    destruct (push_pairs _ _ _ _ _ _ _ Hp Hpush He Hne Hr w j e2 He2)
      as [(-> & -> & -> & Hr2')|[(-> & -> & -> & Hr2')|[He2' Hr2']]].
    + rewrite Hr2' in Hr2. injection Hr2 as <-. exact Hpair.
    + rewrite Hr2' in Hr2. injection Hr2 as <-. tauto.
    + rewrite (Hr2' Hne2) in Hr2. eapply Hb; eauto.
  - intros w j e2 He2 Hself.
    destruct (push_pairs _ _ _ _ _ _ _ Hp Hpush He Hne Hr w j e2 He2)
      as [(-> & -> & -> & _)|[(-> & -> & -> & _)|[He2' _]]].
    + simpl in Hself. contradiction.
    + simpl in Hself. congruence.
    + eapply Hl; eauto.
Qed.

Lemma add_edge_pair_caps g u v c g' h :
  Dinic.add_edge g u v c = Ret (g', h) -> well_formed g ->
  pair_caps (Dinic.adj g) -> pair_caps (Dinic.adj g').
Proof.
  intros Hadd [Hlen Hp] Hc.
  destruct (add_edge_edge_at _ _ _ _ _ _ Hadd)
    as (adj_u & adj_v & Hu & Hv & Hn & Hlen' & _ & Hat).
  intros w j e r He Hne Hr. rewrite Hat in He.
  destruct (decide (w = v /\ j = _)) as [[-> ->]|HnB].
  - injection He as <-. right. reflexivity.
  - destruct (decide (w = u /\ j = length adj_u)) as [[-> ->]|HnA].
    + injection He as <-. simpl in Hr, Hne. left.
      rewrite Hat in Hr. rewrite decide_True in Hr.
      * injection Hr as <-. reflexivity.
      * split; [reflexivity|]. rewrite decide_False by congruence. reflexivity.
    + destruct (Hp w j e He) as (r0 & Hr0 & _).
      rewrite Hat in Hr.
      apply edge_at_lt in Hr0 as Hlt. destruct Hlt as (l & Hl & Hlt & _).
      rewrite decide_False in Hr.
      * rewrite decide_False in Hr; [eapply Hc; eauto|].
        intros [Hx Hy]. rewrite Hx in Hl. assert (l = adj_u) as -> by congruence. lia.
      * intros [Hx Hy]. rewrite Hx in Hl. assert (l = adj_v) as -> by congruence.
        destruct (decide (u = v)) as [->|Hne']; [|lia].
        assert (adj_u = adj_v) as -> by congruence. lia.
Qed.

Lemma constructed_pair_caps g : constructed g -> pair_caps (Dinic.adj g).
Proof.
  induction 1 as [k|g u v c g' h Hg IH Hadd].
  - intros u i e r H. apply edge_at_Some in H as (l & Hl & Hi). simpl in Hl.
    apply lookup_replicate in Hl as [-> _]. discriminate.
  - eapply add_edge_pair_caps; eauto using constructed_well_formed.
Qed.

Lemma edge_at_elem a u i e :
  edge_at a u i = Some e -> exists l, a !! u = Some l /\ e ∈ l.
Proof.
  intros H. apply edge_at_Some in H as (l & Hl & Hi).
  exists l. split; [exact Hl|eapply list_elem_of_lookup_2; eauto].
Qed.

Lemma leb_refl_zero : (0 <=? 0)%float = true.
Proof. reflexivity. Qed.

(** At the start every flow is [0.0], which is within the bounds. *)
Lemma constructed_bounds g :
  constructed g -> pair_bounds (Dinic.adj g) /\ loops_idle (Dinic.adj g).
Proof.
  intros Hg. pose proof (constructed_flows_zero g Hg) as Hzero.
  pose proof (constructed_pair_caps g Hg) as Hcaps.
  assert (Hfwd : forall e r, Dinic.flow e = 0%float -> Dinic.cap r = 0%float ->
                             forward_of e r).
  { intros e r He Hr. split; [exact Hr|]. rewrite He. split; [reflexivity|].
    intros Hc z Hz. eapply leb_ltb_leb; eauto. }
  split.
  - intros u i e r He Hne Hr.
    destruct (edge_at_elem _ _ _ _ He) as (l & Hl & Hel).
    destruct (edge_at_elem _ _ _ _ Hr) as (l' & Hl' & Hel').
    pose proof (Hzero _ _ _ Hl Hel). pose proof (Hzero _ _ _ Hl' Hel').
    destruct (Hcaps u i e r He Hne Hr); [left|right]; auto.
  - intros u i e He _. destruct (edge_at_elem _ _ _ _ He) as (l & Hl & Hel).
    eapply Hzero; eauto.
Qed.

(** What holds at every point of a solve. *)
Lemma during_solve_invariant g a :
  constructed g -> during_solve g a ->
  same_frame (Dinic.adj g) a /\ paired a /\ skew_flows a /\
  pair_bounds a /\ loops_idle a.
Proof.
  intros Hg. induction 1 as [|a u i p a' Hd IH Hpush].
  - destruct (constructed_well_formed g Hg) as [_ Hp].
    destruct (constructed_bounds g Hg) as [Hb Hl].
    split; [apply same_frame_refl|]. split; [exact Hp|].
    split; [apply constructed_skew, Hg|]. auto.
  - destruct IH as (Hf & Hp & Hs & Hb & Hl).
    pose proof Hpush as (e & _ & _ & _ & _ & _ & _ & Hrun).
    pose proof (push_frame _ _ _ _ _ Hrun) as Hf'.
    destruct (guarded_push_bounds _ _ _ _ _ Hp Hs Hb Hl Hpush) as [Hb' Hl'].
    split; [eapply same_frame_trans; eauto|].
    split; [eapply paired_frame; eauto|].
    split; [eapply push_skew; eauto|]. auto.
Qed.

Lemma fmin_le_r p res : (res <? fmin p res)%float = false.
Proof.
  unfold fmin. destruct (res <? p)%float eqn:H; [apply ltb_irrefl|exact H].
Qed.

Lemma ltb_false_trans x y z :
  fgt y EPS = true ->
  (x <? y)%float = false -> (y <? z)%float = false -> (x <? z)%float = false.
Proof.
  unfold fgt. intros Hy Hxy Hyz. apply not_true_is_false. intros Hxz.
  apply ltb_value in Hy as (_ & v & _ & Hv & _).
  apply ltb_value in Hxz as (u & w & Hu & Hw & Hlt).
  apply (ltb_false_value _ _ _ _ Hu Hv) in Hxy.
  apply (ltb_false_value _ _ _ _ Hv Hw) in Hyz.
  destruct u as [|a|], v as [|b|], w as [|c|]; cbn [ext_compare] in *;
    try congruence.
  rewrite Z.compare_lt_iff in Hlt.
  assert (b <= a)%Z by (apply Z.compare_ge_iff; destruct (a ?= b)%Z; congruence).
  assert (c <= b)%Z by (apply Z.compare_ge_iff; destruct (b ?= c)%Z; congruence).
  lia.
Qed.

Lemma fmin_bound_r p res r :
  fgt (fmin p res) EPS = true ->
  (fmin p res <? r)%float = false -> (res <? r)%float = false.
Proof.
  intros Habove Hle. eapply ltb_false_trans; [exact Habove| |exact Hle].
  apply fmin_le_r.
Qed.

Lemma lower_rows_kept_refl level lu a : lower_rows_kept level lu a a.
Proof. intros x lx j _ _. reflexivity. Qed.

Lemma lower_rows_kept_trans level lu lv a b c :
  (lu <= lv)%Z -> lower_rows_kept level lv a b -> lower_rows_kept level lu b c ->
  lower_rows_kept level lu a c.
Proof.
  intros Hle H1 H2 x lx j Hx Hlt.
  rewrite (H2 x lx j Hx Hlt). apply (H1 x lx j Hx). lia.
Qed.

Lemma scan_during g d tgt level u pushed :
  (forall v p s r' s',
     during_solve g (fst s) -> p <> infinity ->
     Dinic.dfs_flow d tgt level v p s = Ret (r', s') -> search_ok g level v s s') ->
  pushed <> infinity ->
  forall k i st r st',
    during_solve g (fst st) ->
    Dinic.scan (Dinic.dfs_flow d tgt level) level u pushed k i st = Ret (r, st') ->
    search_ok g level u st st'.
Proof.
  intros IHd Hfin. induction k as [|k IH]; intros i [a it] r st' Hd H; simpl in H.
  - injection H as _ <-. split; [exact Hd|]. intros lu _. apply lower_rows_kept_refl.
  - apply bind_Ret_inv in H as (adj_u & Hadj & H).
    apply bind_Ret_inv in H as (e & He & H).
    pose proof (edge_at_index _ _ _ _ _ Hadj He) as Hat.
    apply bind_Ret_inv in H as (adm & Hadm & H). destruct adm.
    + destruct (fgt (Dinic.residual e) EPS) eqn:Hres; [|discriminate].
      apply bind_Ret_inv in Hadm as (lv & Hlv & Hadm).
      apply bind_Ret_inv in Hadm as (lu & Hlu & Hadm).
      injection Hadm as Hadm. apply Z.eqb_eq in Hadm.
      apply index_Ret in Hlv, Hlu.
      apply bind_Ret_inv in H as ([to_push [a1 it1]] & Hcall & H).
      pose proof (fmin_below_infinity pushed (Dinic.residual e) Hfin) as Hfin'.
      destruct (IHd _ _ _ _ _ Hd Hfin' Hcall) as [Hd1 Hrows1].
      specialize (Hrows1 lv Hlv). simpl in Hd1, Hrows1.
      pose proof (dfs_flow_result _ _ _ _ _ _ _ _ Hcall) as Hresult.
      destruct (fgt to_push EPS) eqn:Hp.
      * apply bind_Ret_inv in H as (a2 & Hpush & H). injection H as _ <-. simpl.
        assert (Hat1 : edge_at a1 u i = Some e).
        { rewrite (Hrows1 u lu i Hlu ltac:(lia)). exact Hat. }
        assert (Hne : Dinic.to e <> u).
        { intros Heq. rewrite Heq in Hlv. rewrite Hlv in Hlu. injection Hlu as ->. lia. }
        assert (Hfacts : (to_push <? infinity)%float = true /\
                         (Dinic.residual e <? to_push)%float = false).
        { destruct Hresult as [(_ & -> & _)|[_ [(_ & Hq & Hle)|[-> _]]]].
          - split; [|apply fmin_le_r].
            eapply amount_below_infinity; [exact Hfin'|exact Hp|exact Hp|].
            apply ltb_irrefl.
          - split; [eapply amount_below_infinity; eauto|].
            eapply fmin_bound_r; eauto.
          - vm_compute in Hp. discriminate. }
        destruct Hfacts as [Hfinite Hle].
        assert (Hg : guarded_push a1 u i to_push a2).
        { exists e. repeat (split; [assumption|]). exact Hpush. }
        split; [eapply solve_push; eauto|].
        intros lu' Hlu'. rewrite Hlu in Hlu'. injection Hlu' as <-.
        intros x lx j Hx Hlt.
        rewrite (push_others _ _ _ _ _ _ Hpush Hat1).
        -- apply (Hrows1 x lx j Hx). lia.
        -- intros [-> _]. rewrite Hlu in Hx. injection Hx as ->. lia.
        -- intros [-> _]. rewrite Hlv in Hx. injection Hx as ->. lia.
      * refine (_ (IH _ _ _ _ _ H)); [|exact Hd1]. intros [Hd2 Hrows2].
        split; [exact Hd2|].
        intros lu' Hlu'. rewrite Hlu in Hlu'. injection Hlu' as <-.
        eapply lower_rows_kept_trans; [|exact Hrows1|apply Hrows2, Hlu]. lia.
    + refine (_ (IH _ _ _ _ _ H)); [|exact Hd]. intros [Hd2 Hrows2].
      split; [exact Hd2|exact Hrows2].
Qed.

Lemma dfs_flow_during g depth tgt level u pushed st r st' :
  during_solve g (fst st) -> pushed <> infinity ->
  Dinic.dfs_flow depth tgt level u pushed st = Ret (r, st') ->
  search_ok g level u st st'.
Proof.
  revert u pushed st r st'.
  induction depth as [|d IH]; intros u pushed st r st' Hd Hfin H; simpl in H.
  - destruct (Nat.eqb u tgt); [|discriminate]. injection H as _ <-.
    split; [exact Hd|]. intros lu _. apply lower_rows_kept_refl.
  - destruct (Nat.eqb u tgt).
    + injection H as _ <-. split; [exact Hd|]. intros lu _. apply lower_rows_kept_refl.
    + apply bind_Ret_inv in H as (adj_u & _ & H).
      apply bind_Ret_inv in H as (i0 & _ & H).
      eapply scan_during; [|exact Hfin|exact Hd|exact H].
      intros v p s r' s'. apply IH.
Qed.

Lemma blocking_flow_during g0 fuel g s tgt limit level st flow ex a' flow' :
  during_solve g0 (fst st) -> limit <> infinity ->
  (0 <=? flow)%float = true \/ s = tgt ->
  Dinic.blocking_flow fuel g s tgt limit level st flow = Ret (ex, a', flow') ->
  during_solve g0 a' /\ ((0 <=? flow')%float = true \/ s = tgt).
Proof.
  intros Hd Hlim. revert st flow Hd.
  induction fuel as [|fuel IH]; intros st flow Hd Hflow H; [discriminate|].
  rewrite blocking_flow_S in H.
  apply bind_Ret_inv in H as ([pushed st1] & Hcall & H).
  pose proof (dfs_flow_result _ _ _ _ _ _ _ _ Hcall) as Hresult.
  assert (Hd1 : during_solve g0 (fst st1)).
  { destruct Hresult as [(_ & _ & ->)|[Hne _]]; [exact Hd|].
    destruct Hflow as [Hflow|Heq]; [|contradiction].
    eapply (dfs_flow_during g0); [exact Hd| |exact Hcall].
    apply sub_below_infinity; assumption. }
  destruct (pushed <=? EPS)%float eqn:Hsmall.
  - injection H as _ <- <-. auto.
  - assert (Hflow' : (0 <=? flow + pushed)%float = true \/ s = tgt).
    { destruct Hresult as [(Heq & _)|[Hne [(Hp & _)|[-> _]]]]; [auto| |].
      - destruct Hflow as [Hflow|Heq]; [|contradiction].
        left. apply add_nonneg; [exact Hflow|apply above_EPS_positive, Hp].
      - vm_compute in Hsmall. discriminate. }
    cbv beta zeta in H. destruct (fge (flow + pushed + EPS) limit).
    + injection H as _ <- <-. auto.
    + eapply IH; eauto.
Qed.

Lemma max_flow_loop_during g0 fuel g s tgt limit flow f g' :
  during_solve g0 (Dinic.adj g) -> limit <> infinity ->
  (0 <=? flow)%float = true \/ s = tgt ->
  Dinic.max_flow_loop fuel g s tgt limit flow = Ret (f, g') ->
  during_solve g0 (Dinic.adj g').
Proof.
  intros Hd Hlim. revert g flow Hd.
  induction fuel as [|fuel IH]; intros g flow Hd Hflow H; [discriminate|].
  rewrite max_flow_loop_S in H.
  apply bind_Ret_inv in H as (level & _ & H).
  apply bind_Ret_inv in H as (lt & _ & H).
  destruct (lt <? 0)%Z.
  - injection H as _ <-. exact Hd.
  - apply bind_Ret_inv in H as ([[ex a1] flow1] & Hblock & H).
    apply (blocking_flow_during g0) in Hblock as [Hd1 Hflow1]; try assumption.
    destruct ex.
    + injection H as _ <-. exact Hd1.
    + eapply IH; [|exact Hflow1|exact H]. exact Hd1.
Qed.

(** Below [2 ^ 23] the tolerance [EPS] is more than the step between two
    doubles, so [c + EPS] is a double above [c]. *)
Lemma on_grid_next C :
  (0 <= C)%Z -> on_grid C -> on_grid (C + 2 ^ grid C).
Proof.
  intros HC Hg. pose proof (grid_nonneg C) as Hn. pose proof (pow2_pos _ Hn) as Hp.
  unfold on_grid in *.
  apply Z.mod_divide in Hg; [|lia]. destruct Hg as [q Hq].
  set (g := grid C) in *.
  assert (Hq0 : (0 <= q)%Z) by nia.
  assert (HB : (C + 2 ^ g = (q + 1) * 2 ^ g)%Z) by lia.
  assert (Hqb : (q < 2 ^ 53)%Z).
  { destruct (Z.eq_dec C 0%Z) as [->|HC0]; [assert (q = 0)%Z by nia; subst; reflexivity|].
    destruct (Z.log2_spec C ltac:(lia)) as [_ Hhi].
    assert (Hle : (Z.log2 C + 1 <= 53 + g)%Z) by (unfold g, grid; lia).
    assert (2 ^ Z.succ (Z.log2 C) <= 2 ^ (53 + g))%Z by (apply Z.pow_le_mono_r; lia).
    rewrite Z.pow_add_r in H by lia. nia. }
  assert (Hgrid : (grid (C + 2 ^ g) <= g + 1)%Z).
  { unfold grid. apply Z.max_lub; [|lia].
    assert (Z.log2 (C + 2 ^ g) <= 53 + g)%Z; [|lia].
    rewrite <- (Z.log2_pow2 (53 + g)) by lia. apply Z.log2_le_mono.
    rewrite HB, Z.pow_add_r by lia. nia. }
  destruct (Z_le_lt_eq_dec _ _ Hgrid) as [Hlt|Heq].
  - apply (mod_pow2_le _ _ g); [split; [apply grid_nonneg|lia]|].
    rewrite HB. apply Z.mod_mul. lia.
  - rewrite Heq.
    assert (Hlog : (53 + g <= Z.log2 (C + 2 ^ g))%Z) by (unfold grid in Heq; lia).
    assert (Hpow : (2 ^ (53 + g) <= C + 2 ^ g)%Z).
    { eapply Z.le_trans; [apply Z.pow_le_mono_r; [lia|exact Hlog]|].
      apply Z.log2_spec. lia. }
    rewrite HB, Z.pow_add_r in Hpow by lia.
    assert (q + 1 = 2 ^ 53)%Z by nia.
    rewrite HB, H. rewrite <- Z.pow_add_r by lia.
    replace (53 + g)%Z with (52 + (g + 1))%Z by lia.
    rewrite Z.pow_add_r by lia. apply Z.mod_mul.
    pose proof (pow2_pos (g + 1) ltac:(lia)). lia.
Qed.

Lemma tolerance_above c :
  (0 <=? c)%float = true -> (c <? 8388608)%float = true ->
  (c <? c + EPS)%float = true.
Proof.
  intros H0 Hsmall. apply zero_leb in H0.
  apply ltb_value in Hsmall as (u & v & Hu & Hv & Hlt).
  change (value 8388608) with (Some (Fin (2 ^ 1097))) in Hv. injection Hv as <-.
  destruct H0 as [(C & HC & HC0)|H0]; [|rewrite H0 in Hu; injection Hu as <-; discriminate].
  rewrite HC in Hu. injection Hu as <-. cbn [ext_compare] in Hlt.
  rewrite Z.compare_lt_iff in Hlt.
  destruct (add_value c EPS _ _ HC value_EPS) as (R & HR & Hres).
  destruct (value_on_grid c C HC) as [Hg _]. rewrite Z.abs_eq in Hg by lia.
  pose proof (grid_nonneg C) as Hn.
  assert (Hgrid : (grid C <= 1044)%Z).
  { unfold grid. apply Z.max_lub; [|lia].
    destruct (Z.eq_dec C 0%Z) as [->|HC1]; [cbn; lia|].
    assert (Z.log2 C < 1097)%Z; [|lia]. apply Z.log2_lt_pow2; lia. }
  assert (Hstep : (2 ^ grid C <= 4835703278458517 * 2 ^ 992)%Z).
  { apply Z.le_trans with (2 ^ 1044)%Z; [apply Z.pow_le_mono_r; lia|].
    change (2 ^ 1044)%Z with (2 ^ 52 * 2 ^ 992)%Z.
    apply Z.mul_le_mono_nonneg_r;
      [pose proof (pow2_pos 992 ltac:(lia)); lia|vm_compute; discriminate]. }
  pose proof (pow2_pos _ Hn) as Hp.
  pose proof (on_grid_next C HC0 Hg) as Hnext.
  pose proof (rounds_ge _ _ (C + 2 ^ grid C) HR
                ltac:(rewrite Z.abs_eq by lia; exact Hnext) ltac:(lia)) as HRge.
  apply ltb_value.
  apply rounded_to_value in Hres as [H'|[[H' _]|[_ H']]].
  - exists (Fin C), (Fin R). split; [exact HC|]. split; [exact H'|].
    cbn [ext_compare]. apply Z.compare_lt_iff. lia.
  - exists (Fin C), PosInf. split; [exact HC|]. split; [exact H'|reflexivity].
  - pose proof (pow2_pos 2098 ltac:(lia)). lia.
Qed.

Lemma forward_bounded_pair e r :
  forward_of e r -> skew (Dinic.flow e) (Dinic.flow r) -> bounded_pair e r.
Proof.
  intros Hf Hs. split; [exact Hf|]. destruct Hf as (Hcap & Hflow & Hbound).
  split.
  - rewrite Hcap. eapply opp_nonpos; eauto.
  - intros Hc Hsmall. apply Hbound; [exact Hc|]. apply tolerance_above; assumption.
Qed.

(** A negative capacity is below the flow [0.0] from the start. *)
Lemma negative_capacity_below_flow :
  exists g h e,
    Dinic.add_edge (Dinic.init 2) 0 1 (-5) = Ret (g, h) /\
    edge_at (Dinic.adj g) 0 0 = Some e /\
    Dinic.cap e = (-5)%float /\ Dinic.flow e = 0%float /\
    (Dinic.flow e <=? Dinic.cap e)%float = false.
Proof.
  eexists _, _, _. split; [vm_compute; reflexivity|].
  split; [vm_compute; reflexivity|]. repeat split; vm_compute; reflexivity.
Qed.

Lemma INF_below_infinity : INF <> infinity.
Proof.
  intros H. pose proof (eq_refl : (INF <? infinity)%float = true) as E.
  rewrite H in E. discriminate E.
Qed.

(** The searches are offered less than [+inf] for a reason: a flow can
    reach [+inf] by two pushes of finite amounts, and a search that is then
    offered [+inf] pushes it back through the reverse edge, which leaves
    flows that are no numbers. *)
Lemma infinite_offer_loses_bounds :
  let g := Dinic.mk 2 [[Dinic.mkEdge 1 0 infinity 0]; [Dinic.mkEdge 0 0 0 0]] in
  constructed g /\
  exists a r st' e,
    during_solve g a /\
    Dinic.dfs_flow 2 0 [1%Z; 0%Z] 1 infinity (a, [0; 0]) = Ret (r, st') /\
    edge_at (fst st') 0 0 = Some e /\
    (0 <=? Dinic.flow e)%float = false /\
    (Dinic.flow e <=? Dinic.cap e)%float = false.
Proof.
  intros g. split.
  - apply (constructed_add (Dinic.init 2) 0 1 infinity g (0, 0));
      [apply constructed_init|reflexivity].
  - set (top := 0x1.fffffffffffffp+1023%float).
    set (a1 := [[Dinic.mkEdge 1 0 infinity top]; [Dinic.mkEdge 0 0 0 (- top)]]).
    set (a2 := [[Dinic.mkEdge 1 0 infinity infinity];
                [Dinic.mkEdge 0 0 0 neg_infinity]]).
    assert (H1 : during_solve g a1).
    { apply (solve_push g (Dinic.adj g) 0 0 top a1); [apply solve_start|].
      exists (Dinic.mkEdge 1 0 infinity 0).
      repeat split; try reflexivity. simpl. lia. }
    assert (H2 : during_solve g a2).
    { apply (solve_push g a1 0 0 top a2); [exact H1|].
      exists (Dinic.mkEdge 1 0 infinity top).
      repeat split; try reflexivity. simpl. lia. }
    eexists a2, _, _, _. split; [exact H2|].
    split; [vm_compute; reflexivity|].
    split; [vm_compute; reflexivity|]. split; vm_compute; reflexivity.
Qed.

(** C9 (as amended): on a graph built by [Dinic(n)] and [add_edge], every
    flow starts at [0.0], so [0 <= flow <= capacity] holds at the start for
    every edge whose capacity is not negative.  At every point of a solve,
    that is after any number of pushes of [dfs_flow], every residual edge
    has the target, the reverse handle and the capacity it was constructed
    with; an edge from a vertex to itself still has flow [0.0]; and of two
    paired edges one, the reverse edge, has capacity [0.0] and a flow that
    is the negation of the other's and at most its capacity, while the
    other, the forward edge, has a flow that is not negative and, when its
    capacity is not negative, at most every double above its capacity,
    hence at most [capacity + 1e-9] for a capacity below [2 ^ 23].  Every
    push at such a point adds its amount to the flow of one edge, subtracts
    it from the flow of the edge at its reverse handle and changes nothing
    else, and a push of [dfs_flow] leads to such a point again.  The pushes
    of every search [dfs_flow] that is offered less than [+inf] are pushes
    of [dfs_flow] in that sense, and so are those of [max_flow] with a flow
    cap other than [+inf]; with every flow cap [max_flow] leaves the
    vertices and the targets, reverse handles and capacities as they
    were. *)
Theorem flows_stay_in_bounds_during_solve :
  forall g,
    constructed g ->
    (forall u adj_u e,
       Dinic.adj g !! u = Some adj_u -> e ∈ adj_u ->
       Dinic.flow e = 0%float /\
       ((0 <=? Dinic.cap e)%float = true ->
        (0 <=? Dinic.flow e)%float = true /\
        (Dinic.flow e <=? Dinic.cap e)%float = true)) /\
    (forall a,
       during_solve g a ->
       same_frame (Dinic.adj g) a /\
       forall u i e,
         edge_at a u i = Some e ->
         (Dinic.to e = u -> Dinic.flow e = 0%float) /\
         (Dinic.to e <> u ->
          exists r,
            edge_at a (Dinic.to e) (Dinic.rev e) = Some r /\
            Dinic.to r = u /\ Dinic.rev r = i /\
            same_number (Dinic.flow r) (- Dinic.flow e) /\
            (bounded_pair e r \/ bounded_pair r e))) /\
    (forall a u i p a',
       during_solve g a -> Dinic.push a u i p = Ret a' ->
       same_frame (Dinic.adj g) a' /\
       (forall e r,
          edge_at a u i = Some e ->
          edge_at a (Dinic.to e) (Dinic.rev e) = Some r ->
          ~ (Dinic.to e = u /\ Dinic.rev e = i) ->
          edge_at a' u i = Some (Dinic.set_flow e (Dinic.flow e + p)%float) /\
          edge_at a' (Dinic.to e) (Dinic.rev e) =
            Some (Dinic.set_flow r (Dinic.flow r - p)%float) /\
          (forall w j, ~ (w = u /\ j = i) ->
                       ~ (w = Dinic.to e /\ j = Dinic.rev e) ->
                       edge_at a' w j = edge_at a w j)) /\
       (guarded_push a u i p a' -> during_solve g a')) /\
    (forall a it depth t level u pushed r st',
       during_solve g a -> pushed <> infinity ->
       Dinic.dfs_flow depth t level u pushed (a, it) = Ret (r, st') ->
       during_solve g (fst st')) /\
    (forall fuel s t limit f g',
       Dinic.max_flow fuel g s t limit = Ret (f, g') ->
       Dinic.n g' = Dinic.n g /\
       same_frame (Dinic.adj g) (Dinic.adj g') /\
       (limit <> infinity -> during_solve g (Dinic.adj g'))).
Proof.
  intros g Hg. split; [|split; [|split; [|split]]].
  - intros u adj_u e Hu He.
    rewrite (constructed_flows_zero g Hg u adj_u e Hu He).
    split; [reflexivity|]. intros Hcap. split; [reflexivity|exact Hcap].
  - intros a Hd.
    destruct (during_solve_invariant g a Hg Hd) as (Hf & Hp & Hs & Hb & Hl).
    split; [exact Hf|]. intros u i e He. split; [apply (Hl u i e He)|].
    intros Hne. destruct (Hp u i e He) as (r & Hr & Hru & Hri).
    exists r. split; [exact Hr|]. split; [exact Hru|]. split; [exact (Hri Hne)|].
    pose proof (Hs u i e r He Hne Hr) as Hskew. split; [exact Hskew|].
    destruct (Hb u i e r He Hne Hr) as [H|H].
    + left. apply forward_bounded_pair; assumption.
    + right. apply forward_bounded_pair; [exact H|apply skew_sym, Hskew].
  - intros a u i p a' Hd Hpush.
    destruct (during_solve_invariant g a Hg Hd) as (Hf & _).
    split; [eapply same_frame_trans; [exact Hf|eapply push_frame, Hpush]|].
    split; [intros e r; apply push_effect, Hpush|].
    intros Hguard. eapply solve_push; eauto.
  - intros a it depth t level u pushed r st' Hd Hfin Hrun.
    apply (dfs_flow_during g) in Hrun as [H _]; assumption.
  - intros fuel s t limit f g' Hrun.
    destruct (max_flow_loop_frame _ _ _ _ _ _ _ _ Hrun) as [Hn Hf].
    split; [exact Hn|]. split; [exact Hf|]. intros Hlim.
    eapply (max_flow_loop_during g); [apply solve_start|exact Hlim| |exact Hrun].
    left. reflexivity.
Qed.

Lemma flows_stay_in_bounds_during_solve_witness :
  constructed one_edge_graph /\
  Dinic.max_flow 8 one_edge_graph 0 1 INF = Ret (1%float, one_edge_solved) /\
  INF <> infinity /\
  Dinic.n one_edge_solved = Dinic.n one_edge_graph /\
  during_solve one_edge_graph (Dinic.adj one_edge_solved).
Proof.
  split; [exact one_edge_graph_constructed|].
  split; [exact one_edge_solved_run|].
  split; [exact INF_below_infinity|].
  destruct (flows_stay_in_bounds_during_solve one_edge_graph
              one_edge_graph_constructed) as (_ & _ & _ & _ & Hrun).
  destruct (Hrun 8 0 1 INF 1%float one_edge_solved one_edge_solved_run)
    as (Hn & _ & Hd).
  exact (conj Hn (Hd INF_below_infinity)).
Defined.

(** ** Edges whose bounds are within the tolerance *)

(** The double [EPS] is at least the real number [1e-9]. *)
Lemma EPS_at_least_1e9 : (2 ^ 1074 <= 10 ^ 9 * (4835703278458517 * 2 ^ 992))%Z.
Proof.
  change (2 ^ 1074)%Z with (2 ^ 82 * 2 ^ 992)%Z.
  rewrite Z.mul_assoc. apply Z.mul_le_mono_nonneg_r.
  - pose proof (pow2_pos 992 ltac:(lia)). lia.
  - vm_compute. discriminate.
Qed.

Lemma add_NegInf_l x y b :
  value x = Some NegInf -> value y = Some (Fin b) -> value (x + y) = Some NegInf.
Proof.
  unfold value. rewrite add_spec.
  destruct (Prim2SF x) as [s|[]| |s m e]; simpl; try discriminate. intros _.
  destruct (Prim2SF y) as [s'|[]| |s' m' e']; simpl; try discriminate; reflexivity.
Qed.

(** The test of the builder, [hi + EPS < lo], fails as soon as
    [lo <= hi + EPS] holds of the exact numbers. *)
Lemma test_passes lo hi l h :
  value lo = Some (Fin l) -> value hi = Some (Fin h) ->
  (l <= h + 4835703278458517 * 2 ^ 992)%Z ->
  (hi + EPS <? lo)%float = false.
Proof.
  intros Hlo Hhi Hle. apply not_true_is_false. intros Hlt.
  apply ltb_value in Hlt as (u & v & Hu & Hv & Hlt).
  rewrite Hlo in Hv. injection Hv as <-.
  destruct (add_value hi EPS _ _ Hhi value_EPS) as (R & HR & Hres).
  destruct (value_on_grid lo l Hlo) as [Hg Hb].
  pose proof (rounds_ge _ _ l HR Hg Hle) as HRl.
  apply rounded_to_value in Hres as [H'|[[H' _]|[H' Hsmall]]]; rewrite H' in Hu;
    injection Hu as <-; cbn [ext_compare] in Hlt; try discriminate.
  - rewrite Z.compare_lt_iff in Hlt. lia.
  - lia.
Qed.

Lemma tolerance_passes lo hi :
  within_tolerance lo hi -> (hi + EPS <? lo)%float = false.
Proof.
  intros (l & h & Hlo & Hhi & Hlt & Htol).
  apply (test_passes lo hi l h Hlo Hhi).
  pose proof EPS_at_least_1e9. lia.
Qed.

Lemma ordered_passes lo hi :
  (lo <=? hi)%float = true -> (hi + EPS <? lo)%float = false.
Proof.
  intros Hle. apply leb_value in Hle as (u & v & Hu & Hv & Hle).
  apply not_true_is_false. intros Hlt.
  destruct v as [|h|].
  - destruct u; cbn [ext_compare] in Hle; try congruence.
    apply ltb_value in Hlt as (u' & v' & Hu' & Hv' & Hlt).
    rewrite (add_NegInf_l hi EPS _ Hv value_EPS) in Hu'. injection Hu' as <-.
    rewrite Hu in Hv'. injection Hv' as <-. discriminate.
  - destruct u as [|l|]; cbn [ext_compare] in Hle; try congruence.
    + apply ltb_value in Hlt as (u' & v' & Hu' & Hv' & Hlt).
      rewrite Hu in Hv'. injection Hv' as <-. destruct u'; discriminate.
    + rewrite Z.compare_le_iff in Hle.
      rewrite (test_passes lo hi l h Hu Hv) in Hlt; [discriminate|].
      pose proof units_EPS_pos. lia.
  - apply ltb_value in Hlt as (u' & v' & Hu' & Hv' & Hlt).
    rewrite (add_PosInf_l hi EPS _ Hv value_EPS ltac:(discriminate)) in Hu'.
    injection Hu' as <-. destruct v'; discriminate.
Qed.

(** Below [lo], [max(0.0, hi - lo)] is [0.0]. *)
Lemma tolerance_clamped lo hi :
  within_tolerance lo hi -> fmax 0 (hi - lo) = 0%float.
Proof.
  intros (l & h & Hlo & Hhi & Hlt & _). unfold fmax.
  destruct (0 <? hi - lo)%float eqn:Hpos; [exfalso|reflexivity].
  apply zero_ltb in Hpos.
  destruct (sub_value hi lo h l Hhi Hlo) as (R & HR & Hres).
  apply rounds_sign in HR as (_ & Hneg & _). specialize (Hneg ltac:(lia)).
  pose proof (pow2_pos 2098 ltac:(lia)).
  apply rounded_to_value in Hres as [H'|[[H' Hbig]|[H' _]]]; rewrite H' in Hpos;
    destruct Hpos as [(a & Ha & Ha0)|Hinf]; try discriminate; try lia.
  injection Ha as <-. lia.
Qed.

(** What the builder makes of an edge of the request. *)
Lemma build_edge data snk net e :
  build data snk = Ret (inr net) -> e ∈ edges data ->
  exists k k',
    net_nodes net !! k = Some (EdgeSpec.from e) /\
    net_nodes net !! k' = Some (EdgeSpec.to e) /\
    orig_to_indices net !! EdgeSpec.from e = Some (2 * k, 2 * k + 1) /\
    orig_to_indices net !! EdgeSpec.to e = Some (2 * k', 2 * k' + 1) /\
    has_edge (G net) (2 * k + 1) (2 * k')
             (fmax 0 (EdgeSpec.get_hi e - EdgeSpec.get_lo e)).
Proof.
  intros Hbuild He.
  pose proof (build_spec _ _ _ Hbuild) as (Hrecs & Hedges & _).
  pose proof (build_network_ok _ _ _ Hbuild) as [(_ & _ & _ & _ & _ & Hidx) _].
  pose proof (build_positions _ _ _ Hbuild) as (_ & _ & Hpos).
  apply (elem_of_sorted edge_sort_key_lt) in He.
  apply list_elem_of_lookup in He as [j Hj].
  destruct (Forall2_lookup_l _ _ _ _ _ Hrecs Hj) as (r & Hr & Hfrom & Hto & Hlo & Hhi).
  apply list_elem_of_lookup_2 in Hr.
  pose proof (proj1 (Forall_forall _ _) Hedges r Hr) as Hedge.
  pose proof (proj1 (Forall_forall _ _) Hidx r Hr) as [[i Hi] [o Ho]].
  cbv beta in Hedge.
  rewrite Hfrom in Hi. rewrite Hto in Ho. rewrite Hlo, Hhi in Hedge.
  destruct (Hpos _ _ _ Hi) as (k & Hk & -> & Hout).
  destruct (Hpos _ _ _ Ho) as (k' & Hk' & Hin & ->).
  rewrite Hout in Hi, Hedge. rewrite Hin in Ho, Hedge.
  exists k, k'. auto.
Qed.

(** C10 (as amended): an edge whose [hi] is below its [lo] but within the
    tolerance, [lo - 1e-9 <= hi < lo] as real numbers, passes the builder's
    test [hi + 1e-9 < lo], so an error that the builder reports is for
    another edge; when every edge of the request has [lo <= hi] or is
    within the tolerance, the builder reports no error.  In the graph that
    the builder accepts, every edge of the request has a residual edge from
    the out-vertex of its [from] node to the in-vertex of its [to] node,
    of capacity [max(0, hi - lo)], which is not negative and is [0.0] for
    an edge within the tolerance; and when no declared node cap is
    negative, no residual edge of the graph has a negative capacity. *)
Theorem tolerated_edges_accepted_and_clamped :
  forall data snk,
    (forall e,
       e ∈ edges data ->
       within_tolerance (EdgeSpec.get_lo e) (EdgeSpec.get_hi e) ->
       hi_lt_lo e = false /\
       forall msg, build data snk = Ret (inl msg) ->
         exists e', e' ∈ edges data /\ hi_lt_lo e' = true /\
           ~ within_tolerance (EdgeSpec.get_lo e') (EdgeSpec.get_hi e') /\
           msg = hi_lt_lo_message (EdgeSpec.from e') (EdgeSpec.to e')) /\
    ((forall e, e ∈ edges data ->
        (EdgeSpec.get_lo e <=? EdgeSpec.get_hi e)%float = true \/
        within_tolerance (EdgeSpec.get_lo e) (EdgeSpec.get_hi e)) ->
     exists net, build data snk = Ret (inr net)) /\
    (forall net,
       build data snk = Ret (inr net) ->
       (forall e, e ∈ edges data ->
          exists k k',
            net_nodes net !! k = Some (EdgeSpec.from e) /\
            net_nodes net !! k' = Some (EdgeSpec.to e) /\
            orig_to_indices net !! EdgeSpec.from e = Some (2 * k, 2 * k + 1) /\
            orig_to_indices net !! EdgeSpec.to e = Some (2 * k', 2 * k' + 1) /\
            has_edge (G net) (2 * k + 1) (2 * k')
                     (fmax 0 (EdgeSpec.get_hi e - EdgeSpec.get_lo e)) /\
            not_negative (fmax 0 (EdgeSpec.get_hi e - EdgeSpec.get_lo e)) /\
            (within_tolerance (EdgeSpec.get_lo e) (EdgeSpec.get_hi e) ->
             fmax 0 (EdgeSpec.get_hi e - EdgeSpec.get_lo e) = 0%float)) /\
       ((forall v c, node_caps data !! v = Some c -> not_negative c) ->
        caps_not_negative (G net))).
Proof.
  intros data snk. split; [|split].
  - intros e He Htol.
    pose proof (tolerance_passes _ _ Htol) as Hpass.
    split; [exact Hpass|]. intros msg Hbuild.
    apply build_inl in Hbuild as (e' & He' & Hbad & ->).
    exists e'. split; [exact He'|]. split; [exact Hbad|]. split; [|reflexivity].
    intros Htol'. apply tolerance_passes in Htol'. unfold hi_lt_lo in Hbad. congruence.
  - intros Hall. apply build_accepts. apply Forall_forall. intros e He.
    destruct (Hall e He) as [Hle|Htol];
      [apply ordered_passes, Hle|apply tolerance_passes, Htol].
  - intros net Hbuild. split.
    + intros e He.
      destruct (build_edge _ _ _ _ Hbuild He) as (k & k' & Hk & Hk' & Hi & Ho & Hedge).
      exists k, k'. repeat (split; [assumption|]).
      split; [apply fmax_zero_not_negative|apply tolerance_clamped].
    + apply (build_spec _ _ _ Hbuild).
Qed.

Lemma tolerated_edges_accepted_and_clamped_witness :
  within_tolerance 1 0x1.fffffffffffffp-1 /\
  exists net,
    build tolerated_request "t" = Ret (inr net) /\
    net_nodes net = ["a"; "b"; "t"] /\
    has_edge (G net) 1 2 0.
Proof.
  assert (Htol : within_tolerance 1 0x1.fffffffffffffp-1).
  { exists (2 ^ 1074)%Z, (9007199254740991 * 2 ^ 1021)%Z.
    split; [reflexivity|]. split; [reflexivity|].
    split; vm_compute; [reflexivity|discriminate]. }
  split; [exact Htol|].
  destruct (tolerated_edges_accepted_and_clamped tolerated_request "t")
    as (_ & Hacc & Hbuilt).
  destruct Hacc as [net Hbuild].
  { intros e He. apply list_elem_of_singleton in He as ->. right. exact Htol. }
  exists net. split; [exact Hbuild|].
  destruct (Hbuilt net Hbuild) as [Hedges _].
  destruct (Hedges (belt "a" "b" 1 0x1.fffffffffffffp-1))
    as (k & k' & Hk & Hk' & _ & _ & Hedge & _ & Hzero);
    [apply list_elem_of_here|].
  rewrite (Hzero Htol) in Hedge.
  pose proof (build_network_ok _ _ _ Hbuild) as [_ Hnodes].
  assert (Hsorted : net_nodes net = ["a"; "b"; "t"])
    by (rewrite Hnodes; vm_compute; reflexivity).
  split; [exact Hsorted|].
  rewrite Hsorted in Hk, Hk'.
  assert (k = 0) as ->.
  { destruct k as [|[|[|k]]]; simpl in Hk; try discriminate; reflexivity. }
  assert (k' = 1) as ->.
  { destruct k' as [|[|[|k']]]; simpl in Hk'; try discriminate; reflexivity. }
  exact Hedge.
Defined.
